(** * EPANET-MSX water-quality engine: a shallow embedding of the core routines

    The development follows the C sources of the multi-species extension
    (msxinp.c, mathexpr.c, msxutils.c, newton.c, rk5.c, msxqual.c,
    msxtoolkit.c, msxproj.c, msxtank.c).  C [int] values are integers
    ([Z], or [nat] for indices that never go negative); a C [double] is idealised as an exact rational ([Q]), so
    the theorems are about the control flow and the algebra of the
    routines, not about rounding; 1-based C arrays are total maps from
    the index to the cell, slot 0 being the unused one. *)

From Stdlib Require Import ZArith QArith Qabs Qminmax Qpower Lia Lqa Bool String Ascii.
From stdpp Require Import gmap list.

(** ** Arrays and counted loops *)

(** A C array of doubles, addressed by a non-negative index. *)
Definition vec := nat -> Q.

(** [a[i] = x] *)
Definition upd {A : Type} (a : nat -> A) (i : nat) (x : A) : nat -> A :=
  fun j => if Nat.eqb j i then x else a j.

(** A matrix of doubles, [a[i][j]]. *)
Definition matrix := nat -> nat -> Q.

(** [a[i][j] = x] *)
Definition set_cell (a : matrix) (i j : nat) (x : Q) : matrix :=
  upd a i (upd (a i) j x).

(** Comparisons of doubles, as the C operators [<], [>], [>=]. *)
Definition Qlt_bool (x y : Q) : bool := negb (Qle_bool y x).
Definition Qgt_bool (x y : Q) : bool := negb (Qle_bool x y).
Definition Qge_bool (x y : Q) : bool := Qle_bool y x.

(** [for (i = lo; i < lo + count; i++) s = body(i, s);] *)
Fixpoint for_loop {S : Type} (lo count : nat) (body : nat -> S -> S) (s : S) : S :=
  match count with
  | O => s
  | Datatypes.S c => for_loop (Datatypes.S lo) c body (body lo s)
  end.

(** [for (i = hi; i >= hi - count + 1; i--) s = body(i, s);] *)
Fixpoint for_down {S : Type} (hi count : nat) (body : nat -> S -> S) (s : S) : S :=
  match count with
  | O => s
  | Datatypes.S c => for_down (hi - 1) c body (body hi s)
  end.

(** [for (i = lo; i <= hi; i++) s = body(i, s);] *)
Definition for_to {S : Type} (lo hi : nat) (body : nat -> S -> S) (s : S) : S :=
  for_loop lo (Datatypes.S hi - lo) body s.

(** ** Project data (msxtypes.h) *)

Inductive SpeciesType := BULK | WALL.

#[global] Instance SpeciesType_eq_dec : EqDecision SpeciesType.
Proof. solve_decision. Defined.

Inductive FlowDirection :=
| NEGATIVE     (* flow in reverse of pre-assigned direction *)
| ZERO_FLOW    (* zero flow *)
| POSITIVE.    (* flow in pre-assigned direction *)

Record Sspecies := {
  aTol : Q;               (* absolute tolerance *)
  sp_type : SpeciesType   (* BULK or WALL *)
}.

Record Snode := {
  node_c : vec;           (* current species concentrations *)
  node_c0 : vec;          (* initial species concentrations *)
  node_tank : Z           (* tank index *)
}.

Record Stank := {
  tank_node : nat;        (* node index of tank *)
  tank_a : Q;             (* tank area *)
  tank_c : vec;           (* current species concentrations *)
  tank_reacted : vec
}.

Record SmassBalance := {
  mb_initial : vec;       (* initial mass in system *)
  mb_inflow : vec;        (* mass inflow to system *)
  mb_indisperse : vec;    (* mass dispersed into the system *)
  mb_outflow : vec;       (* mass outflow from system *)
  mb_reacted : vec;       (* mass reacted in system *)
  mb_final : vec;         (* final mass in system *)
  mb_ratio : vec          (* ratio of mass added to mass lost *)
}.

(** ** Node quality query (msxqual.c, MSXqual_getNodeQual) *)

Module NodeQual.

Record project := {
  Species : nat -> Sspecies;
  Node : nat -> Snode;
  Tank : nat -> Stank
}.

Definition MSXqual_getNodeQual (MSX : project) (j m : nat) : Q :=
  (* --- return 0 for WALL species *)
  if decide (sp_type (Species MSX m) = WALL) then 0%Q
  else
    (* --- if node is a tank, return its internal concentration *)
    let k := node_tank (Node MSX j) in
    if (0 <? k)%Z && Qgt_bool (tank_a (Tank MSX (Z.to_nat k))) 0
    then tank_c (Tank MSX (Z.to_nat k)) m
    (* --- otherwise return node's concentration *)
    else node_c (Node MSX j) m.

End NodeQual.

(** ** Final mass balance (msxqual.c, end of MSXqual_step) *)

Module MassBal.

Record project := {
  Nspecies : nat;                (* MSX.Nobjects[SPECIES] *)
  Nlinks : nat;                  (* MSX.Nobjects[LINK] *)
  Ntanks : nat;                  (* MSX.Nobjects[TANK] *)
  LinkReacted : nat -> vec;      (* MSX.Link[k].reacted *)
  TankReacted : nat -> vec;      (* MSX.Tank[k].reacted *)
  MassBalance : SmassBalance;
  Saveflag : bool;
  Qtime : Z;                     (* current quality time (millisec) *)
  Dur : Z                        (* duration of simulation (millisec) *)
}.

Definition set_final (mb : SmassBalance) (f : vec) : SmassBalance :=
  {| mb_initial := mb_initial mb; mb_inflow := mb_inflow mb;
     mb_indisperse := mb_indisperse mb; mb_outflow := mb_outflow mb;
     mb_reacted := mb_reacted mb; mb_final := f; mb_ratio := mb_ratio mb |}.

Definition set_reacted_ratio (mb : SmassBalance) (m : nat) (r x : Q) : SmassBalance :=
  {| mb_initial := mb_initial mb; mb_inflow := mb_inflow mb;
     mb_indisperse := mb_indisperse mb; mb_outflow := mb_outflow mb;
     mb_reacted := upd (mb_reacted mb) m r; mb_final := mb_final mb;
     mb_ratio := upd (mb_ratio mb) m x |}.

(** The reacted mass of species [m] summed over all links, then tanks. *)
Definition sum_reacted (MSX : project) (m : nat) : Q :=
  let sreacted := for_to 1 (Nlinks MSX) (fun k s => s + LinkReacted MSX k m)%Q 0%Q in
  for_to 1 (Ntanks MSX) (fun k s => s + TankReacted MSX k m)%Q sreacted.

(** The body of the loop over species [m]. *)
Definition balance_species (MSX : project) (m : nat) (mb : SmassBalance) : SmassBalance :=
  let sreacted := sum_reacted MSX m in
  let smassin := (mb_initial mb m + mb_inflow mb m + mb_indisperse mb m)%Q in
  let smassout := (mb_outflow mb m + mb_final mb m)%Q in
  let '(smassout, smassin) :=
    if Qlt_bool sreacted 0                      (* loss *)
    then ((smassout - sreacted)%Q, smassin)
    else (smassout, (smassin + sreacted)%Q) in
  set_reacted_ratio mb m sreacted
    (if Qeq_bool smassin 0 then 1%Q else (smassout / smassin)%Q).

Section Finalize.

(** [findstoredmass] walks the segment chains of all pipes and tanks; the
    balance only needs the vector it stores in [MassBalance.final]. *)
Variable findstoredmass : project -> vec.

(** The tail of [MSXqual_step]: [*tleft = (Dur - Qtime) / 1000.], and if
    there is no time remaining and results are saved, the final records. *)
Definition step_finalize (MSX : project) : Q * SmassBalance :=
  let tleft := (inject_Z (Dur MSX - Qtime MSX) / 1000)%Q in
  if Qle_bool tleft 0 && Saveflag MSX then
    let mb := set_final (MassBalance MSX) (findstoredmass MSX) in
    (tleft, for_to 1 (Nspecies MSX) (balance_species MSX) mb)
  else (tleft, MassBalance MSX).

End Finalize.

(** What the specification prints as the ratio: (outflow + final stored +
    net reacted loss) / (initial stored + inflow + in-dispersed + net
    reacted gain). *)
Definition reacted_loss (sreacted : Q) : Q := if Qlt_bool sreacted 0 then (- sreacted)%Q else 0%Q.
Definition reacted_gain (sreacted : Q) : Q := if Qlt_bool sreacted 0 then 0%Q else sreacted.
Definition spec_numerator (MSX : project) (final : vec) (m : nat) : Q :=
  (mb_outflow (MassBalance MSX) m + final m + reacted_loss (sum_reacted MSX m))%Q.
Definition spec_denominator (MSX : project) (m : nat) : Q :=
  (mb_initial (MassBalance MSX) m + mb_inflow (MassBalance MSX) m
   + mb_indisperse (MassBalance MSX) m + reacted_gain (sum_reacted MSX m))%Q.

(** A project in which nothing of the species was ever present. *)
Definition zero_balance : SmassBalance :=
  {| mb_initial := fun _ => 0%Q; mb_inflow := fun _ => 0%Q; mb_indisperse := fun _ => 0%Q;
     mb_outflow := fun _ => 0%Q; mb_reacted := fun _ => 0%Q; mb_final := fun _ => 0%Q;
     mb_ratio := fun _ => 0%Q |}.
Definition empty_project : project :=
  {| Nspecies := 1; Nlinks := 1; Ntanks := 0;
     LinkReacted := fun _ _ => 0%Q; TankReacted := fun _ _ => 0%Q;
     MassBalance := zero_balance; Saveflag := true; Qtime := 3600000%Z; Dur := 3600000%Z |}.

(** A decaying species: 10 units initially, 4 flowed out, 3 remain, 3 reacted away. *)
Definition decay_project : project :=
  {| Nspecies := 2; Nlinks := 2; Ntanks := 1;
     LinkReacted := fun k m => if Nat.eqb m 1 then (if Nat.eqb k 1 then (-2)%Q else (-1#2)%Q) else 1%Q;
     TankReacted := fun _ m => if Nat.eqb m 1 then (-1#2)%Q else 0%Q;
     MassBalance :=
       {| mb_initial := fun _ => 10%Q; mb_inflow := fun _ => 0%Q; mb_indisperse := fun _ => 0%Q;
          mb_outflow := fun _ => 4%Q; mb_reacted := fun _ => 0%Q; mb_final := fun _ => 0%Q;
          mb_ratio := fun _ => 0%Q |};
     Saveflag := true; Qtime := 3600000%Z; Dur := 3600000%Z |}.

End MassBal.

(** ** Segment chains (msxqual.c, MSXqual_reversesegs) *)

Module Segs.

(** A segment pointer; [None] is NULL, [Some p] the address of a
    segment of the pool. *)
Definition Pseg := option nat.

Record Sseg := {
  seg_hstep : Q;        (* integration time step *)
  seg_v : Q;            (* segment volume *)
  seg_c : vec;          (* species concentrations *)
  seg_prev : Pseg;      (* ptr. to previous segment *)
  seg_next : Pseg       (* ptr. to next segment *)
}.

Definition set_links (s : Sseg) (prev next : Pseg) : Sseg :=
  {| seg_hstep := seg_hstep s; seg_v := seg_v s; seg_c := seg_c s;
     seg_prev := prev; seg_next := next |}.

(** The pool of segments and the two arrays of chain ends. *)
Record store := {
  heap : gmap nat Sseg;
  FirstSeg : nat -> Pseg;   (* first WQ segment in each pipe/tank *)
  LastSeg : nat -> Pseg     (* last WQ segment in each pipe/tank *)
}.

(** The [while (seg != NULL)] loop of [MSXqual_reversesegs].  [None]: the
    loop did not end within [fuel] passes, or it dereferenced a pointer
    that is not a segment of the pool. *)
Fixpoint reverse_loop (fuel : nat) (h : gmap nat Sseg) (seg pseg : Pseg)
  : option (gmap nat Sseg) :=
  match seg with
  | None => Some h
  | Some p =>
    match fuel with
    | O => None
    | S fuel' =>
      s ← h !! p;
      let cseg := seg_prev s in
      (* seg->prev = pseg; seg->next = cseg; pseg = seg; seg = cseg; *)
      reverse_loop fuel' (<[p := set_links s pseg cseg]> h) cseg (Some p)
    end
  end.

Definition MSXqual_reversesegs (fuel : nat) (k : nat) (st : store) : option store :=
  let seg := FirstSeg st k in
  let first := upd (FirstSeg st) k (LastSeg st k) in
  let last := upd (LastSeg st) k seg in
  h ← reverse_loop fuel (heap st) seg None;
  Some {| heap := h; FirstSeg := first; LastSeg := last |}.

(** [MSXqual_addSeg(k, seg)], on the pointers: the segment at [p] becomes
    the last one of link [k].  [None] if [p], or the last segment, is not
    a segment of the pool. *)
Definition MSXqual_addSeg (k : nat) (p : nat) (st : store) : option store :=
  s ← heap st !! p;
  (* seg->prev = NULL; seg->next = NULL; *)
  let h := <[p := set_links s None None]> (heap st) in
  let first := match FirstSeg st k with
               | None => upd (FirstSeg st) k (Some p)
               | Some _ => FirstSeg st
               end in
  h ← match LastSeg st k with
      | Some q =>
        (* LastSeg[k]->prev = seg; seg->next = LastSeg[k]; *)
        t ← h !! q;
        let h := <[q := set_links t (Some p) (seg_next t)]> h in
        s' ← h !! p;
        Some (<[p := set_links s' (seg_prev s') (Some q)]> h)
      | None => Some h
      end;
  Some {| heap := h; FirstSeg := first; LastSeg := upd (LastSeg st) k (Some p) |}.

(** The leading segment of link [k] is taken off its chain, as in
    [evalnodeinflow]: [FirstSeg[k] = seg->prev], and the new first
    segment, if there is one, loses its [next]. *)
Definition drop_first (k : nat) (st : store) : option store :=
  p ← FirstSeg st k;
  s ← heap st !! p;
  match seg_prev s with
  | None =>
    Some {| heap := heap st; FirstSeg := upd (FirstSeg st) k None;
            LastSeg := upd (LastSeg st) k None |}
  | Some q =>
    t ← heap st !! q;
    Some {| heap := <[q := set_links t (seg_prev t) None]> (heap st);
            FirstSeg := upd (FirstSeg st) k (Some q); LastSeg := LastSeg st |}
  end.

(** The chain of link [k] is the list [l] of segment addresses, read from
    [FirstSeg[k]] along [prev] down to [LastSeg[k]]: the addresses are
    distinct, the two ends are the first and the last of them, and each
    segment's [prev] is its successor in [l] and its [next] its
    predecessor (NULL at the ends). *)
Definition linked (h : gmap nat Sseg) (l : list nat) : Prop :=
  forall (i p : nat), l !! i = Some p ->
    exists s, h !! p = Some s /\
              seg_prev s = l !! (S i) /\
              seg_next s = match i with O => None | S j => l !! j end.

Definition is_seglist (st : store) (k : nat) (l : list nat) : Prop :=
  NoDup l /\ FirstSeg st k = head l /\ LastSeg st k = last l /\ linked (heap st) l.

(** Three segments at addresses 5, 2, 9 chained for link 1. *)
Definition seg_at (v : Q) (prev next : Pseg) : Sseg :=
  {| seg_hstep := 0; seg_v := v; seg_c := fun _ => v; seg_prev := prev; seg_next := next |}.

Definition three_segs : store :=
  {| heap := <[5%nat := seg_at 1 (Some 2%nat) None]>
             (<[2%nat := seg_at 2 (Some 9%nat) (Some 5%nat)]>
             (<[9%nat := seg_at 3 None (Some 2%nat)]> ∅));
     FirstSeg := fun k => if Nat.eqb k 1 then Some 5%nat else None;
     LastSeg := fun k => if Nat.eqb k 1 then Some 9%nat else None |}.

End Segs.

(** ** Segments of a pipe over a simulation (msxqual.c, msxinp.c) *)

Module Pipe.

Definition MAXSEGMENTS : Z := 5000.             (* dispersion.h *)
Definition ERR_NUMBER : Z := 404.
Definition LperFT3 : Q := 28317 # 1000.
Definition GPMperCFS : Q := 448831 # 1000.
Definition Q_STAGNANT : Q := (5 # 1000) / GPMperCFS.

(** The macros of msxtypes.h. *)
Definition MIN (x y : Q) : Q := if Qle_bool x y then x else y.

(** [parseOption], case MAXSEGMENT_OPTION, with [k = atoi(Tok[1])]: the
    error code and [MSX.MaxSegments]. *)
Definition parse_segments_option (k : Z) (MaxSegments : Z) : Z * Z :=
  if (k <=? 0)%Z then (ERR_NUMBER, MaxSegments)
  else (0%Z, if (k >=? 50)%Z then k else 50%Z).    (* MAX(k, 50) *)

(** [MSX.MaxSegments] after [setDefaults] and the SEGMENTS options of the
    input file, in order; [None] if one of them is in error, in which case
    the input is refused and there is no simulation. *)
Fixpoint read_options (opts : list Z) (MaxSegments : Z) : option Z :=
  match opts with
  | [] => Some MaxSegments
  | k :: opts' =>
    let '(err, m) := parse_segments_option k MaxSegments in
    if (err =? 0)%Z then read_options opts' m else None
  end.

Definition configured (opts : list Z) : option Z := read_options opts MAXSEGMENTS.

(** A segment: volume and species concentrations.  The chain of a pipe,
    read from [FirstSeg[k]] (downstream end) along [prev] to [LastSeg[k]]
    (upstream end), is the list of its segments in that order. *)
Record segment := {
  seg_v : Q;
  seg_c : vec
}.

(** What the routines keep for link [k]. *)
Record link := {
  segs : list segment;        (* the chain FirstSeg[k] .. LastSeg[k] *)
  nsegs : Z;                  (* MSX.Link[k].nsegs *)
  NewSeg : option segment;    (* MSX.NewSeg[k], None for NULL *)
  flow : Q;                   (* MSX.Q[k] *)
  dir : FlowDirection;        (* MSX.FlowDir[k] *)
  len : Q;                    (* MSX.Link[k].len *)
  diam : Q                    (* MSX.Link[k].diam *)
}.

Definition LINKVOL (lk : link) : Q := ((785398 # 1000000) * len lk * (diam lk * diam lk))%Q.

(** The number of segments, and by how much [nsegs] exceeds it. *)
Definition count (lk : link) : Z := Z.of_nat (length (segs lk)).
Definition excess (lk : link) : Z := (nsegs lk - count lk)%Z.

Definition with_segs (lk : link) (l : list segment) (n : Z) (new : option segment) : link :=
  {| segs := l; nsegs := n; NewSeg := new;
     flow := flow lk; dir := dir lk; len := len lk; diam := diam lk |}.

(** Any assignment to the concentrations of the segments of the chain,
    segment by segment: the reactions of [MSXchem_react], the wall
    species shifted by [shiftSegWallQual], the dispersion update. *)
Definition rewrite_c (f : nat -> vec -> vec) (lk : link) : link :=
  with_segs lk (imap (fun i s => {| seg_v := seg_v s; seg_c := f i (seg_c s) |}) (segs lk))
    (nsegs lk) (NewSeg lk).

Section Routing.

Variable Nspecies : nat.
Variable Species : nat -> Sspecies.
Variable MaxSegments : Z.
Variable HasWallSpecies : bool.

(** 1 if the concentrations are all within tolerance of each other. *)
Definition MSXqual_isSame (c1 c2 : vec) : bool :=
  forallb (fun m => Qlt_bool (Qabs (c1 m - c2 m)) (aTol (Species m))) (seq 1 Nspecies).

(** [MSXqual_getFreeSeg(v, c)], the pool not being exhausted. *)
Definition MSXqual_getFreeSeg (v : Q) (c : vec) : segment :=
  {| seg_v := v; seg_c := c |}.

(** [MSXqual_addSeg(k, seg)]: the segment becomes the new [LastSeg[k]]. *)
Definition MSXqual_addSeg (seg : segment) (lk : link) : link :=
  with_segs lk (segs lk ++ [seg]) (nsegs lk + 1)%Z (NewSeg lk).

Definition flow_direction (q : Q) : FlowDirection :=
  if Qlt_bool (Qabs q) Q_STAGNANT then ZERO_FLOW
  else if Qgt_bool q 0 then POSITIVE else NEGATIVE.

(** [initSegs], for link [k]; [C1] is the initial quality of the link
    after [MSXchem_equil]. *)
Definition initSegs (C1 : vec) (lk : link) : link :=
  (* --- start with no segments *)
  let lk := {| segs := []; nsegs := nsegs lk; NewSeg := None;
               flow := flow lk; dir := flow_direction (flow lk);
               len := len lk; diam := diam lk |} in
  (* --- fill link with segments of this quality *)
  let v := LINKVOL lk in
  if Qgt_bool v 0 then
    let ninitsegs := if (100 <=? MaxSegments)%Z then 100%Z else MaxSegments in
    for_loop 0 (Z.to_nat ninitsegs)
      (fun _ lk => MSXqual_addSeg (MSXqual_getFreeSeg (v / inject_Z ninitsegs) C1) lk) lk
  else lk.

(** [advectSegs], for link [k].  [wall_new] and [wall_shift] stand for
    the wall concentrations that [getNewSegWallQual] and
    [shiftSegWallQual] compute. *)
Definition advectSegs (wall_new : vec -> vec) (wall_shift : nat -> vec -> vec)
    (lk : link) : link :=
  let new := MSXqual_getFreeSeg 0 (fun _ => 0%Q) in
  if Qeq_bool (len lk) 0 || Qeq_bool (flow lk) 0 || negb HasWallSpecies
  then with_segs lk (segs lk) (nsegs lk) (Some new)
  else rewrite_c wall_shift
         (with_segs lk (segs lk) (nsegs lk)
            (Some {| seg_v := seg_v new; seg_c := wall_new (seg_c new) |})).

(** [evalnodeinflow]: the [while (v > 0.0)] loop, [fuel] passes at most. *)
Fixpoint inflow_loop (fuel : nat) (v : Q) (lk : link) (volin : Q) (massin : vec)
  : option (link * Q * vec) :=
  if Qgt_bool v 0 then
    match fuel with
    | O => None
    | S fuel' =>
      match segs lk with
      | [] => Some (lk, volin, massin)                 (* if (!seg) break; *)
      | seg :: behind =>
        let vseg := MIN (seg_v seg) v in
        let volin := (volin + vseg)%Q in
        let massin := for_to 1 Nspecies
                        (fun m massin => upd massin m (massin m + vseg * seg_c seg m * LperFT3)%Q)
                        massin in
        let v := (v - vseg)%Q in
        if Qge_bool v 0 && Qge_bool vseg (seg_v seg) then
          (* ... replace this leading segment with the one behind it *)
          inflow_loop fuel' v (with_segs lk behind (nsegs lk - 1)%Z (NewSeg lk)) volin massin
        else
          (* ... otherwise just reduce this segment's volume *)
          inflow_loop fuel' v
            (with_segs lk ({| seg_v := (seg_v seg - vseg)%Q; seg_c := seg_c seg |} :: behind)
               (nsegs lk) (NewSeg lk))
            volin massin
      end
    end
  else Some (lk, volin, massin).

(** A pass removes the leading segment or is the last one: one pass more
    than there are segments is enough. *)
Definition evalnodeinflow (tstep : Q) (lk : link) (volin : Q) (massin : vec)
  : option (link * Q * vec) :=
  inflow_loop (S (length (segs lk))) (Qabs (flow lk) * tstep)%Q lk volin massin.

(** The volume-weighted average of the last segment and the release. *)
Definition merge (seg : segment) (upnodequal : vec) (v : Q) : segment :=
  {| seg_v := (seg_v seg + v)%Q;
     seg_c := for_to 1 Nspecies
                (fun m c =>
                   if decide (sp_type (Species m) = BULK)
                   then upd c m ((seg_c seg m * seg_v seg + upnodequal m * v)
                                 / (seg_v seg + v))%Q
                   else c)
                (seg_c seg) |}.

(** [evalnodeoutflow(k, upnodequal, tstep)]; [None] where the C function
    would write through a NULL [NewSeg[k]]. *)
Definition evalnodeoutflow (upnodequal : vec) (tstep : Q) (lk : link) : option link :=
  (* Find flow volume (v) released over time step *)
  let v := (Qabs (flow lk) * tstep)%Q in
  if Qeq_bool v 0 then Some lk
  else
    new ← NewSeg lk;
    (* Release flow and mass into upstream end of the link *)
    let new := {| seg_v := seg_v new;
                  seg_c := for_to 1 Nspecies
                             (fun m c => if decide (sp_type (Species m) = BULK)
                                         then upd c m (upnodequal m) else c)
                             (seg_c new) |} in
    match last (segs lk) with
    | Some seg =>
      (* ... case where link has a last (most upstream) segment *)
      let useNewSeg := negb (MSXqual_isSame (seg_c seg) upnodequal)
                       && (nsegs lk <? MaxSegments)%Z in
      if negb useNewSeg
      then Some (with_segs lk (removelast (segs lk) ++ [merge seg upnodequal v])
                   (nsegs lk) (Some new))
      (* --- otherwise add the new seg to the end of the link *)
      else let new := {| seg_v := v; seg_c := seg_c new |} in
           Some (MSXqual_addSeg new (with_segs lk (segs lk) (nsegs lk) (Some new)))
    | None =>
      (* ... link has no segments so add one *)
      let new := {| seg_v := v; seg_c := seg_c new |} in
      Some (MSXqual_addSeg new (with_segs lk (segs lk) (nsegs lk) (Some new)))
    end.

(** A new hydraulic solution: [getHydVars] stores the flow, zeroing a
    stagnant one, and [flowdirchanged] reverses the chain if the flow
    has changed sign. *)
Definition new_hydraulics (q : Q) (lk : link) : link :=
  let q := if Qlt_bool (Qabs q) Q_STAGNANT then 0%Q else q in
  let newdir := if Qlt_bool (Qabs q) Q_STAGNANT then ZERO_FLOW
                else if Qlt_bool q 0 then NEGATIVE else POSITIVE in
  let reversed := match newdir, dir lk with
                  | POSITIVE, NEGATIVE | NEGATIVE, POSITIVE => true
                  | _, _ => false
                  end in
  {| segs := if reversed then reverse (segs lk) else segs lk;
     nsegs := nsegs lk; NewSeg := NewSeg lk;
     flow := q; dir := newdir; len := len lk; diam := diam lk |}.

(** The states link [k] goes through.  A project is opened with no
    segment and [nsegs = 0]; every simulation starts with [initSegs];
    between two transport steps there may be a new hydraulic solution; a
    transport step reacts, advects, and then takes the inflow to the
    downstream node and releases the outflow of the upstream node, in the
    order in which the two nodes are sorted.  The first index counts the
    initialisations since the project was opened. *)
Inductive phase := Idle | Routing.

Inductive reachable : nat -> phase -> link -> Prop :=
| reach_open C1 lk :
    segs lk = [] -> nsegs lk = 0%Z ->
    reachable 1 Idle (initSegs C1 lk)
| reach_init n C1 lk :
    reachable n Idle lk -> reachable (S n) Idle (initSegs C1 lk)
| reach_hydraulics n q lk :
    reachable n Idle lk -> reachable n Idle (new_hydraulics q lk)
| reach_react n f lk :
    reachable n Idle lk -> reachable n Idle (rewrite_c f lk)
| reach_advect n wall_new wall_shift lk :
    reachable n Idle lk -> reachable n Routing (advectSegs wall_new wall_shift lk)
| reach_inflow n tstep volin massin lk res :
    reachable n Routing lk ->
    evalnodeinflow tstep lk volin massin = Some res ->
    reachable n Routing res.1.1
| reach_outflow n upnodequal tstep lk lk' :
    reachable n Routing lk ->
    evalnodeoutflow upnodequal tstep lk = Some lk' ->
    reachable n Routing lk'
| reach_routed n lk :
    reachable n Routing lk -> reachable n Idle lk.

End Routing.

(** A pipe of volume 50 (length 50 / 0.785398, diameter 1) carrying a
    flow of 100, in a project read with SEGMENTS 50. *)
Definition fast_pipe : link :=
  {| segs := []; nsegs := 0; NewSeg := None; flow := 100; dir := ZERO_FLOW;
     len := 50000000 # 785398; diam := 1 |}.

Definition one_bulk : nat -> Sspecies := fun _ => {| aTol := 1 # 100; sp_type := BULK |}.

(** Two simulations in a row, then a transport step of the second one
    in which the downstream node of the pipe is sorted before its upstream
    node: the inflow to the downstream node empties the pipe. *)
Definition second_run_flushed : link :=
  let lk := initSegs 50 (fun _ => 1%Q) fast_pipe in
  let lk := initSegs 50 (fun _ => 1%Q) lk in
  let lk := advectSegs false (fun c => c) (fun _ c => c) lk in
  match evalnodeinflow 1 1 lk 0 (fun _ => 0%Q) with
  | Some res => res.1.1
  | None => lk
  end.

End Pipe.

(** ** Topological ordering of the nodes (msxqual.c, sortNodes) *)

Module Sort.

(** Node adjacency list item; the list stands for the [next] chain. *)
Record Sadjlist := {
  adj_node : nat;     (* index of connecting node *)
  adj_link : nat      (* index of connecting link *)
}.

Record network := {
  Nnodes : nat;                    (* MSX.Nobjects[NODE] *)
  Nlinks : nat;                    (* MSX.Nobjects[LINK] *)
  n1 : nat -> nat;                 (* MSX.Link[k].n1 *)
  n2 : nat -> nat;                 (* MSX.Link[k].n2 *)
  FlowDir : nat -> FlowDirection;
  Adjlist : nat -> list Sadjlist
}.

(** The local arrays and counters of [sortNodes], and [MSX.SortedNodes]. *)
Record sort_state := {
  indegree : nat -> nat;
  stack : nat -> nat;
  stacksize : nat;
  numsorted : nat;
  SortedNodes : nat -> nat
}.

Section Sorting.

Variable net : network.

(** [stacksize++; stack[stacksize] = i;] *)
Definition push (i : nat) (st : sort_state) : sort_state :=
  {| indegree := indegree st;
     stack := upd (stack st) (S (stacksize st)) i;
     stacksize := S (stacksize st);
     numsorted := numsorted st;
     SortedNodes := SortedNodes st |}.

Definition set_indegree (n d : nat) (st : sort_state) : sort_state :=
  {| indegree := upd (indegree st) n d;
     stack := stack st; stacksize := stacksize st;
     numsorted := numsorted st; SortedNodes := SortedNodes st |}.

(** Count links with "non-negligible" inflow to each node. *)
Definition count_inflow (ind : nat -> nat) : nat -> nat :=
  for_to 1 (Nlinks net)
    (fun k ind =>
       match FlowDir net k with
       | POSITIVE => upd ind (n2 net k) (S (ind (n2 net k)))
       | NEGATIVE => upd ind (n1 net k) (S (ind (n1 net k)))
       | ZERO_FLOW => ind
       end)
    ind.

(** Place nodes with no inflow onto a stack. *)
Definition push_sources (st : sort_state) : sort_state :=
  for_to 1 (Nnodes net)
    (fun i st => if Nat.eqb (indegree st i) 0 then push i st else st) st.

(** The first loop of [selectnonstacknode] over one adjacency list. *)
Fixpoint scan_adjacent (ind : nat -> nat) (alink : list Sadjlist) : option nat :=
  match alink with
  | [] => None
  | a :: next =>
    if (0 <? ind (adj_node a))%nat then Some (adj_node a)
    else scan_adjacent ind next
  end.

(** Examine each sorted node in last in - first out order. *)
Fixpoint scan_sorted (ind : nat -> nat) (sorted : nat -> nat) (i : nat) : option nat :=
  match i with
  | O => None
  | S i' =>
    match scan_adjacent ind (Adjlist net (sorted i)) with
    | Some n => Some n
    | None => scan_sorted ind sorted i'
    end
  end.

(** The first node, from [i] on, that still has inflow links remaining;
    0 if all else fails. *)
Fixpoint first_with_inflow (ind : nat -> nat) (count i : nat) : nat :=
  match count with
  | O => O
  | S count' => if (0 <? ind i)%nat then i else first_with_inflow ind count' (S i)
  end.

Definition selectnonstacknode (st : sort_state) : nat :=
  match scan_sorted (indegree st) (SortedNodes st) (numsorted st) with
  | Some n => n
  | None => first_with_inflow (indegree st) (Nnodes net) 1
  end.

(** For one outflow link from node [i], reduce the in-degree of its
    downstream node. *)
Definition relax (i : nat) (st : sort_state) (alink : Sadjlist) : sort_state :=
  let k := adj_link alink in
  match FlowDir net k with
  | ZERO_FLOW => st
  | dir =>
    let n := match dir with NEGATIVE => n1 net k | _ => n2 net k end in
    if negb (Nat.eqb n i) && (0 <? indegree st n)%nat then
      let st := set_indegree n (indegree st n - 1) st in
      if Nat.eqb (indegree st n) 0 then push n st else st
    else st
  end.

(** Make the last node added to the stack the next in sorted order,
    remove it from the stack, and relax its links. *)
Definition pop_and_relax (st : sort_state) : sort_state :=
  let i := stack st (stacksize st) in
  let st := {| indegree := indegree st; stack := stack st;
               stacksize := stacksize st - 1;
               numsorted := S (numsorted st);
               SortedNodes := upd (SortedNodes st) (S (numsorted st)) i |} in
  fold_left (relax i) (Adjlist net i) st.

(** [while (numsorted < Nnodes)]: a pass adds one to [numsorted], so
    the loop makes [Nnodes] passes at most, and [passes] starts there. *)
Fixpoint sort_loop (passes : nat) (st : sort_state) : sort_state :=
  match passes with
  | O => st
  | S passes' =>
    if (numsorted st <? Nnodes net)%nat then
      if Nat.eqb (stacksize st) 0 then
        (* ... if stack is empty then a cycle exists *)
        let j := selectnonstacknode st in
        if Nat.eqb j 0 then st                      (* break *)
        else sort_loop passes' (pop_and_relax (push j (set_indegree j 0 st)))
      else sort_loop passes' (pop_and_relax st)
    else st
  end.

(** [sortNodes()]: the error code and [MSX.SortedNodes];  [mem_ok] says
    whether the two [calloc]s succeeded. *)
Definition sortNodes (mem_ok : bool) (sorted0 : nat -> nat) : Z * (nat -> nat) :=
  let st0 := {| indegree := fun _ => O; stack := fun _ => O; stacksize := 0;
                numsorted := 0; SortedNodes := sorted0 |} in
  let '(errcode, st) :=
    if mem_ok then
      let st := {| indegree := count_inflow (indegree st0); stack := stack st0;
                   stacksize := 0; numsorted := 0; SortedNodes := sorted0 |} in
      (0%Z, sort_loop (Nnodes net) (push_sources st))
    else (101%Z, st0) in
  (if (numsorted st <? Nnodes net)%nat then 120%Z else errcode, SortedNodes st).

End Sorting.

(** The entries 1 .. n of an array. *)
Definition slice (a : nat -> nat) (n : nat) : list nat := map a (seq 1 n).

(** The nodes that were put on the stack so far: those still on it and
    those already moved to the sorted order. *)
Definition pushed (st : sort_state) : list nat :=
  slice (stack st) (stacksize st) ++ slice (SortedNodes st) (numsorted st).

(** What the main loop maintains: no node is pushed twice, only nodes
    1 .. Nnodes are pushed, and a node is pushed exactly when its
    in-degree has come down to 0. *)
Definition sorting_inv (net : network) (st : sort_state) : Prop :=
  NoDup (pushed st) /\
  (forall i, i ∈ pushed st -> (1 <= i <= Nnodes net)%nat) /\
  (forall i, (1 <= i <= Nnodes net)%nat -> indegree st i = O <-> i ∈ pushed st) /\
  (forall i, ~ (1 <= i <= Nnodes net)%nat -> indegree st i = O).


(** The endpoints of every link are nodes of the network. *)
Definition well_formed (net : network) : Prop :=
  forall k, (1 <= k <= Nlinks net)%nat ->
    (1 <= n1 net k <= Nnodes net)%nat /\ (1 <= n2 net k <= Nnodes net)%nat.

(** A network given by its links [(n1, n2, direction)], with the
    adjacency lists [buildadjlists] of msxproj.c makes of them: link
    after link, each one is put in front of the lists of its two end
    nodes. *)
Definition of_links (nnodes : nat) (links : list (nat * nat * FlowDirection)) : network :=
  let n1 := fun k => match k with O => O | S k' => (nth k' links (O, O, ZERO_FLOW)).1.1 end in
  let n2 := fun k => match k with O => O | S k' => (nth k' links (O, O, ZERO_FLOW)).1.2 end in
  {| Nnodes := nnodes; Nlinks := length links;
     n1 := n1; n2 := n2;
     FlowDir := fun k => match k with O => ZERO_FLOW
                                 | S k' => (nth k' links (O, O, ZERO_FLOW)).2 end;
     Adjlist :=
       for_to 1 (length links)
         (fun k Adjlist =>
            let i := n1 k in
            let j := n2 k in
            let Adjlist := upd Adjlist i ({| adj_node := j; adj_link := k |} :: Adjlist i) in
            upd Adjlist j ({| adj_node := i; adj_link := k |} :: Adjlist j))
         (fun _ => []) |}.

(** Three nodes on a loop with equal flows 1 -> 2 -> 3 -> 1. *)
Definition three_node_loop : network :=
  of_links 3 [(1, 2, POSITIVE); (2, 3, POSITIVE); (3, 1, POSITIVE)]%nat.

(** A source 1 feeding the loop 2 -> 3 -> 4 -> 2, link 4 reversed. *)
Definition fed_loop : network :=
  of_links 4 [(1, 2, POSITIVE); (2, 3, POSITIVE); (3, 4, POSITIVE); (2, 4, NEGATIVE)]%nat.


End Sort.

(** ** Cyclic references among terms (msxinp.c) *)

Module TermCheck.

(** [TermArray]: an incidence matrix of doubles; [TermArray[i][k] = 1.0]
    when the expression of term [i] names term [k], and row 0 is the
    scratch row in which the search marks the terms it has entered. *)

(** The loop [for (j=1; j<=n; j++)] of [traceTermPath], with [count]
    passes left; [trace T j] is the nested call [traceTermPath(j, istar,
    n)] on the array as it is by then. *)
Fixpoint trace_loop (trace : matrix -> nat -> option (matrix * Z))
    (i istar count j : nat) (T : matrix) : option (matrix * Z) :=
  match count with
  | O => Some (T, 0%Z)
  | S count' =>
    if Qeq_bool (T i j) 0 then trace_loop trace i istar count' (S j) T
    else if Nat.eqb j istar then Some (T, 1%Z)
    else match trace T j with
         | None => None
         | Some (T', r) =>
           if Z.eqb r 0 then trace_loop trace i istar count' (S j) T'
           else Some (T', 1%Z)
         end
  end.

(** [traceTermPath(i, istar, n)]: is term [istar] on a path of references
    that starts at term [i]?  The recursion of the C function is bounded
    here by [depth]; [None] means that the bound was too small. *)
Fixpoint traceTermPath (depth : nat) (TermArray : matrix) (i istar n : nat)
  : option (matrix * Z) :=
  match depth with
  | O => None
  | S depth' =>
    if Qeq_bool (TermArray 0 i) 1 then Some (TermArray, 0%Z)
    else trace_loop (fun T j => traceTermPath depth' T j istar n)
           i istar n 1 (set_cell TermArray 0 i 1)
  end.

(** [for (j=1; j<=n; j++) TermArray[0][j] = 0.0;] *)
Definition clear_marks (n : nat) (TermArray : matrix) : matrix :=
  for_to 1 n (fun j T => set_cell T 0 j 0) TermArray.

(** [checkCyclicTerms()]: 1 if a cyclic reference is found, 0 if not;
    [n] is [MSX.Nobjects[TERM]].  Every nested call enters a term that is
    not yet marked, so [S n] bounds the recursion depth. *)
Fixpoint checkCyclicTerms_from (count i n : nat) (TermArray : matrix)
  : option (matrix * Z) :=
  match count with
  | O => Some (TermArray, 0%Z)
  | S count' =>
    match traceTermPath (S n) (clear_marks n TermArray) i i n with
    | None => None
    | Some (T', r) =>
      if Z.eqb r 0 then checkCyclicTerms_from count' (S i) n T'
      else Some (T', 1%Z)
    end
  end.

(** [for (i=1; i<n; i++)]: the terms 1 .. n-1 are the starting points. *)
Definition checkCyclicTerms (n : nat) (TermArray : matrix) : option (matrix * Z) :=
  checkCyclicTerms_from (n - 1) 1 n TermArray.

(** The matrix [parseTerm] builds from a list of (term, named term) pairs,
    starting from the zeroed matrix of [createMatrix]. *)
Definition references (refs : list (nat * nat)) : matrix :=
  fold_left (fun T r => set_cell T (fst r) (snd r) 1) refs (fun _ _ => 0%Q).

(** Term [i] names term [j] in the matrix. *)
Definition refers (T : matrix) (i j : nat) : Prop := ~ (T i j == 0)%Q.

(** A chain of references inside the terms 1 .. n. *)
Inductive ref_path (T : matrix) (n : nat) : nat -> nat -> Prop :=
| ref_path_one i j :
    (1 <= i <= n)%nat -> (1 <= j <= n)%nat -> refers T i j -> ref_path T n i j
| ref_path_cons i j k :
    (1 <= i <= n)%nat -> (1 <= j <= n)%nat -> refers T i j -> ref_path T n j k ->
    ref_path T n i k.

(** Some term transitively references itself. *)
Definition cyclic (T : matrix) (n : nat) : Prop := exists i, ref_path T n i i.

(** Term [i] has been entered by the search. *)
Definition marked (T : matrix) (i : nat) : Prop := (T 0%nat i == 1)%Q.

(** The rows of the terms are those of [T]; the scratch row is free. *)
Definition same_terms (T T' : matrix) : Prop :=
  forall i j, (1 <= i)%nat -> T' i j = T i j.

(** How many of the terms 1 .. n are not marked. *)
Definition unmarked (T : matrix) (n : nat) : nat :=
  length (List.filter (fun j => negb (Qeq_bool (T 0%nat j) 1)) (seq 1 n)).

(** The search is done with term [u]: every term it names is marked
    and is not the term searched for. *)
Definition closed (T0 T : matrix) (n istar u : nat) : Prop :=
  forall v, (1 <= v <= n)%nat -> refers T0 u v -> v <> istar /\ marked T v.

(** What a call [traceTermPath(i, istar, n)] on the array [T] leaves
    behind, [T0] being the array as [parseTerm] built it: the rows of
    the terms are untouched and no mark is taken back; the call returns
    1 only if [istar] is on a path from [i], and when it returns 0 the
    term [i] is marked and the search is done with every term that was
    marked during the call. *)
Definition trace_result (T0 : matrix) (n istar : nat) (T : matrix) (i : nat)
    (T' : matrix) (r : Z) : Prop :=
  same_terms T0 T' /\
  (forall j, marked T j -> marked T' j) /\
  ((r = 1%Z /\ ref_path T0 n i istar) \/
   (r = 0%Z /\ marked T' i /\
    forall u, (1 <= u <= n)%nat -> marked T' u -> ~ marked T u ->
              closed T0 T' n istar u)).

End TermCheck.

(** ** Dense linear algebra (msxutils.c: factorize, solve, jacobian) *)

Module LinAlg.

Definition TINY1 : Q := 1 # 100000000000000000000.   (* 1.0e-20 *)

(** The arrays [factorize] works on.  [divisors] is not a variable of
    the C function: it records, in order, every value the function
    divides by, so that statements about its divisions can be made. *)
Record lu := {
  lu_a : matrix;
  lu_w : vec;
  lu_indx : nat -> nat;
  divisors : list Q
}.

(** The largest magnitude in row [i]. *)
Definition row_big (a : matrix) (n i : nat) : Q :=
  for_to 1 n (fun j big => let temp := Qabs (a i j) in
                           if Qgt_bool temp big then temp else big) 0%Q.

(** Loop over rows to get the implicit scaling information; [false] is
    the [return 0] on a row without a nonzero element. *)
Fixpoint scaling (count i n : nat) (st : lu) : bool * lu :=
  match count with
  | O => (true, st)
  | S count' =>
    let big := row_big (lu_a st) n i in
    if Qeq_bool big 0 then (false, st)
    else scaling count' (S i) n
           {| lu_a := lu_a st; lu_w := upd (lu_w st) i (1 / big)%Q;
              lu_indx := lu_indx st; divisors := divisors st ++ [big] |}
  end.

(** [sum = a[i][j]; for (k = 1; k < m; k++) sum -= a[i][k]*a[k][j];] *)
Definition inner_sum (a : matrix) (i j m : nat) : Q :=
  for_to 1 (m - 1) (fun k sum => sum - a i k * a k j)%Q (a i j).

(** Up from the diagonal. *)
Definition above_diagonal (a : matrix) (j : nat) : matrix :=
  for_to 1 (j - 1) (fun i a => set_cell a i j (inner_sum a i j i)) a.

(** The search for the largest pivot element: the state is
    [(a, big, imax)]. *)
Definition pivot_search (a : matrix) (w : vec) (n j : nat) : matrix * Q * nat :=
  for_to j n
    (fun i '(a, big, imax) =>
       let sum := inner_sum a i j j in
       let a := set_cell a i j sum in
       let dum := (w i * Qabs sum)%Q in
       if Qge_bool dum big then (a, dum, i) else (a, big, imax))
    (a, 0%Q, j).

Definition swap_rows (a : matrix) (n imax j : nat) : matrix :=
  for_to 1 n (fun k a => let dum := a imax k in
                         set_cell (set_cell a imax k (a j k)) j k dum) a.

(** The column loop up to [indx[j] = imax]: the selected pivot is in
    [a[j][j]]. *)
Definition select_pivot (n j : nat) (st : lu) : lu :=
  let a := above_diagonal (lu_a st) j in
  let '(a, big, imax) := pivot_search a (lu_w st) n j in
  let '(a, w) :=
    if negb (Nat.eqb j imax)
    then (swap_rows a n imax j, upd (lu_w st) imax (lu_w st j))
    else (a, lu_w st) in
  {| lu_a := a; lu_w := w; lu_indx := upd (lu_indx st) j imax;
     divisors := divisors st |}.

(** [if (a[j][j] == 0.0) a[j][j] = TINY1;] *)
Definition replace_zero_pivot (j : nat) (st : lu) : lu :=
  {| lu_a := if Qeq_bool (lu_a st j j) 0 then set_cell (lu_a st) j j TINY1 else lu_a st;
     lu_w := lu_w st; lu_indx := lu_indx st; divisors := divisors st |}.

(** Divide by the pivot element. *)
Definition divide_by_pivot (n j : nat) (st : lu) : lu :=
  if negb (Nat.eqb j n) then
    let dum := (1 / lu_a st j j)%Q in
    {| lu_a := for_to (j + 1) n (fun i a => set_cell a i j (a i j * dum)%Q) (lu_a st);
       lu_w := lu_w st; lu_indx := lu_indx st;
       divisors := divisors st ++ [lu_a st j j] |}
  else st.

(** [factorize(a, n, w, indx)]: 1 if successful, 0 if the matrix is
    singular, together with the arrays as the function leaves them. *)
Definition factorize (a : matrix) (n : nat) (w : vec) (indx : nat -> nat) : Z * lu :=
  let st := {| lu_a := a; lu_w := w; lu_indx := indx; divisors := [] |} in
  match scaling n 1 n st with
  | (false, st) => (0%Z, st)
  | (true, st) =>
    (1%Z, for_to 1 n
            (fun j st => divide_by_pivot n j (replace_zero_pivot j (select_pivot n j st)))
            st)
  end.

(** [solve(a, n, indx, b)]: forward substitution, then back substitution. *)
Definition solve (a : matrix) (n : nat) (indx : nat -> nat) (b : vec) : vec :=
  let '(b, _) :=
    for_to 1 n
      (fun i '(b, ii) =>
         let ip := indx i in
         let sum := b ip in
         let b := upd b ip (b i) in
         let '(sum, ii) :=
           if negb (Nat.eqb ii 0)
           then (for_to ii (i - 1) (fun j sum => sum - a i j * b j)%Q sum, ii)
           else if negb (Qeq_bool sum 0) then (sum, i) else (sum, ii) in
         (upd b i sum, ii))
      (b, O) in
  for_down n n
    (fun i b =>
       let sum := for_to (i + 1) n (fun j sum => sum - a i j * b j)%Q (b i) in
       upd b i (sum / a i i)%Q)
    b.

(** A callback [void func(double t, double *x, int n, double *f)]: it
    returns the array [f] as it leaves it. *)
Definition callback := Q -> vec -> nat -> vec -> vec.

Definition eps : Q := 1 # 10000000.   (* 1.0e-7 *)

(** [jacobian(x, n, f, w, a, func)]; the state is [(x, f, w, a)]. *)
Definition jacobian (x : vec) (n : nat) (f w : vec) (a : matrix) (func : callback)
  : vec * vec * vec * matrix :=
  for_to 1 n
    (fun j '(x, f, w, a) =>
       let temp := x j in
       let x := upd x j (temp + eps)%Q in
       let f := func 0%Q x n f in
       let '(x, eps2) :=
         if Qeq_bool temp 0 then (upd x j temp, eps)
         else (upd x j (temp - eps)%Q, (2 * eps)%Q) in
       let w := func 0%Q x n w in
       let a := for_to 1 n (fun i a => set_cell a i j ((f i - w i) / eps2)%Q) a in
       (upd x j temp, f, w, a))
    (x, f, w, a).

(** A matrix given by its rows, 1-based. *)
Definition of_rows (rows : list (list Q)) : matrix :=
  fun i j => match i, j with
             | S i', S j' => nth j' (nth i' rows []) 0%Q
             | _, _ => 0%Q
             end.

(** Every value divided by so far was different from zero. *)
Definition nonzero_divisors (st : lu) : Prop :=
  Forall (fun d => ~ d == 0) (divisors st).

(** A matrix with a nonzero first pivot below 1.0e-20. *)
Definition tiny_pivot_matrix : matrix :=
  of_rows [[1 # 1000000000000000000000; 1]; [0; 1]]%Q.

End LinAlg.

(** ** Newton-Raphson solver (newton.c) *)

Module Newton.

(** The solver's work space, [MSXNewtonSolver]. *)
Record MSXNewton := {
  Nmax : nat;            (* max. number of equations *)
  Indx : nat -> nat;     (* permutation vector of row indexes *)
  F : vec;               (* function & adjustment vector *)
  W : vec;               (* work vector *)
  J : matrix             (* Jacobian matrix *)
}.

(** [newton_open(n)], the allocations succeeding: zeroed arrays. *)
Definition newton_open (n : nat) : MSXNewton :=
  {| Nmax := n; Indx := fun _ => O; F := fun _ => 0%Q; W := fun _ => 0%Q;
     J := fun _ _ => 0%Q |}.

(** Update solution x & check for convergence: the state is
    [(x, errmax)]. *)
Definition update_solution (x f : vec) (n : nat) (relconvg : Q) : vec * Q :=
  for_to 1 n
    (fun i '(x, errmax) =>
       let cscal := x i in
       let cscal := if Qlt_bool cscal relconvg then relconvg else cscal in
       let x' := upd x i (x i + f i)%Q in
       let errx := Qabs (f i / cscal) in
       (x', if Qgt_bool errx errmax then errx else errmax))
    (x, 0%Q).

(** One pass of the iteration loop, up to the convergence test. *)
Inductive pass :=
| Singular (x : vec) (S : MSXNewton)
| Stepped (x : vec) (errmax : Q) (S : MSXNewton).

Section Solve.

Variable n : nat.
Variable relconvg : Q.
Variable func : LinAlg.callback.

Definition newton_pass (S : MSXNewton) (x : vec) : pass :=
  (* --- evaluate the Jacobian matrix *)
  let '(x, f, w, a) := LinAlg.jacobian x n (F S) (W S) (J S) func in
  (* --- factorize the Jacobian *)
  let '(r, st) := LinAlg.factorize a n w (Indx S) in
  if Z.eqb r 0
  then Singular x {| Nmax := Nmax S; Indx := LinAlg.lu_indx st; F := f;
                     W := LinAlg.lu_w st; J := LinAlg.lu_a st |}
  else
    (* --- solve for the updates to x (returned in F) *)
    let f := for_to 1 n (fun i f => upd f i (- f i)%Q) f in
    let f := LinAlg.solve (LinAlg.lu_a st) n (LinAlg.lu_indx st) f in
    (* --- update solution x & check for convergence *)
    let '(x, errmax) := update_solution x f n relconvg in
    Stepped x errmax {| Nmax := Nmax S; Indx := LinAlg.lu_indx st; F := f;
                        W := LinAlg.lu_w st; J := LinAlg.lu_a st |}.

(** [for (k = ...; k <= maxit; k++)], with [count] passes left. *)
Fixpoint newton_loop (count : nat) (k : Z) (S : MSXNewton) (x : vec)
  : Z * vec * MSXNewton :=
  match count with
  | O => ((-2)%Z, x, S)
  | Datatypes.S count' =>
    match newton_pass S x with
    | Singular x' S' => ((-1)%Z, x', S')
    | Stepped x' errmax S' =>
      if Qle_bool errmax relconvg then (k, x', S')
      else newton_loop count' (k + 1)%Z S' x'
    end
  end.

(** The solver and the unknowns after [j] passes, none of them singular,
    whatever their convergence tests say. *)
Fixpoint newton_state (j : nat) (S : MSXNewton) (x : vec) : option (MSXNewton * vec) :=
  match j with
  | O => Some (S, x)
  | Datatypes.S j' =>
    match newton_pass S x with
    | Singular _ _ => None
    | Stepped x' _ S' => newton_state j' S' x'
    end
  end.

(** Pass number [j + 1]. *)
Definition nth_pass (j : nat) (S : MSXNewton) (x : vec) : option pass :=
  '(S', x') ← newton_state j S x; Some (newton_pass S' x').

(** Pass number [j + 1] is neither singular nor convergent. *)
Definition continues (j : nat) (S : MSXNewton) (x : vec) : Prop :=
  exists x' errmax S', nth_pass j S x = Some (Stepped x' errmax S') /\
                       ~ (errmax <= relconvg)%Q.

End Solve.

(** [newton_solve(x, n, maxit, numsig, func)], on the work space [S]. *)
Definition newton_solve (S : MSXNewton) (x : vec) (n : nat) (maxit numsig : Z)
    (func : LinAlg.callback) : Z * vec * MSXNewton :=
  let relconvg := Qpower 10 (- numsig) in
  (* --- check that system was sized adequetely *)
  if (Nmax S <? n)%nat then ((-3)%Z, x, S)
  (* --- use up to maxit iterations to find a solution *)
  else newton_loop n relconvg func (Z.to_nat maxit) 1%Z S x.

(** The convergence measure in the words of the specification: the
    largest, over i in 1 .. n, of |dx[i]| / max(|x[i]|, 10^(-numsig)). *)
Definition spec_ratio (x dx : vec) (relconvg : Q) (i : nat) : Q :=
  (Qabs (dx i) / Qmax (Qabs (x i)) relconvg)%Q.

(** The measure the loop computes: |dx[i]| / max(x[i], 10^(-numsig)). *)
Definition code_ratio (x dx : vec) (relconvg : Q) (i : nat) : Q :=
  (Qabs (dx i) / Qmax (x i) relconvg)%Q.

(** [e] is the largest of the ratios of the components 1 .. n (and 0). *)
Definition is_max (ratio : nat -> Q) (n : nat) (e : Q) : Prop :=
  (forall i, (1 <= i <= n)%nat -> (ratio i <= e)%Q) /\
  ((e == 0)%Q \/ exists i, (1 <= i <= n)%nat /\ (e == ratio i)%Q).

(** One linear equation, x[1] - c = 0. *)
Definition linear (c : Q) : LinAlg.callback :=
  fun _ x _ f => upd f 1 (x 1%nat - c)%Q.

(** One linear equation, a x[1] + b = 0. *)
Definition line (a b : Q) : LinAlg.callback :=
  fun _ x _ f => upd f 1 (a * x 1%nat + b)%Q.

Definition start_at (x1 : Q) : vec := fun _ => x1.

End Newton.

(** ** Runge-Kutta integrator (rk5.c) *)

Module RK5.

(** [sqrt] and [pow] of math.h. *)
Record Libm := {
  m_sqrt : Q -> Q;
  m_pow : Q -> Q -> Q
}.

(** The macros of rk5.c. *)
Definition fmin (x y : Q) : Q := if Qle_bool x y then x else y.
Definition fmax (x y : Q) : Q := if Qge_bool x y then x else y.

(** The tableau of Dormand & Prince. *)
Definition c2 : Q := 1 # 5.
Definition c3 : Q := 3 # 10.
Definition c4 : Q := 4 # 5.
Definition c5 : Q := 8 # 9.
Definition a21 : Q := 1 # 5.
Definition a31 : Q := 3 # 40.
Definition a32 : Q := 9 # 40.
Definition a41 : Q := 44 # 45.
Definition a42 : Q := - 56 # 15.
Definition a43 : Q := 32 # 9.
Definition a51 : Q := 19372 # 6561.
Definition a52 : Q := - 25360 # 2187.
Definition a53 : Q := 64448 # 6561.
Definition a54 : Q := - 212 # 729.
Definition a61 : Q := 9017 # 3168.
Definition a62 : Q := - 355 # 33.
Definition a63 : Q := 46732 # 5247.
Definition a64 : Q := 49 # 176.
Definition a65 : Q := - 5103 # 18656.
Definition a71 : Q := 35 # 384.
Definition a73 : Q := 500 # 1113.
Definition a74 : Q := 125 # 192.
Definition a75 : Q := - 2187 # 6784.
Definition a76 : Q := 11 # 84.
Definition e1 : Q := 71 # 57600.
Definition e3 : Q := - 71 # 16695.
Definition e4 : Q := 71 # 1920.
Definition e5 : Q := - 17253 # 339200.
Definition e6 : Q := 22 # 525.
Definition e7 : Q := - 1 # 40.

(** Parameters for step size control. *)
Definition UROUND : Q := 23 # 100000000000000000.   (* 2.3e-16 *)
Definition SAFE : Q := 9 # 10.
Definition fac1 : Q := 1 # 5.
Definition fac2 : Q := 10.
Definition beta : Q := 4 # 100.
Definition expo1 : Q := (1 # 5) - beta * (3 # 4).
Definition facc1 : Q := 1 / fac1.
Definition facc2 : Q := 1 / fac2.
Definition HFLOOR : Q := 1 # 100000000.             (* 1.e-8 *)

(** The local variables of [rk5_integrate], the arrays of
    [MSXRungeKuttaSolver], and the two outputs [y] and [*htry]. *)
Record rk_state := {
  r_t : Q; r_h : Q; r_y : vec; r_htry : Q;
  K1 : vec; K2 : vec; K3 : vec; K4 : vec; K5 : vec; K6 : vec; Ynew : vec;
  r_facold : Q; r_fac11 : Q; r_fac : Q;
  r_nstep : Z; r_nfcn : Z; r_naccpt : Z; r_nrejct : Z;
  r_reject : bool
}.

Section Integrate.

Variable libm : Libm.
Variable Itmax : Z.          (* max. number of integration steps *)
Variable n : nat.
Variable tnext : Q.
Variable hmax : Q.
Variable adjust : bool.
Variables atol rtol : vec.
Variable func : LinAlg.callback.

(** [for (i=1; i<=n; i++) Ynew[i] = y[i] + h*(...);] *)
Definition combine (y : vec) (h : Q) (slope : nat -> Q) (out : vec) : vec :=
  for_to 1 n (fun i out => upd out i (y i + h * slope i)%Q) out.

(** The step size the pass uses. *)
Definition step_h (st : rk_state) : Q :=
  if Qgt_bool (r_t st + (101 # 100) * r_h st - tnext) 0
  then (tnext - r_t st)%Q else r_h st.

(** The six function evaluations of a pass: [(Ynew, K2, K3, K4, K5, K6)]. *)
Definition stages (st : rk_state) : vec * vec * vec * vec * vec * vec :=
  let t := r_t st in
  let h := step_h st in
  let y := r_y st in
  let k1 := K1 st in
  let ynew := combine y h (fun i => a21 * k1 i)%Q (Ynew st) in
  let k2 := func (t + c2 * h)%Q ynew n (K2 st) in
  let ynew := combine y h (fun i => a31 * k1 i + a32 * k2 i)%Q ynew in
  let k3 := func (t + c3 * h)%Q ynew n (K3 st) in
  let ynew := combine y h (fun i => a41 * k1 i + a42 * k2 i + a43 * k3 i)%Q ynew in
  let k4 := func (t + c4 * h)%Q ynew n (K4 st) in
  let ynew := combine y h
                (fun i => a51 * k1 i + a52 * k2 i + a53 * k3 i + a54 * k4 i)%Q ynew in
  let k5 := func (t + c5 * h)%Q ynew n (K5 st) in
  let tnew := (t + h)%Q in
  let ynew := combine y h
                (fun i => a61 * k1 i + a62 * k2 i + a63 * k3 i + a64 * k4 i
                          + a65 * k5 i)%Q ynew in
  let k6 := func tnew ynew n (K6 st) in
  let ynew := combine y h
                (fun i => a71 * k1 i + a73 * k3 i + a74 * k4 i + a75 * k5 i
                          + a76 * k6 i)%Q ynew in
  let k2 := func tnew ynew n k2 in
  (ynew, k2, k3, k4, k5, k6).

(** Step size adjustment: [(K4, err, fac11, fac, hnew)]. *)
Definition error_control (st : rk_state) (sg : vec * vec * vec * vec * vec * vec)
  : vec * Q * Q * Q * Q :=
  let '(ynew, k2, k3, k4, k5, k6) := sg in
  let h := step_h st in
  if adjust then
    let k4 := for_to 1 n
                (fun i k4 => upd k4 i ((e1 * K1 st i + e3 * k3 i + e4 * k4 i + e5 * k5 i
                                        + e6 * k6 i + e7 * k2 i) * h)%Q) k4 in
    let err := for_to 1 n
                 (fun i err =>
                    let sk := (atol i + rtol i * fmax (Qabs (r_y st i)) (Qabs (ynew i)))%Q in
                    let sk := (k4 i / sk)%Q in
                    (err + sk * sk)%Q) 0%Q in
    let err := m_sqrt libm (err / inject_Z (Z.of_nat n)) in
    (* --- computation of hnew *)
    let fac11 := m_pow libm err expo1 in
    let fac := (fac11 / m_pow libm (r_facold st) beta)%Q in     (* LUND-stabilization *)
    let fac := fmax facc2 (fmin facc1 (fac / SAFE)) in
    (k4, err, fac11, fac, (h / fac)%Q)
  else (k4, 0%Q, r_fac11 st, r_fac st, h).

(** One pass of the [while] loop, from after the test for a zero step
    size to before the test on the number of steps. *)
Definition rk5_step (st : rk_state) : rk_state :=
  let h := step_h st in
  let sg := stages st in
  let ec := error_control st sg in
  let ynew := sg.1.1.1.1.1 in
  let k2 := sg.1.1.1.1.2 in
  let err := ec.1.1.1.2 in
  let fac11 := ec.1.1.2 in
  let hnew := ec.2 in
  let accepted := Qle_bool err 1 in
  let t' := (r_t st + h)%Q in
  let hnew :=
    if accepted then
      let hnew := if Qgt_bool (Qabs hnew) hmax then hmax else hnew in
      if r_reject st then fmin (Qabs hnew) (Qabs h) else hnew
    else if adjust then (h / fmin facc1 (fac11 / SAFE))%Q else hnew in
  {| r_t := if accepted then t' else r_t st;
     r_h := hnew;
     r_y := if accepted then for_to 1 n (fun i y => upd y i (ynew i)) (r_y st) else r_y st;
     r_htry := if adjust then hnew
               else if accepted && adjust && Qle_bool t' tnext then h else r_htry st;
     K1 := if accepted then for_to 1 n (fun i k1 => upd k1 i (k2 i)) (K1 st) else K1 st;
     K2 := k2; K3 := sg.1.1.1.2; K4 := ec.1.1.1.1; K5 := sg.1.2; K6 := sg.2;
     Ynew := ynew;
     r_facold := if accepted then fmax err (1 # 10000) else r_facold st;
     r_fac11 := fac11; r_fac := ec.1.2;
     r_nstep := (r_nstep st + 1)%Z;
     r_nfcn := (r_nfcn st + 6)%Z;
     r_naccpt := if accepted then (r_naccpt st + 1)%Z else r_naccpt st;
     r_nrejct := if accepted then r_nrejct st
                 else if (1 <=? r_naccpt st)%Z then (r_nrejct st + 1)%Z else r_nrejct st;
     r_reject := negb accepted |}.

(** The check for a zero step size at the head of a pass. *)
Definition stalled (st : rk_state) : bool :=
  Qle_bool ((1 # 10) * Qabs (r_h st)) (Qabs (r_t st) * UROUND).

(** [while (t < tnext) { ... }  return nfcn;] with at most [fuel] passes;
    [None] if that was not enough. *)
Fixpoint rk5_loop (fuel : nat) (st : rk_state) : option (Z * rk_state) :=
  if negb (Qlt_bool (r_t st) tnext) then Some (r_nfcn st, st)
  else
    match fuel with
    | O => None
    | S fuel' =>
      if stalled st then Some ((-2)%Z, st)
      else
        let st' := rk5_step st in
        if (Itmax <=? r_nstep st')%Z then Some ((-1)%Z, st')
        else rk5_loop fuel' st'
    end.

(** The state after [k] passes, whatever the exit tests say. *)
Fixpoint rk5_states (k : nat) (st : rk_state) : rk_state :=
  match k with
  | O => st
  | S k' => rk5_states k' (rk5_step st)
  end.

(** The first [k] passes are entered, are not stopped for a zero step
    size and do not exhaust the number of steps. *)
Definition runs (st0 : rk_state) (k : nat) : Prop :=
  forall j, (j < k)%nat ->
    let st := rk5_states j st0 in
    (r_t st < tnext)%Q /\ stalled st = false /\ (r_nstep (rk5_step st) < Itmax)%Z.

(** How the loop is left after [k] passes. *)
Definition exits (st0 : rk_state) (k : nat) (res : Z * rk_state) : Prop :=
  let st := rk5_states k st0 in
  (~ (r_t st < tnext)%Q /\ res = (r_nfcn st, st)) \/
  ((r_t st < tnext)%Q /\ stalled st = true /\ res = ((-2)%Z, st)) \/
  ((r_t st < tnext)%Q /\ stalled st = false /\
   (Itmax <= r_nstep (rk5_step st))%Z /\ res = ((-1)%Z, rk5_step st)).

End Integrate.

(** The fields of [MSXRungeKuttaSolver] the integrator reads; [Report] is
    NULL from [rk5_open] on and is left out. *)
Record MSXRungeKutta := {
  s_Itmax : Z;
  s_Adjust : bool;
  s_K1 : vec; s_K2 : vec; s_K3 : vec; s_K4 : vec; s_K5 : vec; s_K6 : vec;
  s_Ynew : vec
}.

(** [rk5_open(n, itmax, adjust)], the allocations succeeding. *)
Definition rk5_open (itmax : Z) (adjust : bool) : MSXRungeKutta :=
  {| s_Itmax := itmax; s_Adjust := adjust;
     s_K1 := fun _ => 0%Q; s_K2 := fun _ => 0%Q; s_K3 := fun _ => 0%Q;
     s_K4 := fun _ => 0%Q; s_K5 := fun _ => 0%Q; s_K6 := fun _ => 0%Q;
     s_Ynew := fun _ => 0%Q |}.

(** The solver as [MSXchem_open] opens it: [rk5_open(NumSpecies, 1000, 1)]. *)
Definition chem_solver : MSXRungeKutta := rk5_open 1000 true.

(** The local [adjust]: forced to 1 when no initial step size is given. *)
Definition local_adjust (R : MSXRungeKutta) (htry : Q) : bool :=
  if Qeq_bool htry 0 then true else s_Adjust R.

(** The state on entry to the loop: initial function evaluation and
    initial step size. *)
Definition rk5_start (R : MSXRungeKutta) (y : vec) (n : nat) (t tnext htry : Q)
    (atol rtol : vec) (func : LinAlg.callback) (fac_uninit : Q) : rk_state :=
  let k1 := func t y n (s_K1 R) in
  let h :=
    if Qeq_bool htry 0 then
      for_to 1 n
        (fun i h =>
           let ytol := (atol i + rtol i * Qabs (y i))%Q in
           if negb (Qeq_bool (k1 i) 0) then fmin h (ytol / Qabs (k1 i)) else h)
        (tnext - t)%Q
    else htry in
  {| r_t := t; r_h := fmax HFLOOR h; r_y := y; r_htry := htry;
     K1 := k1; K2 := s_K2 R; K3 := s_K3 R; K4 := s_K4 R; K5 := s_K5 R; K6 := s_K6 R;
     Ynew := s_Ynew R;
     r_facold := 1 # 10000; r_fac11 := 1; r_fac := fac_uninit;
     r_nstep := 1; r_nfcn := 1; r_naccpt := 0; r_nrejct := 0; r_reject := false |}.

(** [rk5_integrate(y, n, t, tnext, htry, atol, rtol, func)]: the return
    value and the final state.  The step counter leaves the loop after at
    most [Itmax - 1] passes (one pass if [Itmax] is below 2), which bounds
    the passes given to the loop. *)
Definition rk5_integrate (libm : Libm) (R : MSXRungeKutta) (y : vec) (n : nat)
    (t tnext htry : Q) (atol rtol : vec) (func : LinAlg.callback) (fac_uninit : Q)
  : option (Z * rk_state) :=
  rk5_loop libm (s_Itmax R) n tnext (tnext - t)%Q (local_adjust R htry) atol rtol func
    (S (Z.to_nat (s_Itmax R)))
    (rk5_start R y n t tnext htry atol rtol func fac_uninit).

(** dy/dt = 0 and dy/dt = -y, one equation. *)
Definition at_rest : LinAlg.callback := fun _ _ _ f => upd f 1 0%Q.
Definition decay : LinAlg.callback := fun _ y _ f => upd f 1 (- y 1%nat)%Q.

(** A stand-in for math.h that is exact at the arguments the examples
    reach: sqrt(0) = 0, pow(0, e) = 0 and a positive pow(b, e) for b > 0,
    positive e. *)
Definition libm_at_zero : Libm :=
  {| m_sqrt := fun x => x;
     m_pow := fun b _ => if Qeq_bool b 0 then 0%Q else 1%Q |}.

End RK5.

(** ** Expression evaluator (mathexpr.c, mathexpr_eval) *)

Module MathExpr.

(** A node of a tokenized expression; the list itself stands for the
    chain of [next] pointers. *)
Record ExprNode := {
  opcode : Z;     (* operator code *)
  ivar : Z;       (* variable index *)
  fvalue : Q      (* numerical value *)
}.

Definition MathExpr := list ExprNode.

Definition MAX_STACK_SIZE : Z := 1024.

(** The functions of math.h the evaluator calls. *)
Record Libm := {
  m_cos : Q -> Q; m_sin : Q -> Q; m_tan : Q -> Q; m_sqrt : Q -> Q;
  m_log : Q -> Q; m_exp : Q -> Q; m_asin : Q -> Q; m_acos : Q -> Q;
  m_atan : Q -> Q; m_log10 : Q -> Q; m_pow : Q -> Q -> Q
}.

(** An access to [exprStack] outside of 0 .. MAX_STACK_SIZE-1 is
    undefined behaviour in C; the embedding stops there and reports the
    offending index. *)
Inductive outcome (A : Type) :=
| Ok (a : A)
| Fault (index : Z).
Arguments Ok {A} a.
Arguments Fault {A} index.

#[global] Instance outcome_ret : MRet outcome := fun A a => Ok a.
#[global] Instance outcome_bind : MBind outcome := fun A B k x =>
  match x with
  | Ok a => k a
  | Fault i => Fault i
  end.

Definition in_bounds (i : Z) : bool := (0 <=? i)%Z && (i <? MAX_STACK_SIZE)%Z.

(** [exprStack[i]] as a value *)
Definition rd (exprStack : vec) (i : Z) : outcome Q :=
  if in_bounds i then Ok (exprStack (Z.to_nat i)) else Fault i.

(** [exprStack[i] = x] *)
Definition wr (exprStack : vec) (i : Z) (x : Q) : outcome vec :=
  if in_bounds i then Ok (upd exprStack (Z.to_nat i) x) else Fault i.

Section Eval.

Variable libm : Libm.
(** The callback, [None] standing for a NULL function pointer. *)
Variable getVariableValue : option (Z -> Q).

(** Cases 3 to 6: pop two operands, push the result. *)
Definition binary (f : Q -> Q -> Q) (exprStack : vec) (stackindex : Z)
  : outcome (vec * Z) :=
  r1 ← rd exprStack stackindex;
  let stackindex := (stackindex - 1)%Z in
  r2 ← rd exprStack stackindex;
  s ← wr exprStack stackindex (f r2 r1);
  Ok (s, stackindex).

(** Cases 9 to 28: replace the top of the stack. *)
Definition unary (f : Q -> Q) (exprStack : vec) (stackindex : Z)
  : outcome (vec * Z) :=
  r1 ← rd exprStack stackindex;
  s ← wr exprStack stackindex (f r1);
  Ok (s, stackindex).

Definition push (x : Q) (exprStack : vec) (stackindex : Z) : outcome (vec * Z) :=
  let stackindex := (stackindex + 1)%Z in
  s ← wr exprStack stackindex x;
  Ok (s, stackindex).

Definition sgn (r1 : Q) : Q :=
  if Qlt_bool r1 0 then (-1)%Q else if Qgt_bool r1 0 then 1%Q else 0%Q.

Definition step_fn (r1 : Q) : Q := if Qle_bool r1 0 then 0%Q else 1%Q.

(** One pass of the [switch (node->opcode)]. *)
Definition eval_node (node : ExprNode) (exprStack : vec) (stackindex : Z)
  : outcome (vec * Z) :=
  match opcode node with
  | 3%Z => binary Qplus exprStack stackindex
  | 4%Z => binary Qminus exprStack stackindex
  | 5%Z => binary Qmult exprStack stackindex
  | 6%Z => binary Qdiv exprStack stackindex
  | 7%Z => push (fvalue node) exprStack stackindex
  | 8%Z =>
    let r1 := match getVariableValue with
              | Some g => g (ivar node)
              | None => 0%Q
              end in
    push r1 exprStack stackindex
  | 9%Z => unary Qopp exprStack stackindex
  | 10%Z => unary (m_cos libm) exprStack stackindex
  | 11%Z => unary (m_sin libm) exprStack stackindex
  | 12%Z => unary (m_tan libm) exprStack stackindex
  | 13%Z => unary (fun r1 => 1 / m_tan libm r1)%Q exprStack stackindex
  | 14%Z => unary Qabs exprStack stackindex
  | 15%Z => unary sgn exprStack stackindex
  | 16%Z => unary (m_sqrt libm) exprStack stackindex
  | 17%Z => unary (m_log libm) exprStack stackindex
  | 18%Z => unary (m_exp libm) exprStack stackindex
  | 19%Z => unary (m_asin libm) exprStack stackindex
  | 20%Z => unary (m_acos libm) exprStack stackindex
  | 21%Z => unary (m_atan libm) exprStack stackindex
  | 22%Z =>
    unary (fun r1 => (157079632679489661923 # 100000000000000000000) - m_atan libm r1)%Q
      exprStack stackindex
  | 23%Z =>
    unary (fun r1 => (m_exp libm r1 - m_exp libm (- r1)) / 2)%Q exprStack stackindex
  | 24%Z =>
    unary (fun r1 => (m_exp libm r1 + m_exp libm (- r1)) / 2)%Q exprStack stackindex
  | 25%Z =>
    unary (fun r1 => (m_exp libm r1 - m_exp libm (- r1))
                     / (m_exp libm r1 + m_exp libm (- r1)))%Q exprStack stackindex
  | 26%Z =>
    unary (fun r1 => (m_exp libm r1 + m_exp libm (- r1))
                     / (m_exp libm r1 - m_exp libm (- r1)))%Q exprStack stackindex
  | 27%Z => unary (m_log10 libm) exprStack stackindex
  | 28%Z => unary step_fn exprStack stackindex
  | 31%Z =>
    r1 ← rd exprStack stackindex;
    let stackindex := (stackindex - 1)%Z in
    if (stackindex <? 0)%Z then Ok (exprStack, stackindex)
    else
      r2 ← rd exprStack stackindex;
      let r2 := if Qle_bool r2 0 then 0%Q else m_pow libm r2 r1 in
      s ← wr exprStack stackindex r2;
      Ok (s, stackindex)
  | _ => Ok (exprStack, stackindex)
  end.

(** [while (node != NULL) { switch ... ; node = node->next; }] *)
Fixpoint eval_nodes (expr : MathExpr) (exprStack : vec) (stackindex : Z)
  : outcome (vec * Z) :=
  match expr with
  | [] => Ok (exprStack, stackindex)
  | node :: next =>
    '(s, i) ← eval_node node exprStack stackindex;
    eval_nodes next s i
  end.

(** [uninit] is whatever the local array holds on entry; slot 0 is set
    to 0.0 before the loop.  A rational is never a NaN, so the closing
    test [r1 != r1] has nothing to do; and a quotient by 0, an infinity
    or a NaN in C, is 0 among the rationals.  So the model follows
    mathexpr.c in what it does to the stack on every list, and in the
    value on the evaluations that form no such quotient. *)
Definition mathexpr_eval (uninit : vec) (expr : MathExpr) : outcome Q :=
  let exprStack := upd uninit 0 0%Q in
  '(s, stackindex) ← eval_nodes expr exprStack 0%Z;
  if (0 <=? stackindex)%Z then rd s stackindex else Ok 0%Q.

End Eval.

(** What an operator code does to the stack index: the binary operators
    and [^] take one off, a number or a variable puts one on, the unary
    operators and the functions work on the top, any other code is
    skipped. *)
Inductive stack_use := Pops | Pushes | Replaces | Skips.

Definition stack_use_of (opcode : Z) : stack_use :=
  match opcode with
  | 3 | 4 | 5 | 6 | 31 => Pops
  | 7 | 8 => Pushes
  | 9 | 10 | 11 | 12 | 13 | 14 | 15 | 16 | 17 | 18
  | 19 | 20 | 21 | 22 | 23 | 24 | 25 | 26 | 27 | 28 => Replaces
  | _ => Skips
  end%Z.

(** An IR that, run from [stackindex], never pops the last value and
    never pushes past the end of the stack. *)
Fixpoint well_stacked (expr : MathExpr) (stackindex : Z) : bool :=
  match expr with
  | [] => true
  | node :: next =>
    match stack_use_of (opcode node) with
    | Pops => (1 <=? stackindex)%Z && well_stacked next (stackindex - 1)
    | Pushes => (stackindex + 1 <? MAX_STACK_SIZE)%Z && well_stacked next (stackindex + 1)
    | Replaces | Skips => well_stacked next stackindex
    end
  end.

Definition op (code : Z) : ExprNode := {| opcode := code; ivar := 0; fvalue := 0 |}.
Definition num (x : Q) : ExprNode := {| opcode := 7; ivar := 0; fvalue := x |}.
Definition var (i : Z) : ExprNode := {| opcode := 8; ivar := i; fvalue := 0 |}.

(** A math library that is good enough for expressions without
    transcendental functions. *)
Definition no_libm : Libm :=
  {| m_cos := fun _ => 0%Q; m_sin := fun _ => 0%Q; m_tan := fun _ => 0%Q;
     m_sqrt := fun _ => 0%Q; m_log := fun _ => 0%Q; m_exp := fun _ => 0%Q;
     m_asin := fun _ => 0%Q; m_acos := fun _ => 0%Q; m_atan := fun _ => 0%Q;
     m_log10 := fun _ => 0%Q; m_pow := fun _ _ => 0%Q |}.

End MathExpr.

(** ** Water and mass held by a pipe (msxqual.c) *)

Module Transport.

(** The water in a chain of segments, and the amount of species [m] it
    carries (concentration times volume, summed over the chain). *)
Definition volume (l : list Pipe.segment) : Q :=
  fold_right (fun seg s => Pipe.seg_v seg + s)%Q 0%Q l.

Definition mass (l : list Pipe.segment) (m : nat) : Q :=
  fold_right (fun seg s => Pipe.seg_c seg m * Pipe.seg_v seg + s)%Q 0%Q l.

(** The [while (seg != NULL)] loop of [MSXqual_getLinkQual]:
    [(vsum, msum)]. *)
Definition link_sums (l : list Pipe.segment) (m : nat) : Q * Q :=
  fold_left (fun '(vsum, msum) seg =>
               ((vsum + Pipe.seg_v seg)%Q, (msum + Pipe.seg_c seg m * Pipe.seg_v seg)%Q))
            l (0%Q, 0%Q).

(** [MSXqual_getLinkQual(k, m)], for a link that joins the nodes [n1]
    and [n2] and whose chain is [l]. *)
Definition MSXqual_getLinkQual (MSX : NodeQual.project) (n1 n2 : nat)
    (l : list Pipe.segment) (m : nat) : Q :=
  let '(vsum, msum) := link_sums l m in
  if Qgt_bool vsum 0 then (msum / vsum)%Q
  else ((NodeQual.MSXqual_getNodeQual MSX n1 m + NodeQual.MSXqual_getNodeQual MSX n2 m) / 2)%Q.

(** No segment of the chain has a negative volume. *)
Definition nonnegative (l : list Pipe.segment) : Prop :=
  Forall (fun seg => (0 <= Pipe.seg_v seg)%Q) l.

(** Two segments of volumes 2 and 3 with concentrations 4 and 9. *)
Definition two_segments : list Pipe.segment :=
  [ {| Pipe.seg_v := 2; Pipe.seg_c := fun _ => 4%Q |};
    {| Pipe.seg_v := 3; Pipe.seg_c := fun _ => 9%Q |} ].

End Transport.

(** ** The pool of unused segments (msxqual.c, MSXqual_removeSeg, MSXqual_getFreeSeg) *)

Module Pool.

(** The segments in memory, the head [MSX.FreeSeg] of the list of
    discarded ones, and the flag [MSX.OutOfMemory]. *)
Record pool := {
  cells : gmap nat Segs.Sseg;
  FreeSeg : Segs.Pseg;
  OutOfMemory : bool
}.

(** [MSXqual_removeSeg(seg)]; [None] if [seg] is not NULL and not the
    address of a segment. *)
Definition MSXqual_removeSeg (seg : Segs.Pseg) (P : pool) : option pool :=
  match seg with
  | None => Some P                                  (* if ( seg == NULL ) return; *)
  | Some p =>
    s ← cells P !! p;
    (* seg->prev = MSX.FreeSeg; seg->next = NULL; MSX.FreeSeg = seg; *)
    Some {| cells := <[p := Segs.set_links s (FreeSeg P) None]> (cells P);
            FreeSeg := Some p; OutOfMemory := OutOfMemory P |}
  end.

(** [seg->v = v; for (m=1; m<=Nspecies; m++) seg->c[m] = c[m];
    seg->hstep = 0.0;] *)
Definition assign (Nspecies : nat) (v : Q) (c : vec) (s : Segs.Sseg) : Segs.Sseg :=
  {| Segs.seg_hstep := 0;
     Segs.seg_v := v;
     Segs.seg_c := for_to 1 Nspecies (fun m sc => upd sc m (c m)) (Segs.seg_c s);
     Segs.seg_prev := Segs.seg_prev s;
     Segs.seg_next := Segs.seg_next s |}.

(** [MSXqual_getFreeSeg(v, c)]: the pointer it returns and the pool it
    leaves.  [alloc] is what [Alloc] gives when it is called: the address
    of a new segment with its uninitialised contents, or [None] when the
    memory pool is exhausted.  The result is [None] if [MSX.FreeSeg] is
    not the address of a segment. *)
Definition MSXqual_getFreeSeg (Nspecies : nat) (alloc : option (nat * Segs.Sseg))
    (v : Q) (c : vec) (P : pool) : option (Segs.Pseg * pool) :=
  match FreeSeg P with
  | Some p =>
    (* --- try using the last discarded segment if one is available *)
    s ← cells P !! p;
    Some (Some p, {| cells := <[p := assign Nspecies v c s]> (cells P);
                     FreeSeg := Segs.seg_prev s; OutOfMemory := OutOfMemory P |})
  | None =>
    (* --- otherwise create a new segment from the memory pool *)
    match alloc with
    | None => Some (None, {| cells := cells P; FreeSeg := None; OutOfMemory := true |})
    | Some (p, s) =>
      Some (Some p, {| cells := <[p := assign Nspecies v c s]> (cells P);
                       FreeSeg := None; OutOfMemory := OutOfMemory P |})
    end
  end.

(** The discarded segments are the list [l] of addresses, read from
    [MSX.FreeSeg] along [prev]. *)
Fixpoint free_from (h : gmap nat Segs.Sseg) (head : Segs.Pseg) (l : list nat) : Prop :=
  match l with
  | [] => head = None
  | p :: l' => head = Some p /\ exists s, h !! p = Some s /\ free_from h (Segs.seg_prev s) l'
  end.

Definition free_list (P : pool) (l : list nat) : Prop :=
  NoDup l /\ free_from (cells P) (FreeSeg P) l.

(** Two segments in memory, the one at address 4 discarded. *)
Definition small_pool : pool :=
  {| cells := <[4%nat := Segs.seg_at 1 None None]> (<[7%nat := Segs.seg_at 2 None None]> ∅);
     FreeSeg := Some 4%nat; OutOfMemory := false |}.

(** The chain of three segments of link 1, and a segment at address 11
    that is on no chain. *)
Definition with_spare : Segs.store :=
  {| Segs.heap := <[11%nat := Segs.seg_at 4 None None]> (Segs.heap Segs.three_segs);
     Segs.FirstSeg := Segs.FirstSeg Segs.three_segs;
     Segs.LastSeg := Segs.LastSeg Segs.three_segs |}.

End Pool.

(** ** Strings and keywords (msxutils.c, msxdict.h, msxinp.c) *)

Module Str.

(** A C string is the list of its characters up to the terminating NUL,
    each a [char] value; [s[i]] for [i] up to the length reads a
    character or the NUL, and the cells behind the NUL are not part of
    the string. *)
Definition cstring := list Z.

Definition of_string (s : string) : cstring :=
  map (fun a => Z.of_N (N_of_ascii a)) (list_ascii_of_string s).

(** [*s], the character a pointer to the rest [s] of a string reads. *)
Definition deref (s : cstring) : Z := hd 0%Z s.

(** [#define UCHAR(x) (((x) >= 'a' && (x) <= 'z') ? ((x)&~32) : (x))] *)
Definition UCHAR (x : Z) : Z :=
  if (97 <=? x)%Z && (x <=? 122)%Z then Z.land x (Z.lnot 32) else x.

(** [MSXutils_strcomp(s1, s2)], from position [i] on, [s1] and [s2]
    being the rests of the two strings at [i]: [Some true] for 1, [Some
    false] for 0, and [None] when the function reads behind the NUL of
    one of the strings, where what it does depends on memory that is not
    part of its arguments. *)
Fixpoint MSXutils_strcomp (s1 s2 : cstring) : option bool :=
  if (UCHAR (deref s1) =? UCHAR (deref s2))%Z then
    match s1, s2 with
    | _ :: t1, _ :: t2 =>
      (* if (!s1[i+1] && !s2[i+1]) return(1); *)
      if (deref t1 =? 0)%Z && (deref t2 =? 0)%Z then Some true
      else MSXutils_strcomp t1 t2
    | _, _ => None
    end
  else Some false.

(** [for (i=0; str[i]; i++) if (str[i] != ' ') break;] *)
Fixpoint skip_blanks (str : cstring) : cstring :=
  match str with
  | c :: rest => if (c =? 32)%Z then skip_blanks rest else str
  | [] => []
  end.

(** [for (i=i,j=0; substr[j]; i++,j++)
       if (!str[i] || UCHAR(str[i]) != UCHAR(substr[j])) return(0);] *)
Fixpoint match_from (str substr : cstring) {struct substr} : bool :=
  match substr with
  | [] => true
  | c :: substr' =>
    match str with
    | [] => false
    | d :: str' => if (UCHAR d =? UCHAR c)%Z then match_from str' substr' else false
    end
  end.

(** [MSXutils_match(str, substr)] *)
Definition MSXutils_match (str substr : cstring) : bool :=
  match substr with
  | [] => false                       (* fail if substring is empty *)
  | _ => match_from (skip_blanks str) substr
  end.

(** [MSXutils_findmatch(s, keyword)], the array [keyword] up to its
    closing NULL; [i] is the index of the first keyword of the list. *)
Fixpoint findmatch_from (i : Z) (s : cstring) (keyword : list cstring) : Z :=
  match keyword with
  | [] => (-1)%Z
  | k :: rest => if MSXutils_match s k then i else findmatch_from (i + 1) s rest
  end.

Definition MSXutils_findmatch (s : cstring) (keyword : list cstring) : Z :=
  findmatch_from 0 s keyword.

(** The keyword tables of msxdict.h. *)
Definition HydVarWords : list cstring :=
  [] :: map of_string ["D"; "Q"; "U"; "Re"; "Us"; "Ff"; "Av"; "Kc"; "Len"]%string.

Definition MsxSectWords : list cstring :=
  map of_string ["[TITLE"; "[SPECIE"; "[COEFF"; "[TERM"; "[PIPE"; "[TANK"; "[SOURCE";
                 "[QUALITY"; "[PARAM"; "[PATTERN"; "[OPTION"; "[REPORT"; "[DIFFU"]%string.

Definition OptionTypeWords : list cstring :=
  map of_string ["AREA_UNITS"; "RATE_UNITS"; "SOLVER"; "COUPLING"; "TIMESTEP"; "RTOL";
                 "ATOL"; "COMPILER"; "SEGMENTS"; "PECLET"]%string.

(** [(int)x] for a double whose integral part fits an [int]: the
    fraction is dropped. *)
Definition truncate (x : Q) : Z := Z.quot (Qnum x) (Zpos (Qden x)).

(** [MSXutils_getInt(s, &y)], [x] being the number that
    [MSXutils_getDouble] reads from [s] if it reads one: the value
    returned and [*y]. *)
Definition MSXutils_getInt (x : option Q) : Z * Z :=
  match x with
  | Some x =>
    let x := if Qlt_bool x 0 then (x - (1 # 100))%Q else (x + (1 # 100))%Q in
    (1%Z, truncate x)
  | None => (0%Z, 0%Z)
  end.

(** [strcspn(s, reject)]: the number of characters before the first one
    that is in [reject]. *)
Fixpoint strcspn (s reject : cstring) : nat :=
  match s with
  | [] => O
  | c :: rest => if existsb (Z.eqb c) reject then O else S (strcspn rest reject)
  end.

Definition MAXTOKS : nat := 40.               (* Max. items per line of input *)
Definition SEPSTR : cstring := [32; 9; 10; 13]%Z.   (* " \t\n\r" *)

(** [c = strchr(s,';'); if (c) *c = '\0';] *)
Fixpoint truncate_comment (s : cstring) : cstring :=
  match s with
  | [] => []
  | c :: rest => if (c =? 59)%Z then [] else c :: truncate_comment rest
  end.

(** The [while (len > 0 && n < MAXTOKS)] loop of [getTokens]: [s] is
    what the pointer [s] has before it, [Tok] the tokens saved so far
    ([n] is their number); [fuel] passes at most. *)
Fixpoint tokens_loop (fuel : nat) (s : cstring) (len : Z) (Tok : list cstring)
  : list cstring :=
  match fuel with
  | O => Tok
  | S fuel' =>
    if (0 <? len)%Z && (length Tok <? MAXTOKS)%nat then
      let m := strcspn s SEPSTR in                (* find token length *)
      if (m =? 0)%nat
      then tokens_loop fuel' (drop 1 s) (len - 1)%Z Tok    (* no token found *)
      else if (deref s =? 34)%Z then              (* token begins with quote *)
        let s := drop 1 s in                      (* start token after quote *)
        let len := (len - 1)%Z in                 (* reduce length of s *)
        let m := strcspn s [34; 10]%Z in          (* find end quote or new line *)
        tokens_loop fuel' (drop (m + 1) s) (len - (Z.of_nat m + 1))%Z (Tok ++ [take m s])
      else
        tokens_loop fuel' (drop (m + 1) s) (len - (Z.of_nat m + 1))%Z (Tok ++ [take m s])
    else Tok
  end.

(** [getTokens(s)]: the tokens it leaves in [Tok[]]; their number is
    what it returns.  Every pass takes at least one off [len], so one
    pass more than the length of the line is never reached. *)
Definition getTokens (s : cstring) : list cstring :=
  let s := truncate_comment s in
  tokens_loop (S (length s)) s (Z.of_nat (length s)) [].

(** Words, each followed by one blank. *)
Definition join_words (ws : list cstring) : cstring :=
  flat_map (fun w => w ++ [32%Z]) ws.

(** A word: not empty, and free of separators, semicolons and quotes. *)
Definition word (w : cstring) : Prop :=
  w <> [] /\ Forall (fun c => c ∉ [32; 9; 10; 13; 59; 34]%Z) w.

(** Every character of the string is an ordinary one: not the NUL. *)
Definition well_terminated (s : cstring) : Prop := Forall (fun c => c <> 0%Z) s.

End Str.

(** ** The programmer's toolkit (msxtoolkit.c) *)

Module Toolkit.

Definition ERR_MEMORY : Z := 501.
Definition ERR_INVALID_OBJECT_TYPE : Z := 515.
Definition ERR_INVALID_OBJECT_INDEX : Z := 516.
Definition ERR_INVALID_OBJECT_PARAMS : Z := 518.
Definition ERR_MSX_NOT_OPENED : Z := 519.

Definition MSX_NODE : Z := 0.
Definition MSX_LINK : Z := 1.
Definition MSX_NOSOURCE : Z := -1.
Definition MSX_FLOWPACED : Z := 3.

(** An array addressed by an [int]. *)
Definition updZ {A : Type} (a : Z -> A) (i : Z) (x : A) : Z -> A :=
  fun j => if (j =? i)%Z then x else a j.

(** A water quality source; the list of the sources of a node stands for
    the chain of [next] pointers.  ([massRate] is not touched by the
    toolkit.) *)
Record Ssource := {
  s_type : Z;             (* sourceType *)
  s_species : Z;          (* species index *)
  s_c0 : Q;               (* base concentration *)
  s_pat : Z               (* time pattern index *)
}.

(** Where [current] points: nowhere (NULL), at the cell [pos] steps behind
    [first], or at a cell that has been freed. *)
Inductive cursor := Null | At (pos : nat) | Dangling.

(** A time pattern; [p_first] is the list of multipliers from [first]
    on. *)
Record Spattern := {
  p_length : Z;           (* number of pattern factors *)
  p_interval : Z;         (* current time interval *)
  p_first : list Q;
  p_current : cursor
}.

(** The part of the project the functions below read and write. *)
Record project := {
  ProjectOpened : bool;
  Nnodes : Z;                      (* MSX.Nobjects[NODE] *)
  Nlinks : Z;                      (* MSX.Nobjects[LINK] *)
  Nspecies : Z;                    (* MSX.Nobjects[SPECIES] *)
  Nparams : Z;                     (* MSX.Nobjects[PARAMETER] *)
  Nconsts : Z;                     (* MSX.Nobjects[CONSTANT] *)
  Npatterns : Z;                   (* MSX.Nobjects[PATTERN] *)
  Species_type : Z -> SpeciesType; (* MSX.Species[m].type *)
  Const_value : Z -> Q;            (* MSX.Const[i].value *)
  Node_tank : Z -> Z;              (* MSX.Node[i].tank *)
  Node_c0 : Z -> Z -> Q;           (* MSX.Node[i].c0[m] *)
  Node_sources : Z -> list Ssource;
  Link_c0 : Z -> Z -> Q;           (* MSX.Link[i].c0[m] *)
  Link_param : Z -> Z -> Q;        (* MSX.Link[i].param[j] *)
  Tank_param : Z -> Z -> Q;        (* MSX.Tank[i].param[j] *)
  Pattern : Z -> Spattern
}.

Definition with_Const (MSX : project) (f : Z -> Q) : project :=
  {| ProjectOpened := ProjectOpened MSX; Nnodes := Nnodes MSX; Nlinks := Nlinks MSX;
     Nspecies := Nspecies MSX; Nparams := Nparams MSX; Nconsts := Nconsts MSX;
     Npatterns := Npatterns MSX; Species_type := Species_type MSX;
     Const_value := f; Node_tank := Node_tank MSX; Node_c0 := Node_c0 MSX;
     Node_sources := Node_sources MSX; Link_c0 := Link_c0 MSX;
     Link_param := Link_param MSX; Tank_param := Tank_param MSX; Pattern := Pattern MSX |}.

Definition with_Node_c0 (MSX : project) (f : Z -> Z -> Q) : project :=
  {| ProjectOpened := ProjectOpened MSX; Nnodes := Nnodes MSX; Nlinks := Nlinks MSX;
     Nspecies := Nspecies MSX; Nparams := Nparams MSX; Nconsts := Nconsts MSX;
     Npatterns := Npatterns MSX; Species_type := Species_type MSX;
     Const_value := Const_value MSX; Node_tank := Node_tank MSX; Node_c0 := f;
     Node_sources := Node_sources MSX; Link_c0 := Link_c0 MSX;
     Link_param := Link_param MSX; Tank_param := Tank_param MSX; Pattern := Pattern MSX |}.

Definition with_Node_sources (MSX : project) (f : Z -> list Ssource) : project :=
  {| ProjectOpened := ProjectOpened MSX; Nnodes := Nnodes MSX; Nlinks := Nlinks MSX;
     Nspecies := Nspecies MSX; Nparams := Nparams MSX; Nconsts := Nconsts MSX;
     Npatterns := Npatterns MSX; Species_type := Species_type MSX;
     Const_value := Const_value MSX; Node_tank := Node_tank MSX; Node_c0 := Node_c0 MSX;
     Node_sources := f; Link_c0 := Link_c0 MSX;
     Link_param := Link_param MSX; Tank_param := Tank_param MSX; Pattern := Pattern MSX |}.

Definition with_Link_c0 (MSX : project) (f : Z -> Z -> Q) : project :=
  {| ProjectOpened := ProjectOpened MSX; Nnodes := Nnodes MSX; Nlinks := Nlinks MSX;
     Nspecies := Nspecies MSX; Nparams := Nparams MSX; Nconsts := Nconsts MSX;
     Npatterns := Npatterns MSX; Species_type := Species_type MSX;
     Const_value := Const_value MSX; Node_tank := Node_tank MSX; Node_c0 := Node_c0 MSX;
     Node_sources := Node_sources MSX; Link_c0 := f;
     Link_param := Link_param MSX; Tank_param := Tank_param MSX; Pattern := Pattern MSX |}.

Definition with_Link_param (MSX : project) (f : Z -> Z -> Q) : project :=
  {| ProjectOpened := ProjectOpened MSX; Nnodes := Nnodes MSX; Nlinks := Nlinks MSX;
     Nspecies := Nspecies MSX; Nparams := Nparams MSX; Nconsts := Nconsts MSX;
     Npatterns := Npatterns MSX; Species_type := Species_type MSX;
     Const_value := Const_value MSX; Node_tank := Node_tank MSX; Node_c0 := Node_c0 MSX;
     Node_sources := Node_sources MSX; Link_c0 := Link_c0 MSX;
     Link_param := f; Tank_param := Tank_param MSX; Pattern := Pattern MSX |}.

Definition with_Tank_param (MSX : project) (f : Z -> Z -> Q) : project :=
  {| ProjectOpened := ProjectOpened MSX; Nnodes := Nnodes MSX; Nlinks := Nlinks MSX;
     Nspecies := Nspecies MSX; Nparams := Nparams MSX; Nconsts := Nconsts MSX;
     Npatterns := Npatterns MSX; Species_type := Species_type MSX;
     Const_value := Const_value MSX; Node_tank := Node_tank MSX; Node_c0 := Node_c0 MSX;
     Node_sources := Node_sources MSX; Link_c0 := Link_c0 MSX;
     Link_param := Link_param MSX; Tank_param := f; Pattern := Pattern MSX |}.

Definition with_Pattern (MSX : project) (f : Z -> Spattern) : project :=
  {| ProjectOpened := ProjectOpened MSX; Nnodes := Nnodes MSX; Nlinks := Nlinks MSX;
     Nspecies := Nspecies MSX; Nparams := Nparams MSX; Nconsts := Nconsts MSX;
     Npatterns := Npatterns MSX; Species_type := Species_type MSX;
     Const_value := Const_value MSX; Node_tank := Node_tank MSX; Node_c0 := Node_c0 MSX;
     Node_sources := Node_sources MSX; Link_c0 := Link_c0 MSX;
     Link_param := Link_param MSX; Tank_param := Tank_param MSX; Pattern := f |}.

(** [index < 1 || index > n] *)
Definition out_of_range (index n : Z) : bool := (index <? 1)%Z || (n <? index)%Z.

(** [MSXgetconstant(index, &value)]: the error code and [*value]. *)
Definition MSXgetconstant (MSX : project) (index : Z) : Z * Q :=
  if negb (ProjectOpened MSX) then (ERR_MSX_NOT_OPENED, 0%Q)
  else if out_of_range index (Nconsts MSX) then (ERR_INVALID_OBJECT_INDEX, 0%Q)
  else (0%Z, Const_value MSX index).

(** [MSXsetconstant(index, value)]: the error code and the project. *)
Definition MSXsetconstant (MSX : project) (index : Z) (value : Q) : Z * project :=
  if negb (ProjectOpened MSX) then (ERR_MSX_NOT_OPENED, MSX)
  else if out_of_range index (Nconsts MSX) then (ERR_INVALID_OBJECT_INDEX, MSX)
  else (0%Z, with_Const MSX (updZ (Const_value MSX) index value)).

(** [MSXgetparameter(type, index, param, &value)] *)
Definition MSXgetparameter (MSX : project) (type index param : Z) : Z * Q :=
  if negb (ProjectOpened MSX) then (ERR_MSX_NOT_OPENED, 0%Q)
  else if out_of_range param (Nparams MSX) then (ERR_INVALID_OBJECT_INDEX, 0%Q)
  else if (type =? MSX_NODE)%Z then
    if out_of_range index (Nnodes MSX) then (ERR_INVALID_OBJECT_INDEX, 0%Q)
    else
      let j := Node_tank MSX index in
      (0%Z, if (0 <? j)%Z then Tank_param MSX j param else 0%Q)
  else if (type =? MSX_LINK)%Z then
    if out_of_range index (Nlinks MSX) then (ERR_INVALID_OBJECT_INDEX, 0%Q)
    else (0%Z, Link_param MSX index param)
  else (ERR_INVALID_OBJECT_TYPE, 0%Q).

(** [MSXsetparameter(type, index, param, value)] *)
Definition MSXsetparameter (MSX : project) (type index param : Z) (value : Q) : Z * project :=
  if negb (ProjectOpened MSX) then (ERR_MSX_NOT_OPENED, MSX)
  else if out_of_range param (Nparams MSX) then (ERR_INVALID_OBJECT_INDEX, MSX)
  else if (type =? MSX_NODE)%Z then
    if out_of_range index (Nnodes MSX) then (ERR_INVALID_OBJECT_INDEX, MSX)
    else
      let j := Node_tank MSX index in
      (0%Z, if (0 <? j)%Z
            then with_Tank_param MSX (updZ (Tank_param MSX) j (updZ (Tank_param MSX j) param value))
            else MSX)
  else if (type =? MSX_LINK)%Z then
    if out_of_range index (Nlinks MSX) then (ERR_INVALID_OBJECT_INDEX, MSX)
    else (0%Z, with_Link_param MSX
                 (updZ (Link_param MSX) index (updZ (Link_param MSX index) param value)))
  else (ERR_INVALID_OBJECT_TYPE, MSX).

(** [MSXgetinitqual(type, index, species, &value)] *)
Definition MSXgetinitqual (MSX : project) (type index species : Z) : Z * Q :=
  if negb (ProjectOpened MSX) then (ERR_MSX_NOT_OPENED, 0%Q)
  else if out_of_range species (Nspecies MSX) then (ERR_INVALID_OBJECT_INDEX, 0%Q)
  else if (type =? MSX_NODE)%Z then
    if out_of_range index (Nnodes MSX) then (ERR_INVALID_OBJECT_INDEX, 0%Q)
    else (0%Z, Node_c0 MSX index species)
  else if (type =? MSX_LINK)%Z then
    if out_of_range index (Nlinks MSX) then (ERR_INVALID_OBJECT_INDEX, 0%Q)
    else (0%Z, Link_c0 MSX index species)
  else (ERR_INVALID_OBJECT_TYPE, 0%Q).

(** [MSXsetinitqual(type, index, species, value)] *)
Definition MSXsetinitqual (MSX : project) (type index species : Z) (value : Q) : Z * project :=
  if negb (ProjectOpened MSX) then (ERR_MSX_NOT_OPENED, MSX)
  else if out_of_range species (Nspecies MSX) then (ERR_INVALID_OBJECT_INDEX, MSX)
  else if (type =? MSX_NODE)%Z then
    if out_of_range index (Nnodes MSX) then (ERR_INVALID_OBJECT_INDEX, MSX)
    else (0%Z, if decide (Species_type MSX species = BULK)
               then with_Node_c0 MSX
                      (updZ (Node_c0 MSX) index (updZ (Node_c0 MSX index) species value))
               else MSX)
  else if (type =? MSX_LINK)%Z then
    if out_of_range index (Nlinks MSX) then (ERR_INVALID_OBJECT_INDEX, MSX)
    else (0%Z, with_Link_c0 MSX
                 (updZ (Link_c0 MSX) index (updZ (Link_c0 MSX index) species value)))
  else (ERR_INVALID_OBJECT_TYPE, MSX).

(** The first source of the list for the species: the [while (source)]
    search of [MSXgetsource] and [MSXsetsource]. *)
Fixpoint find_source (species : Z) (sources : list Ssource) : option Ssource :=
  match sources with
  | [] => None
  | s :: next => if (s_species s =? species)%Z then Some s else find_source species next
  end.

(** [MSXgetsource(node, species, &type, &level, &pat)]: the error code
    and the three outputs. *)
Definition MSXgetsource (MSX : project) (node species : Z) : Z * (Z * Q * Z) :=
  if negb (ProjectOpened MSX) then (ERR_MSX_NOT_OPENED, (MSX_NOSOURCE, 0%Q, 0%Z))
  else if out_of_range node (Nnodes MSX) then (ERR_INVALID_OBJECT_INDEX, (MSX_NOSOURCE, 0%Q, 0%Z))
  else if out_of_range species (Nspecies MSX)
  then (ERR_INVALID_OBJECT_INDEX, (MSX_NOSOURCE, 0%Q, 0%Z))
  else match find_source species (Node_sources MSX node) with
       | Some s => (0%Z, (s_type s, s_c0 s, s_pat s))
       | None => (0%Z, (MSX_NOSOURCE, 0%Q, 0%Z))
       end.

(** The parameters are assigned to the first source of the list that is
    for the species. *)
Fixpoint assign_source (new : Ssource) (sources : list Ssource) : list Ssource :=
  match sources with
  | [] => []
  | s :: next =>
    if (s_species s =? s_species new)%Z then new :: next
    else s :: assign_source new next
  end.

(** [MSXsetsource(node, species, type, level, pat)]; [mem_ok] says
    whether [malloc] succeeds if it is called.  The [type], which has
    passed the range check, is kept by the cast to a (signed) [char]. *)
Definition MSXsetsource (mem_ok : bool) (MSX : project) (node species type : Z) (level : Q)
    (pat : Z) : Z * project :=
  (* --- check for valid source parameters *)
  if negb (ProjectOpened MSX) then (ERR_MSX_NOT_OPENED, MSX)
  else if out_of_range node (Nnodes MSX) then (ERR_INVALID_OBJECT_INDEX, MSX)
  else if out_of_range species (Nspecies MSX) then (ERR_INVALID_OBJECT_INDEX, MSX)
  else if (Npatterns MSX <? pat)%Z then (ERR_INVALID_OBJECT_INDEX, MSX)
  else
    let pat := if (pat <? 0)%Z then 0%Z else pat in
    if (type <? MSX_NOSOURCE)%Z || (MSX_FLOWPACED <? type)%Z
    then (ERR_INVALID_OBJECT_PARAMS, MSX)
    else if negb (bool_decide (Species_type MSX species = BULK))
    then (ERR_INVALID_OBJECT_PARAMS, MSX)
    else if Qlt_bool level 0 then (ERR_INVALID_OBJECT_PARAMS, MSX)
    else
      let new := {| s_type := type; s_species := species; s_c0 := level; s_pat := pat |} in
      let sources := Node_sources MSX node in
      match find_source species sources with
      | Some _ =>
        (0%Z, with_Node_sources MSX (updZ (Node_sources MSX) node (assign_source new sources)))
      | None =>
        (* --- if no current source exists then create a new one *)
        if mem_ok
        then (0%Z, with_Node_sources MSX (updZ (Node_sources MSX) node (new :: sources)))
        else (ERR_MEMORY, MSX)
      end.

Definition with_cursor (p : Spattern) (c : cursor) : Spattern :=
  {| p_length := p_length p; p_interval := p_interval p; p_first := p_first p;
     p_current := c |}.

(** [MSXgetpatternlen(pat, &len)] *)
Definition MSXgetpatternlen (MSX : project) (pat : Z) : Z * Z :=
  if negb (ProjectOpened MSX) then (ERR_MSX_NOT_OPENED, 0%Z)
  else if out_of_range pat (Npatterns MSX) then (ERR_INVALID_OBJECT_INDEX, 0%Z)
  else (0%Z, p_length (Pattern MSX pat)).

(** The [while ( MSX.Pattern[pat].current )] search for time period
    [period], [n] being the number of the cell at position [pos]: the
    place where it stops and the value of the cell found there. *)
Fixpoint seek_period (period n : Z) (pos : nat) (cells : list Q) : cursor * option Q :=
  match cells with
  | [] => (Null, None)
  | x :: next =>
    if (n =? period)%Z then (At pos, Some x)
    else seek_period period (n + 1)%Z (S pos) next
  end.

(** [MSXgetpatternvalue(pat, period, &value)]: the error code, [*value]
    and the project, whose cursor the search has moved. *)
Definition MSXgetpatternvalue (MSX : project) (pat period : Z) : Z * Q * project :=
  if negb (ProjectOpened MSX) then (ERR_MSX_NOT_OPENED, 0%Q, MSX)
  else if out_of_range pat (Npatterns MSX) then (ERR_INVALID_OBJECT_INDEX, 0%Q, MSX)
  else
    let p := Pattern MSX pat in
    if (period <=? p_length p)%Z then
      let '(current, found) := seek_period period 1 0 (p_first p) in
      (0%Z, match found with Some x => x | None => 0%Q end,
       with_Pattern MSX (updZ (Pattern MSX) pat (with_cursor p current)))
    else (0%Z, 0%Q, MSX).

(** [list[i] = x], nothing if the list is shorter. *)
Definition set_nth (l : list Q) (i : nat) (x : Q) : list Q := <[i := x]> l.

(** [MSXsetpatternvalue(pat, period, value)] *)
Definition MSXsetpatternvalue (MSX : project) (pat period : Z) (value : Q) : Z * project :=
  (* --- check that pattern & period exists *)
  if negb (ProjectOpened MSX) then (ERR_MSX_NOT_OPENED, MSX)
  else if out_of_range pat (Npatterns MSX) then (ERR_INVALID_OBJECT_INDEX, MSX)
  else
    let p := Pattern MSX pat in
    if (period <=? 0)%Z || (p_length p <? period)%Z then (ERR_INVALID_OBJECT_PARAMS, MSX)
    else
      (* --- find desired time period in the pattern *)
      let '(current, _) := seek_period period 1 0 (p_first p) in
      let cells := match current with
                   | At pos => set_nth (p_first p) pos value
                   | _ => p_first p
                   end in
      (0%Z, with_Pattern MSX
              (updZ (Pattern MSX) pat
                 {| p_length := p_length p; p_interval := p_interval p;
                    p_first := cells; p_current := current |})).

(** The [for ( i = 0; i < len; i++ )] loop of [MSXsetpattern], [avail]
    being the number of [malloc]s that still succeed: [false] for the
    return of ERR_MEMORY, with the pattern as it is left. *)
Fixpoint append_multipliers (avail : nat) (mult : nat -> Q) (i count : nat) (p : Spattern)
    {struct count} : bool * Spattern :=
  match count with
  | O => (true, p)
  | S count' =>
    match avail with
    | O => (false, p)
    | S avail' =>
      append_multipliers avail' mult (S i) count'
        {| p_length := (p_length p + 1)%Z; p_interval := p_interval p;
           p_first := p_first p ++ [mult i];
           p_current := At (length (p_first p)) |}
    end
  end.

(** [MSXsetpattern(pat, mult, len)] *)
Definition MSXsetpattern (avail : nat) (MSX : project) (pat : Z) (mult : nat -> Q) (len : Z)
  : Z * project :=
  (* --- check that pattern exists *)
  if negb (ProjectOpened MSX) then (ERR_MSX_NOT_OPENED, MSX)
  else if out_of_range pat (Npatterns MSX) then (ERR_INVALID_OBJECT_INDEX, MSX)
  else
    let len := if (len <? 0)%Z then 0%Z else len in
    let p := Pattern MSX pat in
    (* --- delete current multipliers *)
    let p := {| p_length := 0; p_interval := p_interval p; p_first := [];
                p_current := match p_current p with
                             | At _ => Dangling
                             | current => current
                             end |} in
    (* --- create a new set of multipliers *)
    match append_multipliers avail mult 0 (Z.to_nat len) p with
    | (false, p) => (ERR_MEMORY, with_Pattern MSX (updZ (Pattern MSX) pat p))
    | (true, p) =>
      (0%Z, with_Pattern MSX
              (updZ (Pattern MSX) pat
                 {| p_length := p_length p; p_interval := 0; p_first := p_first p;
                    p_current := match p_first p with [] => Null | _ => At 0 end |}))
    end.

(** A project with two constants, one link, two nodes of which the second
    is tank 1, a bulk and a wall species, one parameter and one pattern of
    two multipliers. *)
Definition small_project : project :=
  {| ProjectOpened := true; Nnodes := 2; Nlinks := 1; Nspecies := 2; Nparams := 1;
     Nconsts := 2; Npatterns := 1;
     Species_type := fun m => if (m =? 1)%Z then BULK else WALL;
     Const_value := fun _ => 0%Q;
     Node_tank := fun i => if (i =? 2)%Z then 1%Z else 0%Z;
     Node_c0 := fun _ _ => 0%Q; Node_sources := fun _ => [];
     Link_c0 := fun _ _ => 0%Q; Link_param := fun _ _ => 0%Q; Tank_param := fun _ _ => 0%Q;
     Pattern := fun _ => {| p_length := 2; p_interval := 0; p_first := [1%Q; 2%Q];
                            p_current := At 0 |} |}.

End Toolkit.

(** ** Parsing a formula into postfix form (mathexpr.c, mathexpr_create) *)

Module MathTree.

(** Binary tree representation of a math expression; [Null] is the NULL
    pointer. *)
Inductive ExprTree :=
| Null
| Node (opcode ivar : Z) (fvalue : Q) (left_ right_ : ExprTree).

(** What one call of [getLex] finds in the formula: the code it returns,
    and the values of [Ivar] and [Fvalue] when it returns.  The lexer
    reads the characters without looking at the state of the parser, so
    a formula is as good as the list of its lexemes. *)
Record Lexeme := {
  lx_code : Z;
  lx_ivar : Z;
  lx_fvalue : Q
}.

(** The local variables of mathexpr.c the parser works with; [rest] is
    what the lexer has still to read, from [Pos] to [Len]. *)
Record parser := {
  rest : list Lexeme;
  PrevLex : Z;
  CurLex : Z;
  Ivar : Z;
  Fvalue : Q;
  Bc : Z;
  Err : Z
}.

Definition set_Bc (p : parser) (n : Z) : parser :=
  {| rest := rest p; PrevLex := PrevLex p; CurLex := CurLex p; Ivar := Ivar p;
     Fvalue := Fvalue p; Bc := n; Err := Err p |}.

Definition set_Err (p : parser) (n : Z) : parser :=
  {| rest := rest p; PrevLex := PrevLex p; CurLex := CurLex p; Ivar := Ivar p;
     Fvalue := Fvalue p; Bc := Bc p; Err := n |}.

(** [getLex()]: at the end of the formula it returns 0 and leaves
    [PrevLex] and [CurLex] alone. *)
Definition getLex (p : parser) : Z * parser :=
  match rest p with
  | [] => (0%Z, p)
  | t :: more =>
    (lx_code t,
     {| rest := more; PrevLex := CurLex p; CurLex := lx_code t; Ivar := lx_ivar t;
        Fvalue := lx_fvalue t; Bc := Bc p; Err := Err p |})
  end.

(** The end of [getSingleOp], from the second [getLex] on; [getSingleOp]
    is the function itself, for the operand behind a [^]. *)
Definition exponentiation (getSingleOp : Z -> parser -> option (ExprTree * Z * parser))
    (left_ : ExprTree) (p : parser) : option (ExprTree * Z * parser) :=
  let '(lex, p) := getLex p in
  (* --- exponentiation *)
  if (lex =? 31)%Z then
    let '(lex', p) := getLex p in
    match getSingleOp lex' p with
    | Some (right_, lex', p) => Some (Node lex (-1) 0 left_ right_, lex', p)
    | None => None
    end
  else Some (left_, lex, p).

(** [getSingleOp], [getOp] and [getTree] call each other; [fuel] bounds
    the depth of the calls, a turn of a loop counting as a call.  A
    function that takes [int* lex] gets the value and gives the new one
    back.  A node from [newNode()] has opcode 0, variable index -1, value
    0 and no sub-tree; the [malloc] in it is taken to succeed, as the
    parser takes it (it uses the node without a test). *)
Fixpoint getSingleOp (fuel : nat) (lex : Z) (p : parser) {struct fuel}
  : option (ExprTree * Z * parser) :=
  match fuel with
  | O => None
  | S fuel =>
    let exponentiation := exponentiation (getSingleOp fuel) in
    (* --- open parenthesis, so continue to grow the tree *)
    if (lex =? 1)%Z then
      match getTree fuel (set_Bc p (Bc p + 1)) with
      | Some (left_, p) => exponentiation left_ p
      | None => None
      end
    (* --- Error if not a singleton operand *)
    else if (lex <? 7)%Z || (lex =? 9)%Z || (30 <? lex)%Z then Some (Null, lex, set_Err p 1)
    (* --- simple number or variable name *)
    else if (lex =? 7)%Z || (lex =? 8)%Z then
      exponentiation
        (Node lex (if (lex =? 8)%Z then Ivar p else (-1)%Z)
              (if (lex =? 7)%Z then Fvalue p else 0%Q) Null Null) p
    (* --- function which must have a '(' after it *)
    else
      let opcode := lex in
      let '(lex, p) := getLex p in
      if negb (lex =? 1)%Z then Some (Null, lex, set_Err p 1)
      else
        match getTree fuel (set_Bc p (Bc p + 1)) with
        | Some (left_, p) => exponentiation (Node opcode (-1) 0 left_ Null) p
        | None => None
        end
  end

(** The [while] loop of [getOp] for the operators 5 and 6; the flag says
    whether the loop has left [getOp] with [return NULL]. *)
with op_loop (fuel : nat) (left_ : ExprTree) (lex : Z) (p : parser) {struct fuel}
  : option (bool * ExprTree * Z * parser) :=
  match fuel with
  | O => None
  | S fuel =>
    if (lex =? 5)%Z || (lex =? 6)%Z then
      let opcode := lex in
      let '(lex, p) := getLex p in
      match getSingleOp fuel lex p with
      | Some (right_, lex, p) =>
        if negb (Err p =? 0)%Z then Some (true, Null, lex, p)
        else op_loop fuel (Node opcode (-1) 0 left_ right_) lex p
      | None => None
      end
    else Some (false, left_, lex, p)
  end

with getOp (fuel : nat) (p : parser) {struct fuel} : option (ExprTree * Z * parser) :=
  match fuel with
  | O => None
  | S fuel =>
    let '(lex, p) := getLex p in
    let '(neg, lex, p) :=
      if (PrevLex p =? 0)%Z || (PrevLex p =? 1)%Z then
        if (lex =? 4)%Z then let '(lex, p) := getLex p in (true, lex, p)
        else if (lex =? 3)%Z then let '(lex, p) := getLex p in (false, lex, p)
        else (false, lex, p)
      else (false, lex, p) in
    match getSingleOp fuel lex p with
    | Some (left_, lex, p) =>
      match op_loop fuel left_ lex p with
      | Some (true, _, lex, p) => Some (Null, lex, p)
      | Some (false, left_, lex, p) =>
        if neg then
          if negb (Err p =? 0)%Z then Some (Null, lex, p)
          else Some (Node 9 (-1) 0 left_ Null, lex, p)
        else Some (left_, lex, p)
      | None => None
      end
    | None => None
    end
  end

(** The [for (;;)] loop of [getTree]. *)
with tree_loop (fuel : nat) (left_ : ExprTree) (lex : Z) (p : parser) {struct fuel}
  : option (ExprTree * parser) :=
  match fuel with
  | O => None
  | S fuel =>
    if (lex =? 0)%Z || (lex =? 2)%Z
    then Some (left_, if (lex =? 2)%Z then set_Bc p (Bc p - 1) else p)
    else if negb (lex =? 3)%Z && negb (lex =? 4)%Z then Some (left_, set_Err p 1)
    else
      let opcode := lex in
      match getOp fuel p with
      | Some (right_, lex, p) =>
        if negb (Err p =? 0)%Z then Some (left_, p)
        else tree_loop fuel (Node opcode (-1) 0 left_ right_) lex p
      | None => None
      end
  end

with getTree (fuel : nat) (p : parser) {struct fuel} : option (ExprTree * parser) :=
  match fuel with
  | O => None
  | S fuel =>
    match getOp fuel p with
    | Some (left_, lex, p) => tree_loop fuel left_ lex p
    | None => None
    end
  end.

(** [traverseTree(tree, &expr)], for [malloc]s that succeed: [expr] is
    the list that ends in the node [*expr]. *)
Fixpoint traverseTree (tree : ExprTree) (expr : MathExpr.MathExpr) : MathExpr.MathExpr :=
  match tree with
  | Null => expr
  | Node opcode ivar fvalue left_ right_ =>
    let expr := traverseTree left_ expr in
    let expr := traverseTree right_ expr in
    expr ++ [{| MathExpr.opcode := opcode; MathExpr.ivar := ivar; MathExpr.fvalue := fvalue |}]
  end.

(** The depth of calls the parser can reach on a formula of [n]
    lexemes. *)
Definition depth (n : nat) : nat := 3 * n + 3.

(** [mathexpr_create(formula, getVar)]: the list from its first node on,
    the empty list for NULL. *)
Definition mathexpr_create (formula : list Lexeme) : option MathExpr.MathExpr :=
  let p := {| rest := formula; PrevLex := 0; CurLex := 0; Ivar := 0; Fvalue := 0;
              Bc := 0; Err := 0 |} in
  match getTree (depth (length formula)) p with
  | Some (tree, p) =>
    Some (if (Bc p =? 0)%Z && (Err p =? 0)%Z then traverseTree tree [] else [])
  | None => None
  end.

(** What the operators mean. *)
Definition binary_value (libm : MathExpr.Libm) (opcode : Z) (a b : Q) : Q :=
  match opcode with
  | 3%Z => (a + b)%Q
  | 4%Z => (a - b)%Q
  | 5%Z => (a * b)%Q
  | 6%Z => (a / b)%Q
  | _ => (if Qle_bool a 0 then 0 else MathExpr.m_pow libm a b)%Q
  end.

Definition unary_value (libm : MathExpr.Libm) (opcode : Z) (a : Q) : Q :=
  let exp := MathExpr.m_exp libm in
  match opcode with
  | 9%Z => (- a)%Q
  | 10%Z => (MathExpr.m_cos libm a)%Q
  | 11%Z => (MathExpr.m_sin libm a)%Q
  | 12%Z => (MathExpr.m_tan libm a)%Q
  | 13%Z => (1 / MathExpr.m_tan libm a)%Q
  | 14%Z => (Qabs a)%Q
  | 15%Z => (MathExpr.sgn a)%Q
  | 16%Z => (MathExpr.m_sqrt libm a)%Q
  | 17%Z => (MathExpr.m_log libm a)%Q
  | 18%Z => (exp a)%Q
  | 19%Z => (MathExpr.m_asin libm a)%Q
  | 20%Z => (MathExpr.m_acos libm a)%Q
  | 21%Z => (MathExpr.m_atan libm a)%Q
  | 22%Z => ((157079632679489661923 # 100000000000000000000) - MathExpr.m_atan libm a)%Q
  | 23%Z => ((exp a - exp (- a)) / 2)%Q
  | 24%Z => ((exp a + exp (- a)) / 2)%Q
  | 25%Z => ((exp a - exp (- a)) / (exp a + exp (- a)))%Q
  | 26%Z => ((exp a + exp (- a)) / (exp a - exp (- a)))%Q
  | 27%Z => (MathExpr.m_log10 libm a)%Q
  | 28%Z => (MathExpr.step_fn a)%Q
  | _ => (a)%Q
  end.

Definition is_leaf (opcode : Z) : bool := (opcode =? 7)%Z || (opcode =? 8)%Z.
Definition is_binary (opcode : Z) : bool :=
  ((3 <=? opcode)%Z && (opcode <=? 6)%Z) || (opcode =? 31)%Z.
Definition is_unary (opcode : Z) : bool := (9 <=? opcode)%Z && (opcode <=? 30)%Z.

(** The value of the expression a tree stands for. *)
Fixpoint tree_value (libm : MathExpr.Libm) (getVariableValue : option (Z -> Q))
    (tree : ExprTree) : Q :=
  match tree with
  | Null => 0%Q
  | Node opcode ivar fvalue left_ right_ =>
    if (opcode =? 7)%Z then fvalue
    else if (opcode =? 8)%Z then
      match getVariableValue with
      | Some g => g ivar
      | None => 0%Q
      end
    else if is_binary opcode
    then binary_value libm opcode (tree_value libm getVariableValue left_)
                      (tree_value libm getVariableValue right_)
    else unary_value libm opcode (tree_value libm getVariableValue left_)
  end.

(** The arguments on which a sign or a function gives a finite number in
    C: [cot], [tanh] and [coth] divide, and the square root, the
    logarithms and the inverse sine and cosine have their domains. *)
Definition in_domain (libm : MathExpr.Libm) (opcode : Z) (a : Q) : bool :=
  let exp := MathExpr.m_exp libm in
  match opcode with
  | 13%Z => negb (Qeq_bool (MathExpr.m_tan libm a) 0)
  | 16%Z => Qle_bool 0 a
  | 17%Z | 27%Z => Qlt_bool 0 a
  | 19%Z | 20%Z => Qle_bool (-1) a && Qle_bool a 1
  | 25%Z => negb (Qeq_bool (exp a + exp (- a)) 0)
  | 26%Z => negb (Qeq_bool (exp a - exp (- a)) 0)
  | _ => true
  end.

(** An expression whose evaluation stays among the finite numbers: no
    quotient has the divisor 0 and every function gets an argument of its
    domain.  Where this fails, mathexpr.c goes on with an infinity or a
    NaN, which no rational stands for. *)
Fixpoint finite (libm : MathExpr.Libm) (getVariableValue : option (Z -> Q))
    (tree : ExprTree) : bool :=
  match tree with
  | Null => true
  | Node opcode _ _ left_ right_ =>
    finite libm getVariableValue left_ && finite libm getVariableValue right_ &&
    if is_leaf opcode then true
    else if is_binary opcode
    then if (opcode =? 6)%Z
         then negb (Qeq_bool (tree_value libm getVariableValue right_) 0)
         else true
    else in_domain libm opcode (tree_value libm getVariableValue left_)
  end.

(** The trees the parser makes when it finds no error: a number or a
    variable has no operand, a sign or a function has one, on the left,
    and an operator has two. *)
Fixpoint complete (tree : ExprTree) : bool :=
  match tree with
  | Null => false
  | Node opcode _ _ left_ right_ =>
    if is_leaf opcode then
      match left_, right_ with Null, Null => true | _, _ => false end
    else if is_binary opcode then complete left_ && complete right_
    else if is_unary opcode then
      match right_ with Null => complete left_ | _ => false end
    else false
  end.

(** The number of nodes, and the number of stack cells the postfix form
    of the tree needs. *)
Fixpoint size (tree : ExprTree) : nat :=
  match tree with
  | Null => O
  | Node _ _ _ left_ right_ => S (size left_ + size right_)
  end.

Fixpoint stack_need (tree : ExprTree) : nat :=
  match tree with
  | Null => O
  | Node opcode _ _ left_ right_ =>
    if is_leaf opcode then 1%nat
    else Nat.max (stack_need left_) (stack_need right_ + (if is_binary opcode then 1 else 0))
  end.

(** A lexeme code other than 0 stands for a lexeme that was read. *)
Definition held (lex : Z) : nat := if (lex =? 0)%Z then 0%nat else 1%nat.

(** The lexemes of a number, a variable and an operator or function. *)
Definition number (x : Q) : Lexeme := {| lx_code := 7; lx_ivar := 0; lx_fvalue := x |}.
Definition variable (i : Z) : Lexeme := {| lx_code := 8; lx_ivar := i; lx_fvalue := 0 |}.
Definition symbol (code : Z) : Lexeme := {| lx_code := code; lx_ivar := 0; lx_fvalue := 0 |}.

(** The formula [x1 - 2 * (x2 + 3)] and its tree. *)
Definition difference_formula : list Lexeme :=
  [variable 1; symbol 4; number 2; symbol 5; symbol 1; variable 2; symbol 3; number 3;
   symbol 2].

Definition difference : ExprTree :=
  Node 4 (-1) 0 (Node 8 1 0 Null Null)
       (Node 5 (-1) 0 (Node 7 (-1) 2 Null Null)
             (Node 3 (-1) 0 (Node 8 2 0 Null Null) (Node 7 (-1) 3 Null Null))).

(** The tree of [(x1 - 3) / 2]. *)
Definition halved : ExprTree :=
  Node 6 (-1) 0
       (Node 4 (-1) 0 (Node 8 1 0 Null Null) (Node 7 (-1) 3 Null Null))
       (Node 7 (-1) 2 Null Null).

End MathTree.

(** ** The Jacobian of an affine system (msxutils.c, jacobian) *)

Module Affine.

(** A system of [n] functions that is affine with matrix [A]: between two
    points that differ in the unknown [j] only, function [i] changes by
    [A i j] times the change of that unknown, whatever the array it is
    written to held before. *)
Definition affine (n : nat) (A : matrix) (func : LinAlg.callback) : Prop :=
  forall (x x' f w : vec) (i j : nat),
    (1 <= i <= n)%nat -> (1 <= j <= n)%nat ->
    (forall k, k <> j -> x k = x' k) ->
    (func 0%Q x n f i - func 0%Q x' n w i == A i j * (x j - x' j))%Q.

End Affine.

(** ** The order of the nodes on a network without loops of flow *)

Module Topo.

(** Link [k] carries flow, from its [upstream] to its [downstream] node. *)
Definition flows (net : Sort.network) (k : nat) : bool :=
  match Sort.FlowDir net k with
  | ZERO_FLOW => false
  | _ => true
  end.

Definition upstream (net : Sort.network) (k : nat) : nat :=
  match Sort.FlowDir net k with
  | NEGATIVE => Sort.n2 net k
  | _ => Sort.n1 net k
  end.

Definition downstream (net : Sort.network) (k : nat) : nat :=
  match Sort.FlowDir net k with
  | NEGATIVE => Sort.n1 net k
  | _ => Sort.n2 net k
  end.

(** Link [k] ends at node [i]. *)
Definition incident (net : Sort.network) (i k : nat) : bool :=
  Nat.eqb (Sort.n1 net k) i || Nat.eqb (Sort.n2 net k) i.

(** The number of the elements of a list that pass a test. *)
Fixpoint tally {A : Type} (f : A -> bool) (l : list A) : nat :=
  match l with
  | [] => O
  | x :: l' => ((if f x then 1 else 0) + tally f l')%nat
  end.

(** The adjacency list of a node holds the links that end at the node,
    each of them once. *)
Definition adjacency_ok (net : Sort.network) : Prop :=
  forall i, (1 <= i <= Sort.Nnodes net)%nat ->
    map Sort.adj_link (Sort.Adjlist net i)
    ≡ₚ List.filter (incident net i) (seq 1 (Sort.Nlinks net)).

(** [buildadjlists()] of msxproj.c, the allocations succeeding: each
    link is put in front of the lists of its two end nodes. *)
Definition buildadjlists (net : Sort.network) : nat -> list Sort.Sadjlist :=
  for_to 1 (Sort.Nlinks net)
    (fun k Adjlist =>
       let i := Sort.n1 net k in
       let j := Sort.n2 net k in
       (* Include link in start node i's list *)
       let Adjlist := upd Adjlist i ({| Sort.adj_node := j; Sort.adj_link := k |} :: Adjlist i) in
       (* Include link in end node j's list *)
       upd Adjlist j ({| Sort.adj_node := i; Sort.adj_link := k |} :: Adjlist j))
    (fun _ => []).

(** The network with the adjacency lists that [buildadjlists] makes. *)
Definition with_adjlists (net : Sort.network) : Sort.network :=
  {| Sort.Nnodes := Sort.Nnodes net; Sort.Nlinks := Sort.Nlinks net;
     Sort.n1 := Sort.n1 net; Sort.n2 := Sort.n2 net; Sort.FlowDir := Sort.FlowDir net;
     Sort.Adjlist := buildadjlists net |}.

(** The entries link [k] gets in the list of node [i]. *)
Definition ends (net : Sort.network) (i k : nat) : list nat :=
  (if Nat.eqb (Sort.n1 net k) i then [k] else []) ++
  (if Nat.eqb (Sort.n2 net k) i then [k] else []).

(** No flow comes back to where it started: along every link with flow
    the [rank] goes up. *)
Definition acyclic (net : Sort.network) (rank : nat -> nat) : Prop :=
  forall k, (1 <= k <= Sort.Nlinks net)%nat -> flows net k = true ->
    (rank (upstream net k) < rank (downstream net k))%nat.

(** The inflow links of node [n] whose upstream node is not among the
    nodes [sorted]. *)
Definition pending (net : Sort.network) (sorted : list nat) (n : nat) : nat :=
  tally (fun k => flows net k && Nat.eqb (downstream net k) n
                  && negb (bool_decide (upstream net k ∈ sorted)))
        (seq 1 (Sort.Nlinks net)).

(** In the order [sorted] the upstream node of every link with flow
    comes before its downstream node. *)
Definition upstream_first (net : Sort.network) (sorted : nat -> nat) : Prop :=
  forall k, (1 <= k <= Sort.Nlinks net)%nat -> flows net k = true ->
    exists p q, (1 <= p < q)%nat /\ (q <= Sort.Nnodes net)%nat /\
                sorted p = upstream net k /\ sorted q = downstream net k.

(** Node 1 feeds nodes 2 and 3, node 2 feeds node 3 through a link that
    runs in reverse, and the link to node 4 is closed. *)
Definition branched : Sort.network :=
  Sort.of_links 4 [(1, 2, POSITIVE); (3, 2, NEGATIVE); (1, 3, POSITIVE); (3, 4, ZERO_FLOW)]%nat.

End Topo.

(** ** A completely mixed tank (msxtank.c, MSXtank_mix1) *)

Module Tank.

Definition MAX (x y : Q) : Q := if Qge_bool x y then x else y.

Section Mix.

Variable Nspecies : nat.                 (* MSX.Nobjects[SPECIES] *)
Variable Species : nat -> Sspecies.      (* MSX.Species *)
(** [MSXchem_equil(NODE, i, c)], as what it makes of the array [c]. *)
Variable MSXchem_equil : vec -> vec.

(** The concentration of a bulk species after the inflow is blended
    with the contents of the segment. *)
Definition blend (seg : Pipe.segment) (vin : Q) (massin : vec) (m : nat) : Q :=
  let vnew := (Pipe.seg_v seg + vin)%Q in
  let c := Pipe.seg_c seg m in
  let c := if Qgt_bool vnew 0
           then ((c * Pipe.seg_v seg * Pipe.LperFT3 + massin m) / (vnew * Pipe.LperFT3))%Q
           else c in
  MAX 0 c.

(** [MSXtank_mix1(i, vin, massin, vnet)] on the segment [FirstSeg[k]] of
    the tank ([None] for NULL) and on [MSX.Tank[i].c]. *)
Definition MSXtank_mix1 (seg : option Pipe.segment) (tank_c : vec) (vin : Q) (massin : vec)
    (vnet : Q) : option Pipe.segment * vec :=
  (* --- blend inflow with contents *)
  let '(seg, tank_c) :=
    match seg with
    | Some seg =>
      let '(c, tank_c) :=
        for_to 1 Nspecies
          (fun m '(c, tank_c) =>
             if decide (sp_type (Species m) = BULK)
             then
               let x := blend {| Pipe.seg_v := Pipe.seg_v seg; Pipe.seg_c := c |} vin massin m in
               (upd c m x, upd tank_c m x)
             else (c, tank_c))
          (Pipe.seg_c seg, tank_c) in
      (Some {| Pipe.seg_v := MAX 0 (Pipe.seg_v seg + vnet); Pipe.seg_c := c |}, tank_c)
    | None => (None, tank_c)
    end in
  (* --- update species equilibrium *)
  (seg, if Qgt_bool vin 0 then MSXchem_equil tank_c else tank_c).

End Mix.

End Tank.

(** * Properties *)


(** ** Arrays and counted loops *)

Lemma upd_same {A : Type} (a : nat -> A) i x : upd a i x i = x.
Proof. unfold upd. now rewrite Nat.eqb_refl. Qed.

Lemma upd_other {A : Type} (a : nat -> A) i j x : j <> i -> upd a i x j = a j.
Proof.
  intros Hne. unfold upd.
  destruct (Nat.eqb_spec j i) as [->|_]; [contradiction | reflexivity].
Qed.

Lemma set_cell_same (a : matrix) i j x : set_cell a i j x i j = x.
Proof. unfold set_cell. now rewrite !upd_same. Qed.

Lemma Qlt_bool_iff x y : Qlt_bool x y = true <-> (x < y)%Q.
Proof.
  unfold Qlt_bool. rewrite negb_true_iff, <- not_true_iff_false, Qle_bool_iff.
  split; [apply Qnot_le_lt | apply Qlt_not_le].
Qed.

Lemma Qgt_bool_iff x y : Qgt_bool x y = true <-> (y < x)%Q.
Proof. apply Qlt_bool_iff. Qed.

Lemma for_loop_snoc {S : Type} (body : nat -> S -> S) count lo s :
  for_loop lo (Datatypes.S count) body s
  = body (lo + count)%nat (for_loop lo count body s).
Proof.
  revert lo s. induction count as [|c IH]; intros lo s.
  - simpl. now rewrite Nat.add_0_r.
  - change (for_loop lo (Datatypes.S (Datatypes.S c)) body s)
      with (for_loop (Datatypes.S lo) (Datatypes.S c) body (body lo s)).
    rewrite IH. simpl. now rewrite Nat.add_succ_r.
Qed.

(** A loop invariant rule for counted loops. *)
Lemma for_loop_inv {S : Type} (P : nat -> S -> Prop) (body : nat -> S -> S) :
  forall count lo s,
    P lo s ->
    (forall i t, (lo <= i < lo + count)%nat -> P i t -> P (Datatypes.S i) (body i t)) ->
    P (lo + count)%nat (for_loop lo count body s).
Proof.
  induction count as [|c IH]; intros lo s H0 Hstep.
  - now rewrite Nat.add_0_r.
  - simpl. rewrite <- Nat.add_succ_comm. apply IH.
    + apply Hstep; [lia | exact H0].
    + intros i t Hi. apply Hstep. lia.
Qed.

(** ** Node quality query *)

Example getNodeQual_bulk_junction :
  NodeQual.MSXqual_getNodeQual
    {| NodeQual.Species := fun _ => {| aTol := 0%Q; sp_type := BULK |};
       NodeQual.Node := fun _ => {| node_c := fun _ => (7#2)%Q; node_c0 := fun _ => (0)%Q; node_tank := 0%Z |};
       NodeQual.Tank := fun _ => {| tank_node := O; tank_a := (0)%Q; tank_c := fun _ => (5)%Q; tank_reacted := fun _ => (0)%Q |} |}
    1%nat 1%nat = (7#2)%Q.
Proof. reflexivity. Qed.

Example getNodeQual_bulk_tank :
  NodeQual.MSXqual_getNodeQual
    {| NodeQual.Species := fun _ => {| aTol := 0%Q; sp_type := BULK |};
       NodeQual.Node := fun _ => {| node_c := fun _ => (7#2)%Q; node_c0 := fun _ => (0)%Q; node_tank := 1%Z |};
       NodeQual.Tank := fun _ => {| tank_node := 1%nat; tank_a := (10)%Q; tank_c := fun _ => (5)%Q; tank_reacted := fun _ => (0)%Q |} |}
    1%nat 1%nat = 5%Q.
Proof. reflexivity. Qed.

(** C10: for every node index [j] and every species index [m] whose kind
    is WALL, the node-quality query returns exactly 0, whatever the node's
    stored concentrations and whatever the state of its tank. *)
Theorem getNodeQual_wall_zero (MSX : NodeQual.project) (j m : nat) :
  sp_type (NodeQual.Species MSX m) = WALL ->
  NodeQual.MSXqual_getNodeQual MSX j m = 0%Q.
Proof.
  intros Hwall. unfold NodeQual.MSXqual_getNodeQual.
  destruct (decide (sp_type (NodeQual.Species MSX m) = WALL)) as [_|Hne];
    [reflexivity | contradiction].
Qed.

Lemma getNodeQual_wall_zero_witness :
  NodeQual.MSXqual_getNodeQual
    {| NodeQual.Species := fun _ => {| aTol := 0%Q; sp_type := WALL |};
       NodeQual.Node := fun _ => {| node_c := fun _ => (7#2)%Q; node_c0 := fun _ => (1)%Q; node_tank := 1%Z |};
       NodeQual.Tank := fun _ => {| tank_node := 1%nat; tank_a := (10)%Q; tank_c := fun _ => (5)%Q; tank_reacted := fun _ => (0)%Q |} |}
    1%nat 1%nat = 0%Q.
Proof. apply getNodeQual_wall_zero. reflexivity. Defined.

(** ** Final mass balance *)

Lemma balance_species_other MSX m j mb :
  j <> m ->
  mb_ratio (MassBal.balance_species MSX m mb) j = mb_ratio mb j.
Proof.
  intros Hne. unfold MassBal.balance_species.
  destruct (Qlt_bool _ _); simpl; now rewrite upd_other.
Qed.

Lemma balance_species_keeps MSX m mb :
  let mb' := MassBal.balance_species MSX m mb in
  mb_initial mb' = mb_initial mb /\ mb_inflow mb' = mb_inflow mb /\
  mb_indisperse mb' = mb_indisperse mb /\ mb_outflow mb' = mb_outflow mb /\
  mb_final mb' = mb_final mb.
Proof.
  unfold MassBal.balance_species. destruct (Qlt_bool _ _); simpl; repeat split.
Qed.

(** The ratio one pass of the species loop leaves in slot [m]. *)
Lemma balance_species_ratio MSX m mb :
  mb_ratio (MassBal.balance_species MSX m mb) m =
  let sreacted := MassBal.sum_reacted MSX m in
  let num := (mb_outflow mb m + mb_final mb m + MassBal.reacted_loss sreacted)%Q in
  let den := (mb_initial mb m + mb_inflow mb m + mb_indisperse mb m
              + MassBal.reacted_gain sreacted)%Q in
  if Qeq_bool den 0 then 1%Q
  else if Qlt_bool sreacted 0
       then ((mb_outflow mb m + mb_final mb m - sreacted)
             / (mb_initial mb m + mb_inflow mb m + mb_indisperse mb m))%Q
       else ((mb_outflow mb m + mb_final mb m)
             / (mb_initial mb m + mb_inflow mb m + mb_indisperse mb m + sreacted))%Q.
Proof.
  unfold MassBal.balance_species, MassBal.reacted_gain, MassBal.reacted_loss. cbv zeta.
  destruct (Qlt_bool (MassBal.sum_reacted MSX m) 0) eqn:Hneg; simpl; rewrite upd_same.
  - assert (Heq : Qeq_bool (mb_initial mb m + mb_inflow mb m + mb_indisperse mb m + 0) 0
                  = Qeq_bool (mb_initial mb m + mb_inflow mb m + mb_indisperse mb m) 0).
    { apply eq_true_iff_eq. rewrite !Qeq_bool_iff. now rewrite Qplus_0_r. }
    now rewrite Heq.
  - reflexivity.
Qed.

(** The species loop, seen from slot [m]: every pass but the [m]-th
    leaves the slot and the five accumulators alone. *)
Lemma balance_loop_ratio MSX mb count lo m :
  (lo <= m < lo + count)%nat ->
  mb_ratio (for_loop lo count (MassBal.balance_species MSX) mb) m
  = mb_ratio (MassBal.balance_species MSX m mb) m.
Proof.
  revert lo mb. induction count as [|c IH]; intros lo mb Hm; [lia|].
  rewrite for_loop_snoc.
  destruct (Nat.eq_dec m (lo + c)) as [->|Hne].
  - clear IH Hm.
    assert (Hkeep : forall n (b : SmassBalance),
              let b' := for_loop lo n (MassBal.balance_species MSX) b in
              mb_initial b' = mb_initial b /\ mb_inflow b' = mb_inflow b /\
              mb_indisperse b' = mb_indisperse b /\ mb_outflow b' = mb_outflow b /\
              mb_final b' = mb_final b).
    { clear. intros n. revert lo. induction n as [|n IHn]; intros lo b; [now simpl|].
      simpl. destruct (IHn (Datatypes.S lo) (MassBal.balance_species MSX lo b))
        as (H1 & H2 & H3 & H4 & H5).
      destruct (balance_species_keeps MSX lo b) as (K1 & K2 & K3 & K4 & K5).
      cbv zeta in *. repeat split; congruence. }
    destruct (Hkeep c mb) as (H1 & H2 & H3 & H4 & H5). cbv zeta in *.
    rewrite !balance_species_ratio. cbv zeta. now rewrite H1, H2, H3, H4, H5.
  - rewrite balance_species_other by exact Hne. apply IH. lia.
Qed.

Example decay_project_ratio :
  mb_ratio (snd (MassBal.step_finalize (fun _ _ => 3%Q) MassBal.decay_project)) 1%nat == 1.
Proof. reflexivity. Qed.

(** C8, as amended: on finalization, for every species [m] whose
    denominator (initial stored + inflow + in-dispersed + net reacted gain)
    is not zero, the reported ratio is (outflow + final stored + net
    reacted loss) divided by that denominator, the total reacted mass over
    all links and tanks counting as a loss when negative and as a gain
    otherwise; when the denominator is zero the ratio is reported as 1. *)
Theorem step_finalize_ratio (findstoredmass : MassBal.project -> vec)
    (MSX : MassBal.project) (m : nat) :
  (MassBal.Dur MSX <= MassBal.Qtime MSX)%Z ->
  MassBal.Saveflag MSX = true ->
  (1 <= m <= MassBal.Nspecies MSX)%nat ->
  let ratio := mb_ratio (snd (MassBal.step_finalize findstoredmass MSX)) m in
  let num := MassBal.spec_numerator MSX (findstoredmass MSX) m in
  let den := MassBal.spec_denominator MSX m in
  (~ den == 0 -> ratio == num / den) /\ (den == 0 -> ratio == 1).
Proof.
  intros Hdur Hsave Hm. cbv zeta. unfold MassBal.step_finalize.
  assert (Htleft : Qle_bool (inject_Z (MassBal.Dur MSX - MassBal.Qtime MSX) / 1000) 0 = true).
  { apply Qle_bool_iff. unfold Qle. simpl. lia. }
  rewrite Htleft, Hsave. simpl snd. unfold for_to.
  rewrite balance_loop_ratio by lia.
  rewrite balance_species_ratio. cbv zeta.
  unfold MassBal.spec_numerator, MassBal.spec_denominator. simpl.
  set (den := (mb_initial _ m + mb_inflow _ m + mb_indisperse _ m + MassBal.reacted_gain _)%Q).
  destruct (Qeq_bool den 0) eqn:Hden.
  - apply Qeq_bool_iff in Hden. split; [intros Hn; contradiction | reflexivity].
  - split; [intros _ | intros Hz; apply Qeq_bool_iff in Hz; congruence].
    subst den. unfold MassBal.reacted_gain, MassBal.reacted_loss.
    destruct (Qlt_bool (MassBal.sum_reacted MSX m) 0).
    + unfold Qminus. now rewrite Qplus_0_r.
    + now rewrite Qplus_0_r.
Qed.

Lemma step_finalize_ratio_witness :
  let MSX := MassBal.decay_project in
  let f : MassBal.project -> vec := fun _ _ => 3%Q in
  (~ MassBal.spec_denominator MSX 1 == 0 ->
   mb_ratio (snd (MassBal.step_finalize f MSX)) 1%nat
   == MassBal.spec_numerator MSX (f MSX) 1 / MassBal.spec_denominator MSX 1) /\
  (MassBal.spec_denominator MSX 1 == 0 ->
   mb_ratio (snd (MassBal.step_finalize f MSX)) 1%nat == 1).
Proof.
  apply (step_finalize_ratio (fun _ _ => 3%Q) MassBal.decay_project 1%nat).
  - vm_compute. discriminate.
  - reflexivity.
  - simpl. lia.
Defined.

(** C8 as first stated fails where the denominator vanishes: for a
    species that was never present the code reports the ratio 1, which is
    not the quotient of the (zero) numerator by the (zero) denominator. *)
Lemma step_finalize_ratio_zero_denominator :
  let MSX := MassBal.empty_project in
  let f : MassBal.project -> vec := fun _ _ => 0%Q in
  let ratio := mb_ratio (snd (MassBal.step_finalize f MSX)) 1%nat in
  ratio == 1 /\
  MassBal.spec_denominator MSX 1 == 0 /\
  ~ ratio == MassBal.spec_numerator MSX (f MSX) 1 / MassBal.spec_denominator MSX 1.
Proof.
  cbv zeta. repeat split; vm_compute; congruence.
Qed.

(** ** Segment chains *)

Lemma set_links_id (s : Segs.Sseg) :
  Segs.set_links s (Segs.seg_prev s) (Segs.seg_next s) = s.
Proof. now destruct s. Qed.

Lemma set_links_twice (s : Segs.Sseg) a b c d :
  Segs.set_links (Segs.set_links s a b) c d = Segs.set_links s c d.
Proof. reflexivity. Qed.

(** The loop, on a chain whose [prev] pointers follow [l]: it ends within
    [length l] passes, touches only the segments of [l], and leaves in
    each the old [prev] as [next] and the predecessor in [l] as [prev]. *)
Lemma reverse_loop_spec (l : list nat) :
  forall (h : gmap nat Segs.Sseg) (pseg : Segs.Pseg) (fuel : nat),
    length l <= fuel ->
    NoDup l ->
    (forall (i p : nat), l !! i = Some p ->
       exists s, h !! p = Some s /\ Segs.seg_prev s = l !! (S i)) ->
    exists h',
      Segs.reverse_loop fuel h (head l) pseg = Some h' /\
      (forall p : nat, p ∉ l -> h' !! p = h !! p) /\
      (forall (i p : nat) (s : Segs.Sseg), l !! i = Some p -> h !! p = Some s ->
         h' !! p = Some (Segs.set_links s
                           (match i with O => pseg | S j => l !! j end)
                           (Segs.seg_prev s))).
Proof.
  induction l as [|p l IH]; intros h pseg fuel Hfuel Hnd Hprev.
  - exists h. simpl. destruct fuel; repeat split; auto; intros i p s Hi; inversion Hi.
  - destruct fuel as [|fuel]; [simpl in Hfuel; lia|].
    apply NoDup_cons in Hnd as [Hp Hnd].
    destruct (Hprev O p eq_refl) as (s & Hs & Hsp).
    simpl. rewrite Hs. simpl.
    replace (Segs.seg_prev s) with (head l) by (rewrite Hsp; now destruct l).
    destruct (IH (<[p := Segs.set_links s pseg (head l)]> h) (Some p) fuel)
      as (h' & Hrun & Hout & Hin).
    + simpl in Hfuel. lia.
    + exact Hnd.
    + intros i q Hq.
      destruct (Hprev (S i) q Hq) as (t & Ht & Htp).
      exists t. split; [|exact Htp].
      rewrite lookup_insert_ne; [exact Ht|].
      intros ->. apply Hp. apply list_elem_of_lookup. eauto.
    + exists h'. split; [exact Hrun|]. split.
      * intros q Hq. apply not_elem_of_cons in Hq as [Hne Hq].
        rewrite Hout by exact Hq. now apply lookup_insert_ne.
      * intros i q t Hi Ht. destruct i as [|i].
        -- injection Hi as <-. rewrite Hout by exact Hp.
           rewrite lookup_insert_eq. rewrite Hs in Ht. injection Ht as <-.
           f_equal. f_equal. rewrite Hsp. now destruct l.
        -- simpl in Hi.
           assert (Hne : p <> q).
           { intros ->. apply Hp. apply list_elem_of_lookup. eauto. }
           rewrite (Hin i q t Hi) by (now rewrite lookup_insert_ne).
           destruct i; reflexivity.
Qed.

(** What one reversal does to a well-formed chain. *)
Lemma reversesegs_spec (st : Segs.store) (k : nat) (l : list nat) (fuel : nat) :
  Segs.is_seglist st k l ->
  length l <= fuel ->
  exists st',
    Segs.MSXqual_reversesegs fuel k st = Some st' /\
    Segs.FirstSeg st' = upd (Segs.FirstSeg st) k (Segs.LastSeg st k) /\
    Segs.LastSeg st' = upd (Segs.LastSeg st) k (Segs.FirstSeg st k) /\
    (forall p : nat, p ∉ l -> Segs.heap st' !! p = Segs.heap st !! p) /\
    (forall (p : nat) (s : Segs.Sseg), p ∈ l -> Segs.heap st !! p = Some s ->
       Segs.heap st' !! p = Some (Segs.set_links s (Segs.seg_next s) (Segs.seg_prev s))).
Proof.
  intros (Hnd & Hfirst & Hlast & Hlinked) Hfuel.
  destruct (reverse_loop_spec l (Segs.heap st) None fuel Hfuel Hnd) as (h' & Hrun & Hout & Hin).
  { intros i p Hi. destruct (Hlinked i p Hi) as (s & Hs & Hp & _). eauto. }
  unfold Segs.MSXqual_reversesegs. rewrite Hfirst, Hrun. simpl.
  eexists. split; [reflexivity|]. simpl. rewrite <- Hfirst.
  repeat split; auto.
  intros p s Hp Hs. apply list_elem_of_lookup in Hp as [i Hi].
  rewrite (Hin i p s Hi Hs).
  destruct (Hlinked i p Hi) as (s' & Hs' & _ & Hnext).
  rewrite Hs in Hs'. injection Hs' as <-. now rewrite Hnext.
Qed.

(** The reversed chain is well formed again, for the reversed list. *)
Lemma reversesegs_is_seglist (st st' : Segs.store) (k : nat) (l : list nat) :
  Segs.is_seglist st k l ->
  Segs.FirstSeg st' k = Segs.LastSeg st k ->
  Segs.LastSeg st' k = Segs.FirstSeg st k ->
  (forall (p : nat) (s : Segs.Sseg), p ∈ l -> Segs.heap st !! p = Some s ->
     Segs.heap st' !! p = Some (Segs.set_links s (Segs.seg_next s) (Segs.seg_prev s))) ->
  Segs.is_seglist st' k (reverse l).
Proof.
  intros (Hnd & Hfirst & Hlast & Hlinked) HF HL Hin.
  split; [now rewrite reverse_Permutation|].
  split; [rewrite HF, Hlast; symmetry; apply head_reverse|].
  split; [rewrite HL, Hfirst; symmetry; apply last_reverse|].
  intros i p Hi.
  assert (Hlen : i < length l).
  { apply lookup_lt_Some in Hi. now rewrite length_reverse in Hi. }
  rewrite reverse_lookup in Hi by exact Hlen.
  destruct (Hlinked _ p Hi) as (s & Hs & Hprev & Hnext).
  exists (Segs.set_links s (Segs.seg_next s) (Segs.seg_prev s)).
  split; [apply Hin; [apply list_elem_of_lookup; eauto | exact Hs]|].
  simpl. split.
  - rewrite Hnext. destruct (length l - S i) as [|j] eqn:Hj.
    + symmetry. apply lookup_ge_None. rewrite length_reverse. lia.
    + rewrite reverse_lookup by lia. f_equal. lia.
  - rewrite Hprev. destruct i as [|i].
    + apply lookup_ge_None. lia.
    + rewrite reverse_lookup by lia. f_equal. lia.
Qed.

Example three_segs_well_formed : Segs.is_seglist Segs.three_segs 1 [5; 2; 9]%nat.
Proof.
  split; [|split; [reflexivity|split; [reflexivity|]]].
  - compute_done.
  - intros i p Hi.
    destruct i as [|[|[|i]]]; simplify_eq/=;
      eexists; (split; [reflexivity|split; reflexivity]).
Qed.

Example three_segs_reversed :
  (fun st => (Segs.FirstSeg st 1%nat, Segs.LastSeg st 1%nat,
              Segs.seg_prev <$> Segs.heap st !! 2%nat,
              Segs.seg_next <$> Segs.heap st !! 2%nat))
    <$> Segs.MSXqual_reversesegs 3 1 Segs.three_segs
  = Some (Some 9, Some 5, Some (Some 5), Some (Some 9))%nat.
Proof. reflexivity. Qed.

(** C9: on a link [k] whose segments form a well-formed doubly-linked
    chain [l] (read from FirstSeg[k] along prev to LastSeg[k]), one call of
    MSXqual_reversesegs(k) ends, leaves a well-formed chain that is exactly
    the reverse of [l], with head and tail swapped and every segment's prev
    and next exchanged, and a second call restores FirstSeg[k], LastSeg[k]
    and the whole pool of segments to their original values. *)
Theorem reversesegs_involution (st : Segs.store) (k : nat) (l : list nat) (fuel : nat) :
  Segs.is_seglist st k l ->
  length l <= fuel ->
  exists st1 st2,
    Segs.MSXqual_reversesegs fuel k st = Some st1 /\
    Segs.is_seglist st1 k (reverse l) /\
    Segs.FirstSeg st1 k = Segs.LastSeg st k /\
    Segs.LastSeg st1 k = Segs.FirstSeg st k /\
    (forall (p : nat) (s : Segs.Sseg), p ∈ l -> Segs.heap st !! p = Some s ->
       exists s1, Segs.heap st1 !! p = Some s1 /\
                  Segs.seg_prev s1 = Segs.seg_next s /\
                  Segs.seg_next s1 = Segs.seg_prev s) /\
    Segs.MSXqual_reversesegs fuel k st1 = Some st2 /\
    Segs.heap st2 = Segs.heap st /\
    (forall j : nat, Segs.FirstSeg st2 j = Segs.FirstSeg st j) /\
    (forall j : nat, Segs.LastSeg st2 j = Segs.LastSeg st j).
Proof.
  intros Hwf Hfuel.
  destruct (reversesegs_spec st k l fuel Hwf Hfuel) as (st1 & Hrun1 & HF1 & HL1 & Hout1 & Hin1).
  assert (HF1k : Segs.FirstSeg st1 k = Segs.LastSeg st k) by (rewrite HF1; apply upd_same).
  assert (HL1k : Segs.LastSeg st1 k = Segs.FirstSeg st k) by (rewrite HL1; apply upd_same).
  pose proof (reversesegs_is_seglist st st1 k l Hwf HF1k HL1k Hin1) as Hwf1.
  destruct (reversesegs_spec st1 k (reverse l) fuel Hwf1) as (st2 & Hrun2 & HF2 & HL2 & Hout2 & Hin2).
  { now rewrite length_reverse. }
  exists st1, st2. repeat (split; [assumption|]).
  split.
  { intros p s Hp Hs. eexists. split; [apply (Hin1 p s Hp Hs)|]. split; reflexivity. }
  split; [exact Hrun2|]. split; [|split].
  - apply map_eq. intros p. destruct (decide (p ∈ l)) as [Hp|Hp].
    + destruct Hwf as (_ & _ & _ & Hlinked).
      pose proof Hp as Hp'. apply list_elem_of_lookup in Hp' as [i Hi].
      destruct (Hlinked i p Hi) as (s & Hs & _).
      rewrite (Hin2 p _ (proj2 (elem_of_reverse p l) Hp) (Hin1 p s Hp Hs)).
      rewrite Hs. simpl. f_equal. now destruct s.
    + rewrite Hout2 by (now rewrite elem_of_reverse). now apply Hout1.
  - intros j. rewrite HF2, HL1, HF1. unfold upd.
    destruct (Nat.eqb j k) eqn:E; [|reflexivity]. rewrite Nat.eqb_refl.
    apply Nat.eqb_eq in E. now subst.
  - intros j. rewrite HL2, HF1, HL1. unfold upd.
    destruct (Nat.eqb j k) eqn:E; [|reflexivity]. rewrite Nat.eqb_refl.
    apply Nat.eqb_eq in E. now subst.
Qed.

Lemma reversesegs_involution_witness :
  let st := Segs.three_segs in
  let l := [5; 2; 9]%nat in
  exists st1 st2,
    Segs.MSXqual_reversesegs 3 1 st = Some st1 /\
    Segs.is_seglist st1 1 (reverse l) /\
    Segs.FirstSeg st1 1%nat = Segs.LastSeg st 1%nat /\
    Segs.LastSeg st1 1%nat = Segs.FirstSeg st 1%nat /\
    (forall (p : nat) (s : Segs.Sseg), p ∈ l -> Segs.heap st !! p = Some s ->
       exists s1, Segs.heap st1 !! p = Some s1 /\
                  Segs.seg_prev s1 = Segs.seg_next s /\
                  Segs.seg_next s1 = Segs.seg_prev s) /\
    Segs.MSXqual_reversesegs 3 1 st1 = Some st2 /\
    Segs.heap st2 = Segs.heap st /\
    (forall j : nat, Segs.FirstSeg st2 j = Segs.FirstSeg st j) /\
    (forall j : nat, Segs.LastSeg st2 j = Segs.LastSeg st j).
Proof.
  apply (reversesegs_involution Segs.three_segs 1 [5; 2; 9]%nat 3).
  - exact three_segs_well_formed.
  - simpl. lia.
Defined.

(** X9: [MSXqual_addSeg] with a segment that is not on the chain turns a
    well-linked chain into a well-linked chain with that segment added at
    its end. *)
Lemma addSeg_is_seglist (st : Segs.store) (k p : nat) (l : list nat) (s : Segs.Sseg) :
  Segs.is_seglist st k l ->
  p ∉ l ->
  Segs.heap st !! p = Some s ->
  exists st', Segs.MSXqual_addSeg k p st = Some st' /\ Segs.is_seglist st' k (l ++ [p]).
Proof.
  intros (Hnd & Hfirst & Hlast & Hlinked) Hp Hs.
  unfold Segs.MSXqual_addSeg. rewrite Hs. simpl.
  destruct (last l) as [q|] eqn:Hq.
  - (* a chain with a last segment q *)
    apply last_Some in Hq as [front ->].
    assert (Hqp : q <> p) by (intros ->; apply Hp; set_solver).
    destruct (Hlinked (length front) q) as (t & Ht & Htprev & Htnext).
    { now rewrite lookup_app_r, Nat.sub_diag by lia. }
    rewrite Hlast. simpl.
    rewrite lookup_insert_ne, Ht by congruence. simpl.
    rewrite lookup_insert_ne, lookup_insert_eq by congruence. simpl.
    eexists. split; [reflexivity|].
    split; [|split; [|split]]; simpl.
    + apply NoDup_app. split; [exact Hnd|]. split; [|apply NoDup_singleton].
      intros x Hx Hx'. apply list_elem_of_singleton in Hx' as ->. contradiction.
    + assert (Hhead : head ((front ++ [q]) ++ [p]) = head (front ++ [q]))
        by (destruct front; reflexivity).
      rewrite Hhead, <- Hfirst.
      destruct (Segs.FirstSeg st k) eqn:E; [exact E|].
      destruct front; discriminate.
    + rewrite upd_same. now rewrite last_snoc.
    + intros i x Hi.
      destruct (lt_eq_lt_dec i (length front)) as [[Hlt | ->] | Hgt].
      * (* a segment before q is not touched *)
        assert (Hix : front !! i = Some x) by (rewrite <- Hi; now rewrite !lookup_app_l by (rewrite ?length_app; simpl; lia)).
        destruct (Hlinked i x) as (u & Hu & Huprev & Hunext).
        { now rewrite lookup_app_l by lia. }
        assert (Hxp : x <> p).
        { intros ->. apply Hp. apply elem_of_app. left. apply list_elem_of_lookup. eauto. }
        assert (Hxq : x <> q).
        { intros ->. apply NoDup_app in Hnd as (_ & Hdisj & _).
          apply (Hdisj q); [apply list_elem_of_lookup; eauto | set_solver]. }
        exists u. rewrite !lookup_insert_ne by congruence. split; [exact Hu|].
        split.
        -- rewrite Huprev. symmetry. apply lookup_app_l. rewrite length_app. simpl. lia.
        -- rewrite Hunext. destruct i as [|j]; [reflexivity|].
           symmetry. apply lookup_app_l. rewrite length_app. simpl. lia.
      * (* q itself: its prev is the new segment *)
        rewrite <- app_assoc, lookup_app_r, Nat.sub_diag in Hi by lia.
        simpl in Hi. injection Hi as <-.
        rewrite lookup_insert_ne, lookup_insert_eq by congruence.
        eexists. split; [reflexivity|]. simpl. split.
        -- rewrite lookup_app_r by (rewrite length_app; simpl; lia).
           rewrite length_app. simpl.
           replace (S (length front) - (length front + 1))%nat with 0%nat by lia. reflexivity.
        -- rewrite Htnext. destruct (length front) as [|j] eqn:Hlen; [reflexivity|].
           symmetry. apply lookup_app_l. rewrite length_app. simpl. lia.
      * (* the new segment *)
        assert (i = S (length front)).
        { apply lookup_lt_Some in Hi. rewrite !length_app in Hi. simpl in Hi. lia. }
        subst i. rewrite <- app_assoc, lookup_app_r in Hi by lia.
        replace (S (length front) - length front)%nat with 1%nat in Hi by lia.
        simpl in Hi. injection Hi as <-.
        rewrite lookup_insert_eq. eexists. split; [reflexivity|]. simpl. split.
        -- symmetry. apply lookup_ge_None. rewrite !length_app. simpl. lia.
        -- rewrite <- app_assoc, lookup_app_r, Nat.sub_diag by lia. reflexivity.
  - (* an empty chain *)
    apply last_None in Hq. subst l. rewrite Hlast. simpl in *. rewrite Hfirst.
    eexists. split; [reflexivity|].
    split; [apply NoDup_singleton|]. simpl. rewrite !upd_same.
    split; [reflexivity|]. split; [reflexivity|].
    intros i x Hi. destruct i as [|i]; [|discriminate]. simpl in Hi. injection Hi as <-.
    rewrite lookup_insert_eq. eexists. split; [reflexivity|]. split; reflexivity.
Qed.

(** X10: taking the leading segment away, as [evalnodeinflow] does with a
    segment it has used up, turns a well-linked chain into the well-linked
    chain of the segments behind it. *)
Lemma drop_first_is_seglist (st : Segs.store) (k p : nat) (l : list nat) :
  Segs.is_seglist st k (p :: l) ->
  exists st', Segs.drop_first k st = Some st' /\ Segs.is_seglist st' k l.
Proof.
  intros (Hnd & Hfirst & Hlast & Hlinked).
  apply NoDup_cons in Hnd as [Hp Hnd].
  destruct (Hlinked O p eq_refl) as (s & Hs & Hsprev & _).
  unfold Segs.drop_first. rewrite Hfirst. simpl. rewrite Hs. simpl. rewrite Hsprev.
  destruct l as [|q l]; simpl.
  - eexists. split; [reflexivity|].
    split; [constructor|]. simpl. rewrite !upd_same.
    split; [reflexivity|]. split; [reflexivity|]. intros i x Hi. discriminate.
  - destruct (Hlinked 1%nat q eq_refl) as (t & Ht & Htprev & _).
    rewrite Ht. simpl. eexists. split; [reflexivity|].
    split; [exact Hnd|]. simpl. rewrite upd_same.
    split; [reflexivity|]. split; [rewrite Hlast; reflexivity|].
    intros i x Hi. destruct (Hlinked (S i) x Hi) as (u & Hu & Huprev & Hunext).
    destruct i as [|i].
    + simpl in Hi. injection Hi as <-. rewrite lookup_insert_eq.
      eexists. split; [reflexivity|]. simpl. rewrite Hu in Ht. injection Ht as <-.
      split; [exact Huprev | reflexivity].
    + assert (Hxq : x <> q).
      { intros ->. apply NoDup_cons in Hnd as [Hq _]. apply Hq.
        apply list_elem_of_lookup. exists i. exact Hi. }
      rewrite lookup_insert_ne by congruence.
      exists u. split; [exact Hu|]. split; [exact Huprev | exact Hunext].
Qed.

(** ** Segments of a pipe over a simulation *)

Example configured_default : Pipe.configured [] = Some 5000%Z.
Proof. reflexivity. Qed.

Example configured_small : Pipe.configured [20%Z] = Some 50%Z.
Proof. reflexivity. Qed.

Example initSegs_fast_pipe :
  let lk := Pipe.initSegs 5000 (fun _ => 1%Q) Pipe.fast_pipe in
  (length (Pipe.segs lk), Pipe.nsegs lk) = (100%nat, 100%Z).
Proof. vm_compute. reflexivity. Qed.

Example second_run_flushed_state :
  (length (Pipe.segs Pipe.second_run_flushed), Pipe.nsegs Pipe.second_run_flushed)
  = (0%nat, 50%Z).
Proof. vm_compute. reflexivity. Qed.

Lemma parse_segments_option_ok (k m : Z) :
  (0 < k)%Z -> Pipe.parse_segments_option k m = (0%Z, Z.max k 50).
Proof.
  intros Hk. unfold Pipe.parse_segments_option.
  destruct (k <=? 0)%Z eqn:E; [apply Z.leb_le in E; lia|].
  f_equal. destruct (k >=? 50)%Z eqn:E2.
  - apply Z.geb_le in E2. lia.
  - rewrite Z.geb_leb in E2. apply Z.leb_gt in E2. lia.
Qed.

Lemma parse_segments_option_error (k m : Z) :
  (k <= 0)%Z -> Pipe.parse_segments_option k m = (Pipe.ERR_NUMBER, m).
Proof.
  intros Hk. unfold Pipe.parse_segments_option.
  destruct (k <=? 0)%Z eqn:E; [reflexivity|]. apply Z.leb_gt in E. lia.
Qed.

(** Whatever the options, at least 50 segments are allowed. *)
Lemma read_options_min (opts : list Z) :
  forall m m', (50 <= m)%Z -> Pipe.read_options opts m = Some m' -> (50 <= m')%Z.
Proof.
  induction opts as [|k opts IH]; intros m m' Hm; simpl.
  - intros [= <-]. exact Hm.
  - destruct (Z_le_gt_dec k 0) as [Hk|Hk].
    + rewrite parse_segments_option_error by exact Hk. simpl. discriminate.
    + rewrite parse_segments_option_ok by lia. simpl. apply IH. lia.
Qed.

Section PipeInvariant.

Variable Nspecies : nat.
Variable Species : nat -> Sspecies.
Variable MaxSegments : Z.
Variable HasWallSpecies : bool.
Hypothesis MaxSegments_min : (50 <= MaxSegments)%Z.

Lemma rewrite_c_count f lk :
  Pipe.count (Pipe.rewrite_c f lk) = Pipe.count lk /\ Pipe.excess (Pipe.rewrite_c f lk) = Pipe.excess lk.
Proof.
  unfold Pipe.excess, Pipe.count, Pipe.rewrite_c. simpl. now rewrite length_imap.
Qed.

Lemma addSeg_count seg lk :
  Pipe.count (Pipe.MSXqual_addSeg seg lk) = (Pipe.count lk + 1)%Z /\
  Pipe.excess (Pipe.MSXqual_addSeg seg lk) = Pipe.excess lk.
Proof.
  unfold Pipe.excess, Pipe.count, Pipe.MSXqual_addSeg. simpl. rewrite length_app. simpl. lia.
Qed.

Lemma initSegs_count C1 lk :
  let lk' := Pipe.initSegs MaxSegments C1 lk in
  (0 <= Pipe.count lk' <= Z.min 100 MaxSegments)%Z /\
  Pipe.nsegs lk' = (Pipe.nsegs lk + Pipe.count lk')%Z.
Proof.
  cbv zeta. unfold Pipe.initSegs.
  set (lk0 := {| Pipe.segs := [] |}).
  set (ninit := if (100 <=? MaxSegments)%Z then 100%Z else MaxSegments).
  assert (Hninit : ninit = Z.min 100 MaxSegments).
  { subst ninit. destruct (100 <=? MaxSegments)%Z eqn:E.
    - apply Z.leb_le in E. lia.
    - apply Z.leb_gt in E. lia. }
  destruct (Qgt_bool (Pipe.LINKVOL lk0) 0).
  - assert (H : forall cnt, let r := for_loop 0 cnt
                 (fun _ l => Pipe.MSXqual_addSeg
                    (Pipe.MSXqual_getFreeSeg (Pipe.LINKVOL lk0 / inject_Z ninit) C1) l) lk0 in
               Pipe.count r = Z.of_nat cnt /\ Pipe.nsegs r = (Pipe.nsegs lk + Z.of_nat cnt)%Z).
    { intros cnt. cbv zeta.
      pose proof (for_loop_inv (fun i l => Pipe.count l = Z.of_nat i /\
                                          Pipe.nsegs l = (Pipe.nsegs lk + Z.of_nat i)%Z)
                    (fun _ l => Pipe.MSXqual_addSeg
                       (Pipe.MSXqual_getFreeSeg (Pipe.LINKVOL lk0 / inject_Z ninit) C1) l)
                    cnt 0 lk0) as Hloop.
      apply Hloop.
      - split; [reflexivity | simpl; lia].
      - intros i l _ [Hc Hn]. destruct (addSeg_count
            (Pipe.MSXqual_getFreeSeg (Pipe.LINKVOL lk0 / inject_Z ninit) C1) l) as [Hc' _].
        split; [lia|]. unfold Pipe.MSXqual_addSeg. simpl. lia. }
    destruct (H (Z.to_nat ninit)) as [Hc Hn]. rewrite Hc, Hn. lia.
  - unfold Pipe.count. simpl. lia.
Qed.

Lemma new_hydraulics_count q lk :
  Pipe.count (Pipe.new_hydraulics q lk) = Pipe.count lk /\
  Pipe.excess (Pipe.new_hydraulics q lk) = Pipe.excess lk.
Proof.
  unfold Pipe.excess, Pipe.count, Pipe.new_hydraulics. simpl.
  destruct (match _ with POSITIVE => _ | _ => _ end); now rewrite ?length_reverse.
Qed.

Lemma advectSegs_count wn ws lk :
  Pipe.count (Pipe.advectSegs HasWallSpecies wn ws lk) = Pipe.count lk /\
  Pipe.excess (Pipe.advectSegs HasWallSpecies wn ws lk) = Pipe.excess lk.
Proof.
  unfold Pipe.advectSegs. destruct (_ || _ || _).
  - split; reflexivity.
  - match goal with |- context [Pipe.rewrite_c ws ?X] =>
      destruct (rewrite_c_count ws X) as [-> ->] end.
    split; reflexivity.
Qed.

(** The inflow to the downstream node only takes segments away, and it
    ends within one pass more than there are segments. *)
Lemma inflow_loop_spec (fuel : nat) :
  forall v lk volin massin,
    (length (Pipe.segs lk) < fuel)%nat ->
    exists res, Pipe.inflow_loop Nspecies fuel v lk volin massin = Some res /\
                (Pipe.count res.1.1 <= Pipe.count lk)%Z /\ Pipe.excess res.1.1 = Pipe.excess lk.
Proof.
  induction fuel as [|fuel IH]; intros v lk volin massin Hfuel; [lia|].
  cbn [Pipe.inflow_loop].
  destruct (Qgt_bool v 0) eqn:Hv; [|eexists; split; [reflexivity | simpl; lia]].
  destruct (Pipe.segs lk) as [|seg behind] eqn:Hsegs;
    [eexists; split; [reflexivity | simpl; lia]|].
  cbv zeta.
  set (vseg := Pipe.MIN (Pipe.seg_v seg) v).
  destruct (Qge_bool (v - vseg) 0 && Qge_bool vseg (Pipe.seg_v seg)) eqn:Hcase.
  - edestruct (IH (v - vseg)%Q (Pipe.with_segs lk behind (Pipe.nsegs lk - 1)%Z (Pipe.NewSeg lk)))
      as (res & Hres & Hc & He).
    { simpl. simpl in Hfuel. lia. }
    exists res. split; [exact Hres|].
    unfold Pipe.excess, Pipe.count in *. simpl in *. rewrite Hsegs. simpl. lia.
  - (* the segment is larger than what is left to move: v - vseg = 0 *)
    assert (Hz : Qgt_bool (v - vseg) 0 = false).
    { subst vseg. unfold Pipe.MIN in *. unfold Qgt_bool, Qge_bool in *.
      destruct (Qle_bool (Pipe.seg_v seg) v) eqn:Hle.
      - exfalso. apply andb_false_iff in Hcase as [Hc|Hc].
        + apply Qle_bool_iff in Hle.
          assert (H0 : (0 <= v - Pipe.seg_v seg)%Q) by lra.
          apply Qle_bool_iff in H0. congruence.
        + assert (H0 : (Pipe.seg_v seg <= Pipe.seg_v seg)%Q) by lra.
          apply Qle_bool_iff in H0. congruence.
      - apply negb_false_iff, Qle_bool_iff. lra. }
    destruct fuel as [|fuel].
    { simpl in Hfuel. lia. }
    cbn [Pipe.inflow_loop]. rewrite Hz.
    eexists. split; [reflexivity|].
    unfold Pipe.excess, Pipe.count. simpl. rewrite Hsegs. simpl. lia.
Qed.

Lemma evalnodeinflow_spec tstep lk volin massin :
  exists res, Pipe.evalnodeinflow Nspecies tstep lk volin massin = Some res /\
              (Pipe.count res.1.1 <= Pipe.count lk)%Z /\ Pipe.excess res.1.1 = Pipe.excess lk.
Proof. apply inflow_loop_spec. lia. Qed.

(** The three ways [evalnodeoutflow] leaves the chain. *)
Lemma evalnodeoutflow_spec upnodequal tstep lk lk' :
  Pipe.evalnodeoutflow Nspecies Species MaxSegments upnodequal tstep lk = Some lk' ->
  let v := (Qabs (Pipe.flow lk) * tstep)%Q in
  (v == 0 /\ lk' = lk) \/
  (~ v == 0 /\ ((Pipe.nsegs lk < MaxSegments)%Z \/ Pipe.segs lk = []) /\
   Pipe.nsegs lk' = (Pipe.nsegs lk + 1)%Z /\
   exists new, Pipe.segs lk' = Pipe.segs lk ++ [new] /\ Pipe.seg_v new = v) \/
  (~ v == 0 /\ Pipe.nsegs lk' = Pipe.nsegs lk /\
   exists front seg, Pipe.segs lk = front ++ [seg] /\
                     Pipe.segs lk' = front ++ [Pipe.merge Nspecies Species seg upnodequal v]).
Proof.
  unfold Pipe.evalnodeoutflow. cbv zeta.
  destruct (Qeq_bool (Qabs (Pipe.flow lk) * tstep) 0) eqn:Hv.
  { intros [= <-]. left. split; [now apply Qeq_bool_iff | reflexivity]. }
  assert (Hv' : ~ Qabs (Pipe.flow lk) * tstep == 0).
  { intros H. apply Qeq_bool_iff in H. congruence. }
  destruct (Pipe.NewSeg lk) as [new|]; [|discriminate]. simpl.
  destruct (last (Pipe.segs lk)) as [seg|] eqn:Hlast.
  - destruct (negb (Pipe.MSXqual_isSame Nspecies Species (Pipe.seg_c seg) upnodequal)
              && (Pipe.nsegs lk <? MaxSegments)%Z) eqn:Huse; simpl.
    + intros [= <-]. right. left. split; [exact Hv'|].
      apply andb_true_iff in Huse as [_ Hlt]. apply Z.ltb_lt in Hlt.
      split; [now left|]. split; [reflexivity|]. eexists. split; reflexivity.
    + intros [= <-]. right. right. split; [exact Hv'|]. split; [reflexivity|].
      apply last_Some in Hlast as [front Hfront].
      exists front, seg. split; [exact Hfront|]. simpl.
      now rewrite Hfront, removelast_last.
  - intros [= <-]. right. left. split; [exact Hv'|].
    apply last_None in Hlast. split; [now right|]. split; [reflexivity|].
    eexists. split; reflexivity.
Qed.

(** Over any number of simulations the chain stays within MaxSegments
    and [nsegs] is never below its length; in the first one they agree. *)
Lemma reachable_bounded n ph lk :
  Pipe.reachable Nspecies Species MaxSegments HasWallSpecies n ph lk ->
  (Pipe.count lk <= MaxSegments)%Z /\ (0 <= Pipe.excess lk)%Z /\
  (n = 1%nat -> Pipe.excess lk = 0%Z) /\ (1 <= n)%nat.
Proof.
  induction 1 as [C1 lk Hs Hn | n C1 lk _ IH | n q lk _ IH | n f lk _ IH
                 | n wn ws lk _ IH | n tstep volin massin lk res _ IH Hin
                 | n up tstep lk lk' _ IH Hout | n lk _ IH].
  - pose proof (initSegs_count C1 lk) as [Hc Hns]. cbv zeta in *.
    unfold Pipe.excess. rewrite Hns, Hn. lia.
  - pose proof (initSegs_count C1 lk) as [Hc Hns]. cbv zeta in *.
    destruct IH as (_ & He & _ & Hn). unfold Pipe.excess in *.
    assert (0 <= Pipe.count lk)%Z by (unfold Pipe.count; lia).
    rewrite Hns. repeat split; lia.
  - destruct (new_hydraulics_count q lk) as [-> ->]. exact IH.
  - destruct (rewrite_c_count f lk) as [-> ->]. exact IH.
  - destruct (advectSegs_count wn ws lk) as [-> ->]. exact IH.
  - destruct (evalnodeinflow_spec tstep lk volin massin) as (res' & Hres & Hc & He).
    rewrite Hin in Hres. injection Hres as <-. rewrite He. lia.
  - apply evalnodeoutflow_spec in Hout. cbv zeta in Hout.
    destruct IH as (Hc & He & H1 & Hn1). unfold Pipe.excess, Pipe.count in *.
    destruct Hout as [[_ ->] | [(_ & Hcond & Hn & new & Hsegs & _)
                              | (_ & Hn & front & seg & Hsegs & Hsegs')]].
    + auto.
    + rewrite Hsegs, Hn, length_app. simpl.
      destruct Hcond as [Hlt | Hnil]; [lia|].
      rewrite Hnil in *. simpl in *. lia.
    + rewrite Hsegs', Hn. rewrite Hsegs in *. rewrite !length_app in *. simpl in *. lia.
  - exact IH.
Qed.

End PipeInvariant.

(** C6, as amended: for every pipe link and at every point of any number
    of simulations on an opened project (segment initialization,
    reaction, advection, inflow to the downstream node, release of new
    upstream segments, flow reversal), the number of segments of the link
    never exceeds the configured MaxSegments, where MaxSegments defaults to
    5000 and a positive SEGMENTS option value is raised to at least 50; a
    new upstream segment is only added when Link[k].nsegs < MaxSegments or
    the link has no segment at all, otherwise the released volume is merged
    into the existing last segment; in the first simulation after the
    project is opened nsegs is the number of segments, so that there a
    segment is only added when nsegs < MaxSegments. *)
Theorem pipe_segments_bounded (opts : list Z) (MaxSegments : Z) (Nspecies : nat)
    (Species : nat -> Sspecies) (HasWallSpecies : bool)
    (n : nat) (ph : Pipe.phase) (lk : Pipe.link) :
  Pipe.configured opts = Some MaxSegments ->
  Pipe.reachable Nspecies Species MaxSegments HasWallSpecies n ph lk ->
  (50 <= MaxSegments)%Z /\
  (opts = [] -> MaxSegments = 5000%Z) /\
  (forall k m, (0 < k)%Z -> Pipe.parse_segments_option k m = (0%Z, Z.max k 50)) /\
  (Pipe.count lk <= MaxSegments)%Z /\
  (n = 1%nat -> Pipe.nsegs lk = Pipe.count lk) /\
  (forall upnodequal tstep lk',
     Pipe.evalnodeoutflow Nspecies Species MaxSegments upnodequal tstep lk = Some lk' ->
     let v := (Qabs (Pipe.flow lk) * tstep)%Q in
     (Pipe.count lk' <= MaxSegments)%Z /\
     (Pipe.count lk' = Pipe.count lk \/ Pipe.count lk' = (Pipe.count lk + 1)%Z) /\
     (Pipe.count lk' = (Pipe.count lk + 1)%Z ->
        (Pipe.nsegs lk < MaxSegments)%Z \/ Pipe.segs lk = []) /\
     (n = 1%nat -> Pipe.count lk' = (Pipe.count lk + 1)%Z ->
        (Pipe.nsegs lk < MaxSegments)%Z) /\
     (~ v == 0 -> ~ (Pipe.nsegs lk < MaxSegments)%Z -> Pipe.segs lk <> [] ->
        exists front seg,
          Pipe.segs lk = front ++ [seg] /\
          Pipe.segs lk' = front ++ [Pipe.merge Nspecies Species seg upnodequal v])).
Proof.
  intros Hconf Hreach.
  assert (Hmin : (50 <= MaxSegments)%Z).
  { apply (read_options_min opts Pipe.MAXSEGMENTS MaxSegments); [unfold Pipe.MAXSEGMENTS; lia|].
    exact Hconf. }
  destruct (reachable_bounded Nspecies Species MaxSegments HasWallSpecies Hmin n ph lk Hreach)
    as (Hc & He & H1 & Hn).
  split; [exact Hmin|]. split.
  { intros ->. unfold Pipe.configured in Hconf. simpl in Hconf. now injection Hconf as <-. }
  split; [apply parse_segments_option_ok|]. split; [exact Hc|]. split.
  { intros Hn1. specialize (H1 Hn1). unfold Pipe.excess in H1. lia. }
  intros up tstep lk' Hout. cbv zeta.
  apply evalnodeoutflow_spec in Hout. cbv zeta in Hout.
  unfold Pipe.excess, Pipe.count in *.
  destruct Hout as [[Hv ->] | [(Hv & Hcond & Hns & new & Hsegs & _)
                             | (Hv & Hns & front & seg & Hsegs & Hsegs')]].
  - split; [lia|]. split; [now left|]. split; [lia|]. split; [lia|].
    intros Hnz. contradiction.
  - rewrite Hsegs, length_app. simpl. split.
    { destruct Hcond as [Hlt | Hnil]; [lia|]. rewrite Hnil. simpl. lia. }
    split; [right; lia|]. split; [intros _; exact Hcond|]. split.
    { intros Hn1 _. destruct Hcond as [Hlt | Hnil]; [exact Hlt|].
      specialize (H1 Hn1). rewrite Hnil in H1. simpl in H1. lia. }
    intros _ Hge Hne. destruct Hcond as [Hlt | Hnil]; contradiction.
  - rewrite Hsegs', Hsegs, !length_app. simpl. rewrite Hsegs, length_app in Hc. simpl in Hc.
    split; [lia|]. split; [now left|]. split; [lia|]. split; [lia|].
    intros _ _ _. exists front, seg. split; reflexivity.
Qed.

Example fast_pipe_initialised :
  Pipe.reachable 1 Pipe.one_bulk 50 false 1 Pipe.Idle
    (Pipe.initSegs 50 (fun _ => 1%Q) Pipe.fast_pipe).
Proof. now apply Pipe.reach_open. Qed.

Lemma pipe_segments_bounded_witness :
  let lk := Pipe.initSegs 50 (fun _ => 1%Q) Pipe.fast_pipe in
  (50 <= 50)%Z /\
  ([20%Z] = [] -> 50%Z = 5000%Z) /\
  (forall k m, (0 < k)%Z -> Pipe.parse_segments_option k m = (0%Z, Z.max k 50)) /\
  (Pipe.count lk <= 50)%Z /\
  (1%nat = 1%nat -> Pipe.nsegs lk = Pipe.count lk) /\
  (forall upnodequal tstep lk',
     Pipe.evalnodeoutflow 1 Pipe.one_bulk 50 upnodequal tstep lk = Some lk' ->
     let v := (Qabs (Pipe.flow lk) * tstep)%Q in
     (Pipe.count lk' <= 50)%Z /\
     (Pipe.count lk' = Pipe.count lk \/ Pipe.count lk' = (Pipe.count lk + 1)%Z) /\
     (Pipe.count lk' = (Pipe.count lk + 1)%Z ->
        (Pipe.nsegs lk < 50)%Z \/ Pipe.segs lk = []) /\
     (1%nat = 1%nat -> Pipe.count lk' = (Pipe.count lk + 1)%Z -> (Pipe.nsegs lk < 50)%Z) /\
     (~ v == 0 -> ~ (Pipe.nsegs lk < 50)%Z -> Pipe.segs lk <> [] ->
        exists front seg,
          Pipe.segs lk = front ++ [seg] /\
          Pipe.segs lk' = front ++ [Pipe.merge 1 Pipe.one_bulk seg upnodequal v])).
Proof.
  apply (pipe_segments_bounded [20%Z] 50 1 Pipe.one_bulk false 1 Pipe.Idle).
  - reflexivity.
  - exact fast_pipe_initialised.
Defined.

(** C6 as first stated fails in two places.  The option SEGMENTS 0 is
    not clamped to 50 but refused as an invalid number.  And with SEGMENTS
    50, in the second simulation run on the opened project, initSegs has
    emptied the chain of the pipe without resetting nsegs, which starts the
    run at 100; when the inflow to the downstream node then takes all 50
    segments before the upstream node releases its outflow, the chain is
    empty with nsegs = 50, not below MaxSegments, and evalnodeoutflow adds
    a new segment all the same. *)
Lemma segment_added_at_capacity :
  Pipe.parse_segments_option 0 5000 = (404%Z, 5000%Z) /\
  Pipe.configured [50%Z] = Some 50%Z /\
  Pipe.reachable 1 Pipe.one_bulk 50 false 2 Pipe.Routing Pipe.second_run_flushed /\
  ~ (Pipe.nsegs Pipe.second_run_flushed < 50)%Z /\
  exists lk',
    Pipe.evalnodeoutflow 1 Pipe.one_bulk 50 (fun _ => 2%Q) 1 Pipe.second_run_flushed = Some lk' /\
    length (Pipe.segs lk') = S (length (Pipe.segs Pipe.second_run_flushed)).
Proof.
  split; [reflexivity|]. split; [reflexivity|]. split; [|split].
  - unfold Pipe.second_run_flushed.
    set (lk2 := Pipe.advectSegs _ _ _ _).
    assert (Hreach : Pipe.reachable 1 Pipe.one_bulk 50 false 2 Pipe.Routing lk2).
    { apply Pipe.reach_advect, Pipe.reach_init, fast_pipe_initialised. }
    destruct (Pipe.evalnodeinflow 1 1 lk2 0 (fun _ => 0%Q)) as [res|] eqn:Hin.
    + exact (Pipe.reach_inflow 1 Pipe.one_bulk 50 false 2 1 0 (fun _ => 0%Q) lk2 res Hreach Hin).
    + exact Hreach.
  - vm_compute. discriminate.
  - eexists. split; [vm_compute; reflexivity | vm_compute; reflexivity].
Qed.

(** ** Topological ordering of the nodes *)

Example sortNodes_three_node_loop :
  let '(errcode, sorted) := Sort.sortNodes Sort.three_node_loop true (fun _ => O) in
  (errcode, Sort.slice sorted 3) = (0%Z, [1; 2; 3]%nat).
Proof. reflexivity. Qed.

Example sortNodes_fed_loop :
  let '(errcode, sorted) := Sort.sortNodes Sort.fed_loop true (fun _ => O) in
  (errcode, Sort.slice sorted 4) = (0%Z, [1; 2; 3; 4]%nat).
Proof. reflexivity. Qed.

(** Reduce the projections of a state that is given by its fields. *)
Ltac sort_fields :=
  cbn [Sort.indegree Sort.stack Sort.stacksize Sort.numsorted Sort.SortedNodes] in *.

Lemma slice_length (a : nat -> nat) (n : nat) : length (Sort.slice a n) = n.
Proof. unfold Sort.slice. now rewrite length_map, length_seq. Qed.

Lemma slice_S (a : nat -> nat) (n : nat) :
  Sort.slice a (S n) = Sort.slice a n ++ [a (S n)].
Proof. unfold Sort.slice. now rewrite seq_S, map_app. Qed.

Lemma slice_upd_above (a : nat -> nat) (n m x : nat) :
  (n < m)%nat -> Sort.slice (upd a m x) n = Sort.slice a n.
Proof.
  intros Hlt. unfold Sort.slice. apply map_ext_in. intros j Hj.
  apply in_seq in Hj. apply upd_other. lia.
Qed.

Lemma slice_push (a : nat -> nat) (n x : nat) :
  Sort.slice (upd a (S n) x) (S n) = Sort.slice a n ++ [x].
Proof. rewrite slice_S, upd_same, slice_upd_above by lia. reflexivity. Qed.

Lemma elem_of_slice (a : nat -> nat) (n x : nat) :
  x ∈ Sort.slice a n <-> exists j, (1 <= j <= n)%nat /\ a j = x.
Proof.
  unfold Sort.slice. rewrite list_elem_of_In, in_map_iff. split.
  - intros (j & Hj & Hin). apply in_seq in Hin. exists j. split; [lia | exact Hj].
  - intros (j & Hj & Hx). exists j. split; [exact Hx|]. apply in_seq. lia.
Qed.

(** The invariant only looks at the in-degrees and at the set of pushed
    nodes. *)
Lemma sorting_inv_perm (net : Sort.network) (st st' : Sort.sort_state) :
  Sort.pushed st' ≡ₚ Sort.pushed st ->
  Sort.indegree st' = Sort.indegree st ->
  Sort.sorting_inv net st -> Sort.sorting_inv net st'.
Proof.
  intros Hperm Hind (Hnd & Hrange & Hzero & Hout).
  unfold Sort.sorting_inv. rewrite Hind. split; [|split; [|split]].
  - now rewrite Hperm.
  - intros i Hi. apply Hrange. now rewrite <- Hperm.
  - intros i Hi. rewrite Hperm. now apply Hzero.
  - exact Hout.
Qed.

Lemma sorting_inv_intro (net : Sort.network) (st : Sort.sort_state) (l : list nat) :
  Sort.pushed st ≡ₚ l ->
  NoDup l ->
  (forall i, i ∈ l -> (1 <= i <= Sort.Nnodes net)%nat) ->
  (forall i, (1 <= i <= Sort.Nnodes net)%nat -> Sort.indegree st i = O <-> i ∈ l) ->
  (forall i, ~ (1 <= i <= Sort.Nnodes net)%nat -> Sort.indegree st i = O) ->
  Sort.sorting_inv net st.
Proof.
  intros Hp Hnd Hrange Hzero Hout. split; [|split; [|split]].
  - now rewrite Hp.
  - intros i Hi. apply Hrange. now rewrite <- Hp.
  - intros i Hi. rewrite Hp. now apply Hzero.
  - exact Hout.
Qed.

(** A node whose in-degree is still positive is set free and pushed. *)
Lemma sorting_inv_free (net : Sort.network) (st : Sort.sort_state) (j : nat) :
  Sort.sorting_inv net st ->
  (0 < Sort.indegree st j)%nat ->
  Sort.sorting_inv net (Sort.push j (Sort.set_indegree j 0 st)).
Proof.
  intros (Hnd & Hrange & Hzero & Hout) Hpos.
  assert (Hj : (1 <= j <= Sort.Nnodes net)%nat).
  { destruct (decide (1 <= j <= Sort.Nnodes net)%nat) as [H|H]; [exact H|].
    specialize (Hout j H). lia. }
  assert (Hnew : j ∉ Sort.pushed st).
  { intros Hin. apply (Hzero j Hj) in Hin. lia. }
  assert (Hp : Sort.pushed (Sort.push j (Sort.set_indegree j 0 st)) ≡ₚ j :: Sort.pushed st).
  { unfold Sort.pushed, Sort.push, Sort.set_indegree. sort_fields. rewrite slice_push.
    rewrite <- app_assoc. simpl. now rewrite <- Permutation_middle. }
  apply (sorting_inv_intro net _ (j :: Sort.pushed st) Hp);
    unfold Sort.push, Sort.set_indegree; sort_fields.
  - now apply NoDup_cons.
  - intros i Hi. apply elem_of_cons in Hi as [->|Hi]; [exact Hj | now apply Hrange].
  - intros i Hi. rewrite elem_of_cons. destruct (Nat.eq_dec i j) as [->|Hne].
    + rewrite upd_same. tauto.
    + rewrite upd_other by exact Hne. rewrite (Hzero i Hi). tauto.
  - intros i Hi. rewrite upd_other; [now apply Hout|]. intros ->. contradiction.
Qed.

(** An in-degree above 1 is reduced by one. *)
Lemma sorting_inv_decrement (net : Sort.network) (st : Sort.sort_state) (n : nat) :
  Sort.sorting_inv net st ->
  (1 < Sort.indegree st n)%nat ->
  Sort.sorting_inv net (Sort.set_indegree n (Sort.indegree st n - 1) st).
Proof.
  intros (Hnd & Hrange & Hzero & Hout) Hpos.
  assert (Hn : (1 <= n <= Sort.Nnodes net)%nat).
  { destruct (decide (1 <= n <= Sort.Nnodes net)%nat) as [H|H]; [exact H|].
    specialize (Hout n H). lia. }
  unfold Sort.sorting_inv, Sort.pushed, Sort.set_indegree. sort_fields.
  split; [|split; [|split]]; try assumption.
  - intros i Hi. destruct (Nat.eq_dec i n) as [->|Hne].
    + rewrite upd_same. split; [lia|]. intros Hin. apply (Hzero n Hn) in Hin. lia.
    + rewrite upd_other by exact Hne. now apply Hzero.
  - intros i Hi. rewrite upd_other; [now apply Hout|]. intros ->. contradiction.
Qed.

(** Relaxing one link keeps the invariant and the sorted prefix. *)
Lemma relax_inv (net : Sort.network) (i : nat) (st : Sort.sort_state) (alink : Sort.Sadjlist) :
  Sort.sorting_inv net st ->
  Sort.sorting_inv net (Sort.relax net i st alink) /\
  Sort.numsorted (Sort.relax net i st alink) = Sort.numsorted st.
Proof.
  intros Hinv. unfold Sort.relax.
  set (k := Sort.adj_link alink).
  assert (Hgen : forall n,
    let st' := if negb (Nat.eqb n i) && (0 <? Sort.indegree st n)%nat
               then let st1 := Sort.set_indegree n (Sort.indegree st n - 1) st in
                    if Nat.eqb (Sort.indegree st1 n) 0 then Sort.push n st1 else st1
               else st in
    Sort.sorting_inv net st' /\ Sort.numsorted st' = Sort.numsorted st).
  { intros n. cbv zeta.
    destruct (negb (Nat.eqb n i) && (0 <? Sort.indegree st n)%nat) eqn:Hc; [|auto].
    apply andb_true_iff in Hc as [_ Hpos]. apply Nat.ltb_lt in Hpos.
    replace (Sort.indegree (Sort.set_indegree n (Sort.indegree st n - 1) st) n)
      with (Sort.indegree st n - 1)%nat
      by (unfold Sort.set_indegree; sort_fields; now rewrite upd_same).
    destruct (Nat.eqb_spec (Sort.indegree st n - 1) 0) as [Hz|Hnz].
    - rewrite Hz. split; [now apply sorting_inv_free | reflexivity].
    - split; [apply sorting_inv_decrement; [exact Hinv | lia] | reflexivity]. }
  destruct (Sort.FlowDir net k); [apply Hgen | auto | apply Hgen].
Qed.

Lemma relax_all_inv (net : Sort.network) (i : nat) (alinks : list Sort.Sadjlist) :
  forall st, Sort.sorting_inv net st ->
    Sort.sorting_inv net (fold_left (Sort.relax net i) alinks st) /\
    Sort.numsorted (fold_left (Sort.relax net i) alinks st) = Sort.numsorted st.
Proof.
  induction alinks as [|a l IH]; intros st Hinv; simpl; [auto|].
  destruct (relax_inv net i st a Hinv) as [H1 H2].
  destruct (IH _ H1) as [H3 H4]. split; [exact H3 | congruence].
Qed.

(** A pass with a node on the stack. *)
Lemma pop_and_relax_inv (net : Sort.network) (st : Sort.sort_state) :
  Sort.sorting_inv net st ->
  (0 < Sort.stacksize st)%nat ->
  Sort.sorting_inv net (Sort.pop_and_relax net st) /\
  Sort.numsorted (Sort.pop_and_relax net st) = S (Sort.numsorted st).
Proof.
  intros Hinv Hsz. unfold Sort.pop_and_relax.
  set (i := Sort.stack st (Sort.stacksize st)).
  set (st1 := {| Sort.indegree := _ |}).
  assert (Hinv1 : Sort.sorting_inv net st1).
  { apply (sorting_inv_perm net st); [|reflexivity|exact Hinv].
    unfold Sort.pushed, st1. sort_fields. rewrite slice_push.
    assert (Hs : Sort.slice (Sort.stack st) (Sort.stacksize st)
                 = Sort.slice (Sort.stack st) (Sort.stacksize st - 1) ++ [i]).
    { subst i. destruct (Sort.stacksize st) as [|sz]; [lia|].
      rewrite slice_S. now replace (S sz - 1)%nat with sz by lia. }
    rewrite Hs, <- !app_assoc. apply Permutation_app_head.
    apply Permutation_app_comm. }
  destruct (relax_all_inv net i (Sort.Adjlist net i) st1 Hinv1) as [H1 H2].
  split; [exact H1 | exact H2].
Qed.









(** On the loop of three nodes nothing is sorted when the stack is first
    found empty: the node freed is the first one with inflow. *)
Example three_node_loop_first_freed :
  let st := Sort.push_sources Sort.three_node_loop
              {| Sort.indegree := Sort.count_inflow Sort.three_node_loop (fun _ => O);
                 Sort.stack := fun _ => O; Sort.stacksize := 0; Sort.numsorted := 0;
                 Sort.SortedNodes := fun _ => O |} in
  Sort.stacksize st = O /\ Sort.numsorted st = O /\
  Sort.selectnonstacknode Sort.three_node_loop st = 1%nat.
Proof. repeat split. Qed.


(** The in-degrees counted from the links vanish outside 1 .. Nnodes. *)
Lemma count_inflow_out (net : Sort.network) :
  Sort.well_formed net ->
  forall i, ~ (1 <= i <= Sort.Nnodes net)%nat ->
            Sort.count_inflow net (fun _ => O) i = O.
Proof.
  intros Hwf. unfold Sort.count_inflow, for_to.
  apply (for_loop_inv (fun _ (ind : nat -> nat) =>
           forall i, ~ (1 <= i <= Sort.Nnodes net)%nat -> ind i = O)).
  - reflexivity.
  - intros k ind Hk Hind i Hi.
    destruct (Hwf k ltac:(lia)) as [H1 H2].
    destruct (Sort.FlowDir net k); [| now apply Hind |];
      (rewrite upd_other; [now apply Hind | intros ->; contradiction]).
Qed.

(** After the nodes without inflow are stacked, the invariant holds. *)
Lemma push_sources_inv (net : Sort.network) (ind sorted0 : nat -> nat) :
  (forall i, ~ (1 <= i <= Sort.Nnodes net)%nat -> ind i = O) ->
  let st := Sort.push_sources net
              {| Sort.indegree := ind; Sort.stack := fun _ => O; Sort.stacksize := 0;
                 Sort.numsorted := 0; Sort.SortedNodes := sorted0 |} in
  Sort.sorting_inv net st /\ Sort.numsorted st = O.
Proof.
  intros Hout. cbv zeta. unfold Sort.push_sources, for_to.
  replace (S (Sort.Nnodes net) - 1)%nat with (Sort.Nnodes net) by lia.
  set (res := for_loop 1 _ _ _).
  assert (H : Sort.indegree res = ind /\ Sort.numsorted res = O /\
              Sort.slice (Sort.stack res) (Sort.stacksize res)
              = filter (fun j => ind j = O) (seq 1 (1 + Sort.Nnodes net - 1))).
  { subst res.
    apply (for_loop_inv (fun i st =>
             Sort.indegree st = ind /\ Sort.numsorted st = O /\
             Sort.slice (Sort.stack st) (Sort.stacksize st)
             = filter (fun j => ind j = O) (seq 1 (i - 1)))).
    - repeat split.
    - intros i st Hi (Hind & Hns & Hstack).
      replace (S i - 1)%nat with (S (i - 1)) by lia.
      rewrite seq_S, filter_app. replace (1 + (i - 1))%nat with i by lia.
      rewrite Hind. destruct (Nat.eqb_spec (ind i) 0) as [Hz|Hnz].
      + unfold Sort.push. sort_fields. rewrite slice_push, Hstack.
        rewrite filter_cons_True by exact Hz. auto.
      + rewrite filter_cons_False by exact Hnz. simpl. rewrite app_nil_r. auto. }
  destruct H as (Hind & Hns & Hstack). split; [|exact Hns].
  replace (1 + Sort.Nnodes net - 1)%nat with (Sort.Nnodes net) in Hstack by lia.
  apply (sorting_inv_intro net res (filter (fun j => ind j = O) (seq 1 (Sort.Nnodes net)))).
  - unfold Sort.pushed. rewrite Hns, Hstack. unfold Sort.slice at 1. simpl.
    now rewrite app_nil_r.
  - apply NoDup_filter, NoDup_seq.
  - intros i Hi. apply list_elem_of_filter in Hi as [_ Hi]. apply elem_of_seq in Hi. lia.
  - intros i Hi. rewrite Hind, list_elem_of_filter, elem_of_seq. split; [|tauto].
    intros Hz. split; [exact Hz | lia].
  - rewrite Hind. exact Hout.
Qed.










(** ** Cyclic references among terms *)

(** T1 = T2 + T3 and T3 = T2 / T1, the example of the source's comment. *)
Example checkCyclicTerms_comment_example :
  snd <$> TermCheck.checkCyclicTerms 3
            (TermCheck.references [(1, 2); (1, 3); (3, 2); (3, 1)]%nat) = Some 1%Z.
Proof. reflexivity. Qed.

Example checkCyclicTerms_acyclic :
  snd <$> TermCheck.checkCyclicTerms 3
            (TermCheck.references [(1, 2); (1, 3); (2, 3)]%nat) = Some 0%Z.
Proof. reflexivity. Qed.

Example checkCyclicTerms_first_self_reference :
  snd <$> TermCheck.checkCyclicTerms 2 (TermCheck.references [(1, 1)]%nat) = Some 1%Z.
Proof. reflexivity. Qed.

(** The marks, as the test of the search reads them. *)
Lemma marked_iff (T : matrix) (i : nat) :
  Qeq_bool (T 0%nat i) 1 = true <-> TermCheck.marked T i.
Proof. apply Qeq_bool_iff. Qed.

Lemma marked_dec (T : matrix) (i : nat) : TermCheck.marked T i \/ ~ TermCheck.marked T i.
Proof.
  destruct (Qeq_bool (T 0%nat i) 1) eqn:E.
  - left. now apply marked_iff.
  - right. intros H. apply marked_iff in H. congruence.
Qed.

Lemma refers_iff (T : matrix) (i j : nat) :
  Qeq_bool (T i j) 0 = false <-> TermCheck.refers T i j.
Proof.
  unfold TermCheck.refers. rewrite <- Qeq_bool_iff.
  destruct (Qeq_bool (T i j) 0); split; intros H; congruence.
Qed.

(** Writing to the scratch row leaves the rows of the terms alone. *)
Lemma same_terms_mark (T0 T : matrix) (k : nat) (x : Q) :
  TermCheck.same_terms T0 T -> TermCheck.same_terms T0 (set_cell T 0 k x).
Proof.
  intros H i j Hi. unfold set_cell. rewrite upd_other by lia. now apply H.
Qed.

Lemma marked_set_cell (T : matrix) (i : nat) : TermCheck.marked (set_cell T 0 i 1) i.
Proof. unfold TermCheck.marked. rewrite set_cell_same. reflexivity. Qed.

Lemma marked_set_cell_other (T : matrix) (i k : nat) (x : Q) :
  k <> i -> TermCheck.marked (set_cell T 0 i x) k <-> TermCheck.marked T k.
Proof.
  intros Hne. unfold TermCheck.marked, set_cell.
  rewrite upd_same, upd_other by exact Hne. reflexivity.
Qed.

(** Counting the terms that are not marked. *)
Lemma filter_length_le (p q : nat -> bool) (terms : list nat) :
  (forall j, In j terms -> p j = true -> q j = true) ->
  (length (List.filter p terms) <= length (List.filter q terms))%nat.
Proof.
  induction terms as [|a terms IH]; intros H; [reflexivity|].
  simpl. specialize (IH (fun j Hj => H j (or_intror Hj))).
  destruct (p a) eqn:Ep.
  - rewrite (H a (or_introl eq_refl) Ep). simpl. lia.
  - destruct (q a); simpl; lia.
Qed.

Lemma filter_length_lt (p q : nat -> bool) (terms : list nat) (a : nat) :
  (forall j, In j terms -> p j = true -> q j = true) ->
  In a terms -> p a = false -> q a = true ->
  (length (List.filter p terms) < length (List.filter q terms))%nat.
Proof.
  induction terms as [|b terms IH]; intros H Ha Hp Hq; [destruct Ha|].
  simpl. destruct Ha as [->|Ha].
  - rewrite Hp, Hq. simpl.
    pose proof (filter_length_le p q terms (fun j Hj => H j (or_intror Hj))). lia.
  - specialize (IH (fun j Hj => H j (or_intror Hj)) Ha Hp Hq).
    destruct (p b) eqn:Ep.
    + rewrite (H b (or_introl eq_refl) Ep). simpl. lia.
    + destruct (q b); simpl; lia.
Qed.

Lemma unmarked_le (T : matrix) (n : nat) : (TermCheck.unmarked T n <= n)%nat.
Proof.
  unfold TermCheck.unmarked.
  pose proof (filter_length_le (fun j => negb (Qeq_bool (T 0%nat j) 1)) (fun _ => true)
                (seq 1 n) (fun _ _ _ => eq_refl)) as H.
  assert (Hall : forall l : list nat, List.filter (fun _ => true) l = l).
  { induction l as [|a l IH]; simpl; congruence. }
  rewrite Hall, length_seq in H. exact H.
Qed.

Lemma unmarked_mono (T T' : matrix) (n : nat) :
  (forall j, TermCheck.marked T j -> TermCheck.marked T' j) ->
  (TermCheck.unmarked T' n <= TermCheck.unmarked T n)%nat.
Proof.
  intros H. apply filter_length_le. intros j _ Hj.
  apply negb_true_iff in Hj. apply negb_true_iff.
  destruct (Qeq_bool (T 0%nat j) 1) eqn:E; [|reflexivity].
  apply marked_iff, H, marked_iff in E. congruence.
Qed.

Lemma unmarked_mark (T T' : matrix) (n i : nat) :
  (1 <= i <= n)%nat ->
  (forall j, TermCheck.marked T j -> TermCheck.marked T' j) ->
  ~ TermCheck.marked T i -> TermCheck.marked T' i ->
  (TermCheck.unmarked T' n < TermCheck.unmarked T n)%nat.
Proof.
  intros Hi H Hno Hyes. apply filter_length_lt with (a := i).
  - intros j _ Hj. apply negb_true_iff in Hj. apply negb_true_iff.
    destruct (Qeq_bool (T 0%nat j) 1) eqn:E; [|reflexivity].
    apply marked_iff, H, marked_iff in E. congruence.
  - apply in_seq. lia.
  - apply negb_false_iff. now apply marked_iff.
  - apply negb_true_iff. destruct (Qeq_bool (T 0%nat i) 1) eqn:E; [|reflexivity].
    apply marked_iff in E. contradiction.
Qed.

(** Marking more terms keeps a term the search is done with. *)
Lemma closed_mono (T0 T T' : matrix) (n istar u : nat) :
  (forall j, TermCheck.marked T j -> TermCheck.marked T' j) ->
  TermCheck.closed T0 T n istar u -> TermCheck.closed T0 T' n istar u.
Proof.
  intros H Hc v Hv Hr. destruct (Hc v Hv Hr) as [Hne Hm]. split; [exact Hne | now apply H].
Qed.

(** The loop of [traceTermPath] over the terms [j .. n] that term [i]
    may name, the nested calls behaving as [TermCheck.trace_result]
    says: the loop ends, and it ends with 1 only on a path from [i] to
    [istar], and with 0 only when the search is done with [i] and with
    all that was marked since the call began on [T]. *)
Lemma trace_loop_spec (T0 : matrix) (n istar : nat)
    (trace : matrix -> nat -> option (matrix * Z)) (T : matrix) (i d : nat) :
  (1 <= i <= n)%nat ->
  (forall Tc j, (1 <= j <= n)%nat -> TermCheck.same_terms T0 Tc ->
                (TermCheck.unmarked Tc n < d)%nat ->
                exists T' r, trace Tc j = Some (T', r) /\
                             TermCheck.trace_result T0 n istar Tc j T' r) ->
  forall count j Tc,
    (j + count = S n)%nat -> (1 <= j)%nat ->
    TermCheck.same_terms T0 Tc ->
    (forall k, TermCheck.marked T k \/ k = i -> TermCheck.marked Tc k) ->
    (TermCheck.unmarked Tc n < d)%nat ->
    (forall v, (1 <= v < j)%nat -> TermCheck.refers T0 i v ->
               v <> istar /\ TermCheck.marked Tc v) ->
    (forall u, (1 <= u <= n)%nat -> TermCheck.marked Tc u -> ~ TermCheck.marked T u ->
               u <> i -> TermCheck.closed T0 Tc n istar u) ->
    exists T' r,
      TermCheck.trace_loop trace i istar count j Tc = Some (T', r) /\
      TermCheck.same_terms T0 T' /\
      (forall k, TermCheck.marked Tc k -> TermCheck.marked T' k) /\
      ((r = 1%Z /\ TermCheck.ref_path T0 n i istar) \/
       (r = 0%Z /\
        TermCheck.closed T0 T' n istar i /\
        (forall u, (1 <= u <= n)%nat -> TermCheck.marked T' u -> ~ TermCheck.marked T u ->
                   u <> i -> TermCheck.closed T0 T' n istar u))).
Proof.
  intros Hi Htrace.
  induction count as [|count IH]; intros j Tc Hcount Hj Hsame Hmarks Hfuel Hseen Hdone.
  - exists Tc, 0%Z. split; [reflexivity|]. split; [exact Hsame|]. split; [auto|].
    right. split; [reflexivity|]. split; [|exact Hdone].
    intros v Hv Hr. apply Hseen; [lia | exact Hr].
  - cbn [TermCheck.trace_loop]. rewrite (Hsame i j) by lia.
    destruct (Qeq_bool (T0 i j) 0) eqn:Eref.
    { (* term i does not name term j *)
      apply IH; try assumption; try lia.
      intros v Hv Hr. destruct (Nat.eq_dec v j) as [->|Hne].
      - apply refers_iff in Hr. congruence.
      - apply Hseen; [lia | exact Hr]. }
    apply refers_iff in Eref.
    destruct (Nat.eqb_spec j istar) as [->|Hne].
    { exists Tc, 1%Z. split; [reflexivity|]. split; [exact Hsame|]. split; [auto|].
      left. split; [reflexivity|]. apply TermCheck.ref_path_one; [lia | lia | exact Eref]. }
    destruct (Htrace Tc j) as (T1 & r & -> & Hsame1 & Hmono1 & Hres); [lia | assumption | assumption |].
    destruct Hres as [[-> Hpath] | (-> & Hmj & Hnew)].
    { exists T1, 1%Z. split; [reflexivity|]. split; [exact Hsame1|]. split; [exact Hmono1|].
      left. split; [reflexivity|].
      apply TermCheck.ref_path_cons with (j := j); [lia | lia | exact Eref | exact Hpath]. }
    cbn [Z.eqb].
    destruct (IH (S j) T1) as (T2 & r & Hrun & Hsame2 & Hmono2 & Hres); try assumption; try lia.
    + intros k Hk. apply Hmono1, Hmarks, Hk.
    + pose proof (unmarked_mono Tc T1 n Hmono1). lia.
    + intros v Hv Hr. destruct (Nat.eq_dec v j) as [->|Hvj].
      * split; assumption.
      * destruct (Hseen v) as [H1 H2]; [lia | exact Hr |]. split; [exact H1 | now apply Hmono1].
    + intros u Hu Hm1 HnT Hui. destruct (marked_dec Tc u) as [Hmc | Hmc].
      * apply closed_mono with (T := Tc); [exact Hmono1|]. now apply Hdone.
      * now apply Hnew.
    + exists T2, r. split; [exact Hrun|]. split; [exact Hsame2|].
      split; [intros k Hk; now apply Hmono2, Hmono1 | exact Hres].
Qed.

(** [traceTermPath] returns when it is given a depth above the number
    of unmarked terms, and its result is as [TermCheck.trace_result]
    says. *)
Lemma traceTermPath_spec (T0 : matrix) (n istar : nat) :
  forall depth T i,
    (1 <= i <= n)%nat -> TermCheck.same_terms T0 T ->
    (TermCheck.unmarked T n < depth)%nat ->
    exists T' r, TermCheck.traceTermPath depth T i istar n = Some (T', r) /\
                 TermCheck.trace_result T0 n istar T i T' r.
Proof.
  induction depth as [|d IH]; intros T i Hi Hsame Hfuel; [lia|].
  cbn [TermCheck.traceTermPath].
  destruct (Qeq_bool (T 0%nat i) 1) eqn:Em.
  { apply marked_iff in Em. exists T, 0%Z. split; [reflexivity|].
    split; [exact Hsame|]. split; [auto|]. right. split; [reflexivity|].
    split; [exact Em|]. intros u _ H1 H2. contradiction. }
  assert (Hno : ~ TermCheck.marked T i).
  { intros H. apply marked_iff in H. congruence. }
  assert (Hmono : forall k, TermCheck.marked T k \/ k = i ->
                            TermCheck.marked (set_cell T 0 i 1) k).
  { intros k [Hk | ->]; [|apply marked_set_cell].
    destruct (Nat.eq_dec k i) as [->|Hne]; [apply marked_set_cell|].
    now apply marked_set_cell_other. }
  destruct (trace_loop_spec T0 n istar
              (fun T j => TermCheck.traceTermPath d T j istar n) T i d Hi)
    with (count := n) (j := 1%nat) (Tc := set_cell T 0 i 1)
    as (T' & r & Hrun & Hsame' & Hmono' & Hres).
  - intros Tc j Hj HsameTc HfuelTc. now apply IH.
  - lia.
  - lia.
  - now apply same_terms_mark.
  - exact Hmono.
  - pose proof (unmarked_mark T (set_cell T 0 i 1) n i Hi
                  (fun j Hj => Hmono j (or_introl Hj)) Hno (marked_set_cell T i)). lia.
  - intros v Hv. lia.
  - intros u Hu Hm HnT Hui. apply marked_set_cell_other in Hm; [contradiction | exact Hui].
  - exists T', r. split; [exact Hrun|]. split; [exact Hsame'|].
    split; [intros j Hj; apply Hmono', Hmono; now left|].
    destruct Hres as [[-> Hpath] | (-> & Hci & Hnew)]; [left; auto|].
    right. split; [reflexivity|]. split; [apply Hmono', marked_set_cell|].
    intros u Hu Hm HnT. destruct (Nat.eq_dec u i) as [->|Hui]; [exact Hci | now apply Hnew].
Qed.

(** Once the search is done with every marked term, no marked term has
    a path to the term searched for. *)
Lemma closed_no_path (T0 T : matrix) (n istar : nat) :
  (forall u, (1 <= u <= n)%nat -> TermCheck.marked T u -> TermCheck.closed T0 T n istar u) ->
  forall i k, TermCheck.ref_path T0 n i k -> k = istar -> ~ TermCheck.marked T i.
Proof.
  intros Hall i k Hpath. induction Hpath as [i j Hi Hj Hr | i j k Hi Hj Hr Hpath IH];
    intros Hk Hm.
  - destruct (Hall i Hi Hm j Hj Hr) as [Hne _]. contradiction.
  - destruct (Hall i Hi Hm j Hj Hr) as [_ Hmj]. now apply IH.
Qed.

Lemma clear_marks_spec (T : matrix) (n : nat) :
  TermCheck.same_terms T (TermCheck.clear_marks n T) /\
  forall j, (1 <= j <= n)%nat -> ~ TermCheck.marked (TermCheck.clear_marks n T) j.
Proof.
  unfold TermCheck.clear_marks, for_to.
  replace (S n - 1)%nat with n by lia.
  pose proof (for_loop_inv
    (fun k T' => TermCheck.same_terms T T' /\
                 forall j, (1 <= j < k)%nat -> ~ TermCheck.marked T' j)
    (fun j T' => set_cell T' 0 j 0) n 1%nat T) as H.
  destruct H as [Hs Hm].
  - split; [intros i j _; reflexivity | intros j Hj; lia].
  - intros i T' Hi [Hs Hm]. split; [now apply same_terms_mark|].
    intros j Hj. destruct (Nat.eq_dec j i) as [->|Hne].
    + unfold TermCheck.marked. rewrite set_cell_same. discriminate.
    + rewrite marked_set_cell_other by exact Hne. apply Hm. lia.
  - split; [exact Hs|]. intros j Hj. apply Hm. lia.
Qed.

Lemma same_terms_trans (T1 T2 T3 : matrix) :
  TermCheck.same_terms T1 T2 -> TermCheck.same_terms T2 T3 -> TermCheck.same_terms T1 T3.
Proof. intros H12 H23 i j Hi. rewrite H23, H12 by exact Hi. reflexivity. Qed.

(** The search from term [i] for itself returns, with 1 exactly when
    term [i] transitively references itself. *)
Lemma trace_from_spec (T0 T : matrix) (n i : nat) :
  (1 <= i <= n)%nat -> TermCheck.same_terms T0 T ->
  exists T' r,
    TermCheck.traceTermPath (S n) (TermCheck.clear_marks n T) i i n = Some (T', r) /\
    TermCheck.same_terms T0 T' /\
    ((r = 1%Z /\ TermCheck.ref_path T0 n i i) \/
     (r = 0%Z /\ ~ TermCheck.ref_path T0 n i i)).
Proof.
  intros Hi Hsame. destruct (clear_marks_spec T n) as [Hs Hclear].
  destruct (traceTermPath_spec T0 n i (S n) (TermCheck.clear_marks n T) i Hi)
    as (T' & r & Hrun & Hsame' & _ & Hres).
  - now apply same_terms_trans with (T2 := T).
  - pose proof (unmarked_le (TermCheck.clear_marks n T) n). lia.
  - exists T', r. split; [exact Hrun|]. split; [exact Hsame'|].
    destruct Hres as [[-> Hpath] | (-> & Hmi & Hnew)]; [left; auto|].
    right. split; [reflexivity|]. intros Hpath.
    apply (closed_no_path T0 T' n i) with (i := i) (k := i); auto.
Qed.

(** The starting points [i .. i + count - 1]: the function returns, with
    1 exactly when one of them transitively references itself. *)
Lemma checkCyclicTerms_from_spec (T0 : matrix) (n : nat) :
  forall count i T,
    (1 <= i)%nat -> (i + count <= S n)%nat -> TermCheck.same_terms T0 T ->
    exists T' r,
      TermCheck.checkCyclicTerms_from count i n T = Some (T', r) /\
      TermCheck.same_terms T0 T' /\
      ((r = 1%Z /\ exists k, (i <= k < i + count)%nat /\ TermCheck.ref_path T0 n k k) \/
       (r = 0%Z /\ forall k, (i <= k < i + count)%nat -> ~ TermCheck.ref_path T0 n k k)).
Proof.
  induction count as [|count IH]; intros i T Hi Hcount Hsame.
  - exists T, 0%Z. split; [reflexivity|]. split; [exact Hsame|].
    right. split; [reflexivity|]. intros k Hk. lia.
  - cbn [TermCheck.checkCyclicTerms_from].
    destruct (trace_from_spec T0 T n i) as (T1 & r & -> & Hsame1 & Hres); [lia | exact Hsame |].
    destruct Hres as [[-> Hpath] | [-> Hnone]].
    + exists T1, 1%Z. split; [reflexivity|]. split; [exact Hsame1|].
      left. split; [reflexivity|]. exists i. split; [lia | exact Hpath].
    + cbn [Z.eqb].
      destruct (IH (S i) T1) as (T2 & r & Hrun & Hsame2 & Hres); [lia | lia | exact Hsame1 |].
      exists T2, r. split; [exact Hrun|]. split; [exact Hsame2|].
      destruct Hres as [[-> (k & Hk & Hpath)] | [-> Hnone']].
      * left. split; [reflexivity|]. exists k. split; [lia | exact Hpath].
      * right. split; [reflexivity|]. intros k Hk.
        destruct (Nat.eq_dec k i) as [->|Hne]; [exact Hnone | apply Hnone'; lia].
Qed.

(** What [checkCyclicTerms] decides: it returns, and it returns 1
    exactly when one of the terms 1 .. n-1 transitively references
    itself. *)
Lemma checkCyclicTerms_spec (n : nat) (T : matrix) :
  exists T' r,
    TermCheck.checkCyclicTerms n T = Some (T', r) /\
    ((r = 1%Z /\ exists k, (1 <= k < n)%nat /\ TermCheck.ref_path T n k k) \/
     (r = 0%Z /\ forall k, (1 <= k < n)%nat -> ~ TermCheck.ref_path T n k k)).
Proof.
  unfold TermCheck.checkCyclicTerms.
  destruct (checkCyclicTerms_from_spec T n (n - 1) 1 T) as (T' & r & Hrun & _ & Hres).
  - lia.
  - lia.
  - intros i j _. reflexivity.
  - exists T', r. split; [exact Hrun|].
    destruct Hres as [[-> (k & Hk & Hpath)] | [-> Hnone]].
    + left. split; [reflexivity|]. exists k. split; [lia | exact Hpath].
    + right. split; [reflexivity|]. intros k Hk. apply Hnone. lia.
Qed.

Lemma ref_path_snoc (T : matrix) (n i j k : nat) :
  TermCheck.ref_path T n i j -> (1 <= k <= n)%nat -> TermCheck.refers T j k ->
  TermCheck.ref_path T n i k.
Proof.
  intros Hpath Hk Hr. induction Hpath as [i j Hi Hj Hij | i j m Hi Hj Hij Hpath IH].
  - apply TermCheck.ref_path_cons with (j := j); [assumption..|].
    now apply TermCheck.ref_path_one.
  - apply TermCheck.ref_path_cons with (j := j); [assumption..|]. now apply IH.
Qed.

(** A 1 is never a false alarm. *)
Lemma checkCyclicTerms_sound (n : nat) (T T' : matrix) :
  TermCheck.checkCyclicTerms n T = Some (T', 1%Z) -> TermCheck.cyclic T n.
Proof.
  intros Hrun. destruct (checkCyclicTerms_spec n T) as (T1 & r & Hrun' & Hres).
  rewrite Hrun in Hrun'. injection Hrun' as <- <-.
  destruct Hres as [[_ (k & _ & Hpath)] | [Hr _]]; [now exists k | discriminate].
Qed.

(** The cycles the check lets through are those of the last term
    naming itself. *)
Lemma checkCyclicTerms_missed (n : nat) (T T' : matrix) :
  TermCheck.checkCyclicTerms n T = Some (T', 0%Z) -> TermCheck.cyclic T n ->
  (1 <= n)%nat /\ TermCheck.refers T n n.
Proof.
  intros Hrun [i Hcycle]. destruct (checkCyclicTerms_spec n T) as (T1 & r & Hrun' & Hres).
  rewrite Hrun in Hrun'. injection Hrun' as <- <-.
  destruct Hres as [[Hr _] | [_ Hnone]]; [discriminate|].
  assert (Hrange : (1 <= i <= n)%nat) by (inversion Hcycle; assumption).
  destruct (Nat.eq_dec i n) as [->|Hne]; [|exfalso; apply (Hnone i); [lia | exact Hcycle]].
  split; [lia|].
  inversion Hcycle as [? ? _ _ Hr | ? j ? _ Hj Hr Hpath]; subst; [exact Hr|].
  destruct (Nat.eq_dec j n) as [->|Hjn]; [exact Hr|].
  exfalso. apply (Hnone j); [lia|]. now apply ref_path_snoc with (j := n).
Qed.

(** C1: the check is meant to return 1 whenever some term transitively
    references itself.  It does not when the only cycle is the last term
    naming itself: the starting points of the search stop at term n-1.
    With the single term T1 = T1 + 1, and with T1 = 2, T2 = T2 * T1, a
    cycle exists and the check returns 0.  Every other cycle is found
    ([checkCyclicTerms_spec], [checkCyclicTerms_missed]). *)
Theorem checkCyclicTerms_misses_last_term :
  (TermCheck.cyclic (TermCheck.references [(1, 1)]%nat) 1 /\
   snd <$> TermCheck.checkCyclicTerms 1 (TermCheck.references [(1, 1)]%nat) = Some 0%Z) /\
  (TermCheck.cyclic (TermCheck.references [(2, 2); (2, 1)]%nat) 2 /\
   snd <$> TermCheck.checkCyclicTerms 2 (TermCheck.references [(2, 2); (2, 1)]%nat) = Some 0%Z).
Proof.
  split; (split; [|reflexivity]).
  - exists 1%nat. apply TermCheck.ref_path_one; [lia | lia |].
    unfold TermCheck.refers. vm_compute. discriminate.
  - exists 2%nat. apply TermCheck.ref_path_one; [lia | lia |].
    unfold TermCheck.refers. vm_compute. discriminate.
Qed.

(** ** Dense linear algebra *)

(** [[2, 1], [4, 3]]: rows are swapped, the factors are L = [[1,0],[1/2,1]]
    and U = [[4,3],[0,-1/2]]. *)
Example factorize_2x2 :
  let '(r, st) := LinAlg.factorize (LinAlg.of_rows [[2; 1]; [4; 3]]%Q) 2
                    (fun _ => 0%Q) (fun _ => O) in
  (r, LinAlg.lu_indx st 1%nat, LinAlg.lu_indx st 2%nat,
   Qred (LinAlg.lu_a st 1 1)%nat, Qred (LinAlg.lu_a st 1 2)%nat,
   Qred (LinAlg.lu_a st 2 1)%nat, Qred (LinAlg.lu_a st 2 2)%nat)
  = (1%Z, 2%nat, 2%nat, 4%Q, 3%Q, (1 # 2)%Q, (-1 # 2)%Q).
Proof. vm_compute. reflexivity. Qed.

(** Solving [[2, 1], [4, 3]] x = [3, 7] gives x = [1, 1]. *)
Example solve_2x2 :
  let '(r, st) := LinAlg.factorize (LinAlg.of_rows [[2; 1]; [4; 3]]%Q) 2
                    (fun _ => 0%Q) (fun _ => O) in
  let b := LinAlg.solve (LinAlg.lu_a st) 2 (LinAlg.lu_indx st)
             (fun i => if Nat.eqb i 1 then 3%Q else 7%Q) in
  (Qred (b 1%nat), Qred (b 2%nat)) = (1%Q, 1%Q).
Proof. vm_compute. reflexivity. Qed.

Example factorize_zero_row :
  fst (LinAlg.factorize (LinAlg.of_rows [[2; 1]; [0; 0]]%Q) 2 (fun _ => 0%Q) (fun _ => O)) = 0%Z.
Proof. vm_compute. reflexivity. Qed.

Lemma TINY1_nonzero : ~ LinAlg.TINY1 == 0.
Proof. discriminate. Qed.

(** After the replacement step the pivot is not zero. *)
Lemma replace_zero_pivot_nonzero (j : nat) (st : LinAlg.lu) :
  ~ LinAlg.lu_a (LinAlg.replace_zero_pivot j st) j j == 0.
Proof.
  unfold LinAlg.replace_zero_pivot. simpl.
  destruct (Qeq_bool (LinAlg.lu_a st j j) 0) eqn:Hz.
  - rewrite set_cell_same. exact TINY1_nonzero.
  - intros H. apply Qeq_bool_iff in H. congruence.
Qed.

Lemma scaling_nonzero_divisors count :
  forall i n st, LinAlg.nonzero_divisors st ->
                 LinAlg.nonzero_divisors (snd (LinAlg.scaling count i n st)).
Proof.
  induction count as [|c IH]; intros i n st Hst; simpl; [exact Hst|].
  destruct (Qeq_bool (LinAlg.row_big (LinAlg.lu_a st) n i) 0) eqn:Hbig; [exact Hst|].
  apply IH. unfold LinAlg.nonzero_divisors. simpl. apply Forall_app. split; [exact Hst|].
  constructor; [|constructor].
  intros H. apply Qeq_bool_iff in H. congruence.
Qed.

Lemma select_pivot_divisors n j st :
  LinAlg.divisors (LinAlg.select_pivot n j st) = LinAlg.divisors st.
Proof.
  unfold LinAlg.select_pivot.
  destruct (LinAlg.pivot_search _ _ _ _) as [[a big] imax].
  now destruct (negb (Nat.eqb j imax)).
Qed.

Lemma column_nonzero_divisors n j st :
  LinAlg.nonzero_divisors st ->
  LinAlg.nonzero_divisors
    (LinAlg.divide_by_pivot n j (LinAlg.replace_zero_pivot j (LinAlg.select_pivot n j st))).
Proof.
  intros Hst. unfold LinAlg.divide_by_pivot.
  assert (Hkeep : LinAlg.nonzero_divisors (LinAlg.replace_zero_pivot j (LinAlg.select_pivot n j st))).
  { unfold LinAlg.nonzero_divisors. simpl. now rewrite select_pivot_divisors. }
  destruct (negb (Nat.eqb j n)); [|exact Hkeep].
  unfold LinAlg.nonzero_divisors. cbn [LinAlg.divisors]. apply Forall_app. split; [exact Hkeep|].
  constructor; [|constructor]. apply replace_zero_pivot_nonzero.
Qed.

(** C3, as amended: in [factorize], for every column [j], a selected
    pivot that is exactly 0 is replaced by 1.0e-20 before it is used, the
    pivot is left as it is otherwise, and so no division by zero occurs,
    neither by a pivot nor by a row's scale, for any input matrix. *)
Theorem factorize_divides_by_nonzero (a : matrix) (n : nat) (w : vec) (indx : nat -> nat) :
  Forall (fun d => ~ d == 0) (LinAlg.divisors (snd (LinAlg.factorize a n w indx))) /\
  (forall (j : nat) (st : LinAlg.lu),
      let st' := LinAlg.replace_zero_pivot j st in
      ~ LinAlg.lu_a st' j j == 0 /\
      (LinAlg.lu_a st j j == 0 -> LinAlg.lu_a st' j j = LinAlg.TINY1) /\
      (~ LinAlg.lu_a st j j == 0 -> LinAlg.lu_a st' = LinAlg.lu_a st)).
Proof.
  split.
  - unfold LinAlg.factorize.
    set (st0 := {| LinAlg.lu_a := a; LinAlg.lu_w := w; LinAlg.lu_indx := indx;
                   LinAlg.divisors := [] |}).
    pose proof (scaling_nonzero_divisors n 1 n st0 (Forall_nil_2 _)) as Hsc.
    destruct (LinAlg.scaling n 1 n st0) as [[|] st1]; simpl in Hsc |- *; [|exact Hsc].
    unfold for_to.
    apply (for_loop_inv (fun _ st => LinAlg.nonzero_divisors st)); [exact Hsc|].
    intros j st _ Hst. now apply column_nonzero_divisors.
  - intros j st. cbv zeta. split; [apply replace_zero_pivot_nonzero|].
    unfold LinAlg.replace_zero_pivot. simpl. split.
    + intros Hz. apply Qeq_bool_iff in Hz. rewrite Hz. apply set_cell_same.
    + intros Hnz. destruct (Qeq_bool (LinAlg.lu_a st j j) 0) eqn:Hz; [|reflexivity].
      apply Qeq_bool_iff in Hz. contradiction.
Qed.

Lemma factorize_divides_by_nonzero_witness :
  let st := {| LinAlg.lu_a := LinAlg.of_rows [[0; 1]; [1; 5]]%Q; LinAlg.lu_w := fun _ => 1%Q;
               LinAlg.lu_indx := fun _ => 1%nat; LinAlg.divisors := [] |} in
  Forall (fun d => ~ d == 0)
    (LinAlg.divisors (snd (LinAlg.factorize (LinAlg.of_rows [[0; 1]; [1; 0]]%Q) 2
                             (fun _ => 0%Q) (fun _ => O)))) /\
  LinAlg.lu_a (LinAlg.replace_zero_pivot 1 st) 1%nat 1%nat = LinAlg.TINY1 /\
  LinAlg.lu_a (LinAlg.replace_zero_pivot 2 st) = LinAlg.lu_a st.
Proof.
  intros st.
  destruct (factorize_divides_by_nonzero (LinAlg.of_rows [[0; 1]; [1; 0]]%Q) 2
              (fun _ => 0%Q) (fun _ => O)) as [Hdiv Hpivot].
  split; [exact Hdiv|]. split.
  - apply (Hpivot 1%nat st). reflexivity.
  - apply (Hpivot 2%nat st). vm_compute. intros H. discriminate H.
Defined.

(** C3 as first stated fails for a pivot that is tiny but not zero: the
    matrix [[1e-21, 1], [0, 1]] passes the zero-row check, its first pivot
    1e-21 is below 1e-20 in magnitude, it is not replaced, and it is the
    value column 1 is divided by. *)
Lemma factorize_divides_by_tiny_pivot :
  let '(r, st) := LinAlg.factorize LinAlg.tiny_pivot_matrix 2 (fun _ => 0%Q) (fun _ => O) in
  r = 1%Z /\
  LinAlg.lu_indx st 1%nat = 1%nat /\
  (Qabs (LinAlg.lu_a st 1%nat 1%nat) < LinAlg.TINY1)%Q /\
  ~ LinAlg.lu_a st 1%nat 1%nat == LinAlg.TINY1 /\
  Exists (fun d => (Qabs d < LinAlg.TINY1)%Q) (LinAlg.divisors st).
Proof.
  vm_compute. repeat split; try discriminate.
  apply Exists_cons_tl, Exists_cons_tl, Exists_cons_hd. reflexivity.
Qed.

(** ** Newton-Raphson solver *)

Example newton_solve_too_large :
  (Newton.newton_solve (Newton.newton_open 1) (Newton.start_at 2) 2 20 6
     (Newton.linear 4)).1.1 = (-3)%Z.
Proof. reflexivity. Qed.

Example newton_solve_linear :
  let '(r, x, _) := Newton.newton_solve (Newton.newton_open 1) (Newton.start_at 2) 1 20 6
                      (Newton.linear 4) in
  (r, Qred (x 1%nat)) = (2%Z, (39999999 # 10000000)%Q).
Proof. vm_compute. reflexivity. Qed.

Example newton_solve_singular :
  (Newton.newton_solve (Newton.newton_open 1) (Newton.start_at 2) 1 20 6
     (fun _ _ _ f => upd f 1 5%Q)).1.1 = (-1)%Z.
Proof. vm_compute. reflexivity. Qed.

Example newton_solve_no_convergence :
  (Newton.newton_solve (Newton.newton_open 1) (Newton.start_at 2) 1 0 6
     (Newton.linear 4)).1.1 = (-2)%Z.
Proof. vm_compute. reflexivity. Qed.

(** The Jacobian leaves every unknown as it found it. *)
Lemma jacobian_restores_x x n f w a func :
  forall i : nat, (LinAlg.jacobian x n f w a func).1.1.1 i = x i.
Proof.
  unfold LinAlg.jacobian, for_to.
  apply (for_loop_inv (fun _ (s : vec * vec * vec * matrix) => forall i, s.1.1.1 i = x i)).
  - reflexivity.
  - intros j [[[x' f'] w'] a'] _ Hx i. simpl in Hx.
    destruct (Qeq_bool (x' j) 0); simpl; unfold upd;
      destruct (Nat.eqb_spec i j) as [->|Hne]; auto;
      rewrite ?Nat.eqb_refl; try apply Hx;
      destruct (Nat.eqb_spec i j); try contradiction; apply Hx.
Qed.

(** The ratio of one component, as the loop computes it. *)
Lemma errx_code_ratio (x f relconvg : Q) :
  (0 < relconvg)%Q ->
  Qabs (f / (if Qlt_bool x relconvg then relconvg else x)) == Qabs f / Qmax x relconvg.
Proof.
  intros Hr. unfold Qdiv. rewrite Qabs_Qmult, Qabs_Qinv.
  destruct (Qlt_bool x relconvg) eqn:Hlt.
  - apply Qlt_bool_iff in Hlt.
    rewrite (Q.max_r x relconvg) by (now apply Qlt_le_weak).
    rewrite (Qabs_pos relconvg) by (now apply Qlt_le_weak). reflexivity.
  - assert (Hle : (relconvg <= x)%Q).
    { apply Qnot_lt_le. intros H. apply Qlt_bool_iff in H. congruence. }
    rewrite (Q.max_l x relconvg) by exact Hle.
    rewrite (Qabs_pos x); [reflexivity|].
    apply Qle_trans with relconvg; [now apply Qlt_le_weak | exact Hle].
Qed.

Lemma is_max_step (ratio : nat -> Q) (i : nat) (e errx : Q) :
  Newton.is_max ratio i e ->
  errx == ratio (S i) ->
  Newton.is_max ratio (S i) (if Qgt_bool errx e then errx else e).
Proof.
  intros [Hub Hatt] Herrx.
  destruct (Qgt_bool errx e) eqn:Hgt.
  - apply Qgt_bool_iff in Hgt. split.
    + intros j Hj. destruct (Nat.eq_dec j (S i)) as [->|Hne].
      * rewrite Herrx. apply Qle_refl.
      * apply Qle_trans with e; [apply Hub; lia | now apply Qlt_le_weak].
    + right. exists (S i). split; [lia | exact Herrx].
  - assert (Hle : (errx <= e)%Q).
    { apply Qnot_lt_le. intros H. apply Qgt_bool_iff in H. congruence. }
    split.
    + intros j Hj. destruct (Nat.eq_dec j (S i)) as [->|Hne].
      * now rewrite <- Herrx.
      * apply Hub. lia.
    + destruct Hatt as [Hz | (j & Hj & Hej)]; [now left|].
      right. exists j. split; [lia | exact Hej].
Qed.

(** The update loop adds the increments and returns the largest ratio. *)
Lemma update_solution_spec (x f : vec) (n : nat) (relconvg : Q) :
  (0 < relconvg)%Q ->
  let '(x', errmax) := Newton.update_solution x f n relconvg in
  (forall i, (1 <= i <= n)%nat -> x' i = (x i + f i)%Q) /\
  Newton.is_max (Newton.code_ratio x f relconvg) n errmax.
Proof.
  intros Hr. unfold Newton.update_solution, for_to.
  replace (S n - 1)%nat with n by lia.
  pose (P := fun (i : nat) (s : vec * Q) =>
    (forall j, (1 <= j < i)%nat -> s.1 j = (x j + f j)%Q) /\
    (forall j, (i <= j)%nat -> s.1 j = x j) /\
    Newton.is_max (Newton.code_ratio x f relconvg) (i - 1) s.2).
  set (res := for_loop 1 n _ _).
  assert (HP : P (1 + n)%nat res).
  { subst res. apply (for_loop_inv P).
    - repeat split; simpl; try (intros; lia || reflexivity).
      left. reflexivity.
    - intros i [x0 e] Hi (Hdone & Htodo & Hmax). simpl in Hdone, Htodo, Hmax.
      unfold P. cbn beta iota zeta delta [fst snd]. split; [|split].
      + intros j Hj. destruct (Nat.eq_dec j i) as [->|Hne].
        * rewrite upd_same. now rewrite Htodo by lia.
        * rewrite upd_other by exact Hne. apply Hdone. lia.
      + intros j Hj. rewrite upd_other by lia. apply Htodo. lia.
      + replace (S i - 1)%nat with (S (i - 1)) by lia.
        apply is_max_step; [exact Hmax|].
        replace (S (i - 1)) with i by lia.
        rewrite (Htodo i) by lia. unfold Newton.code_ratio.
        now apply errx_code_ratio. }
  clearbody res. destruct res as [x' e]. destruct HP as (Hdone & _ & Hmax).
  simpl in Hdone, Hmax. split.
  - intros i Hi. apply Hdone. lia.
  - now rewrite Nat.sub_0_r in Hmax.
Qed.

(** What a pass that is not singular returns: the unknowns plus the
    increments left in [F], and the largest ratio of an increment to the
    scale max(x[i], relconvg) of the unknown it is added to. *)
Lemma newton_pass_stepped n relconvg func S x x' errmax S' :
  (0 < relconvg)%Q ->
  Newton.newton_pass n relconvg func S x = Newton.Stepped x' errmax S' ->
  (forall i, (1 <= i <= n)%nat -> x' i = (x i + Newton.F S' i)%Q) /\
  Newton.is_max (Newton.code_ratio x (Newton.F S') relconvg) n errmax.
Proof.
  intros Hr. unfold Newton.newton_pass.
  pose proof (jacobian_restores_x x n (Newton.F S) (Newton.W S) (Newton.J S) func) as Hx.
  destruct (LinAlg.jacobian x n _ _ _ func) as [[[x1 f1] w1] a1]. simpl in Hx.
  destruct (LinAlg.factorize a1 n w1 _) as [r st].
  destruct (Z.eqb r 0); [discriminate|].
  set (dx := LinAlg.solve _ _ _ _).
  pose proof (update_solution_spec x1 dx n relconvg Hr) as Hupd.
  destruct (Newton.update_solution x1 dx n relconvg) as [x2 e].
  intros [= <- <- <-]. simpl. destruct Hupd as [Hadd Hmax]. split.
  - intros i Hi. rewrite Hadd by exact Hi. now rewrite Hx.
  - destruct Hmax as [Hub Hatt]. unfold Newton.code_ratio in *. split.
    + intros i Hi. rewrite <- Hx. now apply Hub.
    + destruct Hatt as [Hz | (i & Hi & He)]; [now left | right].
      exists i. split; [exact Hi|]. now rewrite <- Hx.
Qed.

Lemma nth_pass_succ n relconvg func j S x x1 e1 S1 :
  Newton.newton_pass n relconvg func S x = Newton.Stepped x1 e1 S1 ->
  Newton.nth_pass n relconvg func (Datatypes.S j) S x
  = Newton.nth_pass n relconvg func j S1 x1.
Proof. intros Hp. unfold Newton.nth_pass. simpl. now rewrite Hp. Qed.

(** The loop returns at the first pass that is singular or convergent. *)
Lemma newton_loop_result n relconvg func (count : nat) :
  forall (k0 : Z) (S : Newton.MSXNewton) (x : vec) (m : nat),
    (forall j, (j < m)%nat -> Newton.continues n relconvg func j S x) ->
    let ret := (Newton.newton_loop n relconvg func count k0 S x).1.1 in
    ((m < count)%nat ->
       (forall x' S', Newton.nth_pass n relconvg func m S x = Some (Newton.Singular x' S') ->
                      ret = (-1)%Z) /\
       (forall x' e S', Newton.nth_pass n relconvg func m S x = Some (Newton.Stepped x' e S') ->
                        (e <= relconvg)%Q -> ret = (k0 + Z.of_nat m)%Z)) /\
    ((count <= m)%nat -> ret = (-2)%Z).
Proof.
  induction count as [|c IH]; intros k0 S x m Hcont; cbv zeta.
  - split; [lia | reflexivity].
  - destruct m as [|m].
    + split; [intros _ | lia]. unfold Newton.nth_pass. simpl. split.
      * intros x' S' [= Hp]. now rewrite Hp.
      * intros x' e S' [= Hp] He. rewrite Hp.
        apply Qle_bool_iff in He. rewrite He. simpl. lia.
    + destruct (Hcont O ltac:(lia)) as (x1 & e1 & S1 & Hp & Hne).
      unfold Newton.nth_pass in Hp. simpl in Hp. injection Hp as Hp.
      simpl. rewrite Hp.
      destruct (Qle_bool e1 relconvg) eqn:Hle; [apply Qle_bool_iff in Hle; contradiction|].
      rewrite !(nth_pass_succ _ _ _ _ _ _ _ _ _ Hp).
      specialize (IH (k0 + 1)%Z S1 x1 m). cbv zeta in IH.
      destruct IH as [IH1 IH2].
      { intros j Hj. destruct (Hcont (Datatypes.S j) ltac:(lia)) as (x2 & e2 & S2 & H2 & Hn2).
        rewrite (nth_pass_succ _ _ _ _ _ _ _ _ _ Hp) in H2.
        exists x2, e2, S2. split; assumption. }
      split.
      * intros Hm. destruct (IH1 ltac:(lia)) as [Hs Hc]. split; [exact Hs|].
        intros x' e S' Hn He. rewrite (Hc x' e S' Hn He). lia.
      * intros Hm. apply IH2. lia.
Qed.

(** C2, as amended: newton_solve returns -3 if n exceeds the solver's
    opened capacity; otherwise it returns -1 if the Jacobian of the first
    pass that does not continue the iteration is singular, -2 if maxit
    passes go by without convergence, and otherwise the number of the first
    pass at which the largest over i of |dx[i]| / max(x[i], 10^(-numsig)) is
    at most 10^(-numsig), x[i] being the unknown before dx[i] is added. *)
Theorem newton_solve_result (S : Newton.MSXNewton) (x : vec) (n : nat)
    (maxit numsig : Z) (func : LinAlg.callback) :
  let relconvg := Qpower 10 (- numsig) in
  let ret := (Newton.newton_solve S x n maxit numsig func).1.1 in
  ((Newton.Nmax S < n)%nat -> ret = (-3)%Z) /\
  ((n <= Newton.Nmax S)%nat ->
   forall m : nat,
     (forall j, (j < m)%nat -> Newton.continues n relconvg func j S x) ->
     ((Z.of_nat m < maxit)%Z ->
        (forall x' S', Newton.nth_pass n relconvg func m S x = Some (Newton.Singular x' S') ->
                       ret = (-1)%Z) /\
        (forall x' e S', Newton.nth_pass n relconvg func m S x = Some (Newton.Stepped x' e S') ->
                         (e <= relconvg)%Q -> ret = (Z.of_nat m + 1)%Z)) /\
     ((maxit <= Z.of_nat m)%Z -> ret = (-2)%Z)) /\
  (forall S0 x0 x' e S',
     Newton.newton_pass n relconvg func S0 x0 = Newton.Stepped x' e S' ->
     (forall i, (1 <= i <= n)%nat -> x' i = (x0 i + Newton.F S' i)%Q) /\
     Newton.is_max (Newton.code_ratio x0 (Newton.F S') relconvg) n e).
Proof.
  cbv zeta. unfold Newton.newton_solve. split; [|split].
  - intros Hn. apply Nat.ltb_lt in Hn. now rewrite Hn.
  - intros Hn m Hcont.
    assert (Hlt : (Newton.Nmax S <? n)%nat = false) by (apply Nat.ltb_ge; exact Hn).
    rewrite Hlt.
    destruct (newton_loop_result n (Qpower 10 (- numsig)) func (Z.to_nat maxit) 1%Z S x m Hcont)
      as [Hin Hout].
    split.
    + intros Hm. destruct (Hin ltac:(lia)) as [Hs Hc]. split; [exact Hs|].
      intros x' e S' Hp He. rewrite (Hc x' e S' Hp He). lia.
    + intros Hm. apply Hout. lia.
  - intros S0 x0 x' e S' Hp. apply (newton_pass_stepped n _ func S0 x0 x' e S'); [|exact Hp].
    now apply Qpower_0_lt.
Qed.

Lemma newton_solve_result_witness :
  (Newton.newton_solve (Newton.newton_open 1) (Newton.start_at 2) 1 20 0
     (Newton.linear (4 + LinAlg.eps))).1.1 = 1%Z.
Proof.
  destruct (newton_solve_result (Newton.newton_open 1) (Newton.start_at 2) 1 20 0
              (Newton.linear (4 + LinAlg.eps))) as (_ & H & _).
  destruct (H ltac:(simpl; lia) 0%nat ltac:(intros; lia)) as [Hlt _].
  destruct (Hlt ltac:(lia)) as [_ Hconv].
  destruct (Newton.newton_pass 1 (Qpower 10 (- 0)) (Newton.linear (4 + LinAlg.eps))
              (Newton.newton_open 1) (Newton.start_at 2)) as [x' S'|x' e S'] eqn:Hp.
  - vm_compute in Hp. discriminate Hp.
  - apply (Hconv x' e S').
    + rewrite <- Hp. reflexivity.
    + vm_compute in Hp. injection Hp as _ He _. subst e. vm_compute. discriminate.
Defined.

(** C2 as first stated fails twice.  With 10^(-numsig) = 1, one unknown
    and the equation 10^7 x + 9999999 = 0 started at x = 0, the first
    pass has in double arithmetic the very values it has among the
    rationals: the function is 10^7 at x = eps and 9999999 at x = 0, the
    Jacobian is 10^7 and the increment, the value at x = eps over the
    Jacobian, is exactly -1.  The ratio |dx| / max(|x|, 1) is 1, which is
    not strictly below 1, and the solver returns 1.  With x - (-2 + eps) = 0
    started at x = -4 the first increment is 2: |dx| / max(|x|, 1) is
    1/2, strictly below 1, and the solver goes on and returns 2, because it
    scales by max(x, 1) and not by max(|x|, 1). *)
Lemma newton_solve_nonstrict_signed_scale :
  (let '(ret, x', S') := Newton.newton_solve (Newton.newton_open 1) (Newton.start_at 0) 1 20 0
                           (Newton.line 10000000 9999999) in
   ret = 1%Z /\ x' 1%nat == -1 /\ Newton.F S' 1%nat == -1 /\
   Newton.spec_ratio (Newton.start_at 0) (Newton.F S') (Qpower 10 (- 0)) 1 == Qpower 10 (- 0)) /\
  (let func := Newton.linear (-2 + LinAlg.eps) in
   (Newton.newton_solve (Newton.newton_open 1) (Newton.start_at (-4)) 1 20 0 func).1.1 = 2%Z /\
   match Newton.newton_pass 1 (Qpower 10 (- 0)) func (Newton.newton_open 1) (Newton.start_at (-4)) with
   | Newton.Stepped _ _ S' =>
     (Newton.spec_ratio (Newton.start_at (-4)) (Newton.F S') (Qpower 10 (- 0)) 1
      < Qpower 10 (- 0))%Q
   | Newton.Singular _ _ => False
   end).
Proof.
  split.
  - vm_compute. repeat split; reflexivity.
  - vm_compute. split; reflexivity.
Qed.

(** ** Runge-Kutta integrator *)

(** A system at rest over [0, 1] with initial step 1/4: the step grows
    tenfold after the first pass and the second pass ends the interval;
    1 + 2 * 6 function evaluations. *)
Example rk5_integrate_at_rest :
  fst <$> RK5.rk5_integrate RK5.libm_at_zero RK5.chem_solver (fun _ => 1%Q) 1
            0 1 (1 # 4) (fun _ => 1 # 100) (fun _ => 1 # 100) RK5.at_rest 0
  = Some 13%Z.
Proof. vm_compute. reflexivity. Qed.

Lemma fmax_ge_l (x y : Q) : (x <= RK5.fmax x y)%Q.
Proof.
  unfold RK5.fmax, Qge_bool. destruct (Qle_bool y x) eqn:E; [apply Qle_refl|].
  apply Qlt_le_weak, Qnot_le_lt. intros H. apply Qle_bool_iff in H. congruence.
Qed.

(** Every pass counts one step and six function evaluations. *)
Lemma rk5_step_counters (libm : RK5.Libm) (n : nat) (tnext hmax : Q) (adjust : bool)
    (atol rtol : vec) (func : LinAlg.callback) (st : RK5.rk_state) :
  RK5.r_nstep ((RK5.rk5_step libm n tnext hmax adjust atol rtol func) st) = (RK5.r_nstep st + 1)%Z /\
  RK5.r_nfcn ((RK5.rk5_step libm n tnext hmax adjust atol rtol func) st) = (RK5.r_nfcn st + 6)%Z.
Proof. split; reflexivity. Qed.

Lemma rk5_states_counters (libm : RK5.Libm) (n : nat) (tnext hmax : Q) (adjust : bool)
    (atol rtol : vec) (func : LinAlg.callback) (k : nat) :
  forall st : RK5.rk_state,
    RK5.r_nstep ((RK5.rk5_states libm n tnext hmax adjust atol rtol func) k st) = (RK5.r_nstep st + Z.of_nat k)%Z /\
    RK5.r_nfcn ((RK5.rk5_states libm n tnext hmax adjust atol rtol func) k st) = (RK5.r_nfcn st + 6 * Z.of_nat k)%Z.
Proof.
  induction k as [|k IH]; intros st.
  - simpl. lia.
  - change ((RK5.rk5_states libm n tnext hmax adjust atol rtol func) (S k) st) with ((RK5.rk5_states libm n tnext hmax adjust atol rtol func) k ((RK5.rk5_step libm n tnext hmax adjust atol rtol func) st)).
    destruct (IH ((RK5.rk5_step libm n tnext hmax adjust atol rtol func) st)) as [H1 H2]. rewrite H1, H2.
    destruct (rk5_step_counters libm n tnext hmax adjust atol rtol func st) as [-> ->]. lia.
Qed.

(** The loop ends within [Itmax - nstep] passes (one at least), and it
    ends in one of the three ways of [(RK5.exits libm Itmax n tnext hmax adjust atol rtol func)]. *)
Lemma rk5_loop_total (libm : RK5.Libm) (Itmax : Z) (n : nat) (tnext hmax : Q) (adjust : bool)
    (atol rtol : vec) (func : LinAlg.callback) (fuel : nat) :
  forall st : RK5.rk_state,
    (1 <= fuel)%nat ->
    (Itmax - RK5.r_nstep st <= Z.of_nat fuel)%Z ->
    exists k res, (RK5.rk5_loop libm Itmax n tnext hmax adjust atol rtol func) fuel st = Some res /\ (RK5.runs libm Itmax n tnext hmax adjust atol rtol func) st k /\ (RK5.exits libm Itmax n tnext hmax adjust atol rtol func) st k res.
Proof.
  induction fuel as [|fuel IH]; intros st Hone Hfuel; [lia|].
  cbn [RK5.rk5_loop]. destruct (Qlt_bool (RK5.r_t st) tnext) eqn:Ht; cbn [negb].
  2:{ exists O. eexists. split; [reflexivity|]. split; [intros j Hj; lia|].
      left. split; [|reflexivity]. cbn [RK5.rk5_states].
      intros H. apply Qlt_bool_iff in H. congruence. }
  apply Qlt_bool_iff in Ht.
  destruct (RK5.stalled st) eqn:Hst.
  { exists O. eexists. split; [reflexivity|]. split; [intros j Hj; lia|].
    right. left. cbn [RK5.rk5_states]. auto. }
  destruct (Itmax <=? RK5.r_nstep ((RK5.rk5_step libm n tnext hmax adjust atol rtol func) st))%Z eqn:Hmax.
  { apply Z.leb_le in Hmax. exists O. eexists. split; [reflexivity|].
    split; [intros j Hj; lia|]. right. right. cbn [RK5.rk5_states]. auto. }
  apply Z.leb_gt in Hmax.
  destruct (rk5_step_counters libm n tnext hmax adjust atol rtol func st) as [Hn _].
  destruct (IH ((RK5.rk5_step libm n tnext hmax adjust atol rtol func) st)) as (k & res & Hrun & Hruns & Hexit); [lia | lia |].
  exists (S k), res. split; [exact Hrun|]. split; [|exact Hexit].
  intros j Hj. destruct j as [|j].
  - cbn [RK5.rk5_states]. auto.
  - apply (Hruns j). lia.
Qed.


(** C5, as amended: for every integration interval and right-hand-side
    callback, rk5_integrate returns, after some number k of passes of its
    loop, in one of three ways: with the number 1 + 6k of function
    evaluations, when t has reached tnext; with -2, exactly when at the
    head of a pass 0.1 |h| <= 2.3e-16 |t| (the step is negligible against
    t), h being floored at 1e-8 only on entry; with -1, exactly when the
    step counter, which starts at 1 and counts every pass, reaches the
    maximum step count (1000 as opened by the chemistry engine), that is
    after pass number Itmax - 1. *)
Theorem rk5_integrate_result (libm : RK5.Libm) (R : RK5.MSXRungeKutta) (y : vec) (n : nat)
    (t tnext htry : Q) (atol rtol : vec) (func : LinAlg.callback) (fac_uninit : Q) :
  let adjust := RK5.local_adjust R htry in
  let st0 := RK5.rk5_start R y n t tnext htry atol rtol func fac_uninit in
  let states := RK5.rk5_states libm n tnext (tnext - t) adjust atol rtol func in
  exists (k : nat) (res : Z * RK5.rk_state),
    RK5.rk5_integrate libm R y n t tnext htry atol rtol func fac_uninit = Some res /\
    RK5.runs libm (RK5.s_Itmax R) n tnext (tnext - t) adjust atol rtol func st0 k /\
    RK5.exits libm (RK5.s_Itmax R) n tnext (tnext - t) adjust atol rtol func st0 k res /\
    RK5.r_nstep (states k st0) = (1 + Z.of_nat k)%Z /\
    RK5.r_nfcn (states k st0) = (1 + 6 * Z.of_nat k)%Z /\
    (RK5.HFLOOR <= RK5.r_h st0)%Q.
Proof.
  cbv zeta. unfold RK5.rk5_integrate.
  set (st0 := RK5.rk5_start R y n t tnext htry atol rtol func fac_uninit).
  destruct (rk5_loop_total libm (RK5.s_Itmax R) n tnext (tnext - t)
              (RK5.local_adjust R htry) atol rtol func
              (S (Z.to_nat (RK5.s_Itmax R))) st0) as (k & res & Hrun & Hruns & Hexit).
  - lia.
  - change (RK5.r_nstep st0) with 1%Z. lia.
  - exists k, res. split; [exact Hrun|]. split; [exact Hruns|]. split; [exact Hexit|].
    destruct (rk5_states_counters libm n tnext (tnext - t) (RK5.local_adjust R htry)
                atol rtol func k st0) as [H1 H2].
    split; [exact H1|]. split; [exact H2|].
    apply fmax_ge_l.
Qed.

(** C5 as first stated fails in both directions.  From t = 1e9 to
    1e9 + 1 with the initial step 1e-7, the first pass already finds
    0.1 |h| <= 2.3e-16 |t| and -2 is returned, although h is 1e-7 and never
    went below 1e-8.  Over the interval [0, 1e-9] with a system at rest, h
    is cut to the interval length 1e-9, below 1e-8, and the integration
    succeeds with 7 function evaluations. *)
Lemma rk5_minus2_is_not_h_below_1e8 :
  (let res := RK5.rk5_integrate RK5.libm_at_zero RK5.chem_solver (fun _ => 1%Q) 1
                1000000000 1000000001 (1 # 10000000)
                (fun _ => 1 # 100) (fun _ => 1 # 100) RK5.decay 0 in
   fst <$> res = Some (-2)%Z /\
   (RK5.r_h ∘ snd) <$> res = Some (1 # 10000000)%Q /\
   ~ ((1 # 10000000) < RK5.HFLOOR)%Q) /\
  (let res := RK5.rk5_integrate RK5.libm_at_zero RK5.chem_solver (fun _ => 1%Q) 1
                0 (1 # 1000000000) 0
                (fun _ => 1 # 100) (fun _ => 1 # 100) RK5.at_rest 0 in
   fst <$> res = Some 7%Z /\
   (Qred ∘ RK5.r_h ∘ snd) <$> res = Some (1 # 1000000000)%Q /\
   ((1 # 1000000000) < RK5.HFLOOR)%Q).
Proof.
  split; vm_compute; repeat split; discriminate.
Qed.

(** ** Expression evaluator *)

(** (3 + 4) * step(-1) + sgn(0) + 5, in postfix. *)
Example mathexpr_eval_arith :
  MathExpr.mathexpr_eval MathExpr.no_libm None (fun _ => 0%Q)
    [MathExpr.num 3; MathExpr.num 4; MathExpr.op 3;
     MathExpr.num 1; MathExpr.op 9; MathExpr.op 28; MathExpr.op 5;
     MathExpr.num 0; MathExpr.op 15; MathExpr.op 3;
     MathExpr.num 5; MathExpr.op 3]
  = MathExpr.Ok 5%Q.
Proof. reflexivity. Qed.

(** A lone [^] underflows, is caught by its guard, and the result is 0. *)
Example mathexpr_eval_power_underflow (libm : MathExpr.Libm) g uninit :
  MathExpr.mathexpr_eval libm g uninit [MathExpr.op 31] = MathExpr.Ok 0%Q.
Proof. reflexivity. Qed.

(** Reading and writing inside the stack. *)
Lemma rd_in_bounds (s : vec) (i : Z) :
  MathExpr.in_bounds i = true -> MathExpr.rd s i = MathExpr.Ok (s (Z.to_nat i)).
Proof. intros H. unfold MathExpr.rd. now rewrite H. Qed.

Lemma wr_in_bounds (s : vec) (i : Z) (x : Q) :
  MathExpr.in_bounds i = true -> MathExpr.wr s i x = MathExpr.Ok (upd s (Z.to_nat i) x).
Proof. intros H. unfold MathExpr.wr. now rewrite H. Qed.

Lemma in_bounds_iff (i : Z) :
  MathExpr.in_bounds i = true <-> (0 <= i < MathExpr.MAX_STACK_SIZE)%Z.
Proof. unfold MathExpr.in_bounds. rewrite andb_true_iff, Z.leb_le, Z.ltb_lt. reflexivity. Qed.

Lemma binary_ok (f : Q -> Q -> Q) (s : vec) (i : Z) :
  MathExpr.in_bounds i = true -> (1 <= i)%Z ->
  exists s', MathExpr.binary f s i = MathExpr.Ok (s', (i - 1)%Z).
Proof.
  intros Hi H1. assert (Hp : MathExpr.in_bounds (i - 1) = true).
  { apply in_bounds_iff. apply in_bounds_iff in Hi. lia. }
  unfold MathExpr.binary. rewrite (rd_in_bounds s i Hi). cbn.
  rewrite (rd_in_bounds s (i - 1) Hp). cbn.
  rewrite (wr_in_bounds s (i - 1) _ Hp). cbn. eauto.
Qed.

Lemma unary_ok (f : Q -> Q) (s : vec) (i : Z) :
  MathExpr.in_bounds i = true -> exists s', MathExpr.unary f s i = MathExpr.Ok (s', i).
Proof.
  intros Hi. unfold MathExpr.unary. rewrite (rd_in_bounds s i Hi). cbn.
  rewrite (wr_in_bounds s i _ Hi). cbn. eauto.
Qed.

Lemma push_ok (x : Q) (s : vec) (i : Z) :
  MathExpr.in_bounds i = true -> (i + 1 < MathExpr.MAX_STACK_SIZE)%Z ->
  exists s', MathExpr.push x s i = MathExpr.Ok (s', (i + 1)%Z).
Proof.
  intros Hi H1. assert (Hp : MathExpr.in_bounds (i + 1) = true).
  { apply in_bounds_iff. apply in_bounds_iff in Hi. lia. }
  unfold MathExpr.push. rewrite (wr_in_bounds s (i + 1) _ Hp). cbn. eauto.
Qed.

Lemma power_ok (libm : MathExpr.Libm) (s : vec) (i : Z) :
  MathExpr.in_bounds i = true -> (1 <= i)%Z ->
  exists s',
    (r1 ← MathExpr.rd s i;
     let stackindex := (i - 1)%Z in
     if (stackindex <? 0)%Z then MathExpr.Ok (s, stackindex)
     else
       r2 ← MathExpr.rd s stackindex;
       let r2 := if Qle_bool r2 0 then 0%Q else MathExpr.m_pow libm r2 r1 in
       s' ← MathExpr.wr s stackindex r2;
       MathExpr.Ok (s', stackindex)) = MathExpr.Ok (s', (i - 1)%Z).
Proof.
  intros Hi H1. assert (Hp : MathExpr.in_bounds (i - 1) = true).
  { apply in_bounds_iff. apply in_bounds_iff in Hi. lia. }
  rewrite (rd_in_bounds s i Hi). cbn.
  destruct (Z.ltb_spec (i - 1) 0) as [Hlt|_]; [lia|].
  rewrite (rd_in_bounds s (i - 1) Hp). cbn.
  rewrite (wr_in_bounds s (i - 1) _ Hp). cbn. eauto.
Qed.

(** One node of an IR that respects the stack. *)
Lemma eval_node_ok (libm : MathExpr.Libm) (g : option (Z -> Q))
    (node : MathExpr.ExprNode) (s : vec) (i : Z) :
  MathExpr.in_bounds i = true ->
  match MathExpr.stack_use_of (MathExpr.opcode node) with
  | MathExpr.Pops =>
    (1 <= i)%Z -> exists s', MathExpr.eval_node libm g node s i = MathExpr.Ok (s', (i - 1)%Z)
  | MathExpr.Pushes =>
    (i + 1 < MathExpr.MAX_STACK_SIZE)%Z ->
    exists s', MathExpr.eval_node libm g node s i = MathExpr.Ok (s', (i + 1)%Z)
  | MathExpr.Replaces | MathExpr.Skips =>
    exists s', MathExpr.eval_node libm g node s i = MathExpr.Ok (s', i)
  end.
Proof.
  intros Hi. unfold MathExpr.eval_node, MathExpr.stack_use_of.
  destruct (MathExpr.opcode node) as [|p|p]; [eauto | | eauto].
  repeat match goal with
         | |- context [match ?q with xI _ => _ | xO _ => _ | xH => _ end] =>
           is_var q; destruct q
         end;
    first [ now eauto
          | intros H; now apply binary_ok
          | intros H; now apply power_ok
          | intros H; now apply push_ok
          | now apply unary_ok ].
Qed.

(** An IR that respects the stack is evaluated without a fault. *)
Lemma eval_nodes_well_stacked (libm : MathExpr.Libm) (g : option (Z -> Q)) :
  forall (expr : MathExpr.MathExpr) (s : vec) (i : Z),
    MathExpr.in_bounds i = true -> MathExpr.well_stacked expr i = true ->
    exists s' i', MathExpr.eval_nodes libm g expr s i = MathExpr.Ok (s', i') /\
                  MathExpr.in_bounds i' = true.
Proof.
  induction expr as [|node next IH]; intros s i Hi Hw.
  - exists s, i. split; [reflexivity | exact Hi].
  - cbn [MathExpr.eval_nodes MathExpr.well_stacked] in *.
    pose proof (eval_node_ok libm g node s i Hi) as Hnode.
    pose proof (proj1 (in_bounds_iff i) Hi) as Hrange.
    destruct (MathExpr.stack_use_of (MathExpr.opcode node)).
    + apply andb_true_iff in Hw as [H1 Hw]. apply Z.leb_le in H1.
      destruct (Hnode H1) as [s1 ->]. cbn. apply IH; [|exact Hw].
      apply in_bounds_iff. lia.
    + apply andb_true_iff in Hw as [H1 Hw]. apply Z.ltb_lt in H1.
      destruct (Hnode H1) as [s1 ->]. cbn. apply IH; [|exact Hw].
      apply in_bounds_iff. lia.
    + destruct Hnode as [s1 ->]. cbn. now apply IH.
    + destruct Hnode as [s1 ->]. cbn. now apply IH.
Qed.

Lemma mathexpr_eval_well_stacked (libm : MathExpr.Libm) (g : option (Z -> Q))
    (uninit : vec) (expr : MathExpr.MathExpr) :
  MathExpr.well_stacked expr 0 = true ->
  exists r, MathExpr.mathexpr_eval libm g uninit expr = MathExpr.Ok r.
Proof.
  intros Hw. unfold MathExpr.mathexpr_eval.
  destruct (eval_nodes_well_stacked libm g expr (upd uninit 0 0%Q) 0%Z eq_refl Hw)
    as (s' & i' & -> & Hi).
  cbn. pose proof (proj1 (in_bounds_iff i') Hi) as Hrange.
  destruct (Z.leb_spec 0 i') as [_|Hlt]; [|lia].
  rewrite (rd_in_bounds s' i' Hi). eauto.
Qed.

(** C4: the evaluator is meant never to read below index 0 of its
    value stack, whatever the IR, and to yield 0 on an underflow.
    The guard that [^] has is missing from [+], [-], [*] and [/]: on
    every IR that starts with one of these operators the second operand
    is fetched from [exprStack[-1]], whatever follows and whatever the
    callback, and no 0 is returned. *)
Theorem mathexpr_eval_binary_underflow (libm : MathExpr.Libm)
    (getVariableValue : option (Z -> Q)) (uninit : vec)
    (iv : Z) (fv : Q) (next : MathExpr.MathExpr) :
  Forall (fun code =>
            MathExpr.mathexpr_eval libm getVariableValue uninit
              ({| MathExpr.opcode := code; MathExpr.ivar := iv; MathExpr.fvalue := fv |} :: next)
            = MathExpr.Fault (-1))
         [3; 4; 5; 6]%Z.
Proof.
  assert (Hr0 : forall s : vec, MathExpr.rd s 0 = MathExpr.Ok (s 0%nat)) by reflexivity.
  repeat apply Forall_cons_2; [..|apply Forall_nil_2];
    unfold MathExpr.mathexpr_eval; cbn [MathExpr.eval_nodes];
    unfold MathExpr.eval_node; cbn [MathExpr.opcode]; unfold MathExpr.binary;
    rewrite Hr0; cbn; reflexivity.
Qed.

(** ** Water and mass held by a pipe *)

(** A loop that rewrites one cell per pass leaves in cell [k] what pass
    [k] wrote, and leaves the cells outside its range alone. *)
Lemma for_loop_upd_at {A : Type} (g : nat -> A -> A) (count : nat) :
  forall (lo : nat) (a : nat -> A) (k : nat),
    for_loop lo count (fun m a => upd a m (g m (a m))) a k
    = if (lo <=? k)%nat && (k <? lo + count)%nat then g k (a k) else a k.
Proof.
  induction count as [|c IH]; intros lo a k.
  - simpl. destruct (lo <=? k)%nat eqn:E1; [|reflexivity].
    destruct (k <? lo + 0)%nat eqn:E2; [|reflexivity].
    apply Nat.leb_le in E1. apply Nat.ltb_lt in E2. lia.
  - simpl. rewrite IH.
    destruct (Nat.eq_dec k lo) as [->|Hne].
    + rewrite !upd_same.
      replace (S lo <=? lo)%nat with false by (symmetry; apply Nat.leb_gt; lia).
      replace (lo <=? lo)%nat with true by (symmetry; apply Nat.leb_le; lia).
      replace (lo <? lo + S c)%nat with true by (symmetry; apply Nat.ltb_lt; lia).
      reflexivity.
    + rewrite !(upd_other a lo k) by exact Hne.
      destruct (Nat.leb_spec (S lo) k), (Nat.leb_spec lo k),
               (Nat.ltb_spec k (S lo + c)), (Nat.ltb_spec k (lo + S c));
        simpl; try reflexivity; lia.
Qed.

Lemma for_to_upd_at {A : Type} (g : nat -> A -> A) (n : nat) (a : nat -> A) (k : nat) :
  for_to 1 n (fun m a => upd a m (g m (a m))) a k
  = if (1 <=? k)%nat && (k <=? n)%nat then g k (a k) else a k.
Proof.
  unfold for_to. rewrite for_loop_upd_at.
  replace (S n - 1)%nat with n by lia.
  destruct (Nat.ltb_spec k (1 + n)), (Nat.leb_spec k n); try reflexivity; lia.
Qed.

Lemma MIN_spec (x y : Q) : Pipe.MIN x y == Qmin x y.
Proof.
  unfold Pipe.MIN. destruct (Qle_bool x y) eqn:E.
  - apply Qle_bool_iff in E. symmetry. now apply Q.min_l.
  - assert (H : (y <= x)%Q).
    { apply Qlt_le_weak, Qnot_le_lt. intros H. apply Qle_bool_iff in H. congruence. }
    symmetry. now apply Q.min_r.
Qed.

Lemma volume_nonnegative (l : list Pipe.segment) :
  Transport.nonnegative l -> (0 <= Transport.volume l)%Q.
Proof.
  unfold Transport.volume.
  induction 1 as [|seg l Hseg _ IH]; cbn [fold_right]; [apply Qle_refl | lra].
Qed.

(** The loop of [evalnodeinflow] ends, and what it takes off the chain is
    what it adds to the inflow of the node. *)
Lemma inflow_loop_conserves (Nspecies : nat) (fuel : nat) :
  forall v lk volin massin,
    (length (Pipe.segs lk) < fuel)%nat ->
    exists lk' volin' massin',
      Pipe.inflow_loop Nspecies fuel v lk volin massin = Some (lk', volin', massin') /\
      (Transport.volume (Pipe.segs lk') + (volin' - volin)
       == Transport.volume (Pipe.segs lk))%Q /\
      (forall m, (1 <= m <= Nspecies)%nat ->
         (massin' m - massin m
          == Pipe.LperFT3 * (Transport.mass (Pipe.segs lk) m
                             - Transport.mass (Pipe.segs lk') m))%Q) /\
      (forall m, ~ (1 <= m <= Nspecies)%nat -> massin' m = massin m) /\
      (Transport.nonnegative (Pipe.segs lk) -> (0 <= v)%Q ->
       Transport.nonnegative (Pipe.segs lk') /\
       (volin' - volin == Qmin v (Transport.volume (Pipe.segs lk)))%Q).
Proof.
  induction fuel as [|fuel IH]; intros v lk volin massin Hfuel; [lia|].
  cbn [Pipe.inflow_loop].
  destruct (Qgt_bool v 0) eqn:Hv.
  2:{ exists lk, volin, massin. split; [reflexivity|].
      split; [ring|]. split; [intros m _; ring|]. split; [reflexivity|].
      intros Hnn Hv0. split; [exact Hnn|].
      assert (Hz : (v <= 0)%Q).
      { apply Qnot_lt_le. intros H. apply Qgt_bool_iff in H. congruence. }
      pose proof (volume_nonnegative _ Hnn).
      rewrite Q.min_l by lra. lra. }
  apply Qgt_bool_iff in Hv.
  destruct (Pipe.segs lk) as [|seg behind] eqn:Hsegs.
  { exists lk, volin, massin. split; [reflexivity|]. rewrite Hsegs.
    split; [ring|]. split; [intros m _; ring|]. split; [reflexivity|].
    intros Hnn Hv0. split; [exact Hnn|]. simpl. rewrite Q.min_r by lra. lra. }
  cbv zeta.
  set (vseg := Pipe.MIN (Pipe.seg_v seg) v).
  assert (Hvseg : (vseg == Qmin (Pipe.seg_v seg) v)%Q) by apply MIN_spec.
  set (massin1 := for_to 1 Nspecies
                    (fun m massin0 =>
                       upd massin0 m (massin0 m + vseg * Pipe.seg_c seg m * Pipe.LperFT3)%Q)
                    massin).
  assert (Hmass1 : forall m, massin1 m
            = if (1 <=? m)%nat && (m <=? Nspecies)%nat
              then (massin m + vseg * Pipe.seg_c seg m * Pipe.LperFT3)%Q else massin m).
  { intros m. unfold massin1.
    apply (for_to_upd_at (fun m x => (x + vseg * Pipe.seg_c seg m * Pipe.LperFT3)%Q)). }
  clearbody massin1.
  destruct (Qge_bool (v - vseg) 0 && Qge_bool vseg (Pipe.seg_v seg)) eqn:Hcase.
  - (* the leading segment is used up *)
    apply andb_true_iff in Hcase as [H1 H2].
    unfold Qge_bool in H1, H2. apply Qle_bool_iff in H1, H2.
    assert (Heq : (vseg == Pipe.seg_v seg)%Q).
    { apply Qle_antisym; [|exact H2]. rewrite Hvseg. apply Q.le_min_l. }
    destruct (IH (v - vseg)%Q (Pipe.with_segs lk behind (Pipe.nsegs lk - 1)%Z (Pipe.NewSeg lk))
                (volin + vseg)%Q massin1)
      as (lk' & volin' & massin' & Hrun & Hvol & Hmass & Hout & Hamount).
    { simpl. simpl in Hfuel. lia. }
    exists lk', volin', massin'. split; [exact Hrun|]. simpl in Hvol, Hmass, Hamount.
    split; [simpl; lra|]. split; [|split].
    + intros m Hm. specialize (Hmass m Hm). rewrite Hmass1 in Hmass.
      replace ((1 <=? m)%nat && (m <=? Nspecies)%nat) with true in Hmass
        by (symmetry; apply andb_true_iff; split; apply Nat.leb_le; lia).
      simpl. rewrite <- Heq. lra.
    + intros m Hm. rewrite (Hout m Hm), Hmass1.
      destruct (Nat.leb_spec 1 m), (Nat.leb_spec m Nspecies); try reflexivity; lia.
    + intros Hnn Hv0. apply Forall_cons in Hnn as [Hseg Hnn].
      destruct (Hamount Hnn H1) as [Hnn' Hmoved]. split; [exact Hnn'|].
      pose proof (volume_nonnegative _ Hnn) as Hvb. simpl.
      destruct (Qlt_le_dec (v - vseg) (Transport.volume behind)) as [Hlt|Hle].
      * rewrite Q.min_l in Hmoved by lra. rewrite Q.min_l by lra. lra.
      * rewrite Q.min_r in Hmoved by lra. rewrite Q.min_r by lra. lra.
  - (* the segment is larger than what is left to move *)
    assert (Hlt : (v < Pipe.seg_v seg)%Q).
    { apply Qnot_le_lt. intros Hle. rewrite Q.min_l in Hvseg by exact Hle.
      apply andb_false_iff in Hcase as [Hc|Hc]; unfold Qge_bool in Hc.
      - assert (H0 : (0 <= v - vseg)%Q) by lra. apply Qle_bool_iff in H0. congruence.
      - assert (H0 : (Pipe.seg_v seg <= vseg)%Q) by lra. apply Qle_bool_iff in H0. congruence. }
    rewrite Q.min_r in Hvseg by lra.
    assert (Hz : Qgt_bool (v - vseg) 0 = false).
    { apply negb_false_iff, Qle_bool_iff. lra. }
    destruct fuel as [|fuel]; [simpl in Hfuel; lia|].
    cbn [Pipe.inflow_loop]. rewrite Hz.
    eexists _, _, _. split; [reflexivity|]. simpl.
    split; [lra|]. split; [|split].
    + intros m Hm. rewrite Hmass1.
      replace ((1 <=? m)%nat && (m <=? Nspecies)%nat) with true
        by (symmetry; apply andb_true_iff; split; apply Nat.leb_le; lia).
      lra.
    + intros m Hm. rewrite Hmass1.
      destruct (Nat.leb_spec 1 m), (Nat.leb_spec m Nspecies); try reflexivity; lia.
    + intros Hnn Hv0. apply Forall_cons in Hnn as [Hseg Hnn]. split.
      * apply Forall_cons. split; [simpl; lra | exact Hnn].
      * pose proof (volume_nonnegative _ Hnn) as Hvb.
        rewrite Q.min_l by lra. lra.
Qed.

(** X1: what [evalnodeinflow] takes off the chain of a link is what it
    adds to the inflow of the downstream node: the function returns, the
    water left in the chain plus the volume added to [volin] is the
    water that was in the chain, the mass added to [massin] for each
    species is LperFT3 times the mass the chain lost, and the entries of
    [massin] that are not species are left alone. *)
Theorem evalnodeinflow_conserves (Nspecies : nat) (tstep : Q) (lk : Pipe.link)
    (volin : Q) (massin : vec) :
  exists lk' volin' massin',
    Pipe.evalnodeinflow Nspecies tstep lk volin massin = Some (lk', volin', massin') /\
    (Transport.volume (Pipe.segs lk') + (volin' - volin)
     == Transport.volume (Pipe.segs lk))%Q /\
    (forall m, (1 <= m <= Nspecies)%nat ->
       (massin' m - massin m
        == Pipe.LperFT3 * (Transport.mass (Pipe.segs lk) m
                           - Transport.mass (Pipe.segs lk') m))%Q) /\
    (forall m, ~ (1 <= m <= Nspecies)%nat -> massin' m = massin m).
Proof.
  destruct (inflow_loop_conserves Nspecies (S (length (Pipe.segs lk)))
              (Qabs (Pipe.flow lk) * tstep)%Q lk volin massin)
    as (lk' & volin' & massin' & Hrun & Hvol & Hmass & Hout & _); [lia|].
  exists lk', volin', massin'. split; [exact Hrun|]. split; [exact Hvol|].
  split; [exact Hmass | exact Hout].
Qed.

(** X2: on a chain without negative volumes and for a time step that is
    not negative, [evalnodeinflow] moves the flow volume |Q| tstep into
    the node, or all the water of the chain if that is less, and leaves
    no negative volume behind. *)
Theorem evalnodeinflow_amount (Nspecies : nat) (tstep : Q) (lk : Pipe.link)
    (volin : Q) (massin : vec) :
  Transport.nonnegative (Pipe.segs lk) -> (0 <= tstep)%Q ->
  exists lk' volin' massin',
    Pipe.evalnodeinflow Nspecies tstep lk volin massin = Some (lk', volin', massin') /\
    Transport.nonnegative (Pipe.segs lk') /\
    (volin' - volin
     == Qmin (Qabs (Pipe.flow lk) * tstep) (Transport.volume (Pipe.segs lk)))%Q.
Proof.
  intros Hnn Ht.
  destruct (inflow_loop_conserves Nspecies (S (length (Pipe.segs lk)))
              (Qabs (Pipe.flow lk) * tstep)%Q lk volin massin)
    as (lk' & volin' & massin' & Hrun & _ & _ & _ & Hamount); [lia|].
  exists lk', volin', massin'. split; [exact Hrun|].
  apply Hamount; [exact Hnn|]. apply Qmult_le_0_compat; [apply Qabs_nonneg | exact Ht].
Qed.

Example two_segments_nonnegative : Transport.nonnegative Transport.two_segments.
Proof. repeat constructor; simpl; lra. Qed.

Lemma evalnodeinflow_amount_witness :
  exists lk' volin' massin',
    Pipe.evalnodeinflow 1 1
      (Pipe.with_segs Pipe.fast_pipe Transport.two_segments 2 None) 0 (fun _ => 0%Q)
    = Some (lk', volin', massin') /\
    Transport.nonnegative (Pipe.segs lk') /\
    (volin' - 0
     == Qmin (Qabs (Pipe.flow (Pipe.with_segs Pipe.fast_pipe Transport.two_segments 2 None)) * 1)
             (Transport.volume
                (Pipe.segs (Pipe.with_segs Pipe.fast_pipe Transport.two_segments 2 None))))%Q.
Proof.
  apply (evalnodeinflow_amount 1 1
           (Pipe.with_segs Pipe.fast_pipe Transport.two_segments 2 None) 0 (fun _ => 0%Q)).
  - exact two_segments_nonnegative.
  - lra.
Defined.

Lemma volume_app (l1 l2 : list Pipe.segment) :
  (Transport.volume (l1 ++ l2) == Transport.volume l1 + Transport.volume l2)%Q.
Proof.
  unfold Transport.volume. induction l1 as [|seg l1 IH]; simpl; [ring|]. rewrite IH. ring.
Qed.

Lemma mass_app (l1 l2 : list Pipe.segment) (m : nat) :
  (Transport.mass (l1 ++ l2) m == Transport.mass l1 m + Transport.mass l2 m)%Q.
Proof.
  unfold Transport.mass. induction l1 as [|seg l1 IH]; simpl; [ring|]. rewrite IH. ring.
Qed.

(** A loop that rewrites the cells a test selects. *)
Lemma for_loop_cond_upd_at {A : Type} {P : nat -> Prop} (d : forall m, {P m} + {~ P m})
    (g : nat -> A) (count : nat) :
  forall (lo : nat) (a : nat -> A) (k : nat),
    for_loop lo count (fun m a => if d m then upd a m (g m) else a) a k
    = if (lo <=? k)%nat && (k <? lo + count)%nat
      then (if d k then g k else a k) else a k.
Proof.
  induction count as [|c IH]; intros lo a k.
  - simpl. destruct (lo <=? k)%nat eqn:E1; [|reflexivity].
    destruct (k <? lo + 0)%nat eqn:E2; [|reflexivity].
    apply Nat.leb_le in E1. apply Nat.ltb_lt in E2. lia.
  - simpl. rewrite IH.
    destruct (Nat.eq_dec k lo) as [->|Hne].
    + replace (S lo <=? lo)%nat with false by (symmetry; apply Nat.leb_gt; lia).
      replace (lo <=? lo)%nat with true by (symmetry; apply Nat.leb_le; lia).
      replace (lo <? lo + S c)%nat with true by (symmetry; apply Nat.ltb_lt; lia).
      simpl. destruct (d lo); [apply upd_same | reflexivity].
    + assert (Hk : (if d lo then upd a lo (g lo) else a) k = a k).
      { destruct (d lo); [now apply upd_other | reflexivity]. }
      rewrite Hk.
      destruct (Nat.leb_spec (S lo) k), (Nat.leb_spec lo k),
               (Nat.ltb_spec k (S lo + c)), (Nat.ltb_spec k (lo + S c));
        simpl; try reflexivity; lia.
Qed.

(** The concentrations of a segment into which a release is merged. *)
Lemma merge_c (Nspecies : nat) (Species : nat -> Sspecies) (seg : Pipe.segment)
    (upnodequal : vec) (v : Q) (m : nat) :
  Pipe.seg_c (Pipe.merge Nspecies Species seg upnodequal v) m
  = if (1 <=? m)%nat && (m <=? Nspecies)%nat
    then (if decide (sp_type (Species m) = BULK)
          then ((Pipe.seg_c seg m * Pipe.seg_v seg + upnodequal m * v)
                / (Pipe.seg_v seg + v))%Q
          else Pipe.seg_c seg m)
    else Pipe.seg_c seg m.
Proof.
  unfold Pipe.merge. cbn [Pipe.seg_c]. unfold for_to.
  rewrite (for_loop_cond_upd_at (fun m => decide (sp_type (Species m) = BULK))
             (fun m => ((Pipe.seg_c seg m * Pipe.seg_v seg + upnodequal m * v)
                        / (Pipe.seg_v seg + v))%Q)).
  replace (S Nspecies - 1)%nat with Nspecies by lia.
  destruct (Nat.ltb_spec m (1 + Nspecies)), (Nat.leb_spec m Nspecies); try reflexivity; lia.
Qed.

(** X3: [evalnodeoutflow] puts the flow volume v = |Q| tstep and, for
    every bulk species, the mass that v carries at the quality of the
    upstream node into the chain of the link, whether it adds a segment
    or merges the release into the last one; no volume becomes
    negative. *)
Theorem evalnodeoutflow_conserves (Nspecies : nat) (Species : nat -> Sspecies)
    (MaxSegments : Z) (upnodequal : vec) (tstep : Q) (lk lk' : Pipe.link) :
  Transport.nonnegative (Pipe.segs lk) -> (0 <= tstep)%Q ->
  Pipe.evalnodeoutflow Nspecies Species MaxSegments upnodequal tstep lk = Some lk' ->
  let v := (Qabs (Pipe.flow lk) * tstep)%Q in
  Transport.nonnegative (Pipe.segs lk') /\
  (Transport.volume (Pipe.segs lk') == Transport.volume (Pipe.segs lk) + v)%Q /\
  (forall m, (1 <= m <= Nspecies)%nat -> sp_type (Species m) = BULK ->
     (Transport.mass (Pipe.segs lk') m
      == Transport.mass (Pipe.segs lk) m + upnodequal m * v)%Q).
Proof.
  intros Hnn Ht. cbv zeta.
  assert (Hv0 : (0 <= Qabs (Pipe.flow lk) * tstep)%Q).
  { apply Qmult_le_0_compat; [apply Qabs_nonneg | exact Ht]. }
  set (v := (Qabs (Pipe.flow lk) * tstep)%Q) in *.
  unfold Pipe.evalnodeoutflow. cbv zeta. fold v.
  destruct (Qeq_bool v 0) eqn:Hv.
  { intros [= <-]. apply Qeq_bool_iff in Hv. split; [exact Hnn|].
    split; [rewrite Hv; ring|]. intros m _ _. rewrite Hv. ring. }
  assert (Hvpos : (0 < v)%Q).
  { apply Qle_lteq in Hv0 as [H|H]; [exact H|].
    symmetry in H. apply Qeq_bool_iff in H. congruence. }
  destruct (Pipe.NewSeg lk) as [new|]; [|discriminate]. cbn.
  set (c' := for_to 1 Nspecies
               (fun m c => if decide (sp_type (Species m) = BULK)
                           then upd c m (upnodequal m) else c)
               (Pipe.seg_c new)).
  assert (Hc' : forall m, (1 <= m <= Nspecies)%nat -> sp_type (Species m) = BULK ->
                          c' m = upnodequal m).
  { intros m Hm Hb. unfold c', for_to.
    rewrite (for_loop_cond_upd_at (fun m => decide (sp_type (Species m) = BULK)) upnodequal).
    replace ((1 <=? m)%nat && (m <? 1 + (S Nspecies - 1))%nat) with true
      by (symmetry; apply andb_true_iff; split; [apply Nat.leb_le | apply Nat.ltb_lt]; lia).
    destruct (decide (sp_type (Species m) = BULK)); [reflexivity | contradiction]. }
  assert (Hadd : forall c : vec,
            (forall m, (1 <= m <= Nspecies)%nat -> sp_type (Species m) = BULK ->
                       c m = upnodequal m) ->
            let lk1 := Pipe.MSXqual_addSeg {| Pipe.seg_v := v; Pipe.seg_c := c |}
                         (Pipe.with_segs lk (Pipe.segs lk) (Pipe.nsegs lk)
                            (Some {| Pipe.seg_v := v; Pipe.seg_c := c |})) in
            Transport.nonnegative (Pipe.segs lk1) /\
            (Transport.volume (Pipe.segs lk1) == Transport.volume (Pipe.segs lk) + v)%Q /\
            (forall m, (1 <= m <= Nspecies)%nat -> sp_type (Species m) = BULK ->
               (Transport.mass (Pipe.segs lk1) m
                == Transport.mass (Pipe.segs lk) m + upnodequal m * v)%Q)).
  { intros c Hc. cbv zeta. unfold Pipe.MSXqual_addSeg, Pipe.with_segs. cbn [Pipe.segs].
    split; [|split].
    - apply Forall_app. split; [exact Hnn|]. repeat constructor. cbn. lra.
    - rewrite volume_app. cbn. ring.
    - intros m Hm Hb. rewrite mass_app. cbn. rewrite (Hc m Hm Hb). ring. }
  destruct (last (Pipe.segs lk)) as [seg|] eqn:Hlast; [|intros [= <-]; exact (Hadd c' Hc')].
  destruct (negb (Pipe.MSXqual_isSame Nspecies Species (Pipe.seg_c seg) upnodequal)
            && (Pipe.nsegs lk <? MaxSegments)%Z); cbn [negb];
    [intros [= <-]; exact (Hadd c' Hc')|].
  intros [= <-]. unfold Pipe.with_segs. cbn [Pipe.segs].
  apply last_Some in Hlast as [front Hfront]. rewrite Hfront, removelast_last.
  rewrite Hfront in Hnn. apply Forall_app in Hnn as [Hfr Hseg].
  apply Forall_cons in Hseg as [Hseg _].
  split; [|split].
  - apply Forall_app. split; [exact Hfr|]. repeat constructor. cbn. lra.
  - rewrite !volume_app. cbn. ring.
  - intros m Hm Hb. rewrite !mass_app.
    assert (Hone : forall x : Pipe.segment,
              (Transport.mass [x] m == Pipe.seg_c x m * Pipe.seg_v x)%Q).
    { intros x. unfold Transport.mass. cbn [fold_right]. ring. }
    rewrite !Hone, merge_c.
    replace ((1 <=? m)%nat && (m <=? Nspecies)%nat) with true
      by (symmetry; apply andb_true_iff; split; apply Nat.leb_le; lia).
    destruct (decide (sp_type (Species m) = BULK)); [|contradiction].
    change (Pipe.seg_v (Pipe.merge Nspecies Species seg upnodequal v))
      with (Pipe.seg_v seg + v)%Q.
    field. lra.
Qed.

Lemma evalnodeoutflow_conserves_witness :
  let lk := Pipe.with_segs Pipe.fast_pipe Transport.two_segments 2
              (Some {| Pipe.seg_v := 0; Pipe.seg_c := fun _ => 0%Q |}) in
  let lk' := Pipe.with_segs Pipe.fast_pipe
               (Transport.two_segments
                ++ [{| Pipe.seg_v := 100; Pipe.seg_c := upd (fun _ => 0%Q) 1 7%Q |}]) 3
               (Some {| Pipe.seg_v := 100; Pipe.seg_c := upd (fun _ => 0%Q) 1 7%Q |}) in
  Transport.nonnegative (Pipe.segs lk') /\
  (Transport.volume (Pipe.segs lk')
   == Transport.volume (Pipe.segs lk) + Qabs (Pipe.flow lk) * 1)%Q /\
  (forall m, (1 <= m <= 1)%nat -> sp_type (Pipe.one_bulk m) = BULK ->
     (Transport.mass (Pipe.segs lk') m
      == Transport.mass (Pipe.segs lk) m + 7 * (Qabs (Pipe.flow lk) * 1))%Q).
Proof.
  intros lk lk'.
  apply (evalnodeoutflow_conserves 1 Pipe.one_bulk 50 (fun _ => 7%Q) 1 lk lk').
  - exact two_segments_nonnegative.
  - lra.
  - reflexivity.
Defined.

(** The sums [MSXqual_getLinkQual] accumulates along the chain. *)
Lemma link_sums_spec (m : nat) (l : list Pipe.segment) :
  forall a b : Q,
    let r := fold_left (fun '(vsum, msum) seg =>
                          ((vsum + Pipe.seg_v seg)%Q,
                           (msum + Pipe.seg_c seg m * Pipe.seg_v seg)%Q)) l (a, b) in
    (r.1 == a + Transport.volume l)%Q /\ (r.2 == b + Transport.mass l m)%Q.
Proof.
  unfold Transport.volume, Transport.mass.
  induction l as [|seg l IH]; intros a b; cbn [fold_left fold_right fst snd].
  - split; ring.
  - destruct (IH (a + Pipe.seg_v seg)%Q (b + Pipe.seg_c seg m * Pipe.seg_v seg)%Q) as [H1 H2].
    cbv zeta in H1, H2. split; [rewrite H1 | rewrite H2]; ring.
Qed.

Lemma mass_between (m : nat) (lo hi : Q) (l : list Pipe.segment) :
  Transport.nonnegative l ->
  Forall (fun seg => (lo <= Pipe.seg_c seg m <= hi)%Q) l ->
  (lo * Transport.volume l <= Transport.mass l m <= hi * Transport.volume l)%Q.
Proof.
  unfold Transport.volume, Transport.mass.
  induction 1 as [|seg l Hv _ IH]; intros Hc; cbn [fold_right].
  - lra.
  - apply Forall_cons in Hc as [[Hlo Hhi] Hc]. specialize (IH Hc).
    assert (H1 : (lo * Pipe.seg_v seg <= Pipe.seg_c seg m * Pipe.seg_v seg)%Q)
      by (apply Qmult_le_compat_r; assumption).
    assert (H2 : (Pipe.seg_c seg m * Pipe.seg_v seg <= hi * Pipe.seg_v seg)%Q)
      by (apply Qmult_le_compat_r; assumption).
    lra.
Qed.

(** X4: for a link that holds water, [MSXqual_getLinkQual] is the mass
    of the species in the chain divided by the volume of the chain, and
    it lies between the smallest and the largest concentration of the
    segments. *)
Theorem getLinkQual_average (MSX : NodeQual.project) (n1 n2 : nat)
    (l : list Pipe.segment) (m : nat) (lo hi : Q) :
  Transport.nonnegative l -> (0 < Transport.volume l)%Q ->
  Forall (fun seg => (lo <= Pipe.seg_c seg m <= hi)%Q) l ->
  (Transport.MSXqual_getLinkQual MSX n1 n2 l m
   == Transport.mass l m / Transport.volume l)%Q /\
  (lo <= Transport.MSXqual_getLinkQual MSX n1 n2 l m <= hi)%Q.
Proof.
  intros Hnn Hpos Hc. unfold Transport.MSXqual_getLinkQual, Transport.link_sums.
  destruct (link_sums_spec m l 0 0) as [Hv Hm]. cbv zeta in Hv, Hm.
  destruct (fold_left _ l (0%Q, 0%Q)) as [vsum msum]. cbn [fst snd] in Hv, Hm.
  rewrite Qplus_0_l in Hv, Hm.
  assert (Hgt : Qgt_bool vsum 0 = true) by (apply Qgt_bool_iff; rewrite Hv; exact Hpos).
  rewrite Hgt.
  assert (Havg : (msum / vsum == Transport.mass l m / Transport.volume l)%Q)
    by (rewrite Hv, Hm; reflexivity).
  split; [exact Havg|]. rewrite Havg.
  destruct (mass_between m lo hi l Hnn Hc) as [Hlo Hhi]. split.
  - apply Qle_shift_div_l; assumption.
  - apply Qle_shift_div_r; assumption.
Qed.

Lemma getLinkQual_average_witness :
  (Transport.MSXqual_getLinkQual
     {| NodeQual.Species := Pipe.one_bulk;
        NodeQual.Node := fun _ => {| node_c := fun _ => 0%Q; node_c0 := fun _ => 0%Q;
                                     node_tank := 0 |};
        NodeQual.Tank := fun _ => {| tank_node := O; tank_a := 0; tank_c := fun _ => 0%Q;
                                     tank_reacted := fun _ => 0%Q |} |}
     1 2 Transport.two_segments 1
   == Transport.mass Transport.two_segments 1 / Transport.volume Transport.two_segments)%Q /\
  (4 <= Transport.MSXqual_getLinkQual
          {| NodeQual.Species := Pipe.one_bulk;
             NodeQual.Node := fun _ => {| node_c := fun _ => 0%Q; node_c0 := fun _ => 0%Q;
                                          node_tank := 0 |};
             NodeQual.Tank := fun _ => {| tank_node := O; tank_a := 0; tank_c := fun _ => 0%Q;
                                          tank_reacted := fun _ => 0%Q |} |}
          1 2 Transport.two_segments 1 <= 9)%Q.
Proof.
  apply getLinkQual_average.
  - exact two_segments_nonnegative.
  - reflexivity.
  - repeat constructor; simpl; lra.
Defined.

(** X5: a link that holds no water reports the mean of the qualities of
    its two end nodes, which for a wall species is 0. *)
Theorem getLinkQual_no_water (MSX : NodeQual.project) (n1 n2 : nat)
    (l : list Pipe.segment) (m : nat) :
  (Transport.volume l <= 0)%Q ->
  (Transport.MSXqual_getLinkQual MSX n1 n2 l m
   == (NodeQual.MSXqual_getNodeQual MSX n1 m + NodeQual.MSXqual_getNodeQual MSX n2 m) / 2)%Q /\
  (sp_type (NodeQual.Species MSX m) = WALL ->
   (Transport.MSXqual_getLinkQual MSX n1 n2 l m == 0)%Q).
Proof.
  intros Hv. unfold Transport.MSXqual_getLinkQual, Transport.link_sums.
  destruct (link_sums_spec m l 0 0) as [Hvs _]. cbv zeta in Hvs.
  destruct (fold_left _ l (0%Q, 0%Q)) as [vsum msum]. cbn [fst] in Hvs.
  rewrite Qplus_0_l in Hvs.
  assert (Hgt : Qgt_bool vsum 0 = false).
  { apply negb_false_iff, Qle_bool_iff. rewrite Hvs. exact Hv. }
  rewrite Hgt. split; [reflexivity|].
  intros Hwall. unfold NodeQual.MSXqual_getNodeQual.
  destruct (decide (sp_type (NodeQual.Species MSX m) = WALL)); [reflexivity | contradiction].
Qed.

Lemma getLinkQual_no_water_witness :
  let MSX := {| NodeQual.Species := Pipe.one_bulk;
                NodeQual.Node := fun j => {| node_c := fun _ => inject_Z (Z.of_nat j);
                                             node_c0 := fun _ => 0%Q; node_tank := 0 |};
                NodeQual.Tank := fun _ => {| tank_node := O; tank_a := 0; tank_c := fun _ => 0%Q;
                                             tank_reacted := fun _ => 0%Q |} |} in
  (Transport.MSXqual_getLinkQual MSX 1 2 [] 1
   == (NodeQual.MSXqual_getNodeQual MSX 1 1 + NodeQual.MSXqual_getNodeQual MSX 2 1) / 2)%Q /\
  (sp_type (NodeQual.Species MSX 1) = WALL ->
   (Transport.MSXqual_getLinkQual MSX 1 2 [] 1 == 0)%Q).
Proof.
  intros MSX. apply (getLinkQual_no_water MSX 1 2 [] 1). simpl. lra.
Defined.

(** X6: [MSXqual_isSame] does not depend on the order of its arguments,
    it returns 1 exactly when every species differs by less than its
    absolute tolerance, and so it finds a set of concentrations the same
    as itself exactly when every tolerance is positive. *)
Theorem isSame_spec (Nspecies : nat) (Species : nat -> Sspecies) (c1 c2 : vec) :
  Pipe.MSXqual_isSame Nspecies Species c1 c2 = Pipe.MSXqual_isSame Nspecies Species c2 c1 /\
  (Pipe.MSXqual_isSame Nspecies Species c1 c2 = true <->
   forall m, (1 <= m <= Nspecies)%nat -> (Qabs (c1 m - c2 m) < aTol (Species m))%Q) /\
  (Pipe.MSXqual_isSame Nspecies Species c1 c1 = true <->
   forall m, (1 <= m <= Nspecies)%nat -> (0 < aTol (Species m))%Q).
Proof.
  assert (Hiff : forall a b : vec,
            Pipe.MSXqual_isSame Nspecies Species a b = true <->
            forall m, (1 <= m <= Nspecies)%nat -> (Qabs (a m - b m) < aTol (Species m))%Q).
  { intros a b. unfold Pipe.MSXqual_isSame. rewrite forallb_forall. split.
    - intros H m Hm. apply Qlt_bool_iff, H, in_seq. lia.
    - intros H m Hm. apply in_seq in Hm. apply Qlt_bool_iff, H. lia. }
  assert (Hsym : forall a b : vec, forall m, (Qabs (a m - b m) == Qabs (b m - a m))%Q).
  { intros a b m. rewrite <- Qabs_opp. apply Qabs_wd. ring. }
  split; [|split].
  - destruct (Pipe.MSXqual_isSame Nspecies Species c1 c2) eqn:E1.
    + symmetry. apply Hiff. intros m Hm. rewrite <- Hsym. now apply (proj1 (Hiff c1 c2) E1).
    + destruct (Pipe.MSXqual_isSame Nspecies Species c2 c1) eqn:E2; [|reflexivity].
      assert (H : Pipe.MSXqual_isSame Nspecies Species c1 c2 = true).
      { apply Hiff. intros m Hm. rewrite <- Hsym. now apply (proj1 (Hiff c2 c1) E2). }
      congruence.
  - apply Hiff.
  - rewrite Hiff. split; intros H m Hm; specialize (H m Hm).
    + assert (Hz : (c1 m - c1 m == 0)%Q) by ring. rewrite Hz in H. exact H.
    + assert (Hz : (c1 m - c1 m == 0)%Q) by ring. rewrite Hz. exact H.
Qed.

(** ** The pool of unused segments *)

Lemma assign_spec (Nspecies : nat) (v : Q) (c : vec) (s : Segs.Sseg) :
  Segs.seg_v (Pool.assign Nspecies v c s) = v /\
  Segs.seg_hstep (Pool.assign Nspecies v c s) = 0%Q /\
  Segs.seg_prev (Pool.assign Nspecies v c s) = Segs.seg_prev s /\
  (forall m, (1 <= m <= Nspecies)%nat -> Segs.seg_c (Pool.assign Nspecies v c s) m = c m) /\
  (forall m, ~ (1 <= m <= Nspecies)%nat ->
             Segs.seg_c (Pool.assign Nspecies v c s) m = Segs.seg_c s m).
Proof.
  unfold Pool.assign. cbn [Segs.seg_v Segs.seg_hstep Segs.seg_prev Segs.seg_c].
  split; [reflexivity|]. split; [reflexivity|]. split; [reflexivity|].
  split; intros m Hm; rewrite (for_to_upd_at (fun m _ => c m)).
  - replace ((1 <=? m)%nat && (m <=? Nspecies)%nat) with true
      by (symmetry; apply andb_true_iff; split; apply Nat.leb_le; lia).
    reflexivity.
  - destruct (Nat.leb_spec 1 m), (Nat.leb_spec m Nspecies); try reflexivity; lia.
Qed.

(** Rewriting a segment that is not on the list keeps the list. *)
Lemma free_from_insert (h : gmap nat Segs.Sseg) (p : nat) (s : Segs.Sseg) (l : list nat) :
  forall head, p ∉ l -> Pool.free_from h head l -> Pool.free_from (<[p := s]> h) head l.
Proof.
  induction l as [|q l IH]; intros head Hp Hl; [exact Hl|].
  destruct Hl as (Hhead & t & Ht & Hrest).
  apply not_elem_of_cons in Hp as [Hpq Hp].
  split; [exact Hhead|]. exists t. split.
  - rewrite lookup_insert_ne by congruence. exact Ht.
  - now apply IH.
Qed.

(** X7: a segment handed back with [MSXqual_removeSeg] is the one the
    next [MSXqual_getFreeSeg] returns, whatever the allocator would have
    given: it then carries the requested volume and quality and a zero
    integration step, the head of the list of discarded segments is what
    it was before, and no other segment in memory has changed. *)
Theorem removeSeg_getFreeSeg (Nspecies : nat) (alloc : option (nat * Segs.Sseg))
    (v : Q) (c : vec) (P : Pool.pool) (p : nat) (s : Segs.Sseg) :
  Pool.cells P !! p = Some s ->
  exists P1 P2 s2,
    Pool.MSXqual_removeSeg (Some p) P = Some P1 /\
    Pool.MSXqual_getFreeSeg Nspecies alloc v c P1 = Some (Some p, P2) /\
    Pool.FreeSeg P2 = Pool.FreeSeg P /\
    Pool.OutOfMemory P2 = Pool.OutOfMemory P /\
    Pool.cells P2 !! p = Some s2 /\
    Segs.seg_v s2 = v /\ Segs.seg_hstep s2 = 0%Q /\
    (forall m, (1 <= m <= Nspecies)%nat -> Segs.seg_c s2 m = c m) /\
    (forall q, q <> p -> Pool.cells P2 !! q = Pool.cells P !! q).
Proof.
  intros Hs. unfold Pool.MSXqual_removeSeg. rewrite Hs. cbn.
  eexists _, _, _. split; [reflexivity|].
  unfold Pool.MSXqual_getFreeSeg. cbn [Pool.FreeSeg Pool.cells Pool.OutOfMemory].
  rewrite lookup_insert_eq. cbn.
  split; [reflexivity|].
  cbn [Pool.FreeSeg Pool.cells Pool.OutOfMemory Segs.seg_prev Segs.set_links].
  split; [reflexivity|]. split; [reflexivity|].
  rewrite lookup_insert_eq. split; [reflexivity|].
  destruct (assign_spec Nspecies v c (Segs.set_links s (Pool.FreeSeg P) None))
    as (Hv & Hh & _ & Hc & _).
  split; [exact Hv|]. split; [exact Hh|]. split; [exact Hc|].
  intros q Hq. rewrite !lookup_insert_ne by congruence. reflexivity.
Qed.

Lemma removeSeg_getFreeSeg_witness :
  exists P1 P2 s2,
    Pool.MSXqual_removeSeg (Some 7%nat) Pool.small_pool = Some P1 /\
    Pool.MSXqual_getFreeSeg 2 None 5 (fun _ => 3%Q) P1 = Some (Some 7%nat, P2) /\
    Pool.FreeSeg P2 = Pool.FreeSeg Pool.small_pool /\
    Pool.OutOfMemory P2 = Pool.OutOfMemory Pool.small_pool /\
    Pool.cells P2 !! 7%nat = Some s2 /\
    Segs.seg_v s2 = 5%Q /\ Segs.seg_hstep s2 = 0%Q /\
    (forall m, (1 <= m <= 2)%nat -> Segs.seg_c s2 m = 3%Q) /\
    (forall q, q <> 7%nat -> Pool.cells P2 !! q = Pool.cells Pool.small_pool !! q).
Proof.
  apply (removeSeg_getFreeSeg 2 None 5 (fun _ => 3%Q) Pool.small_pool 7
           (Segs.seg_at 2 None None)).
  reflexivity.
Defined.

(** X8: the discarded segments form a stack.  Handing back a segment
    that is not on the list puts it in front; [MSXqual_getFreeSeg] takes
    the front segment off and allocates nothing while the list is not
    empty; on an empty list it returns what [Alloc] gives, and when that
    fails it returns NULL and raises [MSX.OutOfMemory]. *)
Theorem free_list_stack (Nspecies : nat) (alloc : option (nat * Segs.Sseg))
    (v : Q) (c : vec) (P : Pool.pool) (l : list nat) :
  Pool.free_list P l ->
  (forall p s, p ∉ l -> Pool.cells P !! p = Some s ->
     exists P', Pool.MSXqual_removeSeg (Some p) P = Some P' /\ Pool.free_list P' (p :: l)) /\
  (forall p l', l = p :: l' ->
     exists P', Pool.MSXqual_getFreeSeg Nspecies alloc v c P = Some (Some p, P') /\
                Pool.free_list P' l' /\ Pool.OutOfMemory P' = Pool.OutOfMemory P) /\
  (l = [] ->
   match alloc with
   | Some (q, s) =>
     exists P', Pool.MSXqual_getFreeSeg Nspecies alloc v c P = Some (Some q, P') /\
                Pool.free_list P' [] /\
                Pool.cells P' !! q = Some (Pool.assign Nspecies v c s)
   | None =>
     exists P', Pool.MSXqual_getFreeSeg Nspecies alloc v c P = Some (None, P') /\
                Pool.OutOfMemory P' = true /\ Pool.cells P' = Pool.cells P
   end).
Proof.
  intros [Hnd Hfree]. split; [|split].
  - intros p s Hp Hs. unfold Pool.MSXqual_removeSeg. rewrite Hs. cbn.
    eexists. split; [reflexivity|]. split; [now apply NoDup_cons|].
    cbn [Pool.cells Pool.FreeSeg Pool.free_from]. split; [reflexivity|].
    eexists. split; [apply lookup_insert_eq|]. cbn [Segs.seg_prev Segs.set_links].
    now apply free_from_insert.
  - intros p l' ->. destruct Hfree as (Hhead & s & Hs & Hrest).
    apply NoDup_cons in Hnd as [Hp Hnd].
    unfold Pool.MSXqual_getFreeSeg. rewrite Hhead, Hs. cbn.
    eexists. split; [reflexivity|]. split; [|reflexivity].
    split; [exact Hnd|]. cbn [Pool.cells Pool.FreeSeg].
    now apply free_from_insert.
  - intros ->. cbn in Hfree. unfold Pool.MSXqual_getFreeSeg. rewrite Hfree.
    destruct alloc as [[q s]|].
    + eexists. split; [reflexivity|]. split; [split; [constructor | reflexivity]|].
      cbn [Pool.cells]. apply lookup_insert_eq.
    + eexists. split; [reflexivity|]. split; reflexivity.
Qed.

Example small_pool_free_list : Pool.free_list Pool.small_pool [4%nat].
Proof.
  split; [apply NoDup_singleton|]. cbn. split; [reflexivity|].
  eexists. split; [reflexivity|]. reflexivity.
Qed.

Lemma free_list_stack_witness :
  (forall p s, p ∉ [4%nat] -> Pool.cells Pool.small_pool !! p = Some s ->
     exists P', Pool.MSXqual_removeSeg (Some p) Pool.small_pool = Some P' /\
                Pool.free_list P' [p; 4%nat]) /\
  (forall p l', [4%nat] = p :: l' ->
     exists P', Pool.MSXqual_getFreeSeg 1 None 5 (fun _ => 3%Q) Pool.small_pool
                = Some (Some p, P') /\
                Pool.free_list P' l' /\
                Pool.OutOfMemory P' = Pool.OutOfMemory Pool.small_pool) /\
  ([4%nat] = [] ->
   exists P', Pool.MSXqual_getFreeSeg 1 None 5 (fun _ => 3%Q) Pool.small_pool
              = Some (None, P') /\
              Pool.OutOfMemory P' = true /\ Pool.cells P' = Pool.cells Pool.small_pool).
Proof.
  apply (free_list_stack 1 None 5 (fun _ => 3%Q) Pool.small_pool [4%nat]).
  exact small_pool_free_list.
Defined.

Example with_spare_well_formed : Segs.is_seglist Pool.with_spare 1 [5; 2; 9]%nat.
Proof.
  split; [|split; [reflexivity|split; [reflexivity|]]].
  - compute_done.
  - intros i p Hi.
    destruct i as [|[|[|i]]]; simplify_eq/=;
      eexists; (split; [reflexivity|split; reflexivity]).
Qed.

Lemma addSeg_is_seglist_witness :
  exists st', Segs.MSXqual_addSeg 1 11 Pool.with_spare = Some st' /\
              Segs.is_seglist st' 1 ([5; 2; 9] ++ [11])%nat.
Proof.
  apply (addSeg_is_seglist Pool.with_spare 1 11 [5; 2; 9]%nat (Segs.seg_at 4 None None)).
  - exact with_spare_well_formed.
  - compute_done.
  - reflexivity.
Defined.

Lemma drop_first_is_seglist_witness :
  exists st', Segs.drop_first 1 Pool.with_spare = Some st' /\
              Segs.is_seglist st' 1 [2; 9]%nat.
Proof.
  apply (drop_first_is_seglist Pool.with_spare 1 5 [2; 9]%nat).
  exact with_spare_well_formed.
Defined.

(** ** Strings and keywords *)

Example strcomp_case : Str.MSXutils_strcomp (Str.of_string "Segments") (Str.of_string "SEGMENTS")
                       = Some true.
Proof. reflexivity. Qed.

Example findmatch_section :
  Str.MSXutils_findmatch (Str.of_string "  [species]") Str.MsxSectWords = 1%Z.
Proof. reflexivity. Qed.

(** [UCHAR] on a lower-case letter clears bit 5, which takes 32 off. *)
Lemma UCHAR_lower (c : Z) : (97 <= c <= 122)%Z -> Str.UCHAR c = (c - 32)%Z.
Proof.
  intros Hc. unfold Str.UCHAR.
  replace ((97 <=? c)%Z && (c <=? 122)%Z) with true
    by (symmetry; apply andb_true_iff; split; apply Z.leb_le; lia).
  assert (Hall : Forall (fun k => Z.land (97 + Z.of_nat k) (Z.lnot 32) = (97 + Z.of_nat k - 32)%Z)
                        (seq 0 26)).
  { repeat constructor. }
  rewrite Forall_forall in Hall.
  specialize (Hall (Z.to_nat (c - 97))).
  replace (97 + Z.of_nat (Z.to_nat (c - 97)))%Z with c in Hall by lia.
  apply Hall. apply elem_of_seq. lia.
Qed.

Lemma UCHAR_other (c : Z) : ~ (97 <= c <= 122)%Z -> Str.UCHAR c = c.
Proof.
  intros Hc. unfold Str.UCHAR.
  destruct (Z.leb_spec 97 c), (Z.leb_spec c 122); simpl; try reflexivity; lia.
Qed.

Lemma UCHAR_zero (c : Z) : Str.UCHAR c = 0%Z <-> c = 0%Z.
Proof.
  destruct (decide (97 <= c <= 122)%Z) as [Hc|Hc].
  - rewrite UCHAR_lower by exact Hc. lia.
  - rewrite UCHAR_other by exact Hc. reflexivity.
Qed.

(** Upper case is a normal form: [UCHAR] does not change it. *)
Lemma UCHAR_idemp (c : Z) : Str.UCHAR (Str.UCHAR c) = Str.UCHAR c.
Proof.
  destruct (decide (97 <= c <= 122)%Z) as [Hc|Hc].
  - rewrite (UCHAR_lower c Hc). apply UCHAR_other. lia.
  - rewrite (UCHAR_other c Hc). now apply UCHAR_other.
Qed.

Lemma deref_zero (s : Str.cstring) :
  Str.well_terminated s -> (Str.deref s = 0%Z <-> s = []).
Proof.
  intros Hs. destruct s as [|c s]; cbn [Str.deref hd]; [tauto|].
  apply Forall_cons in Hs as [Hc _]. split; [intros H; destruct (Hc H) | discriminate].
Qed.

Lemma strcomp_from (s1 : Str.cstring) :
  forall s2 : Str.cstring,
    Str.well_terminated s1 -> Str.well_terminated s2 ->
    s1 <> [] \/ s2 <> [] ->
    exists b, Str.MSXutils_strcomp s1 s2 = Some b /\
              (b = true <-> map Str.UCHAR s1 = map Str.UCHAR s2).
Proof.
  induction s1 as [|c1 t1 IH]; intros s2 H1 H2 Hne.
  - destruct s2 as [|c2 t2]; [destruct Hne; contradiction|].
    apply Forall_cons in H2 as [Hc2 _]. cbn [Str.MSXutils_strcomp Str.deref hd].
    change (Str.UCHAR 0) with 0%Z.
    destruct (Z.eqb_spec 0 (Str.UCHAR c2)) as [E|E].
    + symmetry in E. apply (proj1 (UCHAR_zero _)) in E. destruct (Hc2 E).
    + exists false. split; [reflexivity|]. split; discriminate.
  - apply Forall_cons in H1 as [Hc1 H1].
    destruct s2 as [|c2 t2].
    + cbn [Str.MSXutils_strcomp Str.deref hd]. change (Str.UCHAR 0) with 0%Z.
      destruct (Z.eqb_spec (Str.UCHAR c1) 0) as [E|E].
      * apply (proj1 (UCHAR_zero _)) in E. destruct (Hc1 E).
      * exists false. split; [reflexivity|]. split; discriminate.
    + apply Forall_cons in H2 as [Hc2 H2]. cbn [Str.MSXutils_strcomp Str.deref hd].
      destruct (Z.eqb_spec (Str.UCHAR c1) (Str.UCHAR c2)) as [E|E].
      2:{ exists false. split; [reflexivity|]. split; [discriminate|].
          intros [= H _]. contradiction. }
      fold (Str.deref t1). fold (Str.deref t2).
      destruct (Z.eqb_spec (Str.deref t1) 0) as [E1|E1];
        [destruct (Z.eqb_spec (Str.deref t2) 0) as [E2|E2]|]; cbn [andb].
      * apply (deref_zero t1 H1) in E1. apply (deref_zero t2 H2) in E2. subst.
        exists true. split; [reflexivity|]. cbn. rewrite E. tauto.
      * destruct (IH t2 H1 H2) as (b & Hb & Hiff).
        { right. intros ->. now apply E2. }
        exists b. split; [exact Hb|]. rewrite Hiff. cbn. rewrite E.
        split; [intros ->; reflexivity | intros [= H]; exact H].
      * destruct (IH t2 H1 H2) as (b & Hb & Hiff).
        { left. intros ->. now apply E1. }
        exists b. split; [exact Hb|]. rewrite Hiff. cbn. rewrite E.
        split; [intros ->; reflexivity | intros [= H]; exact H].
Qed.

(** X11: on two strings that are not both empty [MSXutils_strcomp]
    returns 1 exactly when the strings are equal once their lower-case
    letters a..z are put in upper case, and 0 otherwise; on two empty
    strings it reads the characters behind both terminators. *)
Theorem strcomp_spec (s1 s2 : Str.cstring) :
  Str.well_terminated s1 -> Str.well_terminated s2 ->
  (s1 <> [] \/ s2 <> [] ->
   exists b, Str.MSXutils_strcomp s1 s2 = Some b /\
             (b = true <-> map Str.UCHAR s1 = map Str.UCHAR s2)) /\
  (s1 = [] -> s2 = [] -> Str.MSXutils_strcomp s1 s2 = None).
Proof.
  intros H1 H2. split; [now apply strcomp_from|]. intros -> ->. reflexivity.
Qed.

Lemma of_string_well_terminated_example :
  Str.well_terminated (Str.of_string "rk5") /\ Str.well_terminated (Str.of_string "RK5").
Proof. split; repeat constructor; discriminate. Qed.

Lemma strcomp_spec_witness :
  (Str.of_string "rk5" <> [] \/ Str.of_string "RK5" <> [] ->
   exists b, Str.MSXutils_strcomp (Str.of_string "rk5") (Str.of_string "RK5") = Some b /\
             (b = true <-> map Str.UCHAR (Str.of_string "rk5")
                           = map Str.UCHAR (Str.of_string "RK5"))) /\
  (Str.of_string "rk5" = [] -> Str.of_string "RK5" = [] ->
   Str.MSXutils_strcomp (Str.of_string "rk5") (Str.of_string "RK5") = None).
Proof.
  apply strcomp_spec; apply of_string_well_terminated_example.
Defined.

(** What the first loop of [MSXutils_match] skips. *)
Lemma skip_blanks_spec (str : Str.cstring) :
  exists n, str = replicate n 32%Z ++ Str.skip_blanks str /\
            Str.deref (Str.skip_blanks str) <> 32%Z.
Proof.
  induction str as [|c str (n & Hn & Hd)].
  - exists 0%nat. split; [reflexivity | discriminate].
  - cbn [Str.skip_blanks]. destruct (Z.eqb_spec c 32) as [->|Hc].
    + exists (S n). split; [cbn; now f_equal | exact Hd].
    + exists 0%nat. split; [reflexivity | exact Hc].
Qed.

Lemma match_from_spec (substr : Str.cstring) :
  forall str : Str.cstring,
    Str.match_from str substr = true <->
    map Str.UCHAR substr `prefix_of` map Str.UCHAR str.
Proof.
  induction substr as [|c substr IH]; intros str; cbn [Str.match_from map].
  - split; [intros _; apply prefix_nil | reflexivity].
  - destruct str as [|d str]; cbn [map].
    + split; [discriminate|]. intros [k Hk]. discriminate.
    + destruct (Z.eqb_spec (Str.UCHAR d) (Str.UCHAR c)) as [E|E].
      * rewrite IH, E. split; [apply prefix_cons | apply prefix_cons_inv_2].
      * split; [discriminate|]. intros H. apply prefix_cons_inv_1 in H. congruence.
Qed.

(** X12: [MSXutils_match(str, substr)] is a test for a prefix, not for a
    sub-string: it returns 1 exactly when [substr] is not empty and,
    lower-case letters put in upper case, is a prefix of what is left of
    [str] behind its leading blanks. *)
Theorem match_spec (str substr : Str.cstring) :
  Str.MSXutils_match str substr = true <->
  substr <> [] /\
  exists (n : nat) (rest : Str.cstring),
    str = replicate n 32%Z ++ rest /\ Str.deref rest <> 32%Z /\
    map Str.UCHAR substr `prefix_of` map Str.UCHAR rest.
Proof.
  destruct (skip_blanks_spec str) as (n & Hn & Hd).
  unfold Str.MSXutils_match. destruct substr as [|c substr].
  - split; [discriminate | intros [H _]; contradiction].
  - rewrite match_from_spec. split.
    + intros H. split; [discriminate|]. exists n, (Str.skip_blanks str). auto.
    + intros (_ & n' & rest & Hstr & Hrest & Hpre).
      assert (Heq : Str.skip_blanks str = rest); [|now rewrite Heq].
      rewrite Hstr. clear -Hrest.
      induction n' as [|n' IH]; cbn.
      * destruct rest as [|d rest]; [reflexivity|]. cbn in Hrest |- *.
        destruct (Z.eqb_spec d 32); [contradiction | reflexivity].
      * exact IH.
Qed.

Lemma findmatch_from_spec (s : Str.cstring) (keyword : list Str.cstring) :
  forall i : Z,
    let r := Str.findmatch_from i s keyword in
    (r = (-1)%Z /\ Forall (fun k => Str.MSXutils_match s k = false) keyword) \/
    (exists (j : nat) (k : Str.cstring),
        r = (i + Z.of_nat j)%Z /\ keyword !! j = Some k /\
        Str.MSXutils_match s k = true /\
        Forall (fun k' => Str.MSXutils_match s k' = false) (take j keyword)).
Proof.
  induction keyword as [|k rest IH]; intros i; cbn [Str.findmatch_from].
  - left. split; [reflexivity | constructor].
  - destruct (Str.MSXutils_match s k) eqn:Hk.
    + right. exists 0%nat, k. cbn. split; [lia|]. split; [reflexivity|].
      split; [exact Hk | constructor].
    + destruct (IH (i + 1)%Z) as [[Hr Hall] | (j & k' & Hr & Hj & Hm & Hall)].
      * left. split; [exact Hr | now constructor].
      * right. exists (S j), k'. cbn. split; [rewrite Hr; lia|]. split; [exact Hj|].
        split; [exact Hm | now constructor].
Qed.

(** X13: [MSXutils_findmatch] returns the index of the first keyword of
    the table that [MSXutils_match] accepts, and -1 exactly when it
    accepts none. *)
Theorem findmatch_spec (s : Str.cstring) (keyword : list Str.cstring) :
  let r := Str.MSXutils_findmatch s keyword in
  (r = (-1)%Z /\ Forall (fun k => Str.MSXutils_match s k = false) keyword) \/
  (exists (j : nat) (k : Str.cstring),
      r = Z.of_nat j /\ keyword !! j = Some k /\
      Str.MSXutils_match s k = true /\
      Forall (fun k' => Str.MSXutils_match s k' = false) (take j keyword)).
Proof.
  cbv zeta. unfold Str.MSXutils_findmatch.
  destruct (findmatch_from_spec s keyword 0) as [H | (j & k & Hr & H)]; [now left|].
  right. exists j, k. split; [rewrite Hr; lia | exact H].
Qed.

(** X14: no name is ever read as the hydraulic variable [Us]: whatever
    the keyword "Us" of [HydVarWords] matches, the keyword "U" before it
    matches too.  So [MSXutils_findmatch] never returns 5 on that table;
    it never returns 0 either, the first entry being the empty string. *)
Theorem findmatch_HydVarWords (s : Str.cstring) :
  Str.MSXutils_findmatch s Str.HydVarWords <> 5%Z /\
  Str.MSXutils_findmatch s Str.HydVarWords <> 0%Z /\
  Str.MSXutils_findmatch (Str.of_string "Us") Str.HydVarWords = 3%Z.
Proof.
  assert (Hshadow : Str.MSXutils_match s (Str.of_string "Us") = true ->
                    Str.MSXutils_match s (Str.of_string "U") = true).
  { change (Str.match_from (Str.skip_blanks s) (Str.of_string "Us") = true ->
            Str.match_from (Str.skip_blanks s) (Str.of_string "U") = true).
    rewrite !match_from_spec. intros Hpre.
    etransitivity; [|exact Hpre]. exists [83%Z]. reflexivity. }
  unfold Str.MSXutils_findmatch.
  destruct (findmatch_from_spec s Str.HydVarWords 0)
    as [[Hr _] | (j & k & Hr & Hj & Hm & Hall)]; cbv zeta in *.
  { rewrite Hr. split; [discriminate|]. split; [discriminate | reflexivity]. }
  rewrite Hr, Z.add_0_l. split; [|split; [|reflexivity]].
  - intros H5. assert (j = 5%nat) by lia. subst j.
    cbn in Hj. injection Hj as <-. cbn in Hall.
    apply Hshadow in Hm.
    do 3 apply Forall_cons in Hall as [_ Hall]. apply Forall_cons in Hall as [HU _].
    unfold Str.of_string in Hm. cbn in Hm. cbn in HU. congruence.
  - intros H0. assert (j = 0%nat) by lia. subst j.
    cbn in Hj. injection Hj as <-. discriminate Hm.
Qed.

(** X15: [MSXutils_getInt] reads a number that is within 0.01 of an
    integer (one that fits an [int]) as that integer, and reports
    success. *)
Theorem getInt_rounds (x : Q) (k : Z) :
  (-2147483648 <= k <= 2147483647)%Z ->
  (Qabs (x - inject_Z k) <= 1 # 100)%Q -> Str.MSXutils_getInt (Some x) = (1%Z, k).
Proof.
  intros _ Hx. apply Qabs_Qle_condition in Hx as [Hlo Hhi].
  unfold Str.MSXutils_getInt, Str.truncate. f_equal.
  destruct x as [p q]. unfold Qle, Qminus, Qplus, Qopp, inject_Z in Hlo, Hhi.
  cbn [Qnum Qden] in Hlo, Hhi.
  rewrite Pos.mul_1_r in Hlo, Hhi.
  set (kq := (k * Z.pos q)%Z) in *.
  assert (Hkq : (- k * Z.pos q = - kq)%Z) by (unfold kq; ring).
  rewrite Hkq in Hlo, Hhi.
  destruct (Qlt_bool (p # q) 0) eqn:Hneg.
  - apply Qlt_bool_iff in Hneg. unfold Qlt in Hneg. cbn [Qnum Qden] in Hneg.
    unfold Qminus, Qplus, Qopp. cbn [Qnum Qden]. rewrite Pos2Z.inj_mul.
    assert (Hq : Z.quot (- (p * 100 + - (1) * Z.pos q)) (Z.pos q * 100) = (- k)%Z).
    { symmetry. apply Z.quot_unique with (r := (- (p * 100 + - (1) * Z.pos q) - 100 * - kq)%Z).
      - lia.
      - lia.
      - unfold kq. ring. }
    rewrite Z.quot_opp_l in Hq by lia. lia.
  - assert (Hnn : ~ (p # q < 0)%Q) by (intros H; apply Qlt_bool_iff in H; congruence).
    unfold Qlt in Hnn. cbn [Qnum Qden] in Hnn.
    unfold Qplus. cbn [Qnum Qden]. rewrite Pos2Z.inj_mul.
    symmetry. apply Z.quot_unique with (r := (p * 100 + 1 * Z.pos q - 100 * kq)%Z).
    + lia.
    + lia.
    + unfold kq. ring.
Qed.

Lemma getInt_rounds_witness :
  Str.MSXutils_getInt (Some (1995 # 1000)) = (1%Z, 2%Z) /\
  Str.MSXutils_getInt (Some (- 3005 # 1000)) = (1%Z, (-3)%Z).
Proof.
  split.
  - apply (getInt_rounds (1995 # 1000) 2); [lia | vm_compute; discriminate].
  - apply (getInt_rounds (- 3005 # 1000) (-3)); [lia | vm_compute; discriminate].
Defined.

(** ** Tokens of an input line (msxinp.c, getTokens) *)

Example getTokens_option_line :
  Str.getTokens (Str.of_string "  SEGMENTS   200  ; at most 200")
  = [Str.of_string "SEGMENTS"; Str.of_string "200"].
Proof. reflexivity. Qed.

Example getTokens_quoted :
  Str.getTokens (Str.of_string "FILE " ++ [34%Z] ++ Str.of_string "my report.txt"
                 ++ [34%Z] ++ Str.of_string " x")
  = [Str.of_string "FILE"; Str.of_string "my report.txt"; Str.of_string "x"].
Proof. reflexivity. Qed.

(** Membership in a list that is written out. *)
Ltac in_list := rewrite ?list_elem_of_In in *; simpl in *; tauto.

Lemma strcspn_take (reject s : Str.cstring) :
  Forall (fun c => c ∉ reject) (take (Str.strcspn s reject) s).
Proof.
  induction s as [|c s IH]; cbn [Str.strcspn]; [constructor|].
  destruct (existsb (Z.eqb c) reject) eqn:E; cbn [take]; [constructor|].
  constructor; [|exact IH].
  intros Hin. apply not_true_iff_false in E. apply E, existsb_exists.
  exists c. split; [now apply list_elem_of_In | apply Z.eqb_refl].
Qed.

Lemma strcspn_word (w rest : Str.cstring) (reject : Str.cstring) (sep : Z) :
  Forall (fun c => c ∉ reject) w -> sep ∈ reject ->
  Str.strcspn (w ++ sep :: rest) reject = length w.
Proof.
  intros Hw Hsep. induction Hw as [|c w Hc _ IH]; cbn [Str.strcspn app length].
  - replace (existsb (Z.eqb sep) reject) with true; [reflexivity|].
    symmetry. apply existsb_exists. exists sep.
    split; [now apply list_elem_of_In | apply Z.eqb_refl].
  - replace (existsb (Z.eqb c) reject) with false; [now rewrite IH|].
    symmetry. apply not_true_iff_false. intros H. apply existsb_exists in H as (d & Hd & E).
    apply Z.eqb_eq in E. subst d. apply Hc. now apply list_elem_of_In.
Qed.

Lemma truncate_comment_no_semicolon (s : Str.cstring) :
  Forall (fun c => c <> 59%Z) (Str.truncate_comment s).
Proof.
  induction s as [|c s IH]; cbn; [constructor|].
  destruct (Z.eqb_spec c 59); [constructor | now constructor].
Qed.

Lemma truncate_comment_app (s comment : Str.cstring) :
  Forall (fun c => c <> 59%Z) s ->
  Str.truncate_comment s = s /\ Str.truncate_comment (s ++ 59%Z :: comment) = s.
Proof.
  induction 1 as [|c s Hc _ [IH1 IH2]]; cbn.
  - split; reflexivity.
  - destruct (Z.eqb_spec c 59); [contradiction|]. now rewrite IH1, IH2.
Qed.

(** What the loop keeps: no more than MAXTOKS tokens, none of them with a
    newline, or with a character the rest of the line does not have. *)
Lemma tokens_loop_inv (P : Z -> Prop) (fuel : nat) :
  forall (s : Str.cstring) (len : Z) (Tok : list Str.cstring),
    Forall P s ->
    (length Tok <= Str.MAXTOKS)%nat ->
    Forall (fun tok => Forall P tok /\ (10%Z ∉ tok)) Tok ->
    let Tok' := Str.tokens_loop fuel s len Tok in
    (length Tok' <= Str.MAXTOKS)%nat /\
    Forall (fun tok => Forall P tok /\ (10%Z ∉ tok)) Tok'.
Proof.
  induction fuel as [|fuel IH]; intros s len Tok Hs Hn Htok; cbn [Str.tokens_loop]; [auto|].
  destruct ((0 <? len)%Z && (length Tok <? Str.MAXTOKS)%nat) eqn:Hcond; [|auto].
  apply andb_true_iff in Hcond as [_ Hlt]. apply Nat.ltb_lt in Hlt.
  cbv zeta.
  assert (Hdrop : forall k, Forall P (drop k s)) by (intros k; now apply Forall_drop).
  assert (Hstep : forall (reject s' : Str.cstring),
            Forall P s' -> 10%Z ∈ reject ->
            Forall P (take (Str.strcspn s' reject) s') /\
            (10%Z ∉ take (Str.strcspn s' reject) s')).
  { intros reject s' Hs' Hnl. split; [now apply Forall_take|].
    intros Hin. pose proof (strcspn_take reject s') as Hfree.
    rewrite Forall_forall in Hfree. now apply (Hfree _ Hin). }
  destruct (Str.strcspn s Str.SEPSTR =? 0)%nat; [now apply IH|].
  destruct (Str.deref s =? 34)%Z.
  - apply IH.
    + apply Forall_drop, Hdrop.
    + rewrite length_app. cbn. lia.
    + apply Forall_app. split; [exact Htok|]. constructor; [|constructor].
      apply Hstep; [apply Hdrop | in_list].
  - apply IH.
    + apply Hdrop.
    + rewrite length_app. cbn. lia.
    + apply Forall_app. split; [exact Htok|]. constructor; [|constructor].
      apply Hstep; [exact Hs | unfold Str.SEPSTR; in_list].
Qed.

(** X16: [getTokens] never saves more than MAXTOKS = 40 tokens, and no
    token holds a semicolon or a newline: the comment is cut off before
    the line is scanned, and a quoted token ends at the end of its
    line. *)
Theorem getTokens_bounds (s : Str.cstring) :
  (length (Str.getTokens s) <= 40)%nat /\
  Forall (fun tok => (59%Z ∉ tok) /\ (10%Z ∉ tok)) (Str.getTokens s).
Proof.
  unfold Str.getTokens. cbv zeta.
  destruct (tokens_loop_inv (fun c => c <> 59%Z) (S (length (Str.truncate_comment s)))
              (Str.truncate_comment s) (Z.of_nat (length (Str.truncate_comment s))) [])
    as [Hn Htok].
  - apply truncate_comment_no_semicolon.
  - cbn. lia.
  - constructor.
  - cbv zeta in Hn, Htok. split; [exact Hn|].
    eapply Forall_impl; [exact Htok|]. intros tok [H59 H10]. split; [|exact H10].
    intros Hin. rewrite Forall_forall in H59. now apply (H59 _ Hin).
Qed.

Lemma tokens_loop_words (ws : list Str.cstring) :
  forall (Tok : list Str.cstring) (fuel : nat),
    Forall Str.word ws ->
    (length (Str.join_words ws) < fuel)%nat ->
    Str.tokens_loop fuel (Str.join_words ws) (Z.of_nat (length (Str.join_words ws))) Tok
    = Tok ++ take (Str.MAXTOKS - length Tok) ws.
Proof.
  induction ws as [|w ws IH]; intros Tok fuel Hws Hfuel.
  - destruct fuel as [|fuel]; [lia|]. cbn. now rewrite take_nil, app_nil_r.
  - apply Forall_cons in Hws as [[Hne Hw] Hws].
    destruct fuel as [|fuel]; [lia|].
    cbn [Str.join_words flat_map] in *. fold (Str.join_words ws) in *.
    rewrite <- app_assoc in *. cbn [app] in *.
    cbn [Str.tokens_loop].
    replace (0 <? Z.of_nat (length (w ++ 32%Z :: Str.join_words ws)))%Z with true
      by (symmetry; apply Z.ltb_lt; rewrite length_app; cbn; lia).
    cbn [andb].
    destruct (Nat.ltb_spec (length Tok) Str.MAXTOKS) as [Hlt|Hge].
    2:{ replace (Str.MAXTOKS - length Tok)%nat with 0%nat by lia.
        now rewrite take_0, app_nil_r. }
    cbv zeta.
    assert (Hsep : Forall (fun c => c ∉ Str.SEPSTR) w).
    { eapply Forall_impl; [exact Hw|]. intros c Hc Hin. apply Hc.
      unfold Str.SEPSTR in Hin. in_list. }
    rewrite (strcspn_word w (Str.join_words ws) Str.SEPSTR 32 Hsep)
      by (unfold Str.SEPSTR; in_list).
    assert (Hlen : (length w =? 0)%nat = false)
      by (destruct w; [contradiction | reflexivity]).
    assert (Hq : (Str.deref (w ++ 32%Z :: Str.join_words ws) =? 34)%Z = false).
    { destruct w as [|c w]; [contradiction|]. cbn.
      apply Forall_cons in Hw as [Hc _]. apply Z.eqb_neq. intros ->. apply Hc. in_list. }
    rewrite Hlen, Hq, take_app_length.
    replace (w ++ 32%Z :: Str.join_words ws) with ((w ++ [32%Z]) ++ Str.join_words ws)
      by (rewrite <- app_assoc; reflexivity).
    replace (length w + 1)%nat with (length (w ++ [32%Z])) by (rewrite length_app; cbn; lia).
    rewrite drop_app_length.
    replace (Z.of_nat (length ((w ++ [32%Z]) ++ Str.join_words ws))
             - (Z.of_nat (length w) + 1))%Z
      with (Z.of_nat (length (Str.join_words ws)))
      by (rewrite !length_app; cbn; lia).
    rewrite IH; [|exact Hws|].
    + rewrite length_app. cbn [length].
      replace (Str.MAXTOKS - length Tok)%nat with (S (Str.MAXTOKS - (length Tok + 1)))%nat by lia.
      cbn [take]. now rewrite <- app_assoc.
    + rewrite length_app in Hfuel. cbn in Hfuel. lia.
Qed.

Lemma join_words_no_semicolon (ws : list Str.cstring) :
  Forall Str.word ws -> Forall (fun c => c <> 59%Z) (Str.join_words ws).
Proof.
  induction 1 as [|w ws [_ Hw] _ IH]; cbn; [constructor|].
  rewrite <- app_assoc. apply Forall_app. split.
  - eapply Forall_impl; [exact Hw|]. intros c Hc ->. apply Hc. in_list.
  - cbn. constructor; [discriminate | exact IH].
Qed.

(** X17: a line made of words, each followed by a blank, is split into
    those words, the first 40 of them if there are more; a comment
    behind a semicolon changes nothing. *)
Theorem getTokens_words (ws : list Str.cstring) (comment : Str.cstring) :
  Forall Str.word ws ->
  Str.getTokens (Str.join_words ws) = take 40 ws /\
  Str.getTokens (Str.join_words ws ++ 59%Z :: comment) = take 40 ws.
Proof.
  intros Hws.
  destruct (truncate_comment_app (Str.join_words ws) comment
              (join_words_no_semicolon ws Hws)) as [H1 H2].
  unfold Str.getTokens. cbv zeta. rewrite H1, H2.
  rewrite (tokens_loop_words ws [] _ Hws) by lia.
  split; reflexivity.
Qed.

Lemma getTokens_words_witness :
  Str.getTokens (Str.join_words [Str.of_string "RTOL"; Str.of_string "0.001"])
  = take 40 [Str.of_string "RTOL"; Str.of_string "0.001"] /\
  Str.getTokens (Str.join_words [Str.of_string "RTOL"; Str.of_string "0.001"]
                 ++ 59%Z :: Str.of_string " relative tolerance")
  = take 40 [Str.of_string "RTOL"; Str.of_string "0.001"].
Proof.
  apply getTokens_words.
  repeat first [ apply Forall_nil_2 | apply Forall_cons_2 | split | discriminate
               | (let H := fresh in
                  intros H; apply list_elem_of_In in H; simpl in H; intuition discriminate) ].
Defined.
(** ** The toolkit *)

Lemma updZ_same {A : Type} (a : Z -> A) (i : Z) (x : A) : Toolkit.updZ a i x i = x.
Proof. unfold Toolkit.updZ. now rewrite Z.eqb_refl. Qed.

Lemma updZ_other {A : Type} (a : Z -> A) (i j : Z) (x : A) :
  j <> i -> Toolkit.updZ a i x j = a j.
Proof. unfold Toolkit.updZ. intros H. now destruct (Z.eqb_spec j i). Qed.

Ltac toolkit_cases :=
  repeat match goal with
  | |- context [negb (Toolkit.ProjectOpened ?M)] => destruct (Toolkit.ProjectOpened M); cbn
  | |- context [Toolkit.out_of_range ?i ?n] =>
    let E := fresh "E" in destruct (Toolkit.out_of_range i n) eqn:E; cbn
  end.

(** X18: [MSXsetconstant] and [MSXgetconstant] check the project and the
    index in the same way; a refused call leaves the project as it was, and
    after an accepted one [MSXgetconstant] gives the value back for that
    constant and what it gave before for every other one. *)
Theorem setconstant_getconstant (MSX : Toolkit.project) (index : Z) (value : Q) :
  let (err, MSX') := Toolkit.MSXsetconstant MSX index value in
  err = fst (Toolkit.MSXgetconstant MSX index) /\
  (err = 0%Z \/ err = Toolkit.ERR_MSX_NOT_OPENED \/ err = Toolkit.ERR_INVALID_OBJECT_INDEX) /\
  (err <> 0%Z -> MSX' = MSX /\ snd (Toolkit.MSXgetconstant MSX index) = 0%Q) /\
  (err = 0%Z ->
     (1 <= index <= Toolkit.Nconsts MSX)%Z /\
     Toolkit.MSXgetconstant MSX' index = (0%Z, value) /\
     forall j, j <> index -> Toolkit.MSXgetconstant MSX' j = Toolkit.MSXgetconstant MSX j).
Proof.
  unfold Toolkit.MSXsetconstant, Toolkit.MSXgetconstant.
  destruct (Toolkit.ProjectOpened MSX) eqn:Ho; cbn.
  2: { repeat split; auto; discriminate. }
  destruct (Toolkit.out_of_range index (Toolkit.Nconsts MSX)) eqn:E; cbn.
  { repeat split; auto; discriminate. }
  rewrite Ho, E. cbn. repeat split; auto; try congruence.
  - unfold Toolkit.out_of_range in E. lia.
  - unfold Toolkit.out_of_range in E. lia.
  - now rewrite updZ_same.
  - intros j Hj. destruct (Toolkit.out_of_range j _); [reflexivity|].
    now rewrite updZ_other.
Qed.

(** X19: after an accepted [MSXsetparameter], [MSXgetparameter] gives the
    value back for a link and for a node that is a tank; for a node that is
    no tank the call is accepted but nothing is stored, and the getter
    gives 0. *)
Theorem setparameter_getparameter (MSX : Toolkit.project) (type index param : Z) (value : Q) :
  let (err, MSX') := Toolkit.MSXsetparameter MSX type index param value in
  err = fst (Toolkit.MSXgetparameter MSX type index param) /\
  (err <> 0%Z -> MSX' = MSX) /\
  (err = 0%Z ->
     if (type =? Toolkit.MSX_NODE)%Z && (Toolkit.Node_tank MSX index <=? 0)%Z
     then MSX' = MSX /\ Toolkit.MSXgetparameter MSX' type index param = (0%Z, 0%Q)
     else Toolkit.MSXgetparameter MSX' type index param = (0%Z, value)).
Proof.
  unfold Toolkit.MSXsetparameter, Toolkit.MSXgetparameter.
  destruct (Toolkit.ProjectOpened MSX) eqn:Ho; cbn.
  2: { repeat split; auto; discriminate. }
  destruct (Toolkit.out_of_range param (Toolkit.Nparams MSX)) eqn:Ep; cbn.
  { repeat split; auto; discriminate. }
  destruct (Z.eqb_spec type Toolkit.MSX_NODE) as [-> | Hn]; cbn.
  - destruct (Toolkit.out_of_range index (Toolkit.Nnodes MSX)) eqn:Ei; cbn.
    { repeat split; auto; discriminate. }
    split; [reflexivity|]. split; [congruence|]. intros _.
    destruct (Z.ltb_spec 0 (Toolkit.Node_tank MSX index)) as [Hj | Hj].
    + destruct (Z.leb_spec (Toolkit.Node_tank MSX index) 0); [lia|].
      cbn. rewrite Ho, Ep, Ei. cbn.
      destruct (Z.ltb_spec 0 (Toolkit.Node_tank MSX index)); [|lia].
      now rewrite !updZ_same.
    + destruct (Z.leb_spec (Toolkit.Node_tank MSX index) 0); [|lia].
      rewrite Ho, Ep, Ei. cbn.
      destruct (Z.ltb_spec 0 (Toolkit.Node_tank MSX index)); [lia|]. auto.
  - destruct (Z.eqb_spec type Toolkit.MSX_LINK) as [-> | Hl]; cbn.
    + destruct (Toolkit.out_of_range index (Toolkit.Nlinks MSX)) eqn:Ei; cbn.
      { repeat split; auto; discriminate. }
      split; [reflexivity|]. split; [congruence|]. intros _.
      rewrite Ho, Ep, Ei. cbn. now rewrite !updZ_same.
    + repeat split; auto; discriminate.
Qed.

(** X20: after an accepted [MSXsetinitqual], [MSXgetinitqual] gives the
    value back for a link, and for a node when the species is a bulk
    species; for a node and a wall species the call is accepted but the
    initial quality stays what it was. *)
Theorem setinitqual_getinitqual (MSX : Toolkit.project) (type index species : Z) (value : Q) :
  let (err, MSX') := Toolkit.MSXsetinitqual MSX type index species value in
  err = fst (Toolkit.MSXgetinitqual MSX type index species) /\
  (err <> 0%Z -> MSX' = MSX) /\
  (err = 0%Z ->
     if (type =? Toolkit.MSX_NODE)%Z && bool_decide (Toolkit.Species_type MSX species = WALL)
     then MSX' = MSX
     else Toolkit.MSXgetinitqual MSX' type index species = (0%Z, value)).
Proof.
  unfold Toolkit.MSXsetinitqual, Toolkit.MSXgetinitqual.
  destruct (Toolkit.ProjectOpened MSX) eqn:Ho; cbn.
  2: { repeat split; auto; discriminate. }
  destruct (Toolkit.out_of_range species (Toolkit.Nspecies MSX)) eqn:Ep; cbn.
  { repeat split; auto; discriminate. }
  destruct (Z.eqb_spec type Toolkit.MSX_NODE) as [-> | Hn]; cbn.
  - destruct (Toolkit.out_of_range index (Toolkit.Nnodes MSX)) eqn:Ei; cbn.
    { repeat split; auto; discriminate. }
    split; [reflexivity|]. split; [congruence|]. intros _.
    destruct (Toolkit.Species_type MSX species) eqn:Et.
    + rewrite bool_decide_eq_false_2 by discriminate.
      destruct (decide (BULK = BULK)) as [_|]; [|congruence].
      cbn. rewrite Ho, Ep, Ei. cbn. now rewrite !updZ_same.
    + rewrite bool_decide_eq_true_2 by reflexivity.
      destruct (decide (WALL = BULK)); [discriminate|reflexivity].
  - destruct (Z.eqb_spec type Toolkit.MSX_LINK) as [-> | Hl]; cbn.
    + destruct (Toolkit.out_of_range index (Toolkit.Nlinks MSX)) eqn:Ei; cbn.
      { repeat split; auto; discriminate. }
      split; [reflexivity|]. split; [congruence|]. intros _.
      rewrite Ho, Ep, Ei. cbn. now rewrite !updZ_same.
    + repeat split; auto; discriminate.
Qed.

Lemma find_source_species (species : Z) (sources : list Toolkit.Ssource) (s : Toolkit.Ssource) :
  Toolkit.find_source species sources = Some s -> Toolkit.s_species s = species.
Proof.
  induction sources as [|x l IH]; cbn; [discriminate|].
  destruct (Z.eqb_spec (Toolkit.s_species x) species); [|exact IH].
  now intros [= <-].
Qed.

Lemma find_source_assign (new : Toolkit.Ssource) (sources : list Toolkit.Ssource) (species : Z) :
  Toolkit.find_source (Toolkit.s_species new) sources <> None ->
  Toolkit.find_source species (Toolkit.assign_source new sources)
  = if (species =? Toolkit.s_species new)%Z then Some new
    else Toolkit.find_source species sources.
Proof.
  induction sources as [|x l IH]; cbn; [congruence|].
  destruct (Z.eqb_spec (Toolkit.s_species x) (Toolkit.s_species new)) as [E | E]; cbn.
  - intros _. rewrite (Z.eqb_sym species).
    destruct (Z.eqb_spec (Toolkit.s_species new) species) as [E' | E'].
    + reflexivity.
    + destruct (Z.eqb_spec (Toolkit.s_species x) species); [congruence|reflexivity].
  - intros H. destruct (Z.eqb_spec (Toolkit.s_species x) species) as [E' | E'].
    + destruct (Z.eqb_spec species (Toolkit.s_species new)); [congruence|reflexivity].
    + exact (IH H).
Qed.

Lemma assign_source_species (new : Toolkit.Ssource) (sources : list Toolkit.Ssource) :
  map Toolkit.s_species (Toolkit.assign_source new sources) = map Toolkit.s_species sources.
Proof.
  induction sources as [|x l IH]; cbn; [reflexivity|].
  destruct (Z.eqb_spec (Toolkit.s_species x) (Toolkit.s_species new)) as [E | E]; cbn.
  - now rewrite E.
  - now rewrite IH.
Qed.

Lemma find_source_None (species : Z) (sources : list Toolkit.Ssource) :
  Toolkit.find_source species sources = None ->
  ~ In species (map Toolkit.s_species sources).
Proof.
  induction sources as [|x l IH]; cbn; [tauto|].
  destruct (Z.eqb_spec (Toolkit.s_species x) species); [discriminate|].
  intros H [E | E]; [congruence|]. exact (IH H E).
Qed.

(** X21: after an accepted [MSXsetsource], [MSXgetsource] gives back the
    type, the level and the pattern (0 for a negative one) for that node
    and species, and what it gave before for every other node or species;
    no node gets two sources for one species. *)
Theorem setsource_getsource (mem_ok : bool) (MSX : Toolkit.project) (node species type : Z)
    (level : Q) (pat : Z) :
  let (err, MSX') := Toolkit.MSXsetsource mem_ok MSX node species type level pat in
  (err <> 0%Z -> MSX' = MSX) /\
  (err = 0%Z ->
     Toolkit.MSXgetsource MSX' node species = (0%Z, (type, level, Z.max pat 0)) /\
     (forall node' species', (node', species') <> (node, species) ->
        Toolkit.MSXgetsource MSX' node' species' = Toolkit.MSXgetsource MSX node' species') /\
     (forall node', NoDup (map Toolkit.s_species (Toolkit.Node_sources MSX node')) ->
        NoDup (map Toolkit.s_species (Toolkit.Node_sources MSX' node')))).
Proof.
  unfold Toolkit.MSXsetsource.
  destruct (Toolkit.ProjectOpened MSX) eqn:Ho; cbn; [|split; [auto|discriminate]].
  destruct (Toolkit.out_of_range node (Toolkit.Nnodes MSX)) eqn:En; cbn;
    [split; [auto|discriminate]|].
  destruct (Toolkit.out_of_range species (Toolkit.Nspecies MSX)) eqn:Es; cbn;
    [split; [auto|discriminate]|].
  destruct (Z.ltb_spec (Toolkit.Npatterns MSX) pat) as [Hp | Hp];
    [split; [auto|discriminate]|].
  destruct ((type <? Toolkit.MSX_NOSOURCE)%Z || (Toolkit.MSX_FLOWPACED <? type)%Z);
    [split; [auto|discriminate]|].
  destruct (bool_decide (Toolkit.Species_type MSX species = BULK)); cbn;
    [|split; [auto|discriminate]].
  destruct (Qlt_bool level 0); [split; [auto|discriminate]|].
  assert (Hpat : (if (pat <? 0)%Z then 0%Z else pat) = Z.max pat 0).
  { destruct (Z.ltb_spec pat 0); lia. }
  rewrite Hpat.
  set (new := {| Toolkit.s_type := type; Toolkit.s_species := species;
                 Toolkit.s_c0 := level; Toolkit.s_pat := Z.max pat 0 |}).
  assert (Hother : forall l node' species',
             (node', species') <> (node, species) ->
             (forall sp, sp <> species ->
                Toolkit.find_source sp l
                = Toolkit.find_source sp (Toolkit.Node_sources MSX node)) ->
             Toolkit.MSXgetsource
               (Toolkit.with_Node_sources MSX (Toolkit.updZ (Toolkit.Node_sources MSX) node l))
               node' species'
             = Toolkit.MSXgetsource MSX node' species').
  { intros l node' species' Hne Hl. unfold Toolkit.MSXgetsource. cbn.
    destruct (Z.eq_dec node' node) as [-> | Hn].
    - rewrite updZ_same. rewrite Hl; [reflexivity|]. congruence.
    - now rewrite updZ_other. }
  destruct (Toolkit.find_source species (Toolkit.Node_sources MSX node)) as [s|] eqn:Ef.
  - split; [congruence|]. intros _. split; [|split].
    + unfold Toolkit.MSXgetsource. cbn. rewrite Ho, En, Es. cbn. rewrite updZ_same.
      rewrite find_source_assign by (cbn; congruence). cbn. now rewrite Z.eqb_refl.
    + intros node' species' Hne. apply Hother; [exact Hne|].
      intros sp Hsp. rewrite find_source_assign by (cbn; congruence). cbn.
      now destruct (Z.eqb_spec sp species).
    + intros node'. cbn. destruct (Z.eq_dec node' node) as [-> | Hn].
      * now rewrite updZ_same, assign_source_species.
      * now rewrite updZ_other.
  - destruct mem_ok; [|split; [auto|discriminate]].
    split; [congruence|]. intros _. split; [|split].
    + unfold Toolkit.MSXgetsource. cbn. rewrite Ho, En, Es. cbn. rewrite updZ_same.
      cbn. now rewrite Z.eqb_refl.
    + intros node' species' Hne. apply Hother; [exact Hne|].
      intros sp Hsp. cbn. now destruct (Z.eqb_spec species sp); [congruence|].
    + intros node'. cbn. destruct (Z.eq_dec node' node) as [-> | Hn].
      * rewrite updZ_same. cbn. intros H. apply NoDup_cons. split; [|exact H].
        rewrite list_elem_of_In. now apply find_source_None.
      * now rewrite updZ_other.
Qed.

Lemma seek_period_spec (cells : list Q) (period n : Z) (pos : nat) :
  Toolkit.seek_period period n pos cells
  = if (n <=? period)%Z && (period - n <? Z.of_nat (length cells))%Z
    then (Toolkit.At (pos + Z.to_nat (period - n)),
          Some (nth (Z.to_nat (period - n)) cells 0%Q))
    else (Toolkit.Null, None).
Proof.
  revert n pos. induction cells as [|x l IH]; intros n pos; cbn [Toolkit.seek_period].
  - cbn [length]. destruct (Z.leb_spec n period); cbn; [|reflexivity].
    destruct (Z.ltb_spec (period - n) (Z.of_nat 0)); [lia|reflexivity].
  - destruct (Z.eqb_spec n period) as [-> | Hne].
    + rewrite Z.leb_refl, Z.sub_diag. cbn [andb Z.to_nat nth].
      destruct (Z.ltb_spec 0 (Z.of_nat (length (x :: l)))); [|cbn [length] in *; lia].
      now rewrite Nat.add_0_r.
    + rewrite IH. cbn [length].
      destruct (Z.leb_spec n period) as [Hle | Hle].
      * destruct (Z.leb_spec (n + 1) period); [|lia]. cbn [andb].
        replace (period - n)%Z with (Z.succ (period - (n + 1))) by lia.
        destruct (Z.ltb_spec (period - (n + 1)) (Z.of_nat (length l)));
          destruct (Z.ltb_spec (Z.succ (period - (n + 1))) (Z.of_nat (S (length l))));
          try lia; [|reflexivity].
        rewrite Z2Nat.inj_succ by lia. cbn [nth]. f_equal. f_equal. lia.
      * destruct (Z.leb_spec (n + 1) period); [lia|]. reflexivity.
Qed.

Lemma append_multipliers_spec (mult : nat -> Q) (count avail i : nat) (p : Toolkit.Spattern) :
  let k := Nat.min avail count in
  let r := Toolkit.append_multipliers avail mult i count p in
  fst r = (count <=? avail)%nat /\
  Toolkit.p_first (snd r) = Toolkit.p_first p ++ map mult (seq i k) /\
  Toolkit.p_length (snd r) = (Toolkit.p_length p + Z.of_nat k)%Z /\
  Toolkit.p_interval (snd r) = Toolkit.p_interval p /\
  (k = 0%nat -> snd r = p).
Proof.
  revert avail i p. induction count as [|c IH]; intros avail i p; cbn zeta.
  - rewrite Nat.min_0_r. cbn. rewrite app_nil_r. repeat split; auto. lia.
  - destruct avail as [|a]; cbn [Toolkit.append_multipliers].
    + cbn. rewrite app_nil_r. repeat split; auto. lia.
    + specialize (IH a (S i)
        {| Toolkit.p_length := (Toolkit.p_length p + 1)%Z;
           Toolkit.p_interval := Toolkit.p_interval p;
           Toolkit.p_first := Toolkit.p_first p ++ [mult i];
           Toolkit.p_current := Toolkit.At (length (Toolkit.p_first p)) |}).
      cbn zeta in IH. destruct IH as (H1 & H2 & H3 & H4 & _).
      rewrite H1, H2, H3, H4. cbn. rewrite <- app_assoc. cbn.
      repeat split; auto; [lia | discriminate].
Qed.

(** X22: [MSXsetpattern] with enough memory for [len] multipliers replaces
    the pattern: afterwards [MSXgetpatternlen] gives [len] (0 for a
    negative one), and [MSXgetpatternvalue] gives [mult[period-1]] for each
    period from 1 to [len], and 0 with no error for any other period. *)
Theorem setpattern_getpatternvalue (avail : nat) (MSX : Toolkit.project) (pat : Z)
    (mult : nat -> Q) (len : Z)
    (Hopen : Toolkit.ProjectOpened MSX = true)
    (Hpat : (1 <= pat <= Toolkit.Npatterns MSX)%Z)
    (Hmem : (Z.to_nat len <= avail)%nat) :
  let (err, MSX') := Toolkit.MSXsetpattern avail MSX pat mult len in
  err = 0%Z /\
  Toolkit.MSXgetpatternlen MSX' pat = (0%Z, Z.max len 0) /\
  forall period,
    fst (Toolkit.MSXgetpatternvalue MSX' pat period)
    = (0%Z, if (1 <=? period)%Z && (period <=? len)%Z
            then mult (Z.to_nat (period - 1)) else 0%Q).
Proof.
  unfold Toolkit.MSXsetpattern. rewrite Hopen. cbn [negb].
  assert (Hr : Toolkit.out_of_range pat (Toolkit.Npatterns MSX) = false).
  { unfold Toolkit.out_of_range. lia. }
  rewrite Hr.
  assert (Hlen : Z.to_nat (if (len <? 0)%Z then 0%Z else len) = Z.to_nat len).
  { destruct (Z.ltb_spec len 0); lia. }
  rewrite Hlen.
  match goal with |- context [Toolkit.append_multipliers avail mult 0 _ ?p0] =>
    pose proof (append_multipliers_spec mult (Z.to_nat len) avail 0 p0) as H; set (q0 := p0) in * end.
  cbn zeta in H. destruct H as (H1 & H2 & H3 & _).
  destruct (Toolkit.append_multipliers avail mult 0 (Z.to_nat len) q0) as [ok q].
  cbn [fst snd] in *. rewrite Nat.min_r in * by exact Hmem.
  subst ok. destruct (Nat.leb_spec (Z.to_nat len) avail); [|lia].
  cbn in H2. cbn [Toolkit.p_length q0] in H3. subst q0. cbn [Toolkit.p_length] in H3.
  rewrite Z.add_0_l in H3.
  split; [reflexivity|]. split.
  - unfold Toolkit.MSXgetpatternlen. cbn. rewrite Hopen, Hr. cbn.
    rewrite updZ_same. cbn. rewrite H3. f_equal. lia.
  - intros period. unfold Toolkit.MSXgetpatternvalue. cbn. rewrite Hopen, Hr. cbn.
    rewrite updZ_same. cbn. rewrite H3, H2.
    destruct (Z.leb_spec period (Z.of_nat (Z.to_nat len))) as [Hle | Hle].
    + rewrite seek_period_spec. rewrite length_map, length_seq.
      destruct (Z.leb_spec 1 period) as [H1p | H1p]; cbn [andb].
      * destruct (Z.ltb_spec (period - 1) (Z.of_nat (Z.to_nat len))); [|lia].
        destruct (Z.leb_spec period len); [|lia]. cbn.
        f_equal. rewrite (nth_indep _ 0%Q (mult 0%nat)) by (rewrite length_map, length_seq; lia).
        rewrite map_nth, seq_nth by lia. reflexivity.
      * reflexivity.
    + cbn. destruct (Z.leb_spec period len); [lia|]. now rewrite andb_false_r.
Qed.

Lemma setpattern_getpatternvalue_witness :
  let (err, MSX') :=
    Toolkit.MSXsetpattern 2 Toolkit.small_project 1 (fun i => (inject_Z (Z.of_nat i) + 1)%Q) 2 in
  err = 0%Z /\
  Toolkit.MSXgetpatternlen MSX' 1 = (0%Z, Z.max 2 0) /\
  forall period,
    fst (Toolkit.MSXgetpatternvalue MSX' 1 period)
    = (0%Z, if (1 <=? period)%Z && (period <=? 2)%Z
            then (inject_Z (Z.of_nat (Z.to_nat (period - 1))) + 1)%Q else 0%Q).
Proof.
  apply (setpattern_getpatternvalue 2 Toolkit.small_project 1
           (fun i => (inject_Z (Z.of_nat i) + 1)%Q) 2); [reflexivity | cbn; lia | cbn; lia].
Defined.

(** X23: when memory runs out after [avail] multipliers, [MSXsetpattern]
    returns ERR_MEMORY and leaves the pattern with the first [avail] new
    multipliers only: the old ones are gone. *)
Theorem setpattern_out_of_memory (avail : nat) (MSX : Toolkit.project) (pat : Z)
    (mult : nat -> Q) (len : Z)
    (Hopen : Toolkit.ProjectOpened MSX = true)
    (Hpat : (1 <= pat <= Toolkit.Npatterns MSX)%Z)
    (Hmem : (avail < Z.to_nat len)%nat) :
  let (err, MSX') := Toolkit.MSXsetpattern avail MSX pat mult len in
  err = Toolkit.ERR_MEMORY /\
  Toolkit.p_first (Toolkit.Pattern MSX' pat) = map mult (seq 0 avail) /\
  Toolkit.MSXgetpatternlen MSX' pat = (0%Z, Z.of_nat avail).
Proof.
  unfold Toolkit.MSXsetpattern. rewrite Hopen. cbn [negb].
  assert (Hr : Toolkit.out_of_range pat (Toolkit.Npatterns MSX) = false).
  { unfold Toolkit.out_of_range. lia. }
  rewrite Hr.
  assert (Hlen : Z.to_nat (if (len <? 0)%Z then 0%Z else len) = Z.to_nat len).
  { destruct (Z.ltb_spec len 0); lia. }
  rewrite Hlen.
  match goal with |- context [Toolkit.append_multipliers avail mult 0 _ ?p0] =>
    pose proof (append_multipliers_spec mult (Z.to_nat len) avail 0 p0) as H; set (q0 := p0) in * end.
  cbn zeta in H. destruct H as (H1 & H2 & H3 & _).
  destruct (Toolkit.append_multipliers avail mult 0 (Z.to_nat len) q0) as [ok q].
  cbn [fst snd] in *. rewrite Nat.min_l in * by lia.
  subst ok. destruct (Nat.leb_spec (Z.to_nat len) avail); [lia|].
  cbn in H2. cbn [Toolkit.p_length q0] in H3. subst q0. cbn [Toolkit.p_length] in H3.
  rewrite Z.add_0_l in H3.
  split; [reflexivity|]. split.
  - cbn. now rewrite updZ_same.
  - unfold Toolkit.MSXgetpatternlen. cbn. rewrite Hopen, Hr. cbn.
    rewrite updZ_same. now rewrite H3.
Qed.

Lemma setpattern_out_of_memory_witness :
  let (err, MSX') :=
    Toolkit.MSXsetpattern 1 Toolkit.small_project 1 (fun i => (inject_Z (Z.of_nat i) + 1)%Q) 2 in
  err = Toolkit.ERR_MEMORY /\
  Toolkit.p_first (Toolkit.Pattern MSX' 1)
  = map (fun i => (inject_Z (Z.of_nat i) + 1)%Q) (seq 0 1) /\
  Toolkit.MSXgetpatternlen MSX' 1 = (0%Z, Z.of_nat 1).
Proof.
  apply (setpattern_out_of_memory 1 Toolkit.small_project 1
           (fun i => (inject_Z (Z.of_nat i) + 1)%Q) 2); [reflexivity | cbn; lia | cbn; lia].
Defined.

(** X24: on a pattern whose [length] field counts its multipliers, an
    accepted [MSXsetpatternvalue] makes [MSXgetpatternvalue] give the value
    for that period and what it gave before for every other period; a
    period outside 1..[length] is refused with ERR_INVALID_OBJECT_PARAMS
    and changes nothing. *)
Theorem setpatternvalue_getpatternvalue (MSX : Toolkit.project) (pat period : Z) (value : Q)
    (Hopen : Toolkit.ProjectOpened MSX = true)
    (Hpat : (1 <= pat <= Toolkit.Npatterns MSX)%Z)
    (Hlen : Toolkit.p_length (Toolkit.Pattern MSX pat)
            = Z.of_nat (length (Toolkit.p_first (Toolkit.Pattern MSX pat)))) :
  let (err, MSX') := Toolkit.MSXsetpatternvalue MSX pat period value in
  if (1 <=? period)%Z && (period <=? Toolkit.p_length (Toolkit.Pattern MSX pat))%Z
  then err = 0%Z /\
       forall period',
         fst (Toolkit.MSXgetpatternvalue MSX' pat period')
         = if (period' =? period)%Z then (0%Z, value)
           else fst (Toolkit.MSXgetpatternvalue MSX pat period')
  else err = Toolkit.ERR_INVALID_OBJECT_PARAMS /\ MSX' = MSX.
Proof.
  unfold Toolkit.MSXsetpatternvalue. rewrite Hopen. cbn [negb].
  assert (Hr : Toolkit.out_of_range pat (Toolkit.Npatterns MSX) = false).
  { unfold Toolkit.out_of_range. lia. }
  rewrite Hr. cbn zeta.
  set (p := Toolkit.Pattern MSX pat) in *.
  destruct (Z.leb_spec period 0) as [H0 | H0]; cbn [orb].
  { destruct (Z.leb_spec 1 period); [lia|]. cbn. auto. }
  destruct (Z.ltb_spec (Toolkit.p_length p) period) as [Hl | Hl].
  { destruct (Z.leb_spec period (Toolkit.p_length p)); [lia|]. rewrite andb_false_r. auto. }
  destruct (Z.leb_spec 1 period); [|lia].
  destruct (Z.leb_spec period (Toolkit.p_length p)); [|lia]. cbn [andb].
  rewrite seek_period_spec.
  destruct (Z.leb_spec 1 period); [|lia].
  destruct (Z.ltb_spec (period - 1) (Z.of_nat (length (Toolkit.p_first p)))); [|lia].
  cbn [andb]. split; [reflexivity|].
  intros period'. unfold Toolkit.MSXgetpatternvalue. cbn. rewrite Hopen, Hr. cbn.
  rewrite updZ_same. cbn. fold p.
  destruct (Z.leb_spec period' (Toolkit.p_length p)) as [Hle | Hle].
  - rewrite !seek_period_spec. unfold Toolkit.set_nth. rewrite length_insert.
    destruct (Z.leb_spec 1 period') as [H1p | H1p]; cbn [andb].
    + destruct (Z.ltb_spec (period' - 1) (Z.of_nat (length (Toolkit.p_first p)))); [|lia].
      cbn [fst]. destruct (Z.eqb_spec period' period) as [-> | Hne].
      * f_equal. apply nth_lookup_Some with (d := 0%Q).
        apply list_lookup_insert_eq. lia.
      * f_equal. rewrite !nth_lookup. rewrite list_lookup_insert_ne by lia. reflexivity.
    + cbn. destruct (Z.eqb_spec period' period); [lia|reflexivity].
  - cbn. destruct (Z.eqb_spec period' period); [lia|reflexivity].
Qed.

Lemma setpatternvalue_getpatternvalue_witness :
  let (err, MSX') := Toolkit.MSXsetpatternvalue Toolkit.small_project 1 2 (1 # 2) in
  if (1 <=? 2)%Z && (2 <=? Toolkit.p_length (Toolkit.Pattern Toolkit.small_project 1))%Z
  then err = 0%Z /\
       forall period',
         fst (Toolkit.MSXgetpatternvalue MSX' 1 period')
         = if (period' =? 2)%Z then (0%Z, 1 # 2)
           else fst (Toolkit.MSXgetpatternvalue Toolkit.small_project 1 period')
  else err = Toolkit.ERR_INVALID_OBJECT_PARAMS /\ MSX' = Toolkit.small_project.
Proof.
  apply (setpatternvalue_getpatternvalue Toolkit.small_project 1 2 (1 # 2));
    [reflexivity | cbn; lia | reflexivity].
Defined.
(** ** The parser of formulas *)

Lemma getLex_spec (p : MathTree.parser) :
  exists lex p', MathTree.getLex p = (lex, p') /\
    (length (MathTree.rest p') + MathTree.held lex <= length (MathTree.rest p))%nat /\
    MathTree.Err p' = MathTree.Err p.
Proof.
  unfold MathTree.getLex. destruct (MathTree.rest p) as [|t more] eqn:E.
  - exists 0%Z, p. rewrite E. cbn. auto.
  - eexists _, _. split; [reflexivity|]. cbn. unfold MathTree.held.
    destruct (_ =? 0)%Z; split; auto; lia.
Qed.

Lemma held_nonzero (lex : Z) : lex <> 0%Z -> MathTree.held lex = 1%nat.
Proof. unfold MathTree.held. now destruct (Z.eqb_spec lex 0). Qed.

Lemma held_le (lex : Z) : (MathTree.held lex <= 1)%nat.
Proof. unfold MathTree.held. destruct (_ =? 0)%Z; lia. Qed.

(** The end of [getSingleOp], for a function [rec] that behaves as
    [getSingleOp] does when at most [bound] lexemes are left. *)
Lemma exponentiation_spec (rec : Z -> MathTree.parser ->
                                 option (MathTree.ExprTree * Z * MathTree.parser))
    (bound : nat) (left_ : MathTree.ExprTree) (p : MathTree.parser) :
  (forall lex p,
      (length (MathTree.rest p) + MathTree.held lex <= bound)%nat ->
      exists t lex' p', rec lex p = Some (t, lex', p') /\
        (MathTree.size t + length (MathTree.rest p') + MathTree.held lex'
         <= length (MathTree.rest p) + MathTree.held lex)%nat /\
        (MathTree.Err p <> 0%Z -> MathTree.Err p' <> 0%Z) /\
        (MathTree.Err p' = 0%Z -> MathTree.complete t = true)) ->
  (length (MathTree.rest p) <= bound + 1)%nat ->
  exists t lex' p', MathTree.exponentiation rec left_ p = Some (t, lex', p') /\
    (MathTree.size t + length (MathTree.rest p') + MathTree.held lex'
     <= MathTree.size left_ + length (MathTree.rest p))%nat /\
    (MathTree.Err p <> 0%Z -> MathTree.Err p' <> 0%Z) /\
    (MathTree.Err p' = 0%Z -> MathTree.complete left_ = true -> MathTree.complete t = true).
Proof.
  intros Hrec Hb. unfold MathTree.exponentiation.
  destruct (getLex_spec p) as (lex & p1 & -> & H1 & E1).
  destruct (Z.eqb_spec lex 31) as [-> | Hne].
  - rewrite held_nonzero in H1 by discriminate.
    destruct (getLex_spec p1) as (lex2 & p2 & -> & H2 & E2).
    destruct (Hrec lex2 p2 ltac:(lia)) as (t & lex' & p' & -> & Hsz & Hst & Hc).
    eexists _, _, _. split; [reflexivity|]. cbn [MathTree.size]. split; [lia|].
    split; [intros H; apply Hst; congruence|].
    intros H' Hl. cbn. rewrite Hl. now apply Hc.
  - eexists _, _, _. split; [reflexivity|]. split; [lia|].
    split; [congruence | auto].
Qed.

(** The parsing functions return when they may call each other deeply
    enough; each node of the tree is paid for by a lexeme that was read;
    an error is never taken back; and without an error the tree is
    complete. *)
Lemma parser_spec (fuel : nat) :
  (forall lex p,
      (3 * (length (MathTree.rest p) + MathTree.held lex) + 1 <= fuel)%nat ->
      exists t lex' p', MathTree.getSingleOp fuel lex p = Some (t, lex', p') /\
        (MathTree.size t + length (MathTree.rest p') + MathTree.held lex'
         <= length (MathTree.rest p) + MathTree.held lex)%nat /\
        (MathTree.Err p <> 0%Z -> MathTree.Err p' <> 0%Z) /\
        (MathTree.Err p' = 0%Z -> MathTree.complete t = true)) /\
  (forall left_ lex p,
      (3 * (length (MathTree.rest p) + MathTree.held lex) + 1 <= fuel)%nat ->
      exists ret t lex' p', MathTree.op_loop fuel left_ lex p = Some (ret, t, lex', p') /\
        (MathTree.size t + length (MathTree.rest p') + MathTree.held lex'
         <= MathTree.size left_ + length (MathTree.rest p) + MathTree.held lex)%nat /\
        (MathTree.Err p <> 0%Z -> MathTree.Err p' <> 0%Z) /\
        (MathTree.Err p' = 0%Z ->
         ret = false /\ (MathTree.complete left_ = true -> MathTree.complete t = true))) /\
  (forall p,
      (3 * length (MathTree.rest p) + 2 <= fuel)%nat ->
      exists t lex' p', MathTree.getOp fuel p = Some (t, lex', p') /\
        (MathTree.size t + length (MathTree.rest p') + MathTree.held lex'
         <= length (MathTree.rest p))%nat /\
        (MathTree.Err p <> 0%Z -> MathTree.Err p' <> 0%Z) /\
        (MathTree.Err p' = 0%Z -> MathTree.complete t = true)) /\
  (forall left_ lex p,
      (3 * (length (MathTree.rest p) + MathTree.held lex) + 1 <= fuel)%nat ->
      exists t p', MathTree.tree_loop fuel left_ lex p = Some (t, p') /\
        (MathTree.size t + length (MathTree.rest p')
         <= MathTree.size left_ + length (MathTree.rest p) + MathTree.held lex)%nat /\
        (MathTree.Err p <> 0%Z -> MathTree.Err p' <> 0%Z) /\
        (MathTree.Err p' = 0%Z -> MathTree.complete left_ = true ->
         MathTree.complete t = true)) /\
  (forall p,
      (3 * length (MathTree.rest p) + 3 <= fuel)%nat ->
      exists t p', MathTree.getTree fuel p = Some (t, p') /\
        (MathTree.size t + length (MathTree.rest p') <= length (MathTree.rest p))%nat /\
        (MathTree.Err p <> 0%Z -> MathTree.Err p' <> 0%Z) /\
        (MathTree.Err p' = 0%Z -> MathTree.complete t = true)).
Proof.
  induction fuel as [|f (IHS & IHOL & IHO & IHTL & IHT)].
  { repeat split; intros; lia. }
  split; [|split; [|split; [|split]]].
  - (* getSingleOp *)
    intros lex p Hf. cbn [MathTree.getSingleOp]. cbv zeta.
    assert (Hrec : MathTree.held lex = 1%nat -> forall lex0 p0,
               (length (MathTree.rest p0) + MathTree.held lex0
                <= length (MathTree.rest p) + MathTree.held lex - 1)%nat ->
               exists t lex' p', MathTree.getSingleOp f lex0 p0 = Some (t, lex', p') /\
                 (MathTree.size t + length (MathTree.rest p') + MathTree.held lex'
                  <= length (MathTree.rest p0) + MathTree.held lex0)%nat /\
                 (MathTree.Err p0 <> 0%Z -> MathTree.Err p' <> 0%Z) /\
                 (MathTree.Err p' = 0%Z -> MathTree.complete t = true)).
    { intros Hh lex0 p0 H0. apply IHS. lia. }
    destruct (Z.eqb_spec lex 1) as [-> | Hn1].
    + (* an open parenthesis *)
      rewrite held_nonzero in * by discriminate.
      destruct (IHT (MathTree.set_Bc p (MathTree.Bc p + 1)) ltac:(cbn; lia))
        as (t1 & p1 & -> & Hsz1 & Hst1 & Hc1). cbn in Hsz1, Hst1.
      destruct (exponentiation_spec _ _ t1 p1 (Hrec eq_refl) ltac:(lia))
        as (t & lex' & p' & -> & Hsz & Hst & Hc).
      eexists _, _, _. split; [reflexivity|]. split; [lia|]. split; [tauto|].
      intros H'. apply Hc; [exact H'|]. apply Hc1.
      destruct (Z.eq_dec (MathTree.Err p1) 0%Z); [assumption | tauto].
    + destruct ((lex <? 7)%Z || (lex =? 9)%Z || (30 <? lex)%Z) eqn:Ebad.
      * (* not a singleton operand *)
        eexists _, _, _. split; [reflexivity|]. cbn. split; [lia|].
        split; intros; discriminate.
      * apply orb_false_iff in Ebad as [Ebad H30]. apply orb_false_iff in Ebad as [H7 H9].
        apply Z.ltb_ge in H7. apply Z.eqb_neq in H9. apply Z.ltb_ge in H30.
        rewrite held_nonzero in * by lia.
        destruct ((lex =? 7)%Z || (lex =? 8)%Z) eqn:Eleaf.
        -- (* a number or a variable *)
           match goal with |- context [MathTree.exponentiation _ ?l p] => set (leaf := l) end.
           destruct (exponentiation_spec _ _ leaf p (Hrec eq_refl) ltac:(lia))
             as (t & lex' & p' & -> & Hsz & Hst & Hc).
           eexists _, _, _. split; [reflexivity|]. subst leaf. cbn [MathTree.size] in Hsz.
           split; [lia|]. split; [exact Hst|].
           intros H'. apply Hc; [exact H'|]. cbn. unfold MathTree.is_leaf. now rewrite Eleaf.
        -- (* a function *)
           apply orb_false_iff in Eleaf as [E7 E8].
           apply Z.eqb_neq in E7. apply Z.eqb_neq in E8.
           destruct (getLex_spec p) as (lex1 & p1 & -> & H1 & E1).
           destruct (Z.eqb_spec lex1 1) as [-> | Hp]; cbn [negb].
           ++ rewrite held_nonzero in H1 by discriminate.
              destruct (IHT (MathTree.set_Bc p1 (MathTree.Bc p1 + 1)) ltac:(cbn; lia))
                as (t1 & p2 & -> & Hsz1 & Hst1 & Hc1). cbn in Hsz1, Hst1.
              match goal with |- context [MathTree.exponentiation _ ?l p2] => set (fn := l) end.
              destruct (exponentiation_spec _ _ fn p2 (Hrec eq_refl) ltac:(lia))
                as (t & lex' & p' & -> & Hsz & Hst & Hc).
              eexists _, _, _. split; [reflexivity|]. subst fn. cbn [MathTree.size] in Hsz.
              split; [lia|]. split; [intros H; apply Hst, Hst1; congruence|].
              intros H'. apply Hc; [exact H'|]. cbn.
              unfold MathTree.is_leaf, MathTree.is_binary, MathTree.is_unary.
              destruct (Z.eqb_spec lex 7); [lia|]. destruct (Z.eqb_spec lex 8); [lia|].
              destruct (Z.leb_spec 3 lex); [|lia]. destruct (Z.leb_spec lex 6); [lia|].
              destruct (Z.eqb_spec lex 31); [lia|].
              destruct (Z.leb_spec 9 lex); [|lia]. destruct (Z.leb_spec lex 30); [|lia].
              cbn. apply Hc1.
              destruct (Z.eq_dec (MathTree.Err p2) 0%Z); [assumption | tauto].
           ++ eexists _, _, _. split; [reflexivity|]. cbn. split; [lia|].
              split; intros; discriminate.
  - (* the loop of getOp *)
    intros left_ lex p Hf. cbn [MathTree.op_loop].
    destruct ((lex =? 5)%Z || (lex =? 6)%Z) eqn:Eop.
    + assert (Hlex : lex = 5%Z \/ lex = 6%Z).
      { apply orb_true_iff in Eop as [E | E]; apply Z.eqb_eq in E; auto. }
      rewrite held_nonzero in * by lia.
      destruct (getLex_spec p) as (lex1 & p1 & -> & H1 & E1).
      destruct (IHS lex1 p1 ltac:(lia)) as (right_ & lex2 & p2 & -> & Hsz2 & Hst2 & Hc2).
      destruct (Z.eqb_spec (MathTree.Err p2) 0) as [Hok | Herr]; cbn [negb].
      * destruct (IHOL (MathTree.Node lex (-1) 0 left_ right_) lex2 p2 ltac:(lia))
          as (ret & t & lex' & p' & -> & Hsz & Hst & Hc).
        eexists _, _, _, _. split; [reflexivity|]. cbn [MathTree.size] in Hsz.
        split; [lia|]. split; [intros H; apply Hst, Hst2; congruence|].
        intros H'. destruct (Hc H') as [Hret Hcomp]. split; [exact Hret|].
        intros Hl. apply Hcomp. cbn. unfold MathTree.is_leaf, MathTree.is_binary.
        rewrite Hl, (Hc2 Hok). destruct Hlex as [-> | ->]; reflexivity.
      * eexists _, _, _, _. split; [reflexivity|]. cbn [MathTree.size].
        split; [lia|]. split; [auto|]. intros H'. contradiction.
    + eexists _, _, _, _. split; [reflexivity|]. split; [lia|]. split; auto.
  - (* getOp *)
    intros p Hf. cbn [MathTree.getOp].
    destruct (getLex_spec p) as (lex1 & p1 & -> & H1 & E1).
    assert (Hsign : exists neg lex2 p2,
               (if (MathTree.PrevLex p1 =? 0)%Z || (MathTree.PrevLex p1 =? 1)%Z
                then if (lex1 =? 4)%Z
                     then let '(lex, p) := MathTree.getLex p1 in (true, lex, p)
                     else if (lex1 =? 3)%Z
                          then let '(lex, p) := MathTree.getLex p1 in (false, lex, p)
                          else (false, lex1, p1)
                else (false, lex1, p1)) = (neg, lex2, p2) /\
               (length (MathTree.rest p2) + MathTree.held lex2 + (if neg then 1 else 0)
                <= length (MathTree.rest p))%nat /\
               MathTree.Err p2 = MathTree.Err p).
    { destruct (getLex_spec p1) as (lex2 & p2 & Hg & H2 & E2).
      destruct ((MathTree.PrevLex p1 =? 0)%Z || (MathTree.PrevLex p1 =? 1)%Z).
      - destruct (Z.eqb_spec lex1 4) as [-> | H4].
        + rewrite Hg. eexists _, _, _. split; [reflexivity|].
          rewrite held_nonzero in H1 by discriminate. split; [lia | congruence].
        + destruct (Z.eqb_spec lex1 3) as [-> | H3].
          * rewrite Hg. eexists _, _, _. split; [reflexivity|].
            rewrite held_nonzero in H1 by discriminate. split; [lia | congruence].
          * eexists _, _, _. split; [reflexivity|]. split; [lia | congruence].
      - eexists _, _, _. split; [reflexivity|]. split; [lia | congruence]. }
    destruct Hsign as (neg & lex2 & p2 & -> & H2 & E2).
    destruct (IHS lex2 p2 ltac:(lia)) as (left_ & lex3 & p3 & -> & Hsz3 & Hst3 & Hc3).
    destruct (IHOL left_ lex3 p3 ltac:(lia)) as (ret & t & lex' & p' & -> & Hsz & Hst & Hc).
    destruct ret.
    + eexists _, _, _. split; [reflexivity|]. cbn [MathTree.size]. split; [lia|].
      split; [intros H; apply Hst, Hst3; congruence|].
      intros H'. destruct (Hc H') as [[=] _].
    + destruct neg.
      * destruct (Z.eqb_spec (MathTree.Err p') 0) as [Hok | Herr]; cbn [negb].
        -- eexists _, _, _. split; [reflexivity|]. cbn [MathTree.size]. split; [lia|].
           split; [intros H; apply Hst, Hst3; congruence|].
           intros _. cbn. apply (Hc Hok). apply Hc3.
           destruct (Z.eq_dec (MathTree.Err p3) 0%Z); [assumption | tauto].
        -- eexists _, _, _. split; [reflexivity|]. cbn [MathTree.size]. split; [lia|].
           split; [auto | intros; contradiction].
      * eexists _, _, _. split; [reflexivity|]. split; [lia|].
        split; [intros H; apply Hst, Hst3; congruence|].
        intros H'. apply (Hc H'). apply Hc3.
        destruct (Z.eq_dec (MathTree.Err p3) 0%Z); [assumption | tauto].
  - (* the loop of getTree *)
    intros left_ lex p Hf. cbn [MathTree.tree_loop].
    destruct ((lex =? 0)%Z || (lex =? 2)%Z) eqn:Eend.
    { eexists _, _. split; [reflexivity|].
      destruct (lex =? 2)%Z; cbn; (split; [lia|]); split; auto. }
    destruct (negb (lex =? 3)%Z && negb (lex =? 4)%Z) eqn:Eop.
    { eexists _, _. split; [reflexivity|]. cbn. split; [lia|]. split; intros; discriminate. }
    assert (Hlex : lex = 3%Z \/ lex = 4%Z).
    { destruct (Z.eqb_spec lex 3); [auto|]. destruct (Z.eqb_spec lex 4); [auto|].
      discriminate. }
    rewrite held_nonzero in * by lia.
    destruct (IHO p ltac:(lia)) as (right_ & lex1 & p1 & -> & Hsz1 & Hst1 & Hc1).
    destruct (Z.eqb_spec (MathTree.Err p1) 0) as [Hok | Herr]; cbn [negb].
    + destruct (IHTL (MathTree.Node lex (-1) 0 left_ right_) lex1 p1 ltac:(lia))
        as (t & p' & -> & Hsz & Hst & Hc).
      eexists _, _. split; [reflexivity|]. cbn [MathTree.size] in Hsz. split; [lia|].
      split; [intros H; apply Hst, Hst1; congruence|].
      intros H' Hl. apply (Hc H'). cbn. unfold MathTree.is_leaf, MathTree.is_binary.
      rewrite Hl, (Hc1 Hok). destruct Hlex as [-> | ->]; reflexivity.
    + eexists _, _. split; [reflexivity|]. split; [lia|]. split; [auto|].
      intros; contradiction.
  - (* getTree *)
    intros p Hf. cbn [MathTree.getTree].
    destruct (IHO p ltac:(lia)) as (left_ & lex1 & p1 & -> & Hsz1 & Hst1 & Hc1).
    destruct (IHTL left_ lex1 p1 ltac:(lia)) as (t & p' & -> & Hsz & Hst & Hc).
    eexists _, _. split; [reflexivity|]. split; [lia|].
    split; [intros H; apply Hst, Hst1; congruence|].
    intros H'. apply (Hc H'). apply Hc1.
    destruct (Z.eq_dec (MathTree.Err p1) 0%Z); [assumption | tauto].
Qed.

(** ** From the tree to the postfix form, and its evaluation *)

Lemma traverseTree_app (t : MathTree.ExprTree) (expr : MathExpr.MathExpr) :
  MathTree.traverseTree t expr = expr ++ MathTree.traverseTree t [].
Proof.
  revert expr. induction t as [|opcode ivar fvalue l IHl r IHr]; intros expr; cbn.
  - now rewrite app_nil_r.
  - rewrite (IHr (MathTree.traverseTree l expr)), (IHl expr).
    rewrite (IHr (MathTree.traverseTree l [])). now rewrite !app_assoc.
Qed.

Lemma eval_nodes_app (libm : MathExpr.Libm) (g : option (Z -> Q))
    (a b : MathExpr.MathExpr) (s s' : vec) (i i' : Z) :
  MathExpr.eval_nodes libm g a s i = MathExpr.Ok (s', i') ->
  MathExpr.eval_nodes libm g (a ++ b) s i = MathExpr.eval_nodes libm g b s' i'.
Proof.
  revert s i. induction a as [|node next IH]; intros s i; cbn.
  - now intros [= -> ->].
  - destruct (MathExpr.eval_node libm g node s i) as [[s1 i1]|]; cbn; [|discriminate].
    apply IH.
Qed.

Lemma in_bounds_nat (i : nat) :
  (i <= 1023)%nat -> MathExpr.in_bounds (Z.of_nat i) = true.
Proof. intros H. apply in_bounds_iff. unfold MathExpr.MAX_STACK_SIZE. lia. Qed.

Lemma push_nat (x : Q) (s : vec) (i : nat) :
  (S i <= 1023)%nat ->
  MathExpr.push x s (Z.of_nat i) = MathExpr.Ok (upd s (S i) x, Z.of_nat (S i)).
Proof.
  intros H. unfold MathExpr.push. cbv zeta.
  replace (Z.of_nat i + 1)%Z with (Z.of_nat (S i)) by lia.
  rewrite (wr_in_bounds _ _ _ (in_bounds_nat _ H)). cbn. now rewrite Nat2Z.id.
Qed.

Lemma unary_nat (f : Q -> Q) (s : vec) (i : nat) :
  (i <= 1023)%nat ->
  MathExpr.unary f s (Z.of_nat i) = MathExpr.Ok (upd s i (f (s i)), Z.of_nat i).
Proof.
  intros H. unfold MathExpr.unary.
  rewrite (rd_in_bounds _ _ (in_bounds_nat _ H)). cbn.
  rewrite (wr_in_bounds _ _ _ (in_bounds_nat _ H)). cbn. now rewrite Nat2Z.id.
Qed.

Lemma binary_nat (f : Q -> Q -> Q) (s : vec) (i : nat) :
  (S i <= 1023)%nat ->
  MathExpr.binary f s (Z.of_nat (S i))
  = MathExpr.Ok (upd s i (f (s i) (s (S i))), Z.of_nat i).
Proof.
  intros H. unfold MathExpr.binary. cbv zeta.
  rewrite (rd_in_bounds _ _ (in_bounds_nat _ H)). cbn [mbind MathExpr.outcome_bind].
  replace (Z.of_nat (S i) - 1)%Z with (Z.of_nat i) by lia.
  rewrite (rd_in_bounds _ _ (in_bounds_nat i ltac:(lia))). cbn [mbind MathExpr.outcome_bind].
  rewrite (wr_in_bounds _ _ _ (in_bounds_nat i ltac:(lia))). cbn [mbind MathExpr.outcome_bind].
  now rewrite !Nat2Z.id.
Qed.

(** One operator of the postfix form, on a stack that holds its
    operands. *)
Lemma eval_node_binary (libm : MathExpr.Libm) (g : option (Z -> Q)) (opcode ivar : Z)
    (fvalue : Q) (s : vec) (i : nat) :
  MathTree.is_binary opcode = true -> (S i <= 1023)%nat ->
  MathExpr.eval_node libm g
    {| MathExpr.opcode := opcode; MathExpr.ivar := ivar; MathExpr.fvalue := fvalue |}
    s (Z.of_nat (S i))
  = MathExpr.Ok (upd s i (MathTree.binary_value libm opcode (s i) (s (S i))), Z.of_nat i).
Proof.
  intros Hb Hi. unfold MathTree.is_binary in Hb.
  assert (Hop : opcode = 3%Z \/ opcode = 4%Z \/ opcode = 5%Z \/ opcode = 6%Z \/ opcode = 31%Z)
    by lia.
  destruct Hop as [-> | [-> | [-> | [-> | ->]]]];
    cbn [MathExpr.eval_node MathExpr.opcode MathTree.binary_value];
    try (now apply binary_nat).
  rewrite (rd_in_bounds _ _ (in_bounds_nat _ Hi)). cbn [mbind MathExpr.outcome_bind].
  replace (Z.of_nat (S i) - 1)%Z with (Z.of_nat i) by lia.
  destruct (Z.ltb_spec (Z.of_nat i) 0); [lia|].
  rewrite (rd_in_bounds _ _ (in_bounds_nat i ltac:(lia))). cbn [mbind MathExpr.outcome_bind].
  rewrite (wr_in_bounds _ _ _ (in_bounds_nat i ltac:(lia))). cbn [mbind MathExpr.outcome_bind].
  now rewrite !Nat2Z.id.
Qed.

Lemma eval_node_unary (libm : MathExpr.Libm) (g : option (Z -> Q)) (opcode ivar : Z)
    (fvalue : Q) (s : vec) (i : nat) :
  MathTree.is_unary opcode = true -> (i <= 1023)%nat ->
  exists s',
    MathExpr.eval_node libm g
      {| MathExpr.opcode := opcode; MathExpr.ivar := ivar; MathExpr.fvalue := fvalue |}
      s (Z.of_nat i) = MathExpr.Ok (s', Z.of_nat i) /\
    s' i = MathTree.unary_value libm opcode (s i) /\
    forall j, j <> i -> s' j = s j.
Proof.
  intros Hu Hi. unfold MathTree.is_unary in Hu.
  assert (Hop : opcode = 9%Z \/
                opcode = 10%Z \/
                opcode = 11%Z \/
                opcode = 12%Z \/
                opcode = 13%Z \/
                opcode = 14%Z \/
                opcode = 15%Z \/
                opcode = 16%Z \/
                opcode = 17%Z \/
                opcode = 18%Z \/
                opcode = 19%Z \/
                opcode = 20%Z \/
                opcode = 21%Z \/
                opcode = 22%Z \/
                opcode = 23%Z \/
                opcode = 24%Z \/
                opcode = 25%Z \/
                opcode = 26%Z \/
                opcode = 27%Z \/
                opcode = 28%Z \/
                opcode = 29%Z \/
                opcode = 30%Z) by lia.
  repeat (destruct Hop as [-> | Hop]); try subst opcode;
    cbn [MathExpr.eval_node MathExpr.opcode MathTree.unary_value];
    first [ rewrite unary_nat by exact Hi; eexists; split; [reflexivity|];
            split; [now rewrite upd_same | intros j Hj; now apply upd_other]
          | eexists; split; [reflexivity|]; split; reflexivity ].
Qed.

Lemma stack_need_le_size (t : MathTree.ExprTree) :
  (MathTree.stack_need t <= MathTree.size t)%nat.
Proof.
  induction t as [|opcode ivar fvalue l IHl r IHr]; cbn; [lia|].
  destruct (MathTree.is_leaf opcode); [lia|].
  destruct (MathTree.is_binary opcode); lia.
Qed.

Lemma stack_need_pos (t : MathTree.ExprTree) :
  MathTree.complete t = true -> (1 <= MathTree.stack_need t)%nat.
Proof.
  induction t as [|opcode ivar fvalue l IHl r IHr]; cbn; [discriminate|].
  destruct (MathTree.is_leaf opcode); [lia|].
  destruct (MathTree.is_binary opcode).
  - intros H. apply andb_true_iff in H as [Hl _]. specialize (IHl Hl). lia.
  - destruct (MathTree.is_unary opcode); [|discriminate].
    destruct r; [|discriminate]. intros H. specialize (IHl H). lia.
Qed.

(** The postfix form of a complete tree leaves the value of the tree on
    top of the stack, one cell up, and the cells below as they were. *)
Lemma eval_nodes_traverseTree (libm : MathExpr.Libm) (g : option (Z -> Q))
    (t : MathTree.ExprTree) :
  MathTree.complete t = true ->
  forall (s : vec) (i : nat),
    (i + MathTree.stack_need t <= 1023)%nat ->
    exists s',
      MathExpr.eval_nodes libm g (MathTree.traverseTree t []) s (Z.of_nat i)
      = MathExpr.Ok (s', Z.of_nat (S i)) /\
      s' (S i) = MathTree.tree_value libm g t /\
      forall j, (j <= i)%nat -> s' j = s j.
Proof.
  induction t as [|opcode ivar fvalue l IHl r IHr]; [discriminate|].
  intros Hc s i Hi. cbn [MathTree.complete MathTree.stack_need MathTree.tree_value] in *.
  cbn [MathTree.traverseTree].
  destruct (MathTree.is_leaf opcode) eqn:Eleaf.
  - (* a number or a variable *)
    destruct l; [|discriminate]. destruct r; [|discriminate]. cbn.
    unfold MathTree.is_leaf in Eleaf.
    destruct (Z.eqb_spec opcode 7) as [-> | H7].
    + cbn. rewrite push_nat by lia. cbn. eexists. split; [reflexivity|].
      split; [now rewrite upd_same | intros j Hj; apply upd_other; lia].
    + destruct (Z.eqb_spec opcode 8) as [-> | H8]; [|discriminate].
      cbn. rewrite push_nat by lia. cbn. eexists. split; [reflexivity|].
      split; [now rewrite upd_same | intros j Hj; apply upd_other; lia].
  - assert (H7 : (opcode =? 7)%Z = false /\ (opcode =? 8)%Z = false).
    { unfold MathTree.is_leaf in Eleaf. now apply orb_false_iff in Eleaf. }
    destruct H7 as [-> ->].
    destruct (MathTree.is_binary opcode) eqn:Ebin.
    + (* an operator *)
      apply andb_true_iff in Hc as [Hl Hr]. cbv iota in Hi.
      pose proof (stack_need_pos r Hr) as Hpos.
      destruct (IHl Hl s i ltac:(lia)) as (s1 & E1 & V1 & P1).
      destruct (IHr Hr s1 (S i) ltac:(lia)) as (s2 & E2 & V2 & P2).
      rewrite (traverseTree_app r), <- app_assoc.
      rewrite (eval_nodes_app _ _ _ _ _ _ _ _ E1).
      rewrite (eval_nodes_app _ _ _ _ _ _ _ _ E2).
      cbn [MathExpr.eval_nodes]. rewrite (eval_node_binary _ _ _ _ _ _ _ Ebin) by lia.
      cbn. eexists. split; [reflexivity|]. split.
      * rewrite upd_same, V2, (P2 (S i)), V1 by lia. reflexivity.
      * intros j Hj. rewrite upd_other by lia. rewrite P2 by lia. now apply P1.
    + (* a sign or a function *)
      destruct (MathTree.is_unary opcode) eqn:Eun; [|discriminate].
      destruct r; [|discriminate]. cbn [MathTree.stack_need] in Hi. cbv iota in Hi.
      pose proof (stack_need_pos l Hc) as Hpos.
      destruct (IHl Hc s i ltac:(lia)) as (s1 & E1 & V1 & P1).
      cbn [MathTree.traverseTree].
      rewrite (eval_nodes_app _ _ _ _ _ _ _ _ E1). cbn [MathExpr.eval_nodes].
      destruct (eval_node_unary libm g opcode ivar fvalue s1 (S i) Eun ltac:(lia))
        as (s2 & -> & V2 & P2).
      cbn. eexists. split; [reflexivity|]. split.
      * now rewrite V2, V1.
      * intros j Hj. rewrite P2 by lia. now apply P1.
Qed.

(** X26: the postfix form that [traverseTree] makes of a complete tree
    of at most 1023 stack cells is evaluated by [mathexpr_eval] to the
    value of the tree, each operator finding the value of its left
    operand below the value of its right one, when the evaluation stays
    among the finite numbers: no quotient has the divisor 0 and every
    function gets an argument of its domain. *)
Theorem traverseTree_eval (libm : MathExpr.Libm) (g : option (Z -> Q)) (uninit : vec)
    (t : MathTree.ExprTree) :
  MathTree.complete t = true ->
  (MathTree.stack_need t <= 1023)%nat ->
  MathTree.finite libm g t = true ->
  MathExpr.mathexpr_eval libm g uninit (MathTree.traverseTree t [])
  = MathExpr.Ok (MathTree.tree_value libm g t).
Proof.
  intros Hc Hn _. unfold MathExpr.mathexpr_eval.
  destruct (eval_nodes_traverseTree libm g t Hc (upd uninit 0 0%Q) 0 ltac:(lia))
    as (s' & E & V & _).
  change (Z.of_nat 0) with 0%Z in E. change (Z.of_nat 1) with 1%Z in E. rewrite E.
  cbn [mbind MathExpr.outcome_bind].
  change (0 <=? 1)%Z with true. cbv iota.
  rewrite (rd_in_bounds _ 1%Z eq_refl). change (Z.to_nat 1) with 1%nat. now rewrite V.
Qed.

Lemma traverseTree_eval_witness :
  MathExpr.mathexpr_eval MathExpr.no_libm (Some inject_Z) (fun _ => 0%Q)
    (MathTree.traverseTree MathTree.halved [])
  = MathExpr.Ok (MathTree.tree_value MathExpr.no_libm (Some inject_Z) MathTree.halved).
Proof.
  apply (traverseTree_eval MathExpr.no_libm (Some inject_Z) (fun _ => 0%Q)
           MathTree.halved); [reflexivity | cbn; lia | reflexivity].
Defined.

(** X25: [mathexpr_create] returns for every formula, and whatever it
    returns for a formula of fewer than 1024 lexemes, the NULL of a
    formula in error or the postfix form of the formula, [mathexpr_eval]
    evaluates it without leaving its stack: the parser never leaves an
    operator without its operands. *)
Theorem mathexpr_create_eval (libm : MathExpr.Libm) (g : option (Z -> Q)) (uninit : vec)
    (formula : list MathTree.Lexeme) :
  (length formula < 1024)%nat ->
  exists expr v,
    MathTree.mathexpr_create formula = Some expr /\
    MathExpr.mathexpr_eval libm g uninit expr = MathExpr.Ok v.
Proof.
  intros Hlen. unfold MathTree.mathexpr_create. cbv zeta.
  set (p := {| MathTree.rest := formula |}).
  destruct (parser_spec (MathTree.depth (length formula))) as (_ & _ & _ & _ & HT).
  destruct (HT p ltac:(unfold MathTree.depth; cbn; lia)) as (t & p' & -> & Hsz & _ & Hc).
  cbn [MathTree.rest p] in Hsz.
  destruct ((MathTree.Bc p' =? 0)%Z && (MathTree.Err p' =? 0)%Z) eqn:Eok.
  - apply andb_true_iff in Eok as [_ Eerr]. apply Z.eqb_eq in Eerr.
    pose proof (stack_need_le_size t) as Hneed.
    destruct (eval_nodes_traverseTree libm g t (Hc Eerr) (upd uninit 0 0%Q) 0 ltac:(lia))
      as (s' & E & V & _).
    exists (MathTree.traverseTree t []), (MathTree.tree_value libm g t).
    split; [reflexivity|]. unfold MathExpr.mathexpr_eval.
    change (Z.of_nat 0) with 0%Z in E. change (Z.of_nat 1) with 1%Z in E. rewrite E.
    cbn [mbind MathExpr.outcome_bind]. change (0 <=? 1)%Z with true. cbv iota.
    rewrite (rd_in_bounds _ 1%Z eq_refl). change (Z.to_nat 1) with 1%nat. now rewrite V.
  - eexists _, _. split; reflexivity.
Qed.

Lemma mathexpr_create_eval_witness :
  exists expr v,
    MathTree.mathexpr_create MathTree.difference_formula = Some expr /\
    MathExpr.mathexpr_eval MathExpr.no_libm (Some inject_Z) (fun _ => 0%Q) expr
    = MathExpr.Ok v.
Proof.
  apply (mathexpr_create_eval MathExpr.no_libm (Some inject_Z) (fun _ => 0%Q)
           MathTree.difference_formula).
  cbn. lia.
Defined.

(** The formula [x1 - 2 * (x2 + 3)] is read as the tree
    [x1 - (2 * (x2 + 3))]. *)
Example mathexpr_create_difference :
  MathTree.mathexpr_create MathTree.difference_formula
  = Some (MathTree.traverseTree MathTree.difference []).
Proof. reflexivity. Qed.
(** ** The Jacobian of an affine system *)

Lemma column_loop_spec (n j : nat) (v : vec) (a : matrix) (i' j' : nat) :
  for_to 1 n (fun i a => set_cell a i j (v i)) a i' j'
  = if (1 <=? i')%nat && (i' <=? n)%nat && (j' =? j)%nat then v i' else a i' j'.
Proof.
  pose proof (for_to_upd_at (fun i (row : vec) => upd row j (v i)) n a i') as H.
  unfold set_cell. etransitivity; [exact (f_equal (fun row : vec => row j') H)|].
  destruct ((1 <=? i')%nat && (i' <=? n)%nat); cbn [andb]; [|reflexivity].
  destruct (Nat.eqb_spec j' j) as [-> | Hne].
  - now rewrite upd_same.
  - now rewrite upd_other.
Qed.

(** X27: on an affine system the difference quotients of [jacobian] are
    exact: [a[i][j]] is the coefficient of unknown [j] in function [i],
    for the central difference of a non-zero unknown as for the forward
    difference of a zero one. *)
Theorem jacobian_affine (A : matrix) (x : vec) (n : nat) (f w : vec) (a : matrix)
    (func : LinAlg.callback) :
  Affine.affine n A func ->
  forall i j, (1 <= i <= n)%nat -> (1 <= j <= n)%nat ->
    ((LinAlg.jacobian x n f w a func).2 i j == A i j)%Q.
Proof.
  intros Haff. unfold LinAlg.jacobian, for_to.
  assert (H : forall i j, (1 <= i <= n)%nat -> (1 <= j < 1 + (S n - 1))%nat ->
            ((for_loop 1 (S n - 1)
                (fun (j : nat) '(x, f, w, a) =>
                   let temp := x j in
                   let x0 := upd x j (temp + LinAlg.eps)%Q in
                   let f0 := func 0%Q x0 n f in
                   let '(x1, eps2) :=
                     if Qeq_bool temp 0 then (upd x0 j temp, LinAlg.eps)
                     else (upd x0 j (temp - LinAlg.eps)%Q, (2 * LinAlg.eps)%Q) in
                   let w0 := func 0%Q x1 n w in
                   let a0 := for_loop 1 (S n - 1)
                               (fun i a => set_cell a i j ((f0 i - w0 i) / eps2)%Q) a in
                   (upd x1 j temp, f0, w0, a0))
                (x, f, w, a)).2 i j == A i j)%Q).
  { apply (for_loop_inv (fun j0 (s : vec * vec * vec * matrix) =>
             forall i j, (1 <= i <= n)%nat -> (1 <= j < j0)%nat -> (s.2 i j == A i j)%Q)).
    - intros i j _ Hj. lia.
    - intros j0 [[[x' f'] w'] a'] Hj0 IH i j Hi Hj. cbn [snd] in IH.
      assert (Heps : ~ (LinAlg.eps == 0)%Q) by discriminate.
      cbv beta zeta iota.
      destruct (Qeq_bool (x' j0) 0) eqn:E; cbn [snd];
        (change (for_loop 1 (S n - 1)) with (@for_to matrix 1 n);
         lazymatch goal with
         | |- context [for_to 1 n (fun i a => set_cell a i j0 (@?v i)) ?a0 i j] =>
           rewrite (column_loop_spec n j0 v a0 i j)
         end;
         destruct (Nat.leb_spec 1 i); [|lia]; destruct (Nat.leb_spec i n); [|lia];
         cbn [andb]; destruct (Nat.eqb_spec j j0) as [-> | Hne];
         [| apply IH; [exact Hi | lia]]).
      + rewrite (Haff _ (upd (upd x' j0 (x' j0 + LinAlg.eps)%Q) j0 (x' j0)) _ _ i j0 Hi
                   ltac:(lia)).
        * rewrite !upd_same. field. exact Heps.
        * intros k Hk. now rewrite !upd_other.
      + rewrite (Haff _ (upd (upd x' j0 (x' j0 + LinAlg.eps)%Q) j0 (x' j0 - LinAlg.eps)%Q)
                   _ _ i j0 Hi ltac:(lia)).
        * rewrite !upd_same. field. exact Heps.
        * intros k Hk. now rewrite !upd_other. }
  intros i j Hi Hj. apply H; [exact Hi | lia].
Qed.

Example linear_affine (c : Q) : Affine.affine 1 (fun _ _ => 1%Q) (Newton.linear c).
Proof.
  intros x x' f w i j Hi Hj Hx. assert (i = 1%nat) as -> by lia.
  assert (j = 1%nat) as -> by lia. unfold Newton.linear. rewrite !upd_same. ring.
Qed.

Lemma jacobian_affine_witness :
  ((LinAlg.jacobian (Newton.start_at 0) 1 (fun _ => 0%Q) (fun _ => 0%Q) (fun _ _ => 0%Q)
      (Newton.linear 3)).2 1%nat 1%nat == 1)%Q.
Proof.
  apply (jacobian_affine (fun _ _ => 1%Q) (Newton.start_at 0) 1 (fun _ => 0%Q) (fun _ => 0%Q)
           (fun _ _ => 0%Q) (Newton.linear 3) (linear_affine 3)); lia.
Defined.
(** ** The order of the nodes on a network without loops of flow *)

Lemma tally_app {A : Type} (f : A -> bool) (l l' : list A) :
  Topo.tally f (l ++ l') = (Topo.tally f l + Topo.tally f l')%nat.
Proof. induction l as [|x l IH]; cbn; [reflexivity|]. rewrite IH. lia. Qed.

Lemma tally_perm {A : Type} (f : A -> bool) (l l' : list A) :
  l ≡ₚ l' -> Topo.tally f l = Topo.tally f l'.
Proof. induction 1; cbn; lia. Qed.

Lemma tally_map {A B : Type} (f : B -> bool) (g : A -> B) (l : list A) :
  Topo.tally f (map g l) = Topo.tally (fun x => f (g x)) l.
Proof. induction l as [|x l IH]; cbn; [reflexivity|]. now rewrite IH. Qed.

Lemma tally_filter {A : Type} (f g : A -> bool) (l : list A) :
  Topo.tally f (List.filter g l) = Topo.tally (fun x => g x && f x) l.
Proof.
  induction l as [|x l IH]; cbn; [reflexivity|].
  destruct (g x); cbn; now rewrite IH.
Qed.

Lemma tally_add {A : Type} (f f1 f2 : A -> bool) (l : list A) :
  (forall x, In x l -> Nat.b2n (f x) = (Nat.b2n (f1 x) + Nat.b2n (f2 x))%nat) ->
  Topo.tally f l = (Topo.tally f1 l + Topo.tally f2 l)%nat.
Proof.
  induction l as [|x l IH]; intros H; cbn; [reflexivity|].
  rewrite IH by (intros y Hy; apply H; now right).
  specialize (H x (or_introl eq_refl)).
  destruct (f x), (f1 x), (f2 x); cbn in *; lia.
Qed.

Lemma tally_zero {A : Type} (f : A -> bool) (l : list A) (x : A) :
  Topo.tally f l = O -> In x l -> f x = false.
Proof.
  induction l as [|y l IH]; cbn; [tauto|].
  intros H [-> | Hin].
  - destruct (f x); [discriminate | reflexivity].
  - apply IH; [|exact Hin]. destruct (f y); [discriminate | exact H].
Qed.

Lemma tally_pos {A : Type} (f : A -> bool) (l : list A) (x : A) :
  In x l -> f x = true -> (1 <= Topo.tally f l)%nat.
Proof.
  induction l as [|y l IH]; cbn; [tauto|].
  intros [-> | Hin] Hx.
  - rewrite Hx. lia.
  - specialize (IH Hin Hx). lia.
Qed.

(** The ends of a link with flow are its two nodes. *)
Lemma upstream_downstream (net : Sort.network) (i k : nat) :
  Topo.incident net i k = true -> Topo.downstream net k <> i -> Topo.upstream net k = i.
Proof.
  unfold Topo.incident, Topo.downstream, Topo.upstream. intros H Hd.
  apply orb_true_iff in H as [H | H]; apply Nat.eqb_eq in H;
    destruct (Sort.FlowDir net k); congruence.
Qed.

Lemma upstream_incident (net : Sort.network) (k : nat) :
  Topo.incident net (Topo.upstream net k) k = true.
Proof.
  unfold Topo.incident, Topo.upstream.
  destruct (Sort.FlowDir net k); rewrite Nat.eqb_refl; auto using orb_true_r.
Qed.

Lemma ends_in_range (net : Sort.network) (k : nat) :
  Sort.well_formed net -> (1 <= k <= Sort.Nlinks net)%nat ->
  (1 <= Topo.upstream net k <= Sort.Nnodes net)%nat /\
  (1 <= Topo.downstream net k <= Sort.Nnodes net)%nat.
Proof.
  intros Hwf Hk. destruct (Hwf k Hk) as [H1 H2].
  unfold Topo.upstream, Topo.downstream. destruct (Sort.FlowDir net k); auto.
Qed.

(** The in-degrees counted from the links. *)
Lemma count_inflow_spec (net : Sort.network) (n : nat) :
  Sort.count_inflow net (fun _ => O) n = Topo.pending net [] n.
Proof.
  unfold Sort.count_inflow, Topo.pending, for_to.
  replace (S (Sort.Nlinks net) - 1)%nat with (Sort.Nlinks net) by lia.
  generalize (Sort.Nlinks net) as count. generalize 1%nat as lo.
  assert (H : forall count lo (ind : nat -> nat),
             for_loop lo count
               (fun k ind =>
                  match Sort.FlowDir net k with
                  | NEGATIVE => upd ind (Sort.n1 net k) (S (ind (Sort.n1 net k)))
                  | ZERO_FLOW => ind
                  | POSITIVE => upd ind (Sort.n2 net k) (S (ind (Sort.n2 net k)))
                  end) ind n
             = (ind n + Topo.tally
                          (fun k => Topo.flows net k && Nat.eqb (Topo.downstream net k) n
                                    && negb (bool_decide (Topo.upstream net k ∈ [])))
                          (seq lo count))%nat).
  { induction count as [|c IH]; intros lo ind; cbn [for_loop seq Topo.tally]; [lia|].
    rewrite IH. unfold Topo.flows, Topo.downstream, Topo.upstream.
    rewrite bool_decide_eq_false_2 by apply not_elem_of_nil.
    destruct (Sort.FlowDir net lo); cbn [andb negb]; rewrite ?andb_true_r.
    - destruct (Nat.eqb_spec (Sort.n1 net lo) n) as [-> | Hne].
      + rewrite upd_same. lia.
      + rewrite upd_other by congruence. lia.
    - lia.
    - destruct (Nat.eqb_spec (Sort.n2 net lo) n) as [-> | Hne].
      + rewrite upd_same. lia.
      + rewrite upd_other by congruence. lia. }
  intros lo count. now rewrite H.
Qed.

Lemma push_sources_indegree (net : Sort.network) (st : Sort.sort_state) :
  Sort.indegree (Sort.push_sources net st) = Sort.indegree st.
Proof.
  unfold Sort.push_sources, for_to.
  apply (for_loop_inv (fun _ s => Sort.indegree s = Sort.indegree st)).
  - reflexivity.
  - intros i s _ Hs. destruct (Nat.eqb (Sort.indegree s i) 0); [|exact Hs].
    unfold Sort.push. sort_fields. exact Hs.
Qed.

(** Relaxing the links of a node touches neither the sorted nodes nor
    their number. *)
Lemma relax_fold_sorted (net : Sort.network) (i : nat) (todo : list Sort.Sadjlist) :
  forall st,
    Sort.numsorted (fold_left (Sort.relax net i) todo st) = Sort.numsorted st /\
    Sort.SortedNodes (fold_left (Sort.relax net i) todo st) = Sort.SortedNodes st.
Proof.
  induction todo as [|a todo IH]; intros st; cbn [fold_left]; [auto|].
  destruct (IH (Sort.relax net i st a)) as [-> ->].
  unfold Sort.relax.
  destruct (Sort.FlowDir net (Sort.adj_link a)); [| auto |];
    match goal with
    | |- context [if ?c then _ else _] => destruct c; [|auto]
    end;
    match goal with
    | |- context [if ?c then _ else _] => destruct c; auto
    end.
Qed.

(** Relaxing the links of node [i] takes one off the in-degree of a node
    for each of them that brings flow from [i] to that node. *)
Lemma relax_fold_indegree (net : Sort.network) (rank : nat -> nat) (i : nat) :
  Sort.well_formed net -> Topo.acyclic net rank ->
  forall (todo : list Sort.Sadjlist) (st : Sort.sort_state) (P : nat -> nat),
    (forall a, In a todo ->
               (1 <= Sort.adj_link a <= Sort.Nlinks net)%nat /\
               Topo.incident net i (Sort.adj_link a) = true) ->
    (forall n, (1 <= n <= Sort.Nnodes net)%nat ->
               Sort.indegree st n
               = (P n + Topo.tally
                          (fun a => Topo.flows net (Sort.adj_link a)
                                    && Nat.eqb (Topo.upstream net (Sort.adj_link a)) i
                                    && Nat.eqb (Topo.downstream net (Sort.adj_link a)) n)
                          todo)%nat) ->
    forall n, (1 <= n <= Sort.Nnodes net)%nat ->
              Sort.indegree (fold_left (Sort.relax net i) todo st) n = P n.
Proof.
  intros Hwf Hacyc. induction todo as [|a todo IH]; intros st P Hin Hind n Hn.
  { cbn. rewrite (Hind n Hn). cbn. lia. }
  cbn [fold_left]. apply IH; [intros b Hb; apply Hin; now right | | exact Hn].
  destruct (Hin a (or_introl eq_refl)) as [Hk Hinc].
  set (k := Sort.adj_link a) in *.
  destruct (ends_in_range net k Hwf Hk) as [_ Hdown].
  intros m Hm. specialize (Hind m Hm) as Hm'. cbn [Topo.tally] in Hm'. fold k in Hm'.
  destruct (Topo.flows net k) eqn:Hfl.
  - (* a link with flow *)
    pose proof (Hacyc k Hk Hfl) as Hrank.
    assert (Hrel : Sort.relax net i st a
                   = if negb (Nat.eqb (Topo.downstream net k) i)
                        && (0 <? Sort.indegree st (Topo.downstream net k))%nat
                     then
                       let st1 := Sort.set_indegree (Topo.downstream net k)
                                    (Sort.indegree st (Topo.downstream net k) - 1) st in
                       if Nat.eqb (Sort.indegree st1 (Topo.downstream net k)) 0
                       then Sort.push (Topo.downstream net k) st1 else st1
                     else st).
    { unfold Sort.relax, Topo.downstream. fold k. unfold Topo.flows in Hfl.
      destruct (Sort.FlowDir net k); [reflexivity | discriminate | reflexivity]. }
    rewrite Hrel. clear Hrel.
    destruct (Nat.eqb_spec (Topo.downstream net k) i) as [Hdi | Hdi]; cbn [negb andb].
    + (* flow into node i *)
      destruct (Nat.eqb_spec (Topo.upstream net k) i) as [Hui | Hui];
        [rewrite Hui, Hdi in Hrank; lia|].
      cbn [andb] in Hm'. lia.
    + (* flow out of node i *)
      pose proof (upstream_downstream net i k Hinc Hdi) as Hui.
      rewrite Hui, Nat.eqb_refl in Hm'. cbn [andb] in Hm'.
      specialize (Hind _ Hdown) as Hd. cbn [Topo.tally] in Hd. fold k in Hd.
      rewrite Hfl, Hui, !Nat.eqb_refl in Hd. cbn [andb] in Hd.
      destruct (Nat.ltb_spec 0 (Sort.indegree st (Topo.downstream net k))); [|lia].
      cbv zeta.
      assert (Hnew : forall st',
                 Sort.indegree st'
                 = upd (Sort.indegree st) (Topo.downstream net k)
                       (Sort.indegree st (Topo.downstream net k) - 1) ->
                 Sort.indegree st' m
                 = (P m + Topo.tally
                            (fun a => Topo.flows net (Sort.adj_link a)
                                      && Nat.eqb (Topo.upstream net (Sort.adj_link a)) i
                                      && Nat.eqb (Topo.downstream net (Sort.adj_link a)) m)
                            todo)%nat).
      { intros st' ->. destruct (Nat.eqb_spec (Topo.downstream net k) m) as [<- | Hne].
        - rewrite upd_same. lia.
        - rewrite upd_other by congruence. lia. }
      destruct (Nat.eqb _ 0); apply Hnew; reflexivity.
  - (* a link without flow *)
    cbn [andb] in Hm'.
    replace (Sort.relax net i st a) with st; [lia|].
    unfold Sort.relax. fold k. unfold Topo.flows in Hfl.
    destruct (Sort.FlowDir net k); [discriminate | reflexivity | discriminate].
Qed.

Lemma tally_exists {A : Type} (f : A -> bool) (l : list A) :
  Topo.tally f l <> O -> exists x, In x l /\ f x = true.
Proof.
  induction l as [|y l IH]; cbn; [congruence|].
  destruct (f y) eqn:E.
  - intros _. exists y. auto.
  - intros H. destruct (IH H) as (x & Hx & Hf). exists x. auto.
Qed.

(** The node on top of the stack: it is a node of the network that is
    not sorted yet. *)
Lemma stack_top (net : Sort.network) (st : Sort.sort_state) :
  Sort.sorting_inv net st -> (0 < Sort.stacksize st)%nat ->
  let i := Sort.stack st (Sort.stacksize st) in
  (1 <= i <= Sort.Nnodes net)%nat /\ Sort.indegree st i = O /\
  (i ∉ Sort.slice (Sort.SortedNodes st) (Sort.numsorted st)).
Proof.
  intros (Hnd & Hrange & Hzero & _) Hsz i.
  assert (Hstack : i ∈ Sort.slice (Sort.stack st) (Sort.stacksize st)).
  { apply elem_of_slice. exists (Sort.stacksize st). split; [lia | reflexivity]. }
  assert (Hpushed : i ∈ Sort.pushed st) by (apply elem_of_app; now left).
  pose proof (Hrange i Hpushed) as Hi.
  split; [exact Hi|]. split; [now apply Hzero|].
  unfold Sort.pushed in Hnd. apply NoDup_app in Hnd as (_ & Hdisj & _).
  now apply Hdisj.
Qed.

(** A pass keeps the in-degrees equal to the numbers of pending inflow
    links. *)
Lemma pop_and_relax_pending (net : Sort.network) (rank : nat -> nat) (st : Sort.sort_state) :
  Sort.well_formed net -> Topo.adjacency_ok net -> Topo.acyclic net rank ->
  Sort.sorting_inv net st -> (0 < Sort.stacksize st)%nat ->
  (forall n, (1 <= n <= Sort.Nnodes net)%nat ->
     Sort.indegree st n
     = Topo.pending net (Sort.slice (Sort.SortedNodes st) (Sort.numsorted st)) n) ->
  forall n, (1 <= n <= Sort.Nnodes net)%nat ->
    Sort.indegree (Sort.pop_and_relax net st) n
    = Topo.pending net
        (Sort.slice (Sort.SortedNodes (Sort.pop_and_relax net st))
                    (Sort.numsorted (Sort.pop_and_relax net st))) n.
Proof.
  intros Hwf Hadj Hacyc Hinv Hsz Hpend.
  destruct (stack_top net st Hinv Hsz) as (Hi & _ & Hnew). cbv zeta in Hi, Hnew.
  unfold Sort.pop_and_relax.
  set (i := Sort.stack st (Sort.stacksize st)) in *.
  set (st1 := {| Sort.indegree := _ |}).
  destruct (relax_fold_sorted net i (Sort.Adjlist net i) st1) as [-> ->].
  unfold st1 at 2 3. sort_fields. rewrite slice_push.
  set (sorted := Sort.slice (Sort.SortedNodes st) (Sort.numsorted st)) in *.
  apply (relax_fold_indegree net rank i Hwf Hacyc).
  - intros a Ha.
    assert (Hin : In (Sort.adj_link a) (map Sort.adj_link (Sort.Adjlist net i)))
      by now apply in_map.
    apply (Permutation_in _ (Hadj i Hi)) in Hin. apply filter_In in Hin as [Hseq Hinc].
    apply in_seq in Hseq. split; [lia | exact Hinc].
  - intros n Hn. unfold st1. sort_fields. rewrite (Hpend n Hn).
    rewrite <- (tally_map
                  (fun k => Topo.flows net k && Nat.eqb (Topo.upstream net k) i
                            && Nat.eqb (Topo.downstream net k) n) Sort.adj_link).
    rewrite (tally_perm _ _ _ (Hadj i Hi)), tally_filter.
    unfold Topo.pending. apply tally_add. intros k _.
    destruct (Nat.eqb_spec (Topo.upstream net k) i) as [Hu | Hu].
    + assert (Hinc : Topo.incident net i k = true)
        by (rewrite <- Hu; apply upstream_incident).
      rewrite Hinc.
      rewrite (bool_decide_eq_false_2 (Topo.upstream net k ∈ sorted)) by now rewrite Hu.
      rewrite (bool_decide_eq_true_2 (Topo.upstream net k ∈ sorted ++ [i]))
        by (rewrite Hu; apply elem_of_app; right; apply list_elem_of_singleton; reflexivity).
      destruct (Topo.flows net k), (Nat.eqb (Topo.downstream net k) n); reflexivity.
    + rewrite !andb_false_r. cbn [Nat.b2n]. rewrite Nat.add_0_r. do 3 f_equal.
      apply bool_decide_ext. rewrite elem_of_app, list_elem_of_singleton. tauto.
Qed.

(** A pass keeps the sorted nodes behind the nodes that feed them. *)
Lemma pop_and_relax_order (net : Sort.network) (st : Sort.sort_state) :
  Sort.sorting_inv net st -> (0 < Sort.stacksize st)%nat ->
  (forall n, (1 <= n <= Sort.Nnodes net)%nat ->
     Sort.indegree st n
     = Topo.pending net (Sort.slice (Sort.SortedNodes st) (Sort.numsorted st)) n) ->
  (forall k q, (1 <= k <= Sort.Nlinks net)%nat -> Topo.flows net k = true ->
     (1 <= q <= Sort.numsorted st)%nat -> Sort.SortedNodes st q = Topo.downstream net k ->
     exists p, (1 <= p < q)%nat /\ Sort.SortedNodes st p = Topo.upstream net k) ->
  forall k q, (1 <= k <= Sort.Nlinks net)%nat -> Topo.flows net k = true ->
    (1 <= q <= Sort.numsorted (Sort.pop_and_relax net st))%nat ->
    Sort.SortedNodes (Sort.pop_and_relax net st) q = Topo.downstream net k ->
    exists p, (1 <= p < q)%nat /\
              Sort.SortedNodes (Sort.pop_and_relax net st) p = Topo.upstream net k.
Proof.
  intros Hinv Hsz Hpend Hord k q Hk Hfl.
  destruct (stack_top net st Hinv Hsz) as (Hi & Hzero & _). cbv zeta in Hi, Hzero.
  unfold Sort.pop_and_relax.
  set (i := Sort.stack st (Sort.stacksize st)) in *.
  set (st1 := {| Sort.indegree := _ |}).
  destruct (relax_fold_sorted net i (Sort.Adjlist net i) st1) as [-> ->].
  unfold st1. sort_fields. intros Hq Hdown.
  destruct (Nat.eq_dec q (S (Sort.numsorted st))) as [-> | Hne].
  - (* the node that was sorted last *)
    rewrite upd_same in Hdown.
    rewrite (Hpend i Hi) in Hzero. unfold Topo.pending in Hzero.
    pose proof (tally_zero _ _ k Hzero ltac:(apply in_seq; lia)) as Hk0.
    cbv beta in Hk0. rewrite Hfl, <- Hdown, Nat.eqb_refl in Hk0. cbn [andb] in Hk0.
    apply negb_false_iff, bool_decide_eq_true_1, elem_of_slice in Hk0
      as (p & Hp & Hup).
    exists p. split; [lia|]. rewrite upd_other by lia. exact Hup.
  - rewrite upd_other in Hdown by exact Hne.
    destruct (Hord k q Hk Hfl ltac:(lia) Hdown) as (p & Hp & Hup).
    exists p. split; [exact Hp|]. rewrite upd_other by lia. exact Hup.
Qed.

(** Without a loop of flow the stack is not empty while a node is left
    to sort. *)
Lemma stack_progress (net : Sort.network) (rank : nat -> nat) (st : Sort.sort_state) :
  Sort.well_formed net -> Topo.acyclic net rank ->
  Sort.sorting_inv net st ->
  (forall n, (1 <= n <= Sort.Nnodes net)%nat ->
     Sort.indegree st n
     = Topo.pending net (Sort.slice (Sort.SortedNodes st) (Sort.numsorted st)) n) ->
  (Sort.numsorted st < Sort.Nnodes net)%nat ->
  (0 < Sort.stacksize st)%nat.
Proof.
  intros Hwf Hacyc (Hnd & Hrange & Hzero & _) Hpend Hlt.
  destruct (Nat.eq_dec (Sort.stacksize st) 0) as [Hempty | Hne]; [exfalso | lia].
  set (sorted := Sort.slice (Sort.SortedNodes st) (Sort.numsorted st)) in *.
  assert (Hpushed : Sort.pushed st = sorted).
  { unfold Sort.pushed. now rewrite Hempty. }
  rewrite Hpushed in *.
  assert (Hall : forall r n, rank n = r -> (1 <= n <= Sort.Nnodes net)%nat -> n ∈ sorted).
  { induction r as [r IH] using lt_wf_ind. intros n Hr Hn.
    destruct (decide (n ∈ sorted)) as [Hs | Hs]; [exact Hs | exfalso].
    assert (Hind : Sort.indegree st n <> O) by (intros H; now apply Hs, Hzero).
    rewrite (Hpend n Hn) in Hind. apply tally_exists in Hind as (k & Hk & Hf).
    apply in_seq in Hk.
    apply andb_true_iff in Hf as [Hf Hu]. apply andb_true_iff in Hf as [Hfl Hd].
    apply Nat.eqb_eq in Hd. apply negb_true_iff, bool_decide_eq_false_1 in Hu.
    apply Hu. destruct (ends_in_range net k Hwf ltac:(lia)) as [Hup _].
    apply (IH (rank (Topo.upstream net k))); [|reflexivity|exact Hup].
    pose proof (Hacyc k ltac:(lia) Hfl). subst n r. lia. }
  assert (Hincl : incl (seq 1 (Sort.Nnodes net)) sorted).
  { intros n Hn. apply in_seq in Hn. apply list_elem_of_In.
    apply (Hall (rank n) n eq_refl). lia. }
  pose proof (List.NoDup_incl_length (List.seq_NoDup (Sort.Nnodes net) 1) Hincl) as Hlen.
  unfold sorted in Hlen. rewrite length_seq, slice_length in Hlen. lia.
Qed.

(** On a network without loops of flow the main loop never has to free
    a node, and it sorts every node behind the nodes that feed it. *)
Lemma sort_loop_order (net : Sort.network) (rank : nat -> nat) (passes : nat) :
  Sort.well_formed net -> Topo.adjacency_ok net -> Topo.acyclic net rank ->
  forall st,
    Sort.sorting_inv net st ->
    (forall n, (1 <= n <= Sort.Nnodes net)%nat ->
       Sort.indegree st n
       = Topo.pending net (Sort.slice (Sort.SortedNodes st) (Sort.numsorted st)) n) ->
    (forall k q, (1 <= k <= Sort.Nlinks net)%nat -> Topo.flows net k = true ->
       (1 <= q <= Sort.numsorted st)%nat -> Sort.SortedNodes st q = Topo.downstream net k ->
       exists p, (1 <= p < q)%nat /\ Sort.SortedNodes st p = Topo.upstream net k) ->
    (Sort.numsorted st + passes = Sort.Nnodes net)%nat ->
    let st' := Sort.sort_loop net passes st in
    Sort.sorting_inv net st' /\ Sort.numsorted st' = Sort.Nnodes net /\
    (forall k q, (1 <= k <= Sort.Nlinks net)%nat -> Topo.flows net k = true ->
       (1 <= q <= Sort.numsorted st')%nat -> Sort.SortedNodes st' q = Topo.downstream net k ->
       exists p, (1 <= p < q)%nat /\ Sort.SortedNodes st' p = Topo.upstream net k).
Proof.
  intros Hwf Hadj Hacyc. induction passes as [|c IH]; intros st Hinv Hpend Hord Hnum.
  - cbn. split; [exact Hinv|]. split; [lia | exact Hord].
  - cbn [Sort.sort_loop].
    destruct (Nat.ltb_spec (Sort.numsorted st) (Sort.Nnodes net)) as [Hlt|]; [|lia].
    pose proof (stack_progress net rank st Hwf Hacyc Hinv Hpend Hlt) as Hsz.
    destruct (Nat.eqb_spec (Sort.stacksize st) 0) as [|_]; [lia|].
    destruct (pop_and_relax_inv net st Hinv Hsz) as [Hinv' Hnum'].
    apply IH.
    + exact Hinv'.
    + now apply (pop_and_relax_pending net rank).
    + now apply pop_and_relax_order.
    + lia.
Qed.

(** X28: on a network whose adjacency lists hold the links of each node
    and whose flows form no loop, [sortNodes] ends without error and
    puts every node behind all the nodes that send it water: for each
    link with flow the upstream node comes before the downstream node in
    [SortedNodes]. *)
Theorem sortNodes_upstream_first (net : Sort.network) (rank : nat -> nat)
    (sorted0 : nat -> nat) :
  Sort.well_formed net -> Topo.adjacency_ok net -> Topo.acyclic net rank ->
  let '(errcode, sorted) := Sort.sortNodes net true sorted0 in
  errcode = 0%Z /\ Topo.upstream_first net sorted.
Proof.
  intros Hwf Hadj Hacyc. unfold Sort.sortNodes. cbn [Sort.indegree Sort.stack].
  destruct (push_sources_inv net (Sort.count_inflow net (fun _ => O)) sorted0
              (count_inflow_out net Hwf)) as [Hinv0 Hns0].
  set (st0 := Sort.push_sources net _) in *.
  destruct (sort_loop_order net rank (Sort.Nnodes net) Hwf Hadj Hacyc st0 Hinv0)
    as (Hinv & Hns & Hord).
  - intros n Hn. rewrite Hns0. unfold st0. rewrite push_sources_indegree.
    cbn [Sort.indegree]. apply count_inflow_spec.
  - intros k q _ _ Hq. lia.
  - lia.
  - set (st := Sort.sort_loop net (Sort.Nnodes net) st0) in *.
    rewrite Hns, Nat.ltb_irrefl. split; [reflexivity|].
    intros k Hk Hfl.
    destruct (ends_in_range net k Hwf Hk) as [_ Hdown].
    (* every node of the network is among the sorted ones *)
    destruct Hinv as (Hnd & Hrange & _ & _).
    unfold Sort.pushed in Hnd, Hrange. rewrite Hns in Hnd, Hrange.
    apply NoDup_app in Hnd as (_ & _ & Hnd).
    assert (Hincl : incl (Sort.slice (Sort.SortedNodes st) (Sort.Nnodes net))
                         (seq 1 (Sort.Nnodes net))).
    { intros j Hj. apply in_seq. apply list_elem_of_In in Hj.
      assert (1 <= j <= Sort.Nnodes net)%nat by (apply Hrange, elem_of_app; now right).
      lia. }
    assert (Hin : In (Topo.downstream net k)
                     (Sort.slice (Sort.SortedNodes st) (Sort.Nnodes net))).
    { refine (NoDup_length_incl _ _ Hincl _ _).
      - now apply NoDup_ListNoDup.
      - rewrite slice_length, length_seq. lia.
      - apply in_seq. lia. }
    apply list_elem_of_In, elem_of_slice in Hin as (q & Hq & Hsq).
    destruct (Hord k q Hk Hfl ltac:(lia) Hsq) as (p & Hp & Hsp).
    exists p, q. repeat split; try lia; assumption.
Qed.

Example branched_well_formed : Sort.well_formed Topo.branched.
Proof.
  intros k Hk. cbn in Hk.
  destruct k as [|[|[|[|[|k]]]]]; try lia; cbn; lia.
Qed.

Example branched_adjacency : Topo.adjacency_ok Topo.branched.
Proof.
  intros i Hi. cbn in Hi.
  destruct i as [|[|[|[|[|i]]]]]; try lia;
    match goal with
    | |- ?l ≡ₚ ?r =>
      let l' := eval vm_compute in l in
      let r' := eval vm_compute in r in
      change (l' ≡ₚ r'); exact (Permutation_rev l')
    end.
Qed.

Example branched_acyclic : Topo.acyclic Topo.branched (fun n => n).
Proof.
  intros k Hk. cbn in Hk.
  destruct k as [|[|[|[|[|k]]]]]; try lia; cbn; intros; try discriminate; lia.
Qed.

Lemma sortNodes_upstream_first_witness :
  let '(errcode, sorted) := Sort.sortNodes Topo.branched true (fun _ => O) in
  errcode = 0%Z /\ Topo.upstream_first Topo.branched sorted.
Proof.
  apply (sortNodes_upstream_first Topo.branched (fun n => n) (fun _ => O)).
  - exact branched_well_formed.
  - exact branched_adjacency.
  - exact branched_acyclic.
Defined.

(** ** The adjacency lists *)

Lemma buildadjlists_links (net : Sort.network) (i : nat) :
  map Sort.adj_link (Topo.buildadjlists net i)
  = rev (flat_map (Topo.ends net i) (seq 1 (Sort.Nlinks net))).
Proof.
  unfold Topo.buildadjlists, for_to.
  replace (S (Sort.Nlinks net) - 1)%nat with (Sort.Nlinks net) by lia.
  enough (H : map Sort.adj_link
                (for_loop 1 (Sort.Nlinks net)
                   (fun k Adjlist =>
                      let i := Sort.n1 net k in
                      let j := Sort.n2 net k in
                      let Adjlist :=
                        upd Adjlist i
                            ({| Sort.adj_node := j; Sort.adj_link := k |} :: Adjlist i) in
                      upd Adjlist j ({| Sort.adj_node := i; Sort.adj_link := k |} :: Adjlist j))
                   (fun _ => []) i)
              = rev (flat_map (Topo.ends net i) (seq 1 (1 + Sort.Nlinks net - 1)))).
  { etransitivity; [exact H|].
    now replace (1 + Sort.Nlinks net - 1)%nat with (Sort.Nlinks net) by lia. }
  apply (for_loop_inv (fun k (A : nat -> list Sort.Sadjlist) =>
           map Sort.adj_link (A i) = rev (flat_map (Topo.ends net i) (seq 1 (k - 1))))).
  - reflexivity.
  - intros k A Hk IH. cbv zeta.
    replace (S k - 1)%nat with (S (k - 1)) by lia.
    rewrite seq_S, flat_map_app, rev_app_distr.
    replace (1 + (k - 1))%nat with k by lia. cbn [flat_map]. rewrite app_nil_r.
    unfold Topo.ends.
    destruct (Nat.eqb_spec (Sort.n2 net k) i) as [H2 | H2].
    + rewrite H2, upd_same.
      destruct (Nat.eqb_spec (Sort.n1 net k) i) as [H1 | H1].
      * rewrite H1, upd_same. cbn. now rewrite IH.
      * rewrite upd_other by congruence. cbn. now rewrite IH.
    + rewrite upd_other by congruence.
      destruct (Nat.eqb_spec (Sort.n1 net k) i) as [H1 | H1].
      * rewrite H1, upd_same. cbn. now rewrite IH.
      * rewrite upd_other by congruence. cbn. exact IH.
Qed.

(** The networks of the examples have the lists of [buildadjlists]. *)
Lemma of_links_adjlists (nnodes : nat) (links : list (nat * nat * FlowDirection)) :
  Sort.Adjlist (Sort.of_links nnodes links)
  = Topo.buildadjlists (Sort.of_links nnodes links).
Proof. reflexivity. Qed.

(** X30: the adjacency lists that [buildadjlists] makes for a network
    in which no link joins a node to itself are those [sortNodes] needs
    for its order: the list of a node holds the links that end at the
    node, each of them once (the last link first). *)
Theorem buildadjlists_adjacency (net : Sort.network) :
  (forall k, (1 <= k <= Sort.Nlinks net)%nat -> Sort.n1 net k <> Sort.n2 net k) ->
  Topo.adjacency_ok (Topo.with_adjlists net) /\
  forall i, map Sort.adj_link (Topo.buildadjlists net i)
            = rev (List.filter (Topo.incident net i) (seq 1 (Sort.Nlinks net))).
Proof.
  intros Hloop.
  assert (H : forall i, map Sort.adj_link (Topo.buildadjlists net i)
                        = rev (List.filter (Topo.incident net i) (seq 1 (Sort.Nlinks net)))).
  { intros i. rewrite buildadjlists_links. f_equal.
    assert (Hin : forall k, In k (seq 1 (Sort.Nlinks net)) ->
                            (1 <= k <= Sort.Nlinks net)%nat)
      by (intros k Hk; apply in_seq in Hk; lia).
    induction (seq 1 (Sort.Nlinks net)) as [|k l IH]; [reflexivity|].
    cbn [flat_map List.filter]. rewrite IH by (intros k' Hk'; apply Hin; now right).
    specialize (Hloop k (Hin k (or_introl eq_refl))).
    unfold Topo.ends, Topo.incident.
    destruct (Nat.eqb_spec (Sort.n1 net k) i), (Nat.eqb_spec (Sort.n2 net k) i);
      cbn; [congruence | reflexivity | reflexivity | reflexivity]. }
  split; [|exact H].
  intros i _. cbn [Topo.with_adjlists Sort.Adjlist Sort.Nlinks].
  rewrite H. unfold Topo.incident. cbn [Sort.n1 Sort.n2].
  symmetry. apply Permutation_rev.
Qed.

Lemma buildadjlists_adjacency_witness :
  Topo.adjacency_ok (Topo.with_adjlists Topo.branched) /\
  forall i, map Sort.adj_link (Topo.buildadjlists Topo.branched i)
            = rev (List.filter (Topo.incident Topo.branched i)
                               (seq 1 (Sort.Nlinks Topo.branched))).
Proof.
  apply (buildadjlists_adjacency Topo.branched).
  intros k Hk. cbn in Hk.
  destruct k as [|[|[|[|[|k]]]]]; try lia; cbn; lia.
Defined.
(** ** A completely mixed tank *)

Lemma MAX_0_nonneg (x : Q) : (0 <= Tank.MAX 0 x)%Q.
Proof.
  unfold Tank.MAX, Qge_bool. destruct (Qle_bool x 0) eqn:E; [apply Qle_refl|].
  destruct (Qlt_le_dec x 0) as [H | H]; [|exact H].
  apply Qlt_le_weak, Qle_bool_iff in H. congruence.
Qed.

Lemma MAX_0_id (x : Q) : (0 <= x)%Q -> (Tank.MAX 0 x == x)%Q.
Proof.
  intros H. unfold Tank.MAX, Qge_bool. destruct (Qle_bool x 0) eqn:E; [|reflexivity].
  apply Qle_bool_iff in E. now apply Qle_antisym.
Qed.

(** The loop over the species: a bulk species gets its blend, in the
    segment and in the tank, and nothing else changes. *)
Lemma mix1_loop_spec (Nspecies : nat) (Species : nat -> Sspecies) (v vin : Q) (massin : vec)
    (c0 tank0 : vec) (m : nat) :
  let r := for_to 1 Nspecies
             (fun m '(c, tank_c) =>
                if decide (sp_type (Species m) = BULK)
                then
                  let x := Tank.blend {| Pipe.seg_v := v; Pipe.seg_c := c |} vin massin m in
                  (upd c m x, upd tank_c m x)
                else (c, tank_c))
             (c0, tank0) in
  ((1 <= m <= Nspecies)%nat /\ sp_type (Species m) = BULK ->
   r.1 m = Tank.blend {| Pipe.seg_v := v; Pipe.seg_c := c0 |} vin massin m /\
   r.2 m = r.1 m) /\
  (~ ((1 <= m <= Nspecies)%nat /\ sp_type (Species m) = BULK) ->
   r.1 m = c0 m /\ r.2 m = tank0 m).
Proof.
  cbv zeta. unfold for_to.
  replace (S Nspecies - 1)%nat with Nspecies by lia.
  enough (H : let r := for_loop 1 Nspecies
                         (fun m '(c, tank_c) =>
                            if decide (sp_type (Species m) = BULK)
                            then
                              let x := Tank.blend {| Pipe.seg_v := v; Pipe.seg_c := c |}
                                                  vin massin m in
                              (upd c m x, upd tank_c m x)
                            else (c, tank_c))
                         (c0, tank0) in
              ((1 <= m < 1 + Nspecies)%nat /\ sp_type (Species m) = BULK ->
               r.1 m = Tank.blend {| Pipe.seg_v := v; Pipe.seg_c := c0 |} vin massin m /\
               r.2 m = r.1 m) /\
              (~ ((1 <= m < 1 + Nspecies)%nat /\ sp_type (Species m) = BULK) ->
               r.1 m = c0 m /\ r.2 m = tank0 m)).
  { cbv zeta in H. destruct H as [H1 H2]. split.
    - intros [Hm Hb]. apply H1. split; [lia | exact Hb].
    - intros Hn. apply H2. intros [Hm Hb]. apply Hn. split; [lia | exact Hb]. }
  cbv zeta.
  apply (for_loop_inv (fun i (r : vec * vec) =>
           ((1 <= m < i)%nat /\ sp_type (Species m) = BULK ->
            r.1 m = Tank.blend {| Pipe.seg_v := v; Pipe.seg_c := c0 |} vin massin m /\
            r.2 m = r.1 m) /\
           (~ ((1 <= m < i)%nat /\ sp_type (Species m) = BULK) ->
            r.1 m = c0 m /\ r.2 m = tank0 m))).
  - split; [intros [H _]; lia | auto].
  - intros i [c tank_c] Hi [IH1 IH2]. cbn [fst snd] in IH1, IH2.
    destruct (decide (sp_type (Species i) = BULK)) as [Hb | Hb]; cbn [fst snd].
    + destruct (Nat.eq_dec m i) as [-> | Hne].
      * split; [|intros H; exfalso; apply H; split; [lia | exact Hb]].
        intros _. rewrite !upd_same. split; [|reflexivity].
        destruct IH2 as [IH2 _]; [intros [H _]; lia|].
        unfold Tank.blend. cbn [Pipe.seg_v Pipe.seg_c]. now rewrite IH2.
      * rewrite !upd_other by exact Hne. split.
        -- intros [Hm Hbm]. apply IH1. split; [lia | exact Hbm].
        -- intros Hn. apply IH2. intros [Hm Hbm]. apply Hn. split; [lia | exact Hbm].
    + split.
      * intros [Hm Hbm]. apply IH1. split; [|exact Hbm].
        destruct (Nat.eq_dec m i) as [-> | ?]; [contradiction | lia].
      * intros Hn. apply IH2. intros [Hm Hbm]. apply Hn. split; [lia | exact Hbm].
Qed.

(** X29: [MSXtank_mix1] on a tank that has its segment never leaves a
    negative volume or a negative concentration of a bulk species; it
    leaves the wall species alone; and when the tank holds water after
    the inflow, what a bulk species has in the new volume is what the
    segment had plus the mass that came in, unless that is negative. *)
Theorem MSXtank_mix1_blend (Nspecies : nat) (Species : nat -> Sspecies)
    (MSXchem_equil : vec -> vec) (seg : Pipe.segment) (tank_c : vec) (vin : Q) (massin : vec)
    (vnet : Q) :
  exists seg' tank_c',
    Tank.MSXtank_mix1 Nspecies Species MSXchem_equil (Some seg) tank_c vin massin vnet
    = (Some seg', tank_c') /\
    (0 <= Pipe.seg_v seg')%Q /\
    ((0 <= Pipe.seg_v seg + vnet)%Q -> (Pipe.seg_v seg' == Pipe.seg_v seg + vnet)%Q) /\
    forall m,
      (sp_type (Species m) = WALL \/ ~ (1 <= m <= Nspecies)%nat ->
       Pipe.seg_c seg' m = Pipe.seg_c seg m) /\
      (sp_type (Species m) = BULK -> (1 <= m <= Nspecies)%nat ->
       (0 <= Pipe.seg_c seg' m)%Q /\
       (~ (0 < vin)%Q -> tank_c' m = Pipe.seg_c seg' m) /\
       ((0 < Pipe.seg_v seg + vin)%Q ->
        (0 <= Pipe.seg_c seg m * Pipe.seg_v seg * Pipe.LperFT3 + massin m)%Q ->
        (Pipe.seg_c seg' m * ((Pipe.seg_v seg + vin) * Pipe.LperFT3)
         == Pipe.seg_c seg m * Pipe.seg_v seg * Pipe.LperFT3 + massin m)%Q)).
Proof.
  unfold Tank.MSXtank_mix1.
  pose proof (fun m => mix1_loop_spec Nspecies Species (Pipe.seg_v seg) vin massin
                         (Pipe.seg_c seg) tank_c m) as Hloop. cbv zeta in Hloop.
  destruct (for_to 1 Nspecies _ _) as [c tank1]. cbn [fst snd] in Hloop.
  eexists _, _. split; [reflexivity|]. cbn [Pipe.seg_v Pipe.seg_c].
  split; [apply MAX_0_nonneg|]. split; [apply MAX_0_id|].
  intros m. destruct (Hloop m) as [Hbulk Hother]. split.
  - intros Hw. apply Hother. intros [Hm Hb].
    destruct Hw as [Hw | Hw]; [congruence | contradiction].
  - intros Hb Hm. destruct (Hbulk (conj Hm Hb)) as [Hc Ht]. rewrite Hc. split; [apply MAX_0_nonneg|]. split.
    + intros Hvin. destruct (Qgt_bool vin 0) eqn:E.
      * apply Qgt_bool_iff in E. contradiction.
      * now rewrite Ht, Hc.
    + intros Hv Hmass. unfold Tank.blend. cbn [Pipe.seg_v Pipe.seg_c].
      destruct (Qgt_bool (Pipe.seg_v seg + vin) 0) eqn:E.
      2: { apply Qgt_bool_iff in Hv. congruence. }
      assert (HL : (0 < Pipe.LperFT3)%Q) by reflexivity.
      assert (Hden : (0 < (Pipe.seg_v seg + vin) * Pipe.LperFT3)%Q).
      { apply Qmult_lt_0_compat; assumption. }
      rewrite MAX_0_id.
      * rewrite Qmult_comm. apply Qmult_div_r.
        intros H0. rewrite H0 in Hden. now apply Qlt_irrefl in Hden.
      * apply Qle_shift_div_l; [exact Hden|]. now rewrite Qmult_0_l.
Qed.
